(** * Neural Cortex: AI orchestration and knowledge-graph ingestion

    A shallow embedding of [lib/nvidia.ts] (completion gateway, structured
    extractors, toy embedding) and of [app/api/ingest/document/route.ts]
    (document enrichment and knowledge-graph merge), with the properties
    of the design document stated and proved over it.

    Conventions.
    - A JavaScript string is the list of its UTF-16 code units ([jsstring]).
    - JavaScript numbers that the code only adds, multiplies and compares
      are idealised: [Q] for the node strength, [R] for the embedding.
    - A [Promise] that rejects and a [throw] are both the [Throw] case of
      [Result]; [try]/[catch] is [try_catch].
    - The network is an oracle ([Net]) answering each attempt of a call. *)

From Stdlib Require Import List ZArith NArith QArith Reals Lra Lia Ascii String Bool.
From stdpp Require Import base list.
Import ListNotations.

Set Warnings "-register-all,-abstract-large-number".

(* ================================================================== *)
(** * Part I: the embedding of the program                            *)
(* ================================================================== *)

(** ** JavaScript strings *)

Definition jsstring := list N.

(** The string literal [s] of the source, as code units. *)
Definition js (s : string) : jsstring :=
  map N_of_ascii (list_ascii_of_string s).

Definition jsstring_eqb (a b : jsstring) : bool :=
  bool_decide (a = b).

(** [s.startsWith(p)] *)
Fixpoint startsWith (p s : jsstring) : bool :=
  match p, s with
  | [], _ => true
  | _ :: _, [] => false
  | a :: p', b :: s' => N.eqb a b && startsWith p' s'
  end.

(** [s.slice(0, n)] and [s.slice(n)] for a non-negative literal [n]. *)
Definition slice_to (n : nat) (s : jsstring) : jsstring := take n s.
Definition slice_from (n : nat) (s : jsstring) : jsstring := drop n s.

(** ECMAScript [WhiteSpace] and [LineTerminator] code units: what [\s]
    matches and what [trim] strips. *)
Definition is_js_space (c : N) : bool :=
  (N.eqb c 9 || N.eqb c 10 || N.eqb c 11 || N.eqb c 12 || N.eqb c 13
   || N.eqb c 32 || N.eqb c 160 || N.eqb c 5760
   || (N.leb 8192 c && N.leb c 8202)
   || N.eqb c 8232 || N.eqb c 8233 || N.eqb c 8239 || N.eqb c 8287
   || N.eqb c 12288 || N.eqb c 65279)%bool.

Fixpoint trimStart (s : jsstring) : jsstring :=
  match s with
  | c :: s' => if is_js_space c then trimStart s' else s
  | [] => []
  end.

Definition trim (s : jsstring) : jsstring :=
  rev (trimStart (rev (trimStart s))).

(** [s.split(sep)] for a one-unit separator: never empty, [""] gives [[""]]. *)
Fixpoint split_on (sep : N) (s : jsstring) : list jsstring :=
  match s with
  | [] => [[]]
  | c :: s' =>
      if N.eqb c sep then [] :: split_on sep s'
      else match split_on sep s' with
           | w :: ws => (c :: w) :: ws
           | [] => [[c]]
           end
  end.

(** [s.split(/\s+/)]: the pieces between maximal runs of white space.
    [cur] is the piece being read (reversed), [in_ws] tells that the
    previous unit was white space. *)
Fixpoint split_ws_from (s : jsstring) (cur : jsstring) (in_ws : bool)
  : list jsstring :=
  match s with
  | [] => [rev cur]
  | c :: s' =>
      if is_js_space c then
        if in_ws then split_ws_from s' [] true
        else rev cur :: split_ws_from s' [] true
      else split_ws_from s' (c :: cur) false
  end.

Definition split_ws (s : jsstring) : list jsstring :=
  split_ws_from s [] false.

(** [s.replace(/<pat>\n?/g, '')] for a literal, non-empty [pat]: every
    match (with one following line feed, if any) is deleted, scanning
    from the left; [skip] units of the current match stay to be deleted,
    [nl] tells that a line feed right here still belongs to the match. *)
Fixpoint delete_all_from (pat : jsstring) (s : jsstring) (skip : nat) (nl : bool)
  : jsstring :=
  match s with
  | [] => []
  | c :: s' =>
      match skip with
      | S k => delete_all_from pat s' k (Nat.eqb k 0)
      | O =>
          if nl && N.eqb c 10 then delete_all_from pat s' 0 false
          else if startsWith pat s
               then delete_all_from pat s' (length pat - 1) (Nat.eqb (length pat - 1) 0)
               else c :: delete_all_from pat s' 0 false
      end
  end.

Definition delete_all (pat : jsstring) (s : jsstring) : jsstring :=
  delete_all_from pat s 0 false.

(** Decimal digits of a natural number ([String(n)] for an integer). *)
Fixpoint digits_fuel (fuel : nat) (n : N) (acc : jsstring) : jsstring :=
  match fuel with
  | O => acc
  | S f =>
      let acc' := (48 + n mod 10)%N :: acc in
      if N.ltb n 10 then acc' else digits_fuel f (n / 10)%N acc'
  end.

Definition decimal (n : N) : jsstring :=
  digits_fuel (S (N.to_nat (N.log2 n))) n [].

(** ** Thrown values and results *)

(** What a [catch] clause can receive: an [Error] object (with its
    message) or any other value (by its [String(...)] rendering). *)
Inductive Thrown : Type :=
| ErrorObj (message : jsstring)
| NonError (rendering : jsstring).

Inductive Result (A : Type) : Type :=
| Ok (a : A)
| Throw (e : Thrown).
Arguments Ok {A} a.
Arguments Throw {A} e.

Definition bind {A B : Type} (r : Result A) (k : A -> Result B) : Result B :=
  match r with
  | Ok a => k a
  | Throw e => Throw e
  end.

Notation "'let*' x ':=' r 'in' k" := (bind r (fun x => k))
  (at level 10, x name, r at level 100, k at level 200).

Definition try_catch {A : Type} (body : Result A) (handler : Thrown -> Result A)
  : Result A :=
  match body with
  | Ok a => Ok a
  | Throw e => handler e
  end.

(** ** JSON values, [JSON.parse] and [JSON.stringify] *)

(** A number is kept as the decimal literal it was read from:
    [mantissa * 10 ^ exp10]. *)
Inductive JSON : Type :=
| JNull
| JBool (b : bool)
| JNum (mantissa exp10 : Z)
| JStr (s : jsstring)
| JArr (items : list JSON)
| JObj (props : list (jsstring * JSON)).

(** The literal [s] of the source with each apostrophe standing for a
    double quote. *)
Definition jsq (s : string) : jsstring :=
  map (fun c => if N.eqb c 39 then 34%N else c) (js s).

(** The binary64 number nearest to [m * 10 ^ e] is zero: the literal is
    zero, or at most 2 ^ -1075 in magnitude (the tie goes to zero). *)
Definition num_is_zero (m e : Z) : bool :=
  (Z.eqb m 0
   || (Z.ltb e 0 && Z.leb (Z.abs m * 2 ^ 1075) (10 ^ (- e))))%bool.

(** [ToBoolean] of a parsed value. *)
Definition truthy (v : JSON) : bool :=
  match v with
  | JNull => false
  | JBool b => b
  | JNum m e => negb (num_is_zero m e)
  | JStr s => negb (bool_decide (s = []))
  | JArr _ | JObj _ => true
  end.

(** [ToBoolean] of a value that may be [undefined] ([None]). *)
Definition truthy_opt (v : option JSON) : bool :=
  match v with
  | Some v => truthy v
  | None => false
  end.

Definition is_digit (c : N) : bool := (N.leb 48 c && N.leb c 57)%bool.

Fixpoint digits_value (s : jsstring) (acc : N) : N :=
  match s with
  | c :: s' => digits_value s' (acc * 10 + (c - 48))%N
  | [] => acc
  end.

(** An array index: a canonical numeric string below 2 ^ 32 - 1.  Such
    keys come first, in ascending order, among the own properties. *)
Definition array_index (k : jsstring) : option N :=
  match k with
  | [] => None
  | c :: rest =>
      if (forallb is_digit k && (negb (N.eqb c 48) || bool_decide (rest = []))
          && Nat.leb (length k) 10 && N.ltb (digits_value k 0) 4294967295)%bool
      then Some (digits_value k 0)
      else None
  end.

Fixpoint obj_replace (k : jsstring) (v : JSON) (props : list (jsstring * JSON))
  : option (list (jsstring * JSON)) :=
  match props with
  | [] => None
  | (k', v') :: rest =>
      if jsstring_eqb k k' then Some ((k, v) :: rest)
      else match obj_replace k v rest with
           | Some rest' => Some ((k', v') :: rest')
           | None => None
           end
  end.

Fixpoint obj_insert_index (i : N) (k : jsstring) (v : JSON)
  (props : list (jsstring * JSON)) : list (jsstring * JSON) :=
  match props with
  | [] => [(k, v)]
  | (k', v') :: rest =>
      match array_index k' with
      | Some j => if N.ltb j i then (k', v') :: obj_insert_index i k v rest
                  else (k, v) :: props
      | None => (k, v) :: props
      end
  end.

(** [CreateDataProperty] on the object being built: a repeated key keeps
    its place and takes the new value; a new key goes where the own
    property order puts it. *)
Definition obj_define (k : jsstring) (v : JSON) (props : list (jsstring * JSON))
  : list (jsstring * JSON) :=
  match obj_replace k v props with
  | Some props' => props'
  | None =>
      match array_index k with
      | Some i => obj_insert_index i k v props
      | None => props ++ [(k, v)]
      end
  end.

Definition is_json_ws (c : N) : bool :=
  (N.eqb c 32 || N.eqb c 9 || N.eqb c 10 || N.eqb c 13)%bool.

Fixpoint skip_ws (s : jsstring) : jsstring :=
  match s with
  | c :: s' => if is_json_ws c then skip_ws s' else s
  | [] => []
  end.

(** Reads a run of digits: the value accumulated, how many, the rest. *)
Fixpoint read_digits (s : jsstring) (acc : Z) (n : nat) : Z * nat * jsstring :=
  match s with
  | c :: s' =>
      if is_digit c then read_digits s' (acc * 10 + Z.of_N (c - 48))%Z (S n)
      else (acc, n, s)
  | [] => (acc, n, [])
  end.

Definition parse_int_part (s : jsstring) : option (Z * jsstring) :=
  match s with
  | c :: s' =>
      if N.eqb c 48 then Some (0%Z, s')
      else if is_digit c then
             let '(v, _, rest) := read_digits s 0 0 in Some (v, rest)
           else None
  | [] => None
  end.

Definition parse_fraction (m : Z) (s : jsstring) : option (Z * Z * jsstring) :=
  match s with
  | c :: s' =>
      if N.eqb c 46 then
        let '(v, n, rest) := read_digits s' m 0 in
        match n with
        | O => None
        | _ => Some (v, (- Z.of_nat n)%Z, rest)
        end
      else Some (m, 0%Z, s)
  | [] => Some (m, 0%Z, [])
  end.

Definition parse_exponent (s : jsstring) : option (Z * jsstring) :=
  match s with
  | c :: s' =>
      if (N.eqb c 101 || N.eqb c 69)%bool then
        let '(neg, s'') :=
          match s' with
          | d :: t => if N.eqb d 45 then (true, t)
                      else if N.eqb d 43 then (false, t) else (false, s')
          | [] => (false, s')
          end in
        let '(v, n, rest) := read_digits s'' 0 0 in
        match n with
        | O => None
        | _ => Some (if neg : bool then (- v)%Z else v, rest)
        end
      else Some (0%Z, s)
  | [] => Some (0%Z, [])
  end.

Definition parse_number (s : jsstring) : option (JSON * jsstring) :=
  let '(neg, s1) :=
    match s with
    | c :: s' => if N.eqb c 45 then (true, s') else (false, s)
    | [] => (false, s)
    end in
  match parse_int_part s1 with
  | None => None
  | Some (i, s2) =>
      match parse_fraction i s2 with
      | None => None
      | Some (m, e1, s3) =>
          match parse_exponent s3 with
          | None => None
          | Some (e2, s4) =>
              Some (JNum (if neg : bool then (- m)%Z else m) (e1 + e2)%Z, s4)
          end
      end
  end.

Definition hex_value (c : N) : option N :=
  if is_digit c then Some (c - 48)%N
  else if (N.leb 97 c && N.leb c 102)%bool then Some (c - 87)%N
  else if (N.leb 65 c && N.leb c 70)%bool then Some (c - 55)%N
  else None.

Definition simple_escape (c : N) : option N :=
  if N.eqb c 34 then Some 34%N
  else if N.eqb c 92 then Some 92%N
  else if N.eqb c 47 then Some 47%N
  else if N.eqb c 98 then Some 8%N
  else if N.eqb c 102 then Some 12%N
  else if N.eqb c 110 then Some 10%N
  else if N.eqb c 114 then Some 13%N
  else if N.eqb c 116 then Some 9%N
  else None.

(** The body of a string literal, after its opening quote; [acc] holds
    the units read so far, reversed. *)
Fixpoint parse_string_body (s : jsstring) (acc : jsstring)
  : option (jsstring * jsstring) :=
  match s with
  | [] => None
  | c :: s' =>
      if N.eqb c 34 then Some (rev acc, s')
      else if N.ltb c 32 then None
      else if N.eqb c 92 then
        match s' with
        | [] => None
        | e :: s'' =>
            if N.eqb e 117 then
              match s'' with
              | h1 :: h2 :: h3 :: h4 :: rest =>
                  match hex_value h1, hex_value h2, hex_value h3, hex_value h4 with
                  | Some a, Some b, Some c', Some d =>
                      parse_string_body rest
                        ((a * 4096 + b * 256 + c' * 16 + d)%N :: acc)
                  | _, _, _, _ => None
                  end
              | _ => None
              end
            else match simple_escape e with
                 | Some u => parse_string_body s'' (u :: acc)
                 | None => None
                 end
        end
      else parse_string_body s' (c :: acc)
  end.

(** Recursive descent; [fuel] bounds the nesting of calls. *)
Fixpoint parse_value (fuel : nat) (s : jsstring) : option (JSON * jsstring) :=
  match fuel with
  | O => None
  | S f =>
      match skip_ws s with
      | [] => None
      | c :: s' =>
          if N.eqb c 34 then
            match parse_string_body s' [] with
            | Some (str, rest) => Some (JStr str, rest)
            | None => None
            end
          else if N.eqb c 91 then
            match skip_ws s' with
            | d :: rest => if N.eqb d 93 then Some (JArr [], rest)
                           else parse_elements f s' []
            | [] => None
            end
          else if N.eqb c 123 then
            match skip_ws s' with
            | d :: rest => if N.eqb d 125 then Some (JObj [], rest)
                           else parse_members f s' []
            | [] => None
            end
          else if startsWith (js "true") (c :: s')
               then Some (JBool true, drop 4 (c :: s'))
          else if startsWith (js "false") (c :: s')
               then Some (JBool false, drop 5 (c :: s'))
          else if startsWith (js "null") (c :: s')
               then Some (JNull, drop 4 (c :: s'))
          else parse_number (c :: s')
      end
  end
with parse_elements (fuel : nat) (s : jsstring) (acc : list JSON)
  : option (JSON * jsstring) :=
  match fuel with
  | O => None
  | S f =>
      match parse_value f s with
      | None => None
      | Some (v, rest) =>
          match skip_ws rest with
          | c :: rest' =>
              if N.eqb c 44 then parse_elements f rest' (v :: acc)
              else if N.eqb c 93 then Some (JArr (rev (v :: acc)), rest')
              else None
          | [] => None
          end
      end
  end
with parse_members (fuel : nat) (s : jsstring) (acc : list (jsstring * JSON))
  : option (JSON * jsstring) :=
  match fuel with
  | O => None
  | S f =>
      match skip_ws s with
      | q :: s1 =>
          if N.eqb q 34 then
            match parse_string_body s1 [] with
            | None => None
            | Some (k, s2) =>
                match skip_ws s2 with
                | colon :: s3 =>
                    if N.eqb colon 58 then
                      match parse_value f s3 with
                      | None => None
                      | Some (v, rest) =>
                          match skip_ws rest with
                          | c :: rest' =>
                              if N.eqb c 44
                              then parse_members f rest' (obj_define k v acc)
                              else if N.eqb c 125
                              then Some (JObj (obj_define k v acc), rest')
                              else None
                          | [] => None
                          end
                      end
                    else None
                | [] => None
                end
            end
          else None
      | [] => None
      end
  end.

(** [JSON.parse(text)]: [None] stands for the [SyntaxError] it throws.
    Two levels of calls per unit read are the most the descent needs. *)
Definition JSON_parse (text : jsstring) : option JSON :=
  match parse_value (2 * length text + 2) text with
  | Some (v, rest) =>
      match skip_ws rest with
      | [] => Some v
      | _ :: _ => None
      end
  | None => None
  end.

Definition hex_digit (n : N) : N :=
  if N.ltb n 10 then (48 + n)%N else (87 + n)%N.

Definition unicode_escape (c : N) : jsstring :=
  [92; 117; hex_digit ((c / 4096) mod 16); hex_digit ((c / 256) mod 16);
   hex_digit ((c / 16) mod 16); hex_digit (c mod 16)]%N.

Definition is_high_surrogate (c : N) : bool := (N.leb 55296 c && N.leb c 56319)%bool.
Definition is_low_surrogate (c : N) : bool := (N.leb 56320 c && N.leb c 57343)%bool.

(** The inside of [QuoteJSONString]. *)
Fixpoint quote_body (s : jsstring) : jsstring :=
  match s with
  | [] => []
  | c :: s' =>
      if N.eqb c 8 then [92; 98]%N ++ quote_body s'
      else if N.eqb c 9 then [92; 116]%N ++ quote_body s'
      else if N.eqb c 10 then [92; 110]%N ++ quote_body s'
      else if N.eqb c 12 then [92; 102]%N ++ quote_body s'
      else if N.eqb c 13 then [92; 114]%N ++ quote_body s'
      else if N.eqb c 34 then [92; 34]%N ++ quote_body s'
      else if N.eqb c 92 then [92; 92]%N ++ quote_body s'
      else if N.ltb c 32 then unicode_escape c ++ quote_body s'
      else if is_high_surrogate c then
        match s' with
        | d :: s'' =>
            if is_low_surrogate d then c :: d :: quote_body s''
            else unicode_escape c ++ quote_body s'
        | [] => unicode_escape c
        end
      else if is_low_surrogate c then unicode_escape c ++ quote_body s'
      else c :: quote_body s'
  end.

Definition quote (s : jsstring) : jsstring := [34%N] ++ quote_body s ++ [34%N].

Fixpoint join (sep : jsstring) (parts : list jsstring) : jsstring :=
  match parts with
  | [] => []
  | [p] => p
  | p :: rest => p ++ sep ++ join sep rest
  end.

Section Stringify.

(** [Number::toString] of the binary64 value of a literal (shortest
    digits that read back): outside the program, a parameter. *)
Variable Number_toString : Z -> Z -> jsstring.

(** [JSON.stringify(v)] for a value made of what [JSON.parse] returns. *)
Fixpoint JSON_stringify (v : JSON) : jsstring :=
  match v with
  | JNull => js "null"
  | JBool true => js "true"
  | JBool false => js "false"
  | JNum m e => Number_toString m e
  | JStr s => quote s
  | JArr items => js "[" ++ join (js ",") (map JSON_stringify items) ++ js "]"
  | JObj props =>
      js "{"
      ++ join (js ",")
           (map (fun p => quote (fst p) ++ js ":" ++ JSON_stringify (snd p)) props)
      ++ js "}"
  end.

End Stringify.

(** ** Property access on parsed values *)

Definition lookup_prop (k : jsstring) (props : list (jsstring * JSON)) : option JSON :=
  match find (fun p => jsstring_eqb (fst p) k) props with
  | Some p => Some (snd p)
  | None => None
  end.

(** [v.k] for a value [v] that is neither [null] nor [undefined] and a
    key that is no array index and none of [length], [constructor] and
    the like: only an object can have it. [None] is [undefined]. *)
Definition get_named (k : jsstring) (v : JSON) : option JSON :=
  match v with
  | JObj props => lookup_prop k props
  | _ => None
  end.

(** [v[0]], same proviso: the first item of an array, the property
    ["0"] of an object, the first unit of a string. *)
Definition get_index0 (v : JSON) : option JSON :=
  match v with
  | JArr items => head items
  | JObj props => lookup_prop (js "0") props
  | JStr (c :: _) => Some (JStr [c])
  | _ => None
  end.

(** One link [?.] of an optional chain: [undefined] when the base is
    [undefined] or [null]. *)
Definition opt_chain (base : option JSON) (access : JSON -> option JSON)
  : option JSON :=
  match base with
  | None | Some JNull => None
  | Some v => access v
  end.

Definition TypeError_null : Thrown :=
  ErrorObj (js "Cannot read properties of null").

(** [v.k] for a parsed [v]: reading a property of [null] throws. *)
Definition member (k : jsstring) (v : JSON) : Result (option JSON) :=
  match v with
  | JNull => Throw TypeError_null
  | _ => Ok (get_named k v)
  end.

(** ** The completion gateway ([nvidiaChat], [nvidiaChatStream]) *)

Inductive Role : Type := system | user | assistant.

Module ChatMessage.
Record t : Type := { role : Role; content : jsstring }.
End ChatMessage.

Module ChatOptions.
Record t : Type := {
  messages : list ChatMessage.t;
  maxTokens : option N;
  temperature : option Q;
  stream : option bool;
  model : option jsstring
}.
End ChatOptions.

(** The JSON body of the POST to the completion endpoint. *)
Module RequestBody.
Record t : Type := {
  model : jsstring;
  messages : list ChatMessage.t;
  max_tokens : N;
  temperature : Q;
  top_p : Q;
  stream : bool
}.
End RequestBody.

Definition MODELS : list jsstring :=
  [ js "meta/llama-3.3-70b-instruct";
    js "meta/llama-3.1-70b-instruct";
    js "mistralai/mistral-large-2-instruct" ].

(** Reading a response body: its text, or the error the read throws. *)
Inductive BodyRead : Type :=
| BodyText (text : jsstring)
| BodyFailed (e : Thrown).

Record Response : Type := { status : N; body : BodyRead }.

(** [response.ok] *)
Definition ok (r : Response) : bool :=
  (N.leb 200 (status r) && N.leb (status r) 299)%bool.

(** What [fetchWithTimeout] settles to: a response, or a rejection (the
    abort after [REQUEST_TIMEOUT], or a transport error). *)
Inductive FetchOutcome : Type :=
| Responded (r : Response)
| Rejected (e : Thrown).

(** The network seen by one call of [nvidiaChat]: the outcome of its
    [i]-th request, given the body sent. *)
Definition Net : Type := nat -> RequestBody.t -> FetchOutcome.

Definition fetchWithTimeout (net : Net) (i : nat) (body : RequestBody.t)
  : Result Response :=
  match net i body with
  | Responded r => Ok r
  | Rejected e => Throw e
  end.

(** [await response.text()] *)
Definition response_text (r : Response) : Result jsstring :=
  match body r with
  | BodyText t => Ok t
  | BodyFailed e => Throw e
  end.

Definition SyntaxError : Thrown := ErrorObj (js "Unexpected token in JSON").

(** [await response.json()] *)
Definition response_json (r : Response) : Result JSON :=
  let* t := response_text r in
  match JSON_parse t with
  | Some v => Ok v
  | None => Throw SyntaxError
  end.

(** [err instanceof Error ? err : new Error(String(err))] *)
Definition as_Error (err : Thrown) : Thrown :=
  match err with
  | ErrorObj m => ErrorObj m
  | NonError rendering => ErrorObj rendering
  end.

(** How one turn of the loop over the candidates ends. *)
Inductive Turn : Type :=
| Return (content : JSON)
| Continue (lastError : Thrown).

(** [data.choices?.[0]?.message?.content] *)
Definition message_content (data : JSON) : Result (option JSON) :=
  let* choices := member (js "choices") data in
  Ok (opt_chain (opt_chain (opt_chain choices get_index0)
                   (get_named (js "message")))
        (get_named (js "content"))).

(** [parsed.choices?.[0]?.delta?.content] *)
Definition delta_content (parsed : JSON) : Result (option JSON) :=
  let* choices := member (js "choices") parsed in
  Ok (opt_chain (opt_chain (opt_chain choices get_index0)
                   (get_named (js "delta")))
        (get_named (js "content"))).

Section Gateway.

(** [process.env.NVIDIA_API_KEY] *)
Variable NVIDIA_API_KEY : option jsstring.

(** [!NVIDIA_API_KEY] is false. *)
Definition key_configured : bool :=
  match NVIDIA_API_KEY with
  | Some (_ :: _) => true
  | _ => false
  end.

Definition request_body (options : ChatOptions.t) (currentModel : jsstring)
  (streaming : bool) : RequestBody.t :=
  {| RequestBody.model := currentModel;
     RequestBody.messages := ChatOptions.messages options;
     RequestBody.max_tokens := default 4096%N (ChatOptions.maxTokens options);
     RequestBody.temperature := default (7 # 10) (ChatOptions.temperature options);
     RequestBody.top_p := 1;
     RequestBody.stream := streaming |}.

(** The [try] block of the loop body, for the [i]-th candidate (the
    two [console.error] calls are left out). *)
Definition try_block (net : Net) (options : ChatOptions.t) (i : nat)
  (currentModel : jsstring) : Result Turn :=
  let* response := fetchWithTimeout net i (request_body options currentModel false) in
  if negb (ok response) then
    let* error := response_text response in
    Ok (Continue (ErrorObj (js "NVIDIA API error: " ++ decimal (status response))))
  else
    let* data := response_json response in
    let* content := message_content data in
    match content with
    | Some c => if truthy c then Ok (Return c)
                else Ok (Continue (ErrorObj (js "Empty response from AI")))
    | None => Ok (Continue (ErrorObj (js "Empty response from AI")))
    end.

(** The loop body with its [catch]. *)
Definition try_model (net : Net) (options : ChatOptions.t) (i : nat)
  (currentModel : jsstring) : Turn :=
  match try_block net options i currentModel with
  | Ok turn => turn
  | Throw err => Continue (as_Error err)
  end.

(** [for (const currentModel of modelsToTry)], from the [i]-th candidate
    on, and the final [throw]. *)
Fixpoint try_models (net : Net) (options : ChatOptions.t) (i : nat)
  (modelsToTry : list jsstring) (lastError : option Thrown) : Result JSON :=
  match modelsToTry with
  | [] => Throw (default (ErrorObj (js "All AI models failed")) lastError)
  | currentModel :: rest =>
      match try_model net options i currentModel with
      | Return content => Ok content
      | Continue e => try_models net options (S i) rest (Some e)
      end
  end.

(** [model ? [model, ...MODELS] : MODELS] *)
Definition modelsToTry (options : ChatOptions.t) : list jsstring :=
  match ChatOptions.model options with
  | Some (c :: m) => (c :: m) :: MODELS
  | _ => MODELS
  end.

Definition not_configured : Thrown :=
  ErrorObj (js "NVIDIA_API_KEY is not configured").

Definition nvidiaChat (net : Net) (options : ChatOptions.t) : Result JSON :=
  if negb key_configured then Throw not_configured
  else try_models net options 0 (modelsToTry options) None.

End Gateway.

(** *** Streaming *)

(** One [reader.read()] of the upstream body, already decoded. *)
Inductive ReadResult : Type :=
| Chunk (text : jsstring)
| ReadFailed (e : Thrown).

(** The [ReadableStream] handed to the caller: the reads the upstream
    body still has to give (after them [read()] reports [done]), what
    the controller has enqueued so far (as text, before
    [encoder.encode]), and how it ended. *)
Record StreamState : Type := {
  upstream : list ReadResult;
  enqueued : list jsstring;
  closed : bool;
  errored : option Thrown
}.

Definition DONE_event : jsstring := js "data: [DONE]" ++ [10; 10]%N.

(** The stream at run time.  [pull] is called by the platform, not by
    the program; when, the Streams standard lays down.  Besides what
    [pull] has done ([source]) the state holds the slots of the default
    controller ([[queue]], [[started]], [[pulling]], [[pullAgain]];
    [[closeRequested]] is [closed source]), whether the call of [pull]
    in flight has run its body ([settled]: its promise is settled, the
    reaction to it has not run yet), and the consumer: whether a read of
    its is waiting, the chunks its reads have returned, whether a read
    has returned [done] or has been rejected. *)
Module ReadableStream.
Record t : Type := {
  source : StreamState;
  queue : list jsstring;
  started : bool;
  pulling : bool;
  pullAgain : bool;
  settled : bool;
  pending : bool;
  received : list jsstring;
  seen_done : bool;
  seen_error : option Thrown
}.
End ReadableStream.

(** What can happen to the stream: the start promise is fulfilled; the
    consumer calls [read()]; the upstream read on which the call of
    [pull] in flight waits settles and the body of [pull] runs to its
    end; the promise [pull] returned is reacted to. *)
Inductive StreamStep : Type := StartFulfilled | ConsumerRead | PullResumed | PullFulfilled.

Section Streaming.

Variable Number_toString : Z -> Z -> jsstring.

(** [`data: ${JSON.stringify({ content })}\n\n`] *)
Definition content_event (content : JSON) : jsstring :=
  js "data: "
  ++ JSON_stringify Number_toString (JObj [(js "content", content)])
  ++ [10; 10]%N.

(** The inner [try] of the loop over the lines: what one payload that
    is not [[DONE]] makes the controller enqueue. *)
Definition payload_events (data : jsstring) : list jsstring :=
  match JSON_parse data with
  | None => []
  | Some parsed =>
      match delta_content parsed with
      | Ok (Some content) => if truthy content then [content_event content] else []
      | Ok None => []
      | Throw _ => []
      end
  end.

(** [for (const line of lines)]: the events enqueued, and whether the
    loop closed the stream (and returned). *)
Fixpoint lines_loop (lines : list jsstring) : list jsstring * bool :=
  match lines with
  | [] => ([], false)
  | line :: rest =>
      if startsWith (js "data: ") line then
        let data := trim (slice_from 6 line) in
        if jsstring_eqb data (js "[DONE]") then ([DONE_event], true)
        else let '(events, done) := lines_loop rest in
             (payload_events data ++ events, done)
      else lines_loop rest
  end.

(** [pull(controller)] *)
Definition pull (st : StreamState) : StreamState :=
  match upstream st with
  | [] =>
      {| upstream := [];
         enqueued := enqueued st ++ [DONE_event];
         closed := true;
         errored := errored st |}
  | ReadFailed err :: rest =>
      {| upstream := rest;
         enqueued := enqueued st;
         closed := closed st;
         errored := Some err |}
  | Chunk text :: rest =>
      let '(events, done) := lines_loop (split_on 10 text) in
      {| upstream := rest;
         enqueued := enqueued st ++ events;
         closed := done;
         errored := errored st |}
  end.

(** The stream after [pull] has been called up to [fuel] times.  How
    often [pull] is called is for the platform to decide (see the stream
    at run time, below); it never calls [pull] on a stream that is
    closed or errored.  Every state the stream can be in is [pulls n]
    of the stream [nvidiaChatStream] returned, for some [n]
    ([source_pulls]); that the platform goes on to a given [n] is
    another matter, and no property below rests on it. *)
Fixpoint pulls (fuel : nat) (st : StreamState) : StreamState :=
  match fuel with
  | O => st
  | S f =>
      if (closed st || bool_decide (errored st <> None))%bool then st
      else pulls f (pull st)
  end.

(** The stream [nvidiaChatStream] returns for an upstream body. *)
Definition open_stream (reads : list ReadResult) : StreamState :=
  {| upstream := reads; enqueued := []; closed := false; errored := None |}.

(** *** The stream at run time

    The algorithms of the Streams standard for the default controller
    of a [ReadableStream] made with [new ReadableStream({ pull, cancel })]:
    no [start], the default strategy (high-water mark 1, every chunk of
    size 1).  The consumer reads through a default reader and awaits
    each read before the next, as [for await], a loop around
    [await reader.read()] and a pipe do; it stops at [done] or at an
    error and never cancels. *)

(** [new ReadableStream({ pull, cancel })] *)
Definition new_stream (st : StreamState) : ReadableStream.t :=
  {| ReadableStream.source := st;
     ReadableStream.queue := [];
     ReadableStream.started := false;
     ReadableStream.pulling := false;
     ReadableStream.pullAgain := false;
     ReadableStream.settled := false;
     ReadableStream.pending := false;
     ReadableStream.received := [];
     ReadableStream.seen_done := false;
     ReadableStream.seen_error := None |}.

(** [ReadableStreamDefaultControllerCanCloseOrEnqueue]: [close] has not
    been called and the stream is readable (not errored; it is closed
    only after [close]). *)
Definition can_close_or_enqueue (s : ReadableStream.t) : bool :=
  (negb (closed (ReadableStream.source s))
   && negb (bool_decide (errored (ReadableStream.source s) <> None)))%bool.

(** [ReadableStreamDefaultControllerShouldCallPull]: a read request is
    waiting, or the desired size, 1 less the number of chunks in the
    queue, is positive. *)
Definition should_call_pull (s : ReadableStream.t) : bool :=
  (can_close_or_enqueue s
   && ReadableStream.started s
   && (ReadableStream.pending s
       || Nat.ltb (length (ReadableStream.queue s)) 1))%bool.

(** [ReadableStreamDefaultControllerCallPullIfNeeded]: during a call of
    [pull] it only notes [[pullAgain]]; otherwise it calls [pull], whose
    body runs up to [await reader.read()]. *)
Definition call_pull_if_needed (s : ReadableStream.t) : ReadableStream.t :=
  if should_call_pull s then
    if ReadableStream.pulling s then
      {| ReadableStream.source := ReadableStream.source s;
         ReadableStream.queue := ReadableStream.queue s;
         ReadableStream.started := ReadableStream.started s;
         ReadableStream.pulling := true;
         ReadableStream.pullAgain := true;
         ReadableStream.settled := ReadableStream.settled s;
         ReadableStream.pending := ReadableStream.pending s;
         ReadableStream.received := ReadableStream.received s;
         ReadableStream.seen_done := ReadableStream.seen_done s;
         ReadableStream.seen_error := ReadableStream.seen_error s |}
    else
      {| ReadableStream.source := ReadableStream.source s;
         ReadableStream.queue := ReadableStream.queue s;
         ReadableStream.started := ReadableStream.started s;
         ReadableStream.pulling := true;
         ReadableStream.pullAgain := ReadableStream.pullAgain s;
         ReadableStream.settled := false;
         ReadableStream.pending := ReadableStream.pending s;
         ReadableStream.received := ReadableStream.received s;
         ReadableStream.seen_done := ReadableStream.seen_done s;
         ReadableStream.seen_error := ReadableStream.seen_error s |}
  else s.

(** [controller.enqueue(chunk)]: the chunk fulfils the waiting read
    request, or joins the queue; then [CallPullIfNeeded].  (On a stream
    that cannot enqueue the method throws; [pull] never runs on one, see
    [pull_runs_on_open_stream].) *)
Definition controller_enqueue (chunk : jsstring) (s : ReadableStream.t)
  : ReadableStream.t :=
  if negb (can_close_or_enqueue s) then s
  else
    let src := ReadableStream.source s in
    let src' := {| upstream := upstream src;
                   enqueued := enqueued src ++ [chunk];
                   closed := closed src;
                   errored := errored src |} in
    call_pull_if_needed
      (if ReadableStream.pending s then
         {| ReadableStream.source := src';
            ReadableStream.queue := ReadableStream.queue s;
            ReadableStream.started := ReadableStream.started s;
            ReadableStream.pulling := ReadableStream.pulling s;
            ReadableStream.pullAgain := ReadableStream.pullAgain s;
            ReadableStream.settled := ReadableStream.settled s;
            ReadableStream.pending := false;
            ReadableStream.received := ReadableStream.received s ++ [chunk];
            ReadableStream.seen_done := ReadableStream.seen_done s;
            ReadableStream.seen_error := ReadableStream.seen_error s |}
       else
         {| ReadableStream.source := src';
            ReadableStream.queue := ReadableStream.queue s ++ [chunk];
            ReadableStream.started := ReadableStream.started s;
            ReadableStream.pulling := ReadableStream.pulling s;
            ReadableStream.pullAgain := ReadableStream.pullAgain s;
            ReadableStream.settled := ReadableStream.settled s;
            ReadableStream.pending := ReadableStream.pending s;
            ReadableStream.received := ReadableStream.received s;
            ReadableStream.seen_done := ReadableStream.seen_done s;
            ReadableStream.seen_error := ReadableStream.seen_error s |}).

(** [controller.close()]: with an empty queue the stream closes at once
    and the waiting read request is answered [done]; otherwise it closes
    when the queue has been read. *)
Definition controller_close (s : ReadableStream.t) : ReadableStream.t :=
  if negb (can_close_or_enqueue s) then s
  else
    let src := ReadableStream.source s in
    let answered :=
      match ReadableStream.queue s with
      | [] => ReadableStream.pending s
      | _ :: _ => false
      end in
    {| ReadableStream.source := {| upstream := upstream src;
                                   enqueued := enqueued src;
                                   closed := true;
                                   errored := errored src |};
       ReadableStream.queue := ReadableStream.queue s;
       ReadableStream.started := ReadableStream.started s;
       ReadableStream.pulling := ReadableStream.pulling s;
       ReadableStream.pullAgain := ReadableStream.pullAgain s;
       ReadableStream.settled := ReadableStream.settled s;
       ReadableStream.pending :=
         (ReadableStream.pending s && negb answered)%bool;
       ReadableStream.received := ReadableStream.received s;
       ReadableStream.seen_done :=
         (ReadableStream.seen_done s || answered)%bool;
       ReadableStream.seen_error := ReadableStream.seen_error s |}.

(** [controller.error(err)]: on a readable stream the queue is emptied,
    the stream is errored and the waiting read request is rejected. *)
Definition controller_error (err : Thrown) (s : ReadableStream.t)
  : ReadableStream.t :=
  let src := ReadableStream.source s in
  if (bool_decide (errored src <> None)
      || (closed src && bool_decide (ReadableStream.queue s = [])))%bool
  then s
  else
    {| ReadableStream.source := {| upstream := upstream src;
                                   enqueued := enqueued src;
                                   closed := closed src;
                                   errored := Some err |};
       ReadableStream.queue := [];
       ReadableStream.started := ReadableStream.started s;
       ReadableStream.pulling := ReadableStream.pulling s;
       ReadableStream.pullAgain := ReadableStream.pullAgain s;
       ReadableStream.settled := ReadableStream.settled s;
       ReadableStream.pending := false;
       ReadableStream.received := ReadableStream.received s;
       ReadableStream.seen_done := ReadableStream.seen_done s;
       ReadableStream.seen_error :=
         if ReadableStream.pending s then Some err
         else ReadableStream.seen_error s |}.

(** The upstream read that the call of [pull] in flight awaits has been
    taken off the upstream body. *)
Definition upstream_read (s : ReadableStream.t) : ReadableStream.t :=
  let src := ReadableStream.source s in
  {| ReadableStream.source := {| upstream := tail (upstream src);
                                 enqueued := enqueued src;
                                 closed := closed src;
                                 errored := errored src |};
     ReadableStream.queue := ReadableStream.queue s;
     ReadableStream.started := ReadableStream.started s;
     ReadableStream.pulling := ReadableStream.pulling s;
     ReadableStream.pullAgain := ReadableStream.pullAgain s;
     ReadableStream.settled := ReadableStream.settled s;
     ReadableStream.pending := ReadableStream.pending s;
     ReadableStream.received := ReadableStream.received s;
     ReadableStream.seen_done := ReadableStream.seen_done s;
     ReadableStream.seen_error := ReadableStream.seen_error s |}.

(** The body of [pull] from [await reader.read()] on, with the calls it
    makes on the controller. *)
Definition pull_body (s : ReadableStream.t) : ReadableStream.t :=
  match upstream (ReadableStream.source s) with
  | [] => controller_close (controller_enqueue DONE_event s)
  | ReadFailed err :: _ => controller_error err (upstream_read s)
  | Chunk text :: _ =>
      let '(events, done) := lines_loop (split_on 10 text) in
      let s' := fold_left (fun s event => controller_enqueue event s) events
                  (upstream_read s) in
      if done then controller_close s' else s'
  end.

(** The upstream read settles and [pull] runs to its end: its promise
    is fulfilled (the [catch] leaves nothing to reject it). *)
Definition pull_resumed (s : ReadableStream.t) : ReadableStream.t :=
  let s' := pull_body s in
  {| ReadableStream.source := ReadableStream.source s';
     ReadableStream.queue := ReadableStream.queue s';
     ReadableStream.started := ReadableStream.started s';
     ReadableStream.pulling := ReadableStream.pulling s';
     ReadableStream.pullAgain := ReadableStream.pullAgain s';
     ReadableStream.settled := true;
     ReadableStream.pending := ReadableStream.pending s';
     ReadableStream.received := ReadableStream.received s';
     ReadableStream.seen_done := ReadableStream.seen_done s';
     ReadableStream.seen_error := ReadableStream.seen_error s' |}.

(** The reaction to the fulfilled promise of [pull]: [[pulling]] is
    reset, and [pull] is called again only if [[pullAgain]] was noted
    meanwhile. *)
Definition pull_fulfilled (s : ReadableStream.t) : ReadableStream.t :=
  let s' :=
    {| ReadableStream.source := ReadableStream.source s;
       ReadableStream.queue := ReadableStream.queue s;
       ReadableStream.started := ReadableStream.started s;
       ReadableStream.pulling := false;
       ReadableStream.pullAgain := false;
       ReadableStream.settled := false;
       ReadableStream.pending := ReadableStream.pending s;
       ReadableStream.received := ReadableStream.received s;
       ReadableStream.seen_done := ReadableStream.seen_done s;
       ReadableStream.seen_error := ReadableStream.seen_error s |} in
  if ReadableStream.pullAgain s then call_pull_if_needed s' else s'.

(** The reaction to the start promise: [[started]] is set, then
    [CallPullIfNeeded]. *)
Definition start_fulfilled (s : ReadableStream.t) : ReadableStream.t :=
  call_pull_if_needed
    {| ReadableStream.source := ReadableStream.source s;
       ReadableStream.queue := ReadableStream.queue s;
       ReadableStream.started := true;
       ReadableStream.pulling := ReadableStream.pulling s;
       ReadableStream.pullAgain := ReadableStream.pullAgain s;
       ReadableStream.settled := ReadableStream.settled s;
       ReadableStream.pending := ReadableStream.pending s;
       ReadableStream.received := ReadableStream.received s;
       ReadableStream.seen_done := ReadableStream.seen_done s;
       ReadableStream.seen_error := ReadableStream.seen_error s |}.

(** [reader.read()]: rejected on an errored stream, [done] on a closed
    one; otherwise the pull steps of the controller: the first chunk of
    the queue (the stream closes if [close] was called and the queue is
    now empty, else [CallPullIfNeeded]), or, on an empty queue, the
    request waits and [CallPullIfNeeded]. *)
Definition reader_read (s : ReadableStream.t) : ReadableStream.t :=
  let src := ReadableStream.source s in
  match errored src with
  | Some err =>
      {| ReadableStream.source := src;
         ReadableStream.queue := ReadableStream.queue s;
         ReadableStream.started := ReadableStream.started s;
         ReadableStream.pulling := ReadableStream.pulling s;
         ReadableStream.pullAgain := ReadableStream.pullAgain s;
         ReadableStream.settled := ReadableStream.settled s;
         ReadableStream.pending := ReadableStream.pending s;
         ReadableStream.received := ReadableStream.received s;
         ReadableStream.seen_done := ReadableStream.seen_done s;
         ReadableStream.seen_error := Some err |}
  | None =>
      match ReadableStream.queue s with
      | chunk :: rest =>
          let s' :=
            {| ReadableStream.source := src;
               ReadableStream.queue := rest;
               ReadableStream.started := ReadableStream.started s;
               ReadableStream.pulling := ReadableStream.pulling s;
               ReadableStream.pullAgain := ReadableStream.pullAgain s;
               ReadableStream.settled := ReadableStream.settled s;
               ReadableStream.pending := ReadableStream.pending s;
               ReadableStream.received := ReadableStream.received s ++ [chunk];
               ReadableStream.seen_done := ReadableStream.seen_done s;
               ReadableStream.seen_error := ReadableStream.seen_error s |} in
          if (closed src && bool_decide (rest = []))%bool then s'
          else call_pull_if_needed s'
      | [] =>
          if closed src then
            {| ReadableStream.source := src;
               ReadableStream.queue := [];
               ReadableStream.started := ReadableStream.started s;
               ReadableStream.pulling := ReadableStream.pulling s;
               ReadableStream.pullAgain := ReadableStream.pullAgain s;
               ReadableStream.settled := ReadableStream.settled s;
               ReadableStream.pending := ReadableStream.pending s;
               ReadableStream.received := ReadableStream.received s;
               ReadableStream.seen_done := true;
               ReadableStream.seen_error := ReadableStream.seen_error s |}
          else
            call_pull_if_needed
              {| ReadableStream.source := src;
                 ReadableStream.queue := [];
                 ReadableStream.started := ReadableStream.started s;
                 ReadableStream.pulling := ReadableStream.pulling s;
                 ReadableStream.pullAgain := ReadableStream.pullAgain s;
                 ReadableStream.settled := ReadableStream.settled s;
                 ReadableStream.pending := true;
                 ReadableStream.received := ReadableStream.received s;
                 ReadableStream.seen_done := ReadableStream.seen_done s;
                 ReadableStream.seen_error := ReadableStream.seen_error s |}
      end
  end.

(** One event, when it can happen: the start promise is fulfilled once;
    the consumer reads when no read of its is waiting and it has seen
    neither [done] nor an error; the body of [pull] runs when a call is
    in flight, and the reaction follows it. *)
Definition fire (event : StreamStep) (s : ReadableStream.t)
  : option ReadableStream.t :=
  match event with
  | StartFulfilled =>
      if ReadableStream.started s then None else Some (start_fulfilled s)
  | ConsumerRead =>
      if (ReadableStream.pending s || ReadableStream.seen_done s
          || bool_decide (ReadableStream.seen_error s <> None))%bool
      then None else Some (reader_read s)
  | PullResumed =>
      if (ReadableStream.pulling s && negb (ReadableStream.settled s))%bool
      then Some (pull_resumed s) else None
  | PullFulfilled =>
      if (ReadableStream.pulling s && ReadableStream.settled s)%bool
      then Some (pull_fulfilled s) else None
  end.

(** The events of a schedule, one after the other. *)
Fixpoint run_schedule (schedule : list StreamStep) (s : ReadableStream.t)
  : option ReadableStream.t :=
  match schedule with
  | [] => Some s
  | event :: rest =>
      match fire event s with
      | Some s' => run_schedule rest s'
      | None => None
      end
  end.

(** Nothing more can happen. *)
Definition at_rest (s : ReadableStream.t) : Prop :=
  forall event, fire event s = None.

(** The consumer waits for a read that nothing will answer. *)
Definition stalled (s : ReadableStream.t) : Prop :=
  at_rest s /\ ReadableStream.pending s = true.

(** *** What is said of the stream at run time *)

(** What holds of the stream at every moment, the body of [pull]
    included. *)
Definition sound (s : ReadableStream.t) : Prop :=
  let src := ReadableStream.source s in
  (ReadableStream.pending s = true ->
   ReadableStream.queue s = [] /\ closed src = false /\ errored src = None
   /\ ReadableStream.seen_done s = false /\ ReadableStream.seen_error s = None)
  /\ (ReadableStream.started s = false -> ReadableStream.pulling s = false)
  /\ (ReadableStream.pullAgain s = true -> ReadableStream.pulling s = true)
  /\ (ReadableStream.settled s = true -> ReadableStream.pulling s = true)
  /\ (errored src = None ->
      ReadableStream.received s ++ ReadableStream.queue s = enqueued src)
  /\ (exists lost, ReadableStream.received s ++ lost = enqueued src)
  /\ (ReadableStream.seen_done s = true ->
      closed src = true /\ ReadableStream.queue s = [] /\ errored src = None)
  /\ (forall e, ReadableStream.seen_error s = Some e -> errored src = Some e)
  /\ (errored src <> None -> ReadableStream.queue s = []).

(** What holds between two events: moreover, a call of [pull] whose
    body has not run yet is a call on a stream that can enqueue. *)
Definition consistent (s : ReadableStream.t) : Prop :=
  sound s
  /\ (ReadableStream.pulling s = true -> ReadableStream.settled s = false ->
      can_close_or_enqueue s = true).

(** The source once [events] more have been enqueued. *)
Definition with_enqueued (events : list jsstring) (st : StreamState) : StreamState :=
  {| upstream := upstream st;
     enqueued := enqueued st ++ events;
     closed := closed st;
     errored := errored st |}.

(** An upstream read that fails, or yields at least one event. *)
Definition productive (r : ReadResult) : Prop :=
  match r with
  | Chunk text => fst (lines_loop (split_on 10 text)) <> []
  | ReadFailed _ => True
  end.

(** A waiting read request has a call of [pull] in flight, or one noted
    to follow. *)
Definition served (s : ReadableStream.t) : Prop :=
  ReadableStream.started s = true -> ReadableStream.pending s = true ->
  ReadableStream.pulling s = true
  /\ (ReadableStream.settled s = true -> ReadableStream.pullAgain s = true).

(** The invariant of a stream all of whose upstream reads are
    productive. *)
Definition lively (s : ReadableStream.t) : Prop :=
  consistent s /\ served s
  /\ Forall productive (upstream (ReadableStream.source s)).

(** What the stream emits when every call of [pull] it takes is made:
    the events of the reads up to the first one that holds [[DONE]], or
    up to the end of the upstream body and then the sentinel; a failed
    read ends it. *)
Fixpoint stream_output (reads : list ReadResult) : list jsstring :=
  match reads with
  | [] => [DONE_event]
  | Chunk text :: rest =>
      let '(events, done) := lines_loop (split_on 10 text) in
      if done then events else events ++ stream_output rest
  | ReadFailed _ :: _ => []
  end.

(** The events the reads of an upstream body can still yield. *)
Fixpoint future_events (reads : list ReadResult) : nat :=
  match reads with
  | [] => 0
  | Chunk text :: rest =>
      length (fst (lines_loop (split_on 10 text))) + future_events rest
  | ReadFailed _ :: rest => future_events rest
  end.

(** What the consumer can still do: nothing after [done] or an error,
    be answered while a read of its waits, read otherwise. *)
Definition consumer_weight (s : ReadableStream.t) : nat :=
  if (ReadableStream.seen_done s
      || bool_decide (ReadableStream.seen_error s <> None))%bool then 0
  else if ReadableStream.pending s then 1 else 2.

(** What is left to do on the consumer's side: two events at most for
    each chunk in the queue, and the consumer's own. *)
Definition load (s : ReadableStream.t) : nat :=
  2 * length (ReadableStream.queue s) + consumer_weight s.

(** What is left to do on the side of [pull]: three events at most for
    each upstream read and for the end of the body, two for each chunk
    they can yield; nothing once the stream is closed or errored. *)
Definition budget (st : StreamState) : nat :=
  if (closed st || bool_decide (errored st <> None))%bool then 0
  else 3 * S (length (upstream st)) + 2 * S (future_events (upstream st)).

(** A bound on the number of events that can still happen. *)
Definition measure (s : ReadableStream.t) : nat :=
  (if ReadableStream.started s then 0 else 1)
  + (if (ReadableStream.pulling s && ReadableStream.settled s)%bool then 1 else 0)
  + budget (ReadableStream.source s)
  + load s.

(** The chunks one call of [pull] enqueues. *)
Definition yield (st : StreamState) : nat :=
  match upstream st with
  | [] => 1
  | Chunk text :: _ => length (fst (lines_loop (split_on 10 text)))
  | ReadFailed _ :: _ => 0
  end.

(** The states one event away. *)
Definition successors (s : ReadableStream.t) : list ReadableStream.t :=
  omap (fun event => fire event s)
    [StartFulfilled; ConsumerRead; PullResumed; PullFulfilled].

(** [P] holds of [s] and of every state a run of at most [fuel] events
    leads to, and no run is longer. *)
Fixpoint all_runs (fuel : nat) (P : ReadableStream.t -> bool) (s : ReadableStream.t)
  : bool :=
  (P s
   && match fuel with
      | O => match successors s with [] => true | _ :: _ => false end
      | S fuel' => forallb (all_runs fuel' P) (successors s)
      end)%bool.

(** The response to the streaming request: [response.body] is [null]
    ([None]) or gives the reads listed. *)
Record StreamResponse : Type := {
  stream_status : N;
  stream_text : BodyRead;
  stream_body : option (list ReadResult)
}.

Inductive StreamFetchOutcome : Type :=
| StreamResponded (r : StreamResponse)
| StreamRejected (e : Thrown).

Variable NVIDIA_API_KEY : option jsstring.

(** [nvidiaChatStream]: one request, to the explicit model or to the
    first of [MODELS]; no other model is tried. *)
Definition nvidiaChatStream (fetch : RequestBody.t -> StreamFetchOutcome)
  (options : ChatOptions.t) : Result StreamState :=
  if negb (key_configured NVIDIA_API_KEY) then Throw not_configured
  else
    let currentModel :=
      match ChatOptions.model options with
      | Some (c :: m) => c :: m
      | _ => js "meta/llama-3.3-70b-instruct"
      end in
    match fetch (request_body options currentModel true) with
    | StreamRejected e => Throw e
    | StreamResponded r =>
        if negb (N.leb 200 (stream_status r) && N.leb (stream_status r) 299) then
          match stream_text r with
          | BodyFailed e => Throw e
          | BodyText error =>
              Throw (ErrorObj (js "NVIDIA API stream error "
                               ++ decimal (stream_status r) ++ js ": " ++ error))
          end
        else
          match stream_body r with
          | None => Throw (ErrorObj (js "No response body for streaming"))
          | Some reads => Ok (open_stream reads)
          end
    end.

End Streaming.

(** ** The structured extractors *)

Inductive EntityType : Type := concept | entity | idea.

#[global] Instance EntityType_eq_dec : EqDecision EntityType.
Proof. solve_decision. Defined.

Definition type_name (t : EntityType) : jsstring :=
  match t with
  | concept => js "concept"
  | entity => js "entity"
  | idea => js "idea"
  end.

Module TypedEntity.
Record t : Type := { name : jsstring; type : EntityType }.
End TypedEntity.

Definition SUMMARY_PROMPT : jsstring :=
  js "You are a summarization expert. Provide a concise, informative summary of the given text in 2-3 sentences. Include key points and main ideas.".

Definition ENTITIES_PROMPT : jsstring :=
  js "Extract key entities from the text and classify each into one of these types:" ++ [10%N]
  ++ jsq "- 'entity': Specific named things " ++ [8212%N]
  ++ js " people, organizations, products, places, technologies, tools (e.g. Google, PostgreSQL, Elon Musk)" ++ [10%N]
  ++ jsq "- 'concept': Abstract topics, fields, methodologies, theories (e.g. Machine Learning, Normalization, ACID Properties)" ++ [10%N]
  ++ jsq "- 'idea': Opinions, insights, proposals, hypotheses, arguments (e.g. 'data should be normalized', 'NoSQL is better for scale')" ++ [10; 10]%N
  ++ jsq "Return ONLY a JSON array of objects with 'name' and 'type' fields." ++ [10%N]
  ++ jsq "Example: [{'name':'React','type':'entity'},{'name':'Machine Learning','type':'concept'},{'name':'Components should be pure','type':'idea'}]" ++ [10%N]
  ++ js "No explanations, no markdown.".

Definition KEYPOINTS_PROMPT : jsstring :=
  jsq "Extract the key points from the given text. Return ONLY a JSON array of strings. Example: ['Point one', 'Point two']. No explanations.".

Definition TypeError_not_a_function : Thrown :=
  ErrorObj (js "response.replace is not a function").

(** [response.replace(/```json\n?/g, '').replace(/```\n?/g, '').trim()];
    only a string has [replace]. *)
Definition strip_fences (response : JSON) : Result jsstring :=
  match response with
  | JStr s => Ok (trim (delete_all (js "```") (delete_all (js "```json") s)))
  | _ => Throw TypeError_not_a_function
  end.

(** [e && e.name && typeof e.name === 'string'] *)
Definition has_name (e : JSON) : bool :=
  (truthy e
   && match get_named (js "name") e with
      | Some (JStr (_ :: _)) => true
      | _ => false
      end)%bool.

(** [['concept', 'entity', 'idea'].includes(e.type) ? e.type : 'entity'] *)
Definition type_of_entry (e : JSON) : EntityType :=
  match get_named (js "type") e with
  | Some (JStr t) =>
      if jsstring_eqb t (js "concept") then concept
      else if jsstring_eqb t (js "idea") then idea
      else entity
  | _ => entity
  end.

(** [{ name: e.name, type: ... }], for an entry that passed the filter. *)
Definition to_entity (e : JSON) : TypedEntity.t :=
  {| TypedEntity.name :=
       match get_named (js "name") e with
       | Some (JStr n) => n
       | _ => []
       end;
     TypedEntity.type := type_of_entry e |}.

Definition parse_or_throw (text : jsstring) : Result JSON :=
  match JSON_parse text with
  | Some v => Ok v
  | None => Throw SyntaxError
  end.

Section Extractors.

Variable NVIDIA_API_KEY : option jsstring.

Definition prompt_options (prompt truncated : jsstring) (maxTokens : N)
  (temperature : Q) : ChatOptions.t :=
  {| ChatOptions.messages :=
       [ {| ChatMessage.role := system; ChatMessage.content := prompt |};
         {| ChatMessage.role := user; ChatMessage.content := truncated |} ];
     ChatOptions.maxTokens := Some maxTokens;
     ChatOptions.temperature := Some temperature;
     ChatOptions.stream := None;
     ChatOptions.model := None |}.

Definition generateSummary (net : Net) (text : jsstring) : Result JSON :=
  let truncated := slice_to 6000 text in
  nvidiaChat NVIDIA_API_KEY net
    (prompt_options SUMMARY_PROMPT truncated 300 (3 # 10)).

Definition extractEntitiesWithTypes (net : Net) (text : jsstring)
  : Result (list TypedEntity.t) :=
  let truncated := slice_to 4000 text in
  try_catch
    (let* response :=
       nvidiaChat NVIDIA_API_KEY net
         (prompt_options ENTITIES_PROMPT truncated 1024 (1 # 10)) in
     let* cleaned := strip_fences response in
     let* parsed := parse_or_throw cleaned in
     match parsed with
     | JArr items => Ok (take 20 (map to_entity (filter has_name items)))
     | _ => Ok []
     end)
    (fun _ => Ok []).

(** [extractEntities]: the names only. *)
Definition extractEntities (net : Net) (text : jsstring) : Result (list jsstring) :=
  let* typed := extractEntitiesWithTypes net text in
  Ok (map TypedEntity.name typed).

Definition extractKeyPoints (net : Net) (text : jsstring) : Result (list JSON) :=
  let truncated := slice_to 4000 text in
  try_catch
    (let* response :=
       nvidiaChat NVIDIA_API_KEY net
         (prompt_options KEYPOINTS_PROMPT truncated 1024 (2 # 10)) in
     let* cleaned := strip_fences response in
     let* parsed := parse_or_throw cleaned in
     match parsed with
     | JArr items => Ok (take 10 items)
     | _ => Ok []
     end)
    (fun _ => Ok []).

End Extractors.

(** *** The entity extractor in the words of the design document *)

(** The entity an entry of the model's array stands for: an entry that
    is no object with a valid [name] (a string that is not empty) is
    dropped; the [type] is the entry's when it is one of the three type
    names, and [entity] otherwise. *)
Definition reference_entity (entry : JSON) : option TypedEntity.t :=
  match entry with
  | JObj props =>
      match lookup_prop (js "name") props with
      | Some (JStr (c :: name)) =>
          Some {| TypedEntity.name := c :: name;
                  TypedEntity.type :=
                    match lookup_prop (js "type") props with
                    | Some (JStr t) =>
                        if bool_decide (t = js "concept") then concept
                        else if bool_decide (t = js "idea") then idea
                        else entity
                    | _ => entity
                    end |}
      | _ => None
      end
  | _ => None
  end.

(** The request for the entities of [text] to the model [m]: the prompt
    as the system message, the first 4000 units of [text] as the user
    message. *)
Definition entity_request (m : jsstring) (text : jsstring) : RequestBody.t :=
  {| RequestBody.model := m;
     RequestBody.messages :=
       [ {| ChatMessage.role := system; ChatMessage.content := ENTITIES_PROMPT |};
         {| ChatMessage.role := user; ChatMessage.content := take 4000 text |} ];
     RequestBody.max_tokens := 1024;
     RequestBody.temperature := 1 # 10;
     RequestBody.top_p := 1;
     RequestBody.stream := false |}.

(** ** The toy embedding ([generateEmbeddingSimple]) *)

Section Embedding.

(** [String.prototype.toLowerCase] follows the Unicode case tables, which
    are not part of the program: it is a parameter. *)
Variable toLowerCase : jsstring -> jsstring.

Definition dim : nat := 128.

(** [(word.charCodeAt(i) * (i + 1) * 7) % dim].  A code unit is below
    2 ^ 16 and a string shorter than 2 ^ 32, so the product is an
    integer below 2 ^ 53: the arithmetic of the source is exact. *)
Definition bucket (c : N) (i : nat) : nat :=
  N.to_nat ((c * N.of_nat (i + 1) * 7) mod N.of_nat dim).

(** [embedding[idx] += 1] *)
Definition bump (embedding : list R) (idx : nat) : list R :=
  alter (fun v => (v + 1)%R) idx embedding.

(** The inner loop [for (let i = 0; i < word.length; i++)], from
    position [i] on, over the rest [w] of the word. *)
Fixpoint word_loop (w : jsstring) (i : nat) (embedding : list R) : list R :=
  match w with
  | [] => embedding
  | c :: w' => word_loop w' (S i) (bump embedding (bucket c i))
  end.

(** The outer loop [for (const word of words)]. *)
Definition words_loop (words : list jsstring) (embedding : list R) : list R :=
  fold_left (fun emb word => word_loop word 0 emb) words embedding.

Definition sum_squares (embedding : list R) : R :=
  fold_left (fun sum val => (sum + val * val)%R) embedding 0%R.

Definition generateEmbeddingSimple (text : jsstring) : list R :=
  let words := split_ws (toLowerCase text) in
  let embedding := words_loop words (replicate dim 0%R) in
  let norm := sqrt (sum_squares embedding) in
  if Rlt_dec 0 norm then map (fun v => (v / norm)%R) embedding else embedding.

(** The two loops in closed form: bucket [b] ends with the number of
    (word, position) pairs whose [bucket] is [b]; the vector of these
    sums is divided by its Euclidean norm, unless that norm is zero. *)
Fixpoint hits_in_word (b : nat) (w : jsstring) (i : nat) : nat :=
  match w with
  | [] => 0
  | c :: w' => (if Nat.eqb (bucket c i) b then 1 else 0) + hits_in_word b w' (S i)
  end.

Definition bucket_sum (words : list jsstring) (b : nat) : nat :=
  list_sum (map (fun w => hits_in_word b w 0) words).

Definition bucket_sums (text : jsstring) : list R :=
  map (fun b => INR (bucket_sum (split_ws (toLowerCase text)) b)) (seq 0 dim).

Definition euclidean_norm (v : list R) : R :=
  sqrt (fold_right (fun x acc => (x * x + acc)%R) 0%R v).

Definition embed_closed_form (text : jsstring) : list R :=
  let v := bucket_sums text in
  if Req_dec_T (euclidean_norm v) 0 then v
  else map (fun x => (x / euclidean_norm v)%R) v.

(** *** The embedding in the words of the design document

    Nothing below is taken from the definitions above: white space, the
    words, the bucket of a character and the counts are said again. *)

(** White space, by code unit: tab, line feed, vertical tab, form feed,
    carriage return, space, no-break space, the space separators of
    Unicode, the line and the paragraph separator, the byte-order
    mark. *)
Definition reference_space (c : N) : bool :=
  existsb (N.eqb c)
    [9; 10; 11; 12; 13; 32; 160; 5760; 8192; 8193; 8194; 8195; 8196; 8197;
     8198; 8199; 8200; 8201; 8202; 8232; 8233; 8239; 8287; 12288; 65279]%N.

(** The words of a text: its maximal runs of units that are not white
    space, in order.  [word] is the run being read. *)
Fixpoint reference_words_from (word s : jsstring) : list jsstring :=
  match s with
  | [] => match word with [] => [] | _ :: _ => [word] end
  | c :: s' =>
      if reference_space c then
        match word with
        | [] => reference_words_from [] s'
        | _ :: _ => word :: reference_words_from [] s'
        end
      else reference_words_from (word ++ [c]) s'
  end.

Definition reference_words (s : jsstring) : list jsstring :=
  reference_words_from [] s.

(** [(charCode(c) * (i + 1) * 7) mod 128], for the unit [c] at the
    0-based position [i] of its word. *)
Definition reference_bucket (c : N) (i : nat) : nat :=
  (N.to_nat c * (i + 1) * 7) mod 128.

(** The number of pairs of a word and a position in it whose bucket is
    [b]: what bucket [b] holds after an increment by 1 for each. *)
Definition reference_count (b : nat) (words : list jsstring) : nat :=
  list_sum
    (map (fun word =>
            length (List.filter
                      (fun i => Nat.eqb (reference_bucket (nth i word 0%N) i) b)
                      (seq 0 (length word))))
       words).

(** Lower-case, split into words, count, and divide by the Euclidean
    norm unless it is zero. *)
Definition reference_embedding (text : jsstring) : list R :=
  let counts :=
    map (fun b => INR (reference_count b (reference_words (toLowerCase text))))
      (seq 0 128) in
  if Req_dec_T (euclidean_norm counts) 0 then counts
  else map (fun x => (x / euclidean_norm counts)%R) counts.

End Embedding.

(** ** The store behind Prisma *)

(** Row ids stand for the unique ids Prisma allocates: the serial number
    of the row, rendered by [decimal] where the code needs its text. *)

Module KnowledgeNode.
Record t : Type := {
  id : N;
  userId : jsstring;
  label : jsstring;
  type : jsstring;
  description : jsstring;
  strength : Q;
  (** the column holds [JSON.stringify] of this array of ids *)
  connections : list N
}.
End KnowledgeNode.

Module Document.
Record t : Type := {
  id : N;
  userId : jsstring;
  title : jsstring;
  content : jsstring;
  contentType : jsstring;
  domain : jsstring;
  fileUrl : option jsstring;
  fileType : option jsstring;
  fileSize : option N;
  (** the AI-derived columns, [None] for SQL [NULL]; the last four hold
      [JSON.stringify] of the value kept here *)
  summary : option JSON;
  entities : option (list jsstring);
  keyPoints : option (list JSON);
  tags : option (list jsstring);
  embedding : option (list R)
}.
End Document.

Record DB : Type := {
  documents : list Document.t;
  knowledgeNodes : list KnowledgeNode.t;
  nextId : N
}.

(** A Prisma call: it may throw, and it leaves a store either way. *)
Definition Prisma (A : Type) : Type := DB -> Result A * DB.

Definition ret {A : Type} (a : A) : Prisma A := fun db => (Ok a, db).

Definition lift {A : Type} (r : Result A) : Prisma A := fun db => (r, db).

Definition bindP {A B : Type} (m : Prisma A) (k : A -> Prisma B) : Prisma B :=
  fun db =>
    match m db with
    | (Ok a, db') => k a db'
    | (Throw e, db') => (Throw e, db')
    end.

Notation "'let!' x ':=' m 'in' k" := (bindP m (fun x => k))
  (at level 10, x name, m at level 100, k at level 200).

Definition catchP {A : Type} (body : Prisma A) (handler : Thrown -> Prisma A)
  : Prisma A :=
  fun db =>
    match body db with
    | (Ok a, db') => (Ok a, db')
    | (Throw e, db') => handler e db'
    end.

Definition RecordNotFound : Thrown :=
  ErrorObj (js "Record to update not found.").

(** [where: { userId, label }] *)
Definition node_matches (userId label : jsstring) (n : KnowledgeNode.t) : bool :=
  (jsstring_eqb (KnowledgeNode.userId n) userId
   && jsstring_eqb (KnowledgeNode.label n) label)%bool.

(** [prisma.knowledgeNode.findFirst({ where: { userId, label } })] *)
Definition knowledgeNode_findFirst (userId label : jsstring)
  : Prisma (option KnowledgeNode.t) :=
  fun db => (Ok (find (node_matches userId label) (knowledgeNodes db)), db).

(** [where: { userId, label: { in: labels } }] *)
Definition label_among (userId : jsstring) (labels : list jsstring)
  (n : KnowledgeNode.t) : Prop :=
  KnowledgeNode.userId n = userId /\ KnowledgeNode.label n ∈ labels.

#[global] Instance label_among_dec (userId : jsstring) (labels : list jsstring)
  (n : KnowledgeNode.t) : Decision (label_among userId labels n).
Proof. unfold label_among. apply _. Defined.

(** [prisma.knowledgeNode.findMany({ where: { userId, label: { in: labels } } })] *)
Definition knowledgeNode_findMany (userId : jsstring) (labels : list jsstring)
  : Prisma (list KnowledgeNode.t) :=
  fun db => (Ok (filter (label_among userId labels) (knowledgeNodes db)), db).

(** [prisma.knowledgeNode.create({ data })]: the row gets a new id. *)
Definition knowledgeNode_create (userId label type description : jsstring)
  (strength : Q) (connections : list N) : Prisma KnowledgeNode.t :=
  fun db =>
    let node :=
      {| KnowledgeNode.id := nextId db;
         KnowledgeNode.userId := userId;
         KnowledgeNode.label := label;
         KnowledgeNode.type := type;
         KnowledgeNode.description := description;
         KnowledgeNode.strength := strength;
         KnowledgeNode.connections := connections |} in
    (Ok node,
     {| documents := documents db;
        knowledgeNodes := knowledgeNodes db ++ [node];
        nextId := (nextId db + 1)%N |}).

Definition update_where (id : N) (patch : KnowledgeNode.t -> KnowledgeNode.t)
  (n : KnowledgeNode.t) : KnowledgeNode.t :=
  if N.eqb (KnowledgeNode.id n) id then patch n else n.

(** [prisma.knowledgeNode.update({ where: { id }, data })]: throws when
    no row has this id. *)
Definition knowledgeNode_update (id : N) (patch : KnowledgeNode.t -> KnowledgeNode.t)
  : Prisma unit :=
  fun db =>
    if existsb (fun n => N.eqb (KnowledgeNode.id n) id) (knowledgeNodes db) then
      (Ok tt,
       {| documents := documents db;
          knowledgeNodes := map (update_where id patch) (knowledgeNodes db);
          nextId := nextId db |})
    else (Throw RecordNotFound, db).

(** [prisma.document.findUnique({ where: { id } })] *)
Definition document_findUnique (id : N) : Prisma (option Document.t) :=
  fun db => (Ok (find (fun d => N.eqb (Document.id d) id) (documents db)), db).

(** [prisma.document.update({ where: { id }, data })] *)
Definition document_update (id : N) (patch : Document.t -> Document.t)
  : Prisma unit :=
  fun db =>
    if existsb (fun d => N.eqb (Document.id d) id) (documents db) then
      (Ok tt,
       {| documents :=
            map (fun d => if N.eqb (Document.id d) id then patch d else d)
              (documents db);
          knowledgeNodes := knowledgeNodes db;
          nextId := nextId db |})
    else (Throw RecordNotFound, db).

(** ** Document enrichment and the graph merge ([processDocumentWithAI]) *)

Definition set_strength (s : Q) (n : KnowledgeNode.t) : KnowledgeNode.t :=
  {| KnowledgeNode.id := KnowledgeNode.id n;
     KnowledgeNode.userId := KnowledgeNode.userId n;
     KnowledgeNode.label := KnowledgeNode.label n;
     KnowledgeNode.type := KnowledgeNode.type n;
     KnowledgeNode.description := KnowledgeNode.description n;
     KnowledgeNode.strength := s;
     KnowledgeNode.connections := KnowledgeNode.connections n |}.

Definition set_type (t : jsstring) (n : KnowledgeNode.t) : KnowledgeNode.t :=
  {| KnowledgeNode.id := KnowledgeNode.id n;
     KnowledgeNode.userId := KnowledgeNode.userId n;
     KnowledgeNode.label := KnowledgeNode.label n;
     KnowledgeNode.type := t;
     KnowledgeNode.description := KnowledgeNode.description n;
     KnowledgeNode.strength := KnowledgeNode.strength n;
     KnowledgeNode.connections := KnowledgeNode.connections n |}.

Definition set_connections (c : list N) (n : KnowledgeNode.t) : KnowledgeNode.t :=
  {| KnowledgeNode.id := KnowledgeNode.id n;
     KnowledgeNode.userId := KnowledgeNode.userId n;
     KnowledgeNode.label := KnowledgeNode.label n;
     KnowledgeNode.type := KnowledgeNode.type n;
     KnowledgeNode.description := KnowledgeNode.description n;
     KnowledgeNode.strength := KnowledgeNode.strength n;
     KnowledgeNode.connections := c |}.

(** The [updateData] of the [else] branch, as the change it makes to the
    row: the strength computed from [existing], and the type when the
    stored one is ['entity'] and the observed one is not. *)
Definition updateData (existing : KnowledgeNode.t) (typedEntity : TypedEntity.t)
  (row : KnowledgeNode.t) : KnowledgeNode.t :=
  let row' := set_strength (KnowledgeNode.strength existing + (1 # 2)) row in
  if (jsstring_eqb (KnowledgeNode.type existing) (js "entity")
      && negb (jsstring_eqb (type_name (TypedEntity.type typedEntity)) (js "entity")))%bool
  then set_type (type_name (TypedEntity.type typedEntity)) row'
  else row'.

(** The body of [for (const typedEntity of typedEntities)]. *)
Definition upsert_entity (userId : jsstring) (typedEntity : TypedEntity.t)
  : Prisma unit :=
  let! existing := knowledgeNode_findFirst userId (TypedEntity.name typedEntity) in
  match existing with
  | None =>
      let! _ := knowledgeNode_create userId (TypedEntity.name typedEntity)
                  (type_name (TypedEntity.type typedEntity))
                  (js "Extracted from document") 1 [] in
      ret tt
  | Some existing =>
      knowledgeNode_update (KnowledgeNode.id existing) (updateData existing typedEntity)
  end.

Fixpoint upsert_entities (userId : jsstring) (typedEntities : list TypedEntity.t)
  : Prisma unit :=
  match typedEntities with
  | [] => ret tt
  | typedEntity :: rest =>
      let! _ := upsert_entity userId typedEntity in
      upsert_entities userId rest
  end.

(** [Array.from(new Set(xs))]: a [Set] keeps the first insertion of each
    value, in insertion order; [seen] is the set built so far. *)
Fixpoint set_from (xs : list N) (seen : list N) : list N :=
  match xs with
  | [] => seen
  | x :: xs' => set_from xs' (if bool_decide (x ∈ seen) then seen else seen ++ [x])
  end.

(** The connections written for [node] in the last loop. *)
Definition newConnections (nodes : list KnowledgeNode.t) (docNode node : KnowledgeNode.t)
  : list N :=
  let otherNodeIds :=
    map KnowledgeNode.id
      (filter (fun n => KnowledgeNode.id n <> KnowledgeNode.id node) nodes) in
  let allConnections := otherNodeIds ++ [KnowledgeNode.id docNode] in
  let existingConnections := KnowledgeNode.connections node in
  set_from (existingConnections ++ allConnections) [].

(** [for (const node of nodes)], over the rest [todo] of [nodes]. *)
Fixpoint connect_loop (nodes : list KnowledgeNode.t) (docNode : KnowledgeNode.t)
  (todo : list KnowledgeNode.t) : Prisma unit :=
  match todo with
  | [] => ret tt
  | node :: rest =>
      let! _ := knowledgeNode_update (KnowledgeNode.id node)
                  (set_connections (newConnections nodes docNode node)) in
      connect_loop nodes docNode rest
  end.

(** [doc?.title || `Document ${docId.slice(0, 8)}`] *)
Definition docNodeLabel (doc : option Document.t) (docId : N) : jsstring :=
  match doc with
  | Some d =>
      match Document.title d with
      | _ :: _ => Document.title d
      | [] => js "Document " ++ slice_to 8 (decimal docId)
      end
  | None => js "Document " ++ slice_to 8 (decimal docId)
  end.

(** The graph part of [processDocumentWithAI] (from "Create knowledge
    nodes from entities" to the last loop): [mergeDocument] in the
    design document. *)
Definition mergeDocument (userId : jsstring) (docId : N)
  (typedEntities : list TypedEntity.t) : Prisma unit :=
  let entityNames := map TypedEntity.name typedEntities in
  let! _ := upsert_entities userId typedEntities in
  let! nodes := knowledgeNode_findMany userId entityNames in
  let! doc := document_findUnique docId in
  let label := docNodeLabel doc docId in
  let! found := knowledgeNode_findFirst userId label in
  let! docNode :=
    match found with
    | Some n => ret n
    | None =>
        knowledgeNode_create userId label (js "document") (js "Source document") 2
          (map KnowledgeNode.id nodes)
    end in
  connect_loop nodes docNode nodes.

(** [Promise.all] of three promises that are already settled: the
    values, or the rejection of the first that rejected. *)
Definition Promise_all3 {A B C : Type} (a : Result A) (b : Result B) (c : Result C)
  : Result (A * B * C) :=
  let* x := a in
  let* y := b in
  let* z := c in
  Ok (x, y, z).

Section Ingestion.

Variable NVIDIA_API_KEY : option jsstring.
Variable toLowerCase : jsstring -> jsstring.

(** The [data] of the [prisma.document.update] call. *)
Definition enrich (summary : JSON) (entityNames : list jsstring)
  (keyPoints : list JSON) (embedding : list R) (d : Document.t) : Document.t :=
  {| Document.id := Document.id d;
     Document.userId := Document.userId d;
     Document.title := Document.title d;
     Document.content := Document.content d;
     Document.contentType := Document.contentType d;
     Document.domain := Document.domain d;
     Document.fileUrl := Document.fileUrl d;
     Document.fileType := Document.fileType d;
     Document.fileSize := Document.fileSize d;
     Document.summary := Some summary;
     Document.entities := Some entityNames;
     Document.keyPoints := Some keyPoints;
     Document.tags := Some (take 5 entityNames);
     Document.embedding := Some embedding |}.

(** The [try] block.  The three extractor calls run concurrently, each
    against its own view of the network. *)
Definition processDocument_try (netS netE netK : Net) (docId : N)
  (content userId : jsstring) : Prisma unit :=
  let! results :=
    lift (Promise_all3 (generateSummary NVIDIA_API_KEY netS content)
            (extractEntitiesWithTypes NVIDIA_API_KEY netE content)
            (extractKeyPoints NVIDIA_API_KEY netK content)) in
  let '(summary, typedEntities, keyPoints) := results in
  let entityNames := map TypedEntity.name typedEntities in
  let embedding := generateEmbeddingSimple toLowerCase content in
  let! _ := document_update docId (enrich summary entityNames keyPoints embedding) in
  mergeDocument userId docId typedEntities.

(** [processDocumentWithAI]: the [catch] logs the error and swallows it;
    the store stays as the failing step left it. *)
Definition processDocumentWithAI (netS netE netK : Net) (docId : N)
  (content userId : jsstring) (db : DB) : DB :=
  snd (catchP (processDocument_try netS netE netK docId content userId)
         (fun error => ret tt) db).

(** ** The routes ([POST], [PATCH]) *)

(** The fields [POST] has decoded from the request (multipart form or
    JSON body) when it reaches [if (!title)]. *)
Record Upload : Type := {
  up_title : option jsstring;
  up_content : option jsstring;
  up_contentType : jsstring;
  up_domain : jsstring;
  up_fileUrl : option jsstring;
  up_fileType : option jsstring;
  up_fileSize : option N
}.

Inductive HttpResponse : Type :=
| Unauthorized
| BadRequest (error : jsstring)
| NotFound
| DocumentCreated (document : Document.t)
| Success.

(** A call [processDocumentWithAI(docId, content, userId)] that a route
    started and did not await. *)
Record Started : Type := {
  started_docId : N;
  started_content : jsstring;
  started_userId : jsstring
}.

(** [content && content.length > 20 && !content.startsWith('[File:')] *)
Definition worth_processing (content : option jsstring) : bool :=
  match content with
  | Some c =>
      (negb (bool_decide (c = [])) && Nat.ltb 20 (length c)
       && negb (startsWith (js "[File:") c))%bool
  | None => false
  end.

(** [session?.user?.id], when truthy. *)
Definition session_user (session : option jsstring) : option jsstring :=
  match session with
  | Some (c :: u) => Some (c :: u)
  | _ => None
  end.

(** [prisma.document.create({ data })] of [POST]. *)
Definition document_create (userId title content contentType domain : jsstring)
  (fileUrl fileType : option jsstring) (fileSize : option N) : DB -> Document.t * DB :=
  fun db =>
    let document :=
      {| Document.id := nextId db;
         Document.userId := userId;
         Document.title := title;
         Document.content := content;
         Document.contentType := contentType;
         Document.domain := domain;
         Document.fileUrl := fileUrl;
         Document.fileType := fileType;
         Document.fileSize := fileSize;
         Document.summary := None;
         Document.entities := None;
         Document.keyPoints := None;
         Document.tags := None;
         Document.embedding := None |} in
    (document,
     {| documents := documents db ++ [document];
        knowledgeNodes := knowledgeNodes db;
        nextId := (nextId db + 1)%N |}).

Definition POST (session : option jsstring) (req : Upload) (db : DB)
  : HttpResponse * DB * option Started :=
  match session_user session with
  | None => (Unauthorized, db, None)
  | Some uid =>
      match up_title req with
      | Some (c :: t) =>
          let '(document, db') :=
            document_create uid (c :: t)
              (slice_to 50000 (default [] (up_content req)))
              (up_contentType req) (up_domain req)
              (up_fileUrl req) (up_fileType req) (up_fileSize req) db in
          (DocumentCreated document, db',
           if worth_processing (up_content req)
           then Some {| started_docId := Document.id document;
                        started_content := default [] (up_content req);
                        started_userId := uid |}
           else None)
      | _ => (BadRequest (js "Title is required"), db, None)
      end
  end.

Definition PATCH (session : option jsstring) (idParam : option N) (db : DB)
  : HttpResponse * DB * option Started :=
  match session_user session with
  | None => (Unauthorized, db, None)
  | Some uid =>
      match idParam with
      | None => (BadRequest (js "Document ID required"), db, None)
      | Some docId =>
          match find (fun d => N.eqb (Document.id d) docId) (documents db) with
          | Some doc =>
              if jsstring_eqb (Document.userId doc) uid then
                (Success, db,
                 if worth_processing (Some (Document.content doc))
                 then Some {| started_docId := docId;
                              started_content := Document.content doc;
                              started_userId := uid |}
                 else None)
              else (NotFound, db, None)
          | None => (NotFound, db, None)
          end
      end
  end.

(** The store once the call a route started (if any) has run to its
    end, against the networks [netS], [netE], [netK]. *)
Definition settle (netS netE netK : Net) (started : option Started) (db : DB) : DB :=
  match started with
  | Some s =>
      processDocumentWithAI netS netE netK (started_docId s) (started_content s)
        (started_userId s) db
  | None => db
  end.

End Ingestion.

(** ** Vocabulary of the properties *)

(** Candidate number [i] fails: its turn of the loop ends in [continue]. *)
Definition candidate_fails (net : Net) (options : ChatOptions.t) (i : nat)
  (m : jsstring) : Prop :=
  exists e, try_model net options i m = Continue e.

(** A re-framed event carrying a truthy delta. *)
Definition reframed (Number_toString : Z -> Z -> jsstring) (event : jsstring) : Prop :=
  exists content,
    truthy content = true /\ event = content_event Number_toString content.

(** Ids are unique and below the next id to allocate: the invariant of
    the primary key. *)
Definition wf (db : DB) : Prop :=
  NoDup (map KnowledgeNode.id (knowledgeNodes db))
  /\ Forall (fun n => (KnowledgeNode.id n < nextId db)%N) (knowledgeNodes db).

(** At most one node per (owner, label). *)
Definition unique_labels (db : DB) : Prop :=
  NoDup (map (fun n => (KnowledgeNode.userId n, KnowledgeNode.label n))
           (knowledgeNodes db)).

(** The nodes of owner [u] whose label is one of [names]: what
    [findMany] selects. *)
Definition entity_nodes (u : jsstring) (names : list jsstring) (db : DB)
  : list KnowledgeNode.t :=
  filter (label_among u names) (knowledgeNodes db).

(** The connections stored for the row with this id (none if there is
    no such row). *)
Definition stored_connections (id : N) (db : DB) : list N :=
  match find (fun n => N.eqb (KnowledgeNode.id n) id) (knowledgeNodes db) with
  | Some n => KnowledgeNode.connections n
  | None => []
  end.

(** A change of rows that keeps id, owner, label and connections. *)
Definition keeps (g : KnowledgeNode.t -> KnowledgeNode.t) : Prop :=
  forall n,
    KnowledgeNode.id (g n) = KnowledgeNode.id n
    /\ KnowledgeNode.userId (g n) = KnowledgeNode.userId n
    /\ KnowledgeNode.label (g n) = KnowledgeNode.label n
    /\ KnowledgeNode.connections (g n) = KnowledgeNode.connections n.

(** A change of rows that keeps id, owner and label. *)
Definition keeps_keys (g : KnowledgeNode.t -> KnowledgeNode.t) : Prop :=
  forall n,
    KnowledgeNode.id (g n) = KnowledgeNode.id n
    /\ KnowledgeNode.userId (g n) = KnowledgeNode.userId n
    /\ KnowledgeNode.label (g n) = KnowledgeNode.label n.

(** What the last loop makes of row [m]: new connections if a node of
    [todo] has its id. *)
Definition rewire (nodes : list KnowledgeNode.t) (docNode : KnowledgeNode.t)
  (todo : list KnowledgeNode.t) (m : KnowledgeNode.t) : KnowledgeNode.t :=
  match find (fun n => N.eqb (KnowledgeNode.id n) (KnowledgeNode.id m)) todo with
  | Some n => set_connections (newConnections nodes docNode n) m
  | None => m
  end.

(** The store with its node rows replaced. *)
Definition with_nodes (db : DB) (ns : list KnowledgeNode.t) : DB :=
  {| documents := documents db; knowledgeNodes := ns; nextId := nextId db |}.

(** The row the first loop creates for an entity without node. *)
Definition new_entity_node (u : jsstring) (e : TypedEntity.t) (db : DB)
  : KnowledgeNode.t :=
  {| KnowledgeNode.id := nextId db;
     KnowledgeNode.userId := u;
     KnowledgeNode.label := TypedEntity.name e;
     KnowledgeNode.type := type_name (TypedEntity.type e);
     KnowledgeNode.description := js "Extracted from document";
     KnowledgeNode.strength := 1;
     KnowledgeNode.connections := [] |}.

(** How the rows after the first loop relate to the rows before: the
    old rows keep id, owner, label and connections; the new rows, which
    follow them, belong to [u], carry one of [names], have no
    connection and a fresh id. *)
Definition extends (u : jsstring) (names : list jsstring) (db db' : DB) : Prop :=
  exists g new,
    keeps g
    /\ knowledgeNodes db' = map g (knowledgeNodes db) ++ new
    /\ documents db' = documents db
    /\ (nextId db <= nextId db')%N
    /\ Forall (fun n => KnowledgeNode.userId n = u
                        /\ KnowledgeNode.label n ∈ names
                        /\ KnowledgeNode.connections n = []
                        /\ (nextId db <= KnowledgeNode.id n)%N) new.

(** The store the first loop leaves. *)
Definition after_upserts (u : jsstring) (es : list TypedEntity.t) (db : DB) : DB :=
  snd (upsert_entities u es db).

(** The label of the document node of document [docId]. *)
Definition merge_label (docId : N) (db : DB) : jsstring :=
  docNodeLabel (find (fun d => N.eqb (Document.id d) docId) (documents db)) docId.

(** The row created for a document without node. *)
Definition new_document_node (u label : jsstring) (nodes : list KnowledgeNode.t)
  (db : DB) : KnowledgeNode.t :=
  {| KnowledgeNode.id := nextId db;
     KnowledgeNode.userId := u;
     KnowledgeNode.label := label;
     KnowledgeNode.type := js "document";
     KnowledgeNode.description := js "Source document";
     KnowledgeNode.strength := 2;
     KnowledgeNode.connections := map KnowledgeNode.id nodes |}.

(** The document node and the store once it is found or created. *)
Definition with_document_node (u label : jsstring) (nodes : list KnowledgeNode.t)
  (db : DB) : KnowledgeNode.t * DB :=
  match find (node_matches u label) (knowledgeNodes db) with
  | Some n => (n, db)
  | None =>
      (new_document_node u label nodes db,
       {| documents := documents db;
          knowledgeNodes := knowledgeNodes db ++ [new_document_node u label nodes db];
          nextId := (nextId db + 1)%N |})
  end.

(** The store [mergeDocument] leaves, as a function of the store it
    starts from (see [mergeDocument_merged]). *)
Definition merged (u : jsstring) (docId : N) (es : list TypedEntity.t) (db : DB) : DB :=
  let dbU := after_upserts u es db in
  let nodes := entity_nodes u (map TypedEntity.name es) dbU in
  let docNode := fst (with_document_node u (merge_label docId dbU) nodes dbU) in
  let dbD := snd (with_document_node u (merge_label docId dbU) nodes dbU) in
  with_nodes dbD (map (rewire nodes docNode nodes) (knowledgeNodes dbD)).

(** Ids, owners, labels and connections of the rows, in store order. *)
Definition edges (db : DB) : list (N * jsstring * jsstring * list N) :=
  map (fun n => (KnowledgeNode.id n, KnowledgeNode.userId n, KnowledgeNode.label n,
                 KnowledgeNode.connections n))
    (knowledgeNodes db).

(** ** Sample inputs *)

(** The ASCII part of the case tables. *)
Definition toLowerCase_ascii (s : jsstring) : jsstring :=
  map (fun c => if (N.leb 65 c && N.leb c 90)%bool then (c + 32)%N else c) s.

(** A completion response carrying [content] as its first choice. *)
Definition completion_body (content : jsstring) : jsstring :=
  jsq "{'choices':[{'message':{'content':" ++ quote content ++ js "}}]}".

Definition respond (status : N) (text : jsstring) : FetchOutcome :=
  Responded {| status := status; body := BodyText text |}.

(** Every request is answered 200 with the same completion. *)
Definition net_always (content : jsstring) : Net :=
  fun _ _ => respond 200 (completion_body content).

(** Every request times out. *)
Definition net_down : Net :=
  fun _ _ => Rejected (ErrorObj (js "This operation was aborted")).

(** The first candidate answers 500, the second times out, the third
    answers an empty completion, any later one answers [content]. *)
Definition net_flaky (content : jsstring) : Net :=
  fun i _ =>
    match i with
    | 0 => respond 500 (js "Internal Server Error")
    | 1 => Rejected (ErrorObj (js "This operation was aborted"))
    | 2 => respond 200 (completion_body [])
    | _ => respond 200 (completion_body content)
    end.

Definition ask (question : string) (model : option jsstring) : ChatOptions.t :=
  {| ChatOptions.messages :=
       [ {| ChatMessage.role := user; ChatMessage.content := js question |} ];
     ChatOptions.maxTokens := None;
     ChatOptions.temperature := None;
     ChatOptions.stream := None;
     ChatOptions.model := model |}.

(** [Number::toString] for the integer literals below 2 ^ 53 (what the
    samples need). *)
Definition Number_toString_integer (m e : Z) : jsstring :=
  (if Z.ltb m 0 then js "-" else []) ++ decimal (Z.to_N (Z.abs m * 10 ^ e)).

(** One upstream event: [data: <payload>] and an empty line. *)
Definition sse (payload : jsstring) : jsstring :=
  js "data: " ++ payload ++ [10; 10]%N.

Definition delta_payload (content : jsstring) : jsstring :=
  jsq "{'choices':[{'delta':{'content':" ++ quote content ++ js "}}]}".

Definition typed (name : string) (type : EntityType) : TypedEntity.t :=
  {| TypedEntity.name := js name; TypedEntity.type := type |}.

Definition sample_document (id : N) (title content : string) : Document.t :=
  {| Document.id := id;
     Document.userId := js "user-1";
     Document.title := js title;
     Document.content := js content;
     Document.contentType := js "text";
     Document.domain := js "general";
     Document.fileUrl := None;
     Document.fileType := None;
     Document.fileSize := None;
     Document.summary := None;
     Document.entities := None;
     Document.keyPoints := None;
     Document.tags := None;
     Document.embedding := None |}.

(** A store with one document, titled "React", and no node yet. *)
Definition store_react : DB :=
  {| documents :=
       [sample_document 1 "React" "React is a library for building user interfaces."];
     knowledgeNodes := [];
     nextId := 2 |}.

(** The ids, labels, types, strengths and connections of the nodes. *)
Definition graph (db : DB) : list (N * jsstring * jsstring * Q * list N) :=
  map (fun n => (KnowledgeNode.id n, KnowledgeNode.label n, KnowledgeNode.type n,
                 KnowledgeNode.strength n, KnowledgeNode.connections n))
    (knowledgeNodes db).

(** [store_react] after the merge of the entity "Vue" for the document
    "React": the entity node, and the document node created for it. *)
Definition store_react_vue : DB :=
  {| documents := documents store_react;
     knowledgeNodes :=
       [ {| KnowledgeNode.id := 2;
            KnowledgeNode.userId := js "user-1";
            KnowledgeNode.label := js "Vue";
            KnowledgeNode.type := js "concept";
            KnowledgeNode.description := js "Extracted from document";
            KnowledgeNode.strength := 1;
            KnowledgeNode.connections := [3%N] |};
         {| KnowledgeNode.id := 3;
            KnowledgeNode.userId := js "user-1";
            KnowledgeNode.label := js "React";
            KnowledgeNode.type := js "document";
            KnowledgeNode.description := js "Source document";
            KnowledgeNode.strength := 2;
            KnowledgeNode.connections := [2%N] |} ];
     nextId := 4 |}.

(** The model names one entity, "React". *)
Definition net_entities : Net :=
  net_always (jsq "[{'name':'React','type':'entity'}]").

(** ** More of [lib/nvidia.ts] and of the ingestion route *)

(** [s.includes(p)] *)
Fixpoint includes (p s : jsstring) : bool :=
  match s with
  | [] => startsWith p []
  | _ :: s' => (startsWith p s || includes p s')%bool
  end.

(** [x || d] for a string [x] that may be [null]. *)
Definition or_else (x : option jsstring) (d : jsstring) : jsstring :=
  match x with
  | Some (c :: s) => c :: s
  | _ => d
  end.

(** *** OCR through the vision model ([extractTextFromImage]) *)

(** A Node [Buffer]: its bytes. *)
Definition Buffer : Type := list N.

(** The JSON body of the OCR request.  The image travels as the data URL
    [`data:${mimeType};base64,${base64Image}`], which the MIME type and
    the bytes determine. *)
Module VisionRequest.
Record t : Type := {
  model : jsstring;
  text : jsstring;
  image_mimeType : jsstring;
  image_bytes : Buffer;
  max_tokens : N;
  temperature : Q
}.
End VisionRequest.

Definition OCR_PROMPT : jsstring :=
  jsq "Extract all visible text from this image. Return ONLY the extracted text, no explanations or descriptions. If there is no text, return 'No text found'.".

Definition TypeError_trim : Thrown :=
  ErrorObj (js "data.choices?.[0]?.message?.content?.trim is not a function").

(** [content?.trim()]: [undefined] when [content] is [undefined] or
    [null]; only a string has [trim]. *)
Definition optional_trim (content : option JSON) : Result (option jsstring) :=
  match content with
  | None | Some JNull => Ok None
  | Some (JStr s) => Ok (Some (trim s))
  | Some _ => Throw TypeError_trim
  end.

Section Vision.

Variable NVIDIA_API_KEY : option jsstring.

Definition vision_request (buffer : Buffer) (mimeType : jsstring) : VisionRequest.t :=
  {| VisionRequest.model := js "meta/llama-3.2-90b-vision-instruct";
     VisionRequest.text := OCR_PROMPT;
     VisionRequest.image_mimeType := mimeType;
     VisionRequest.image_bytes := buffer;
     VisionRequest.max_tokens := 2048;
     VisionRequest.temperature := 2 # 10 |}.

(** The [try] block of [extractTextFromImage]; [fetch] answers its one
    request. *)
Definition extractTextFromImage_try (fetch : VisionRequest.t -> FetchOutcome)
  (buffer : Buffer) (mimeType : jsstring) : Result jsstring :=
  if negb (key_configured NVIDIA_API_KEY) then Throw not_configured
  else
    let* response :=
      match fetch (vision_request buffer mimeType) with
      | Responded r => Ok r
      | Rejected e => Throw e
      end in
    if negb (ok response) then
      let* errorText := response_text response in
      Throw (ErrorObj (js "NVIDIA API error: " ++ decimal (status response)
                       ++ js " - " ++ errorText))
    else
      let* data := response_json response in
      let* content := message_content data in
      let* trimmed := optional_trim content in
      let extractedText := or_else trimmed [] in
      Ok (if jsstring_eqb extractedText (js "No text found") then []
          else extractedText).

(** [extractTextFromImage]: the [catch] logs the error and returns the
    empty string. *)
Definition extractTextFromImage (fetch : VisionRequest.t -> FetchOutcome)
  (buffer : Buffer) (mimeType : jsstring) : jsstring :=
  match extractTextFromImage_try fetch buffer mimeType with
  | Ok extractedText => extractedText
  | Throw _ => []
  end.

End Vision.

(** *** Regular expressions of the PPTX parser *)

(** Canonicalisation of a case-insensitive match (flag [i] without
    [u]): a unit outside ASCII never matches an ASCII one, so against an
    ASCII pattern only the ASCII letters fold. *)
Definition ascii_upper (c : N) : N :=
  if (N.leb 97 c && N.leb c 122)%bool then (c - 32)%N else c.

(** The literal [p], whatever the case, at the start of [s]: what
    follows it. *)
Fixpoint after_prefix_ci (p s : jsstring) : option jsstring :=
  match p, s with
  | [], _ => Some s
  | _ :: _, [] => None
  | a :: p', b :: s' =>
      if N.eqb (ascii_upper a) (ascii_upper b) then after_prefix_ci p' s' else None
  end.

(** The rest of [s] after its leading digits. *)
Fixpoint after_digits (s : jsstring) : jsstring :=
  match s with
  | c :: s' => if is_digit c then after_digits s' else s
  | [] => []
  end.

(** [/^ppt\/slides\/slide\d+\.xml$/i.test(name)] *)
Definition is_slide_path (name : jsstring) : bool :=
  match after_prefix_ci (js "ppt/slides/slide") name with
  | Some rest =>
      (match rest with
       | c :: _ => is_digit c
       | [] => false
       end
       && match after_prefix_ci (js ".xml") (after_digits rest) with
          | Some [] => true
          | _ => false
          end)%bool
  | None => false
  end.

(** [a < b] by UTF-16 code units: the order of the default [sort]. *)
Fixpoint jsstring_ltb (a b : jsstring) : bool :=
  match a, b with
  | _, [] => false
  | [], _ :: _ => true
  | x :: a', y :: b' => (N.ltb x y || (N.eqb x y && jsstring_ltb a' b'))%bool
  end.

Fixpoint insert_sorted (x : jsstring) (l : list jsstring) : list jsstring :=
  match l with
  | [] => [x]
  | y :: l' => if jsstring_ltb x y then x :: l else y :: insert_sorted x l'
  end.

(** [names.sort()], for strings: the ascending arrangement (equal
    strings cannot be told apart, so the sort being stable plays no
    part). *)
Definition Array_sort (names : list jsstring) : list jsstring :=
  fold_right insert_sorted [] names.

(** A greedy run of units other than [>], then [>], at the start of
    [s]: the run before the first [>], and what follows that [>].  (A
    shorter run is followed by a unit that is not [>]: backtracking
    finds no other match.) *)
Fixpoint until_gt (s : jsstring) : option (jsstring * jsstring) :=
  match s with
  | [] => None
  | c :: s' =>
      if N.eqb c 62 then Some ([], s')
      else match until_gt s' with
           | Some (run, rest) => Some (c :: run, rest)
           | None => None
           end
  end.

(** A greedy run of units other than [<] at the start of [s]: the
    longest such run, and what follows it. *)
Fixpoint text_run (s : jsstring) : jsstring * jsstring :=
  match s with
  | [] => ([], [])
  | c :: s' =>
      if N.eqb c 60 then ([], s)
      else let '(run, rest) := text_run s' in (c :: run, rest)
  end.

(** The pattern of the slide parser at the start of [s]: [<a:t], a run
    without [>], [>], a run without [<] (the group), [</a:t>].  The
    text matched. *)
Definition text_element (s : jsstring) : option jsstring :=
  if startsWith (js "<a:t") s then
    match until_gt (drop 4 s) with
    | Some (attributes, s1) =>
        let '(text, s2) := text_run s1 in
        if startsWith (js "</a:t>") s2
        then Some (js "<a:t" ++ attributes ++ js ">" ++ text ++ js "</a:t>")
        else None
    | None => None
    end
  else None.

(** [xml.match] of that pattern with the flag [g]: the matches from
    the left, each search starting where the previous match ended
    ([skip] units of the current match are still to pass); the empty
    list stands for [null]. *)
Fixpoint text_elements_from (s : jsstring) (skip : nat) : list jsstring :=
  match s with
  | [] => []
  | _ :: s' =>
      match skip with
      | S k => text_elements_from s' k
      | O =>
          match text_element s with
          | Some m => m :: text_elements_from s' (length m - 1)
          | None => text_elements_from s' 0
          end
      end
  end.

Definition text_elements (xml : jsstring) : list jsstring :=
  text_elements_from xml 0.

(** [/<[^>]+>/] at the start of [s]: the length of the match. *)
Definition tag_length (s : jsstring) : option nat :=
  match s with
  | c :: s' =>
      if N.eqb c 60 then
        match until_gt s' with
        | Some (_ :: inner, _) => Some (length inner + 3)
        | _ => None
        end
      else None
  | [] => None
  end.

(** [m.replace(/<[^>]+>/g, '')] *)
Fixpoint strip_tags_from (s : jsstring) (skip : nat) : jsstring :=
  match s with
  | [] => []
  | c :: s' =>
      match skip with
      | S k => strip_tags_from s' k
      | O =>
          match tag_length s with
          | Some n => strip_tags_from s' (n - 1)
          | None => c :: strip_tags_from s' 0
          end
      end
  end.

Definition strip_tags (m : jsstring) : jsstring := strip_tags_from m 0.

(** The body of the loop over the slides, for the XML of one slide: the
    text pushed, if any. *)
Definition slide_text (xml : jsstring) : option jsstring :=
  match text_elements xml with
  | [] => None
  | matches => Some (join (js " ") (map strip_tags matches))
  end.

(** *** The file parsers of the route *)

(** An archive opened by JSZip: its entries in the order of
    [Object.keys(zip.files)], each with what [async('text')] gives. *)
Definition Zip : Type := list (jsstring * Result jsstring).

Definition TypeError_undefined : Thrown :=
  ErrorObj (js "Cannot read properties of undefined").

(** [await zip.files[slidePath].async('text')] *)
Definition zip_text (zip : Zip) (slidePath : jsstring) : Result jsstring :=
  match find (fun entry => jsstring_eqb (fst entry) slidePath) zip with
  | Some entry => snd entry
  | None => Throw TypeError_undefined
  end.

(** [for (const slidePath of slideFiles)]; [texts] is the array so far. *)
Fixpoint slides_loop (zip : Zip) (slideFiles : list jsstring) (texts : list jsstring)
  : Result (list jsstring) :=
  match slideFiles with
  | [] => Ok texts
  | slidePath :: rest =>
      let* xml := zip_text zip slidePath in
      slides_loop zip rest
        (match slide_text xml with
         | Some slideText => texts ++ [slideText]
         | None => texts
         end)
  end.

Definition textExtensions : list jsstring :=
  [js "txt"; js "md"; js "markdown"; js "json"; js "csv"; js "xml"; js "html";
   js "css"; js "js"; js "ts"; js "py"].

Definition imageExtensions : list jsstring :=
  [js "png"; js "jpg"; js "jpeg"; js "gif"; js "webp"].

Definition MIME_docx : jsstring :=
  js "application/vnd.openxmlformats-officedocument.wordprocessingml.document".

Definition MIME_pptx : jsstring :=
  js "application/vnd.openxmlformats-officedocument.presentationml.presentation".

(** [str.replace(/\x00/g, '')] *)
Definition remove_NUL (s : jsstring) : jsstring :=
  filter (fun c => c <> 0%N) s.

(** [(size / 1024).toFixed(1)]: the quotient is exact in binary64 for
    any size a file can have, and [toFixed] rounds it to the nearest
    tenth, a tie going up. *)
Definition kilobytes_toFixed1 (size : N) : jsstring :=
  let tenths := ((20 * size + 1024) / 2048)%N in
  decimal (tenths / 10) ++ js "." ++ decimal (tenths mod 10).

(** An uploaded [File]; [file.size] is the number of its bytes. *)
Record File : Type := {
  file_name : jsstring;
  file_type : jsstring;
  file_bytes : Buffer
}.

Definition file_size (file : File) : N := N.of_nat (length (file_bytes file)).

(** The fields of the multipart form that [POST] reads. *)
Record FormData : Type := {
  form_file : option File;
  form_title : option jsstring;
  form_content : option jsstring;
  form_type : option jsstring;
  form_domain : option jsstring
}.

Section Files.

Variable toLowerCase : jsstring -> jsstring.

(** [buffer.toString('utf-8')]: the decoder is outside the program. *)
Variable utf8_decode : Buffer -> jsstring.

(** The libraries behind the parsers, as what their calls settle to:
    [mammoth.extractRawText] (its [value]), [extractText] of unpdf with
    [mergePages] (its [text]), [JSZip.loadAsync]. *)
Variable mammoth_extractRawText : Buffer -> Result jsstring.
Variable unpdf_extractText : Buffer -> Result jsstring.
Variable JSZip_loadAsync : Buffer -> Result Zip.

(** The vision endpoint and the key [extractTextFromImage] uses. *)
Variable NVIDIA_API_KEY : option jsstring.
Variable vision : VisionRequest.t -> FetchOutcome.

(** [put] of [@vercel/blob] for this upload: the URL of the blob. *)
Variable blob_put : File -> Result jsstring.

(** [filename.split('.').pop()?.toLowerCase() || ''] *)
Definition getFileExtension (filename : jsstring) : jsstring :=
  match last (split_on 46 filename) with
  | Some segment => toLowerCase segment
  | None => []
  end.

Definition isTextFile (filename mimeType : jsstring) : bool :=
  let ext := getFileExtension filename in
  (bool_decide (ext ∈ textExtensions) || startsWith (js "text/") mimeType)%bool.

Definition extractTextFromDocx (buffer : Buffer) : jsstring :=
  match mammoth_extractRawText buffer with
  | Ok value => value
  | Throw _ => []
  end.

Definition extractTextFromPdf (buffer : Buffer) : jsstring :=
  match unpdf_extractText buffer with
  | Ok text => text
  | Throw _ => []
  end.

(** The [try] block of [extractTextFromPptx]. *)
Definition extractTextFromPptx_try (buffer : Buffer) : Result jsstring :=
  let* zip := JSZip_loadAsync buffer in
  let slideFiles := Array_sort (filter (fun name => is_slide_path name) (map fst zip)) in
  let* texts := slides_loop zip slideFiles [] in
  Ok (join [10; 10]%N texts).

Definition extractTextFromPptx (buffer : Buffer) : jsstring :=
  match extractTextFromPptx_try buffer with
  | Ok text => text
  | Throw _ => []
  end.

(** [extractTextFromFile]: every branch catches what it throws. *)
Definition extractTextFromFile (filename : jsstring) (buffer : Buffer)
  (mimeType : jsstring) : jsstring :=
  let ext := getFileExtension filename in
  if (jsstring_eqb ext (js "docx") || jsstring_eqb mimeType MIME_docx)%bool
  then extractTextFromDocx buffer
  else if (jsstring_eqb ext (js "pdf") || jsstring_eqb mimeType (js "application/pdf"))%bool
  then extractTextFromPdf buffer
  else if (jsstring_eqb ext (js "pptx") || jsstring_eqb mimeType MIME_pptx)%bool
  then extractTextFromPptx buffer
  else if (bool_decide (ext ∈ imageExtensions) || startsWith (js "image/") mimeType)%bool
  then extractTextFromImage NVIDIA_API_KEY vision buffer
         (match mimeType with
          | _ :: _ => mimeType
          | [] => js "image/" ++ ext
          end)
  else utf8_decode buffer.

(** [`[File: ${file.name}] (${file.type || 'unknown type'}, ${(file.size / 1024).toFixed(1)} KB)`] *)
Definition file_placeholder (file : File) : jsstring :=
  js "[File: " ++ file_name file ++ js "] ("
  ++ or_else (Some (file_type file)) (js "unknown type")
  ++ js ", " ++ kilobytes_toFixed1 (file_size file) ++ js " KB)".

(** The [content] that [POST] takes from an uploaded file.  The [catch]
    around [extractTextFromFile] never runs: that call does not throw. *)
Definition file_content (file : File) : jsstring :=
  if isTextFile (file_name file) (file_type file) then
    trim (remove_NUL (utf8_decode (file_bytes file)))
  else
    let content :=
      trim (remove_NUL
              (extractTextFromFile (file_name file) (file_bytes file) (file_type file))) in
    if (bool_decide (content = []) || Nat.ltb (length (trim content)) 10)%bool
    then file_placeholder file
    else content.

(** The multipart branch of [POST], up to [if (!title)]. *)
Definition decode_multipart (formData : FormData) : Upload :=
  match form_file formData with
  | Some file =>
      if N.ltb 0 (file_size file) then
        let ext := getFileExtension (file_name file) in
        {| up_title := Some (or_else (form_title formData) (file_name file));
           up_content := Some (file_content file);
           up_contentType :=
             if (jsstring_eqb ext (js "md") || jsstring_eqb ext (js "markdown"))%bool
             then js "markdown"
             else if jsstring_eqb ext (js "json") then js "json" else ext;
           up_domain := or_else (form_domain formData) (js "general");
           up_fileUrl :=
             match blob_put file with
             | Ok url => Some url
             | Throw _ => None
             end;
           up_fileType := Some (or_else (Some (file_type file)) ext);
           up_fileSize := Some (file_size file) |}
      else
        {| up_title := Some (or_else (form_title formData) []);
           up_content := Some (or_else (form_content formData) []);
           up_contentType := or_else (form_type formData) (js "text");
           up_domain := or_else (form_domain formData) (js "general");
           up_fileUrl := None;
           up_fileType := None;
           up_fileSize := None |}
  | None =>
      {| up_title := Some (or_else (form_title formData) []);
         up_content := Some (or_else (form_content formData) []);
         up_contentType := or_else (form_type formData) (js "text");
         up_domain := or_else (form_domain formData) (js "general");
         up_fileUrl := None;
         up_fileType := None;
         up_fileSize := None |}
  end.

(** [POST] for a request whose content type includes
    [multipart/form-data]. *)
Definition POST_multipart (session : option jsstring) (formData : FormData) (db : DB)
  : HttpResponse * DB * option Started :=
  POST session (decode_multipart formData) db.

End Files.

(** ** The pages that read what the server wrote *)

Definition TypeError_primitive : Thrown :=
  ErrorObj (js "Cannot convert object to primitive value").

(** What the chat page has gathered from the event stream. *)
Record ChatProgress : Type := {
  fullContent : jsstring;
  sources : JSON;
  newConvId : option JSON
}.

Definition chat_start : ChatProgress :=
  {| fullContent := []; sources := JArr []; newConvId := None |}.

Section Pages.

Variable Number_toString : Z -> Z -> jsstring.

(** [ToString] of a parsed value, as [fullContent += v] applies it: an
    array joins its items with commas ([null] gives nothing), an object
    is [[object Object]] unless an own [toString] property, which is no
    function, hides the inherited one. *)
Fixpoint ToString (v : JSON) : Result jsstring :=
  match v with
  | JNull => Ok (js "null")
  | JBool true => Ok (js "true")
  | JBool false => Ok (js "false")
  | JNum m e => Ok (Number_toString m e)
  | JStr s => Ok s
  | JArr items =>
      let* parts :=
        (fix each (l : list JSON) : Result (list jsstring) :=
           match l with
           | [] => Ok []
           | x :: l' =>
               let* p := match x with
                         | JNull => Ok []
                         | _ => ToString x
                         end in
               let* ps := each l' in
               Ok (p :: ps)
           end) items in
      Ok (join (js ",") parts)
  | JObj props =>
      if existsb (fun p => jsstring_eqb (fst p) (js "toString")) props
      then Throw TypeError_primitive
      else Ok (js "[object Object]")
  end.

(** The [try] block of the loop over the lines of [sendMessage], for
    the payload [data] of a line. *)
Definition chat_data (st : ChatProgress) (data : jsstring) : Result ChatProgress :=
  let* parsed := parse_or_throw data in
  let* content := member (js "content") parsed in
  let* fullContent' :=
    match content with
    | Some c =>
        if truthy c then
          let* text := ToString c in Ok (fullContent st ++ text)
        else Ok (fullContent st)
    | None => Ok (fullContent st)
    end in
  if truthy_opt (get_named (js "done") parsed) then
    Ok {| fullContent := fullContent';
          sources :=
            match get_named (js "sources") parsed with
            | Some s => if truthy s then s else sources st
            | None => sources st
            end;
          newConvId :=
            match get_named (js "conversationId") parsed with
            | Some c => if truthy c then Some c else newConvId st
            | None => newConvId st
            end |}
  else
    Ok {| fullContent := fullContent';
          sources := sources st;
          newConvId := newConvId st |}.

(** The body of [for (const line of lines)]; the [catch] is empty. *)
Definition chat_line (st : ChatProgress) (line : jsstring) : ChatProgress :=
  if startsWith (js "data: ") line then
    let data := trim (slice_from 6 line) in
    if jsstring_eqb data (js "[DONE]") then st
    else match chat_data st data with
         | Ok st' => st'
         | Throw _ => st
         end
  else st.

(** The [while (true)] loop over the reads of the response body: the
    state when the body is exhausted, or the error of a failed read. *)
Fixpoint chat_reads (reads : list ReadResult) (st : ChatProgress)
  : Result ChatProgress :=
  match reads with
  | [] => Ok st
  | Chunk text :: rest => chat_reads rest (fold_left chat_line (split_on 10 text) st)
  | ReadFailed e :: _ => Throw e
  end.

(** The text of a column written as [JSON.stringify] of an array of
    strings ([tags], [entities] of [processDocumentWithAI]). *)
Definition strings_column (values : list jsstring) : jsstring :=
  JSON_stringify Number_toString (JArr (map JStr values)).

(** [parseTags] of the vault page. *)
Definition parseTags (tags : option jsstring) : JSON :=
  match JSON_parse (or_else tags (js "[]")) with
  | Some parsed => parsed
  | None => JArr []
  end.

End Pages.

(** The store after [prisma.document.update] has patched the rows with
    id [docId]. *)
Definition with_document (docId : N) (patch : Document.t -> Document.t) (db : DB) : DB :=
  {| documents :=
       map (fun d => if N.eqb (Document.id d) docId then patch d else d) (documents db);
     knowledgeNodes := knowledgeNodes db;
     nextId := nextId db |}.

(** A string is made of UTF-16 code units. *)
Definition code_units (s : jsstring) : Prop := Forall (fun c => (c < 65536)%N) s.

(** What the streaming gateway enqueues: a text delta, re-framed, or
    the sentinel. *)
Inductive StreamEvent : Type :=
| Delta (content : jsstring)
| Done.

Definition event_text (Number_toString : Z -> Z -> jsstring) (e : StreamEvent)
  : jsstring :=
  match e with
  | Delta content => content_event Number_toString (JStr content)
  | Done => DONE_event
  end.

(** The text the deltas of a list of events make, end to end. *)
Definition deltas_text (events : list StreamEvent) : jsstring :=
  concat (map (fun e => match e with
                        | Delta content => content
                        | Done => []
                        end) events).

Definition valid_event (e : StreamEvent) : Prop :=
  match e with
  | Delta content => code_units content
  | Done => True
  end.

(** The chat page once it has appended [text] to the answer. *)
Definition chat_append (st : ChatProgress) (text : jsstring) : ChatProgress :=
  {| fullContent := fullContent st ++ text;
     sources := sources st;
     newConvId := newConvId st |}.

(** The payload of a re-framed delta. *)
Definition content_payload (content : jsstring) : jsstring :=
  js "{" ++ quote (js "content") ++ js ":" ++ quote content ++ js "}".

(** What the gateway enqueues for a text delta of the provider: nothing
    for the empty text. *)
Definition reframed_delta (Number_toString : Z -> Z -> jsstring) (content : jsstring)
  : list jsstring :=
  match content with
  | [] => []
  | _ :: _ => [content_event Number_toString (JStr content)]
  end.

(** A parser library that fails on every file. *)
Definition parser_fails {A : Type} : Buffer -> Result A :=
  fun _ => Throw (ErrorObj (js "Unsupported file")).

(** UTF-8 decoding, for bytes that are all ASCII. *)
Definition utf8_ascii (buffer : Buffer) : jsstring := buffer.

(** A vision endpoint that reads the same text in every image. *)
Definition vision_reads (content : jsstring) : VisionRequest.t -> FetchOutcome :=
  fun _ => respond 200 (completion_body content).

Definition blob_stored : File -> Result jsstring :=
  fun _ => Ok (js "https://store.example/documents/user-1/scan.png").

(** A scanned image in which the vision model finds one word. *)
Definition scan_png : File :=
  {| file_name := js "scan.png";
     file_type := js "image/png";
     file_bytes := [137; 80; 78; 71; 13; 10; 26; 10]%N |}.

Definition upload_scan : FormData :=
  {| form_file := Some scan_png;
     form_title := Some (js "scan.png");
     form_content := None;
     form_type := None;
     form_domain := None |}.

(** A node of another user, under a label the first user has too. *)
Definition other_vue : KnowledgeNode.t :=
  {| KnowledgeNode.id := 4;
     KnowledgeNode.userId := js "user-2";
     KnowledgeNode.label := js "Vue";
     KnowledgeNode.type := js "entity";
     KnowledgeNode.description := js "Extracted from document";
     KnowledgeNode.strength := 1;
     KnowledgeNode.connections := [] |}.

(** [store_react_vue] in a store that a second user shares. *)
Definition store_shared : DB :=
  {| documents := documents store_react_vue;
     knowledgeNodes := knowledgeNodes store_react_vue ++ [other_vue];
     nextId := 5 |}.

(* ================================================================== *)
(** * Part II: properties                                             *)
(* ================================================================== *)

(** ** The embedding *)

Section EmbeddingFacts.

Variable toLowerCase : jsstring -> jsstring.

Lemma bucket_lt (c : N) (i : nat) : bucket c i < dim.
Proof.
  unfold bucket, dim.
  match goal with
  | |- N.to_nat (?x mod ?d) < _ =>
      assert (H : (x mod d < d)%N) by (apply N.mod_lt; discriminate)
  end.
  lia.
Qed.

Lemma length_bump (emb : list R) (idx : nat) : length (bump emb idx) = length emb.
Proof. apply length_alter. Qed.

Lemma length_word_loop (w : jsstring) :
  forall i emb, length (word_loop w i emb) = length emb.
Proof.
  induction w as [|c w IH]; intros i emb; simpl; [reflexivity|].
  rewrite IH. apply length_bump.
Qed.

Lemma length_words_loop (ws : list jsstring) :
  forall emb, length (words_loop ws emb) = length emb.
Proof.
  unfold words_loop.
  induction ws as [|w ws IH]; intros emb; simpl; [reflexivity|].
  rewrite IH. apply length_word_loop.
Qed.

Lemma lookup_bump (emb : list R) (idx b : nat) (v : R) :
  emb !! b = Some v ->
  bump emb idx !! b = Some (v + (if Nat.eqb idx b then 1 else 0))%R.
Proof.
  intros Hb. unfold bump.
  destruct (Nat.eqb_spec idx b) as [->|Hne].
  - rewrite list_lookup_alter_eq, Hb. reflexivity.
  - rewrite list_lookup_alter_ne by exact Hne. rewrite Hb. f_equal. lra.
Qed.

(** After the inner loop, bucket [b] has grown by the number of
    positions of the word that hash to [b]. *)
Lemma lookup_word_loop (b : nat) (w : jsstring) :
  forall i emb v,
    emb !! b = Some v ->
    word_loop w i emb !! b = Some (v + INR (hits_in_word b w i))%R.
Proof.
  induction w as [|c w IH]; intros i emb v Hb; simpl.
  - rewrite Hb. f_equal. lra.
  - erewrite IH by (apply lookup_bump; exact Hb).
    f_equal. rewrite plus_INR.
    destruct (Nat.eqb (bucket c i) b); simpl; lra.
Qed.

Lemma lookup_words_loop (b : nat) (ws : list jsstring) :
  forall emb v,
    emb !! b = Some v ->
    words_loop ws emb !! b = Some (v + INR (bucket_sum ws b))%R.
Proof.
  unfold words_loop, bucket_sum.
  induction ws as [|w ws IH]; intros emb v Hb; simpl.
  - rewrite Hb. f_equal. lra.
  - erewrite IH by (apply lookup_word_loop; exact Hb).
    f_equal. rewrite plus_INR. lra.
Qed.

(** The two loops compute the vector of bucket sums. *)
Lemma words_loop_bucket_sums (ws : list jsstring) :
  words_loop ws (replicate dim 0%R) = map (fun b => INR (bucket_sum ws b)) (seq 0 dim).
Proof.
  apply list_eq. intros b.
  destruct (Nat.lt_ge_cases b dim) as [Hlt|Hge].
  - rewrite (lookup_words_loop b ws _ 0%R).
    + rewrite list_lookup_fmap, lookup_seq_lt by exact Hlt. simpl. f_equal. lra.
    + apply lookup_replicate_2. exact Hlt.
  - rewrite !lookup_ge_None_2; [reflexivity| |].
    + rewrite length_map, length_seq. exact Hge.
    + rewrite length_words_loop, length_replicate. exact Hge.
Qed.

Lemma fold_left_squares (l : list R) :
  forall acc : R,
    fold_left (fun sum val => (sum + val * val)%R) l acc
    = (acc + fold_right (fun x a => (x * x + a)%R) 0%R l)%R.
Proof.
  induction l as [|x l IH]; intros acc; simpl; [lra|].
  rewrite IH. lra.
Qed.

Lemma sum_squares_norm (v : list R) : sqrt (sum_squares v) = euclidean_norm v.
Proof.
  unfold sum_squares, euclidean_norm. rewrite fold_left_squares. f_equal. lra.
Qed.

Lemma squares_nonneg (v : list R) :
  (0 <= fold_right (fun x a => (x * x + a)%R) 0%R v)%R.
Proof.
  induction v as [|x v IH]; simpl; [lra|]. nra.
Qed.

Lemma squares_scaled (k : R) (v : list R) :
  fold_right (fun x a => (x * x + a)%R) 0%R (map (fun x => (x / k)%R) v)
  = (fold_right (fun x a => (x * x + a)%R) 0%R v / (k * k))%R.
Proof.
  induction v as [|x v IH]; simpl.
  - unfold Rdiv. lra.
  - rewrite IH. unfold Rdiv.
    destruct (Req_dec_T k 0) as [->|Hk].
    + rewrite !Rmult_0_l, Rinv_0. lra.
    + field. exact Hk.
Qed.

(** Dividing a vector by its non-zero norm gives a vector of norm one. *)
Lemma normalized_norm (v : list R) :
  euclidean_norm v <> 0%R ->
  euclidean_norm (map (fun x => (x / euclidean_norm v)%R) v) = 1%R.
Proof.
  intros Hn. unfold euclidean_norm at 1. rewrite squares_scaled.
  fold (euclidean_norm v) in *.
  unfold euclidean_norm in *.
  rewrite sqrt_sqrt by apply squares_nonneg.
  set (s := fold_right _ _ v) in *.
  assert (Hs : s <> 0%R) by (intros E; apply Hn; rewrite E; apply sqrt_0).
  replace (s / s)%R with 1%R by (field; exact Hs).
  apply sqrt_1.
Qed.

Lemma squares_zero_iff (v : list R) :
  fold_right (fun x a => (x * x + a)%R) 0%R v = 0%R <-> Forall (fun x => x = 0%R) v.
Proof.
  induction v as [|x v IH]; simpl.
  - split; [constructor | reflexivity].
  - pose proof (squares_nonneg v) as Hv. split.
    + intros H. assert (x = 0%R) by nra.
      constructor; [assumption|]. apply IH. nra.
    + intros H. inversion H as [|? ? Hx Hrest]; subst.
      apply IH in Hrest. rewrite Hrest. lra.
Qed.

Lemma norm_zero_iff (v : list R) :
  euclidean_norm v = 0%R <-> Forall (fun x => x = 0%R) v.
Proof.
  unfold euclidean_norm. rewrite <- squares_zero_iff. split.
  - intros H. apply sqrt_eq_0; [apply squares_nonneg | exact H].
  - intros ->. apply sqrt_0.
Qed.

Lemma generateEmbeddingSimple_closed_form (text : jsstring) :
  generateEmbeddingSimple toLowerCase text = embed_closed_form toLowerCase text.
Proof.
  unfold generateEmbeddingSimple, embed_closed_form, bucket_sums.
  rewrite words_loop_bucket_sums, sum_squares_norm.
  set (v := map _ (seq 0 dim)).
  pose proof (sqrt_pos (fold_right (fun x a => (x * x + a)%R) 0%R v)) as Hpos.
  fold (euclidean_norm v) in Hpos.
  destruct (Rlt_dec 0 (euclidean_norm v)) as [Hlt|Hnlt];
    destruct (Req_dec_T (euclidean_norm v) 0) as [Heq|Hne];
    try reflexivity; lra.
Qed.

Lemma bucket_sums_all_zero (text : jsstring) :
  (forall b, bucket_sum (split_ws (toLowerCase text)) b = 0) ->
  bucket_sums toLowerCase text = replicate dim 0%R.
Proof.
  intros Hz. unfold bucket_sums.
  apply list_eq. intros b.
  destruct (Nat.lt_ge_cases b dim) as [Hlt|Hge].
  - rewrite list_lookup_fmap, lookup_seq_lt, lookup_replicate_2 by exact Hlt.
    simpl. rewrite Hz. reflexivity.
  - rewrite !lookup_ge_None_2; [reflexivity| |].
    + rewrite length_replicate. exact Hge.
    + rewrite length_map, length_seq. exact Hge.
Qed.

Lemma bucket_sums_some_nonzero (text : jsstring) (b : nat) :
  bucket_sum (split_ws (toLowerCase text)) b <> 0 ->
  euclidean_norm (bucket_sums toLowerCase text) <> 0%R.
Proof.
  intros Hb Hn. apply norm_zero_iff in Hn.
  assert (Hlt : b < dim).
  { destruct (Nat.lt_ge_cases b dim) as [Hlt|Hge]; [exact Hlt|].
    exfalso. apply Hb. unfold bucket_sum.
    assert (Hall : forall w i, hits_in_word b w i = 0).
    { induction w as [|c w IH]; intros i; simpl; [reflexivity|].
      rewrite IH. pose proof (bucket_lt c i).
      destruct (Nat.eqb_spec (bucket c i) b); lia. }
    generalize (split_ws (toLowerCase text)). clear Hb Hn.
    intros ws. induction ws as [|w ws IH]; simpl; [reflexivity|].
    rewrite Hall, IH. reflexivity. }
  rewrite Forall_forall in Hn.
  specialize (Hn (INR (bucket_sum (split_ws (toLowerCase text)) b))).
  apply Hb. apply INR_eq. simpl. apply Hn.
  unfold bucket_sums. apply list_elem_of_In, in_map_iff. exists b. split; [reflexivity|].
  apply in_seq. lia.
Qed.

End EmbeddingFacts.

(** *** The loops compute the reference embedding *)

Lemma is_js_space_reference (c : N) : is_js_space c = reference_space c.
Proof.
  apply eq_true_iff_eq. unfold is_js_space, reference_space. cbn [existsb].
  rewrite !orb_true_iff, andb_true_iff, !N.eqb_eq, !N.leb_le. lia.
Qed.

(** The pieces [split] returns are the words and, at either end of a
    text that starts or ends with white space, an empty piece. *)
Lemma split_ws_from_words (s : jsstring) :
  forall cur in_ws,
    (in_ws = true -> cur = []) ->
    List.filter (fun w => negb (bool_decide (w = []))) (split_ws_from s cur in_ws)
    = reference_words_from (rev cur) s.
Proof.
  induction s as [|c s IH]; intros cur in_ws Hws.
  - simpl. destruct (rev cur); reflexivity.
  - cbn [split_ws_from reference_words_from].
    rewrite is_js_space_reference. destruct (reference_space c).
    + destruct in_ws.
      * rewrite (Hws eq_refl). simpl. apply (IH [] true). reflexivity.
      * cbn [List.filter]. rewrite (IH [] true) by reflexivity.
        destruct (rev cur); reflexivity.
    + rewrite (IH (c :: cur) false) by discriminate. reflexivity.
Qed.

Lemma split_ws_words (s : jsstring) :
  List.filter (fun w => negb (bool_decide (w = []))) (split_ws s) = reference_words s.
Proof. apply (split_ws_from_words s [] false). discriminate. Qed.

Lemma bucket_reference (c : N) (i : nat) : bucket c i = reference_bucket c i.
Proof.
  unfold bucket, reference_bucket, dim.
  rewrite N2Nat.inj_mod, !N2Nat.inj_mul, !Nat2N.id. reflexivity.
Qed.

Lemma filter_shift (f : nat -> bool) (l : list nat) :
  List.filter f (map S l) = map S (List.filter (fun i => f (S i)) l).
Proof.
  induction l as [|i l IH]; [reflexivity|].
  cbn [map List.filter]. destruct (f (S i)); cbn [map]; rewrite IH; reflexivity.
Qed.

Lemma hits_in_word_count (b : nat) (w : jsstring) :
  forall k,
    hits_in_word b w k
    = length (List.filter
                (fun i => Nat.eqb (reference_bucket (nth i w 0%N) (k + i)) b)
                (seq 0 (length w))).
Proof.
  induction w as [|c w IH]; intros k; [reflexivity|].
  cbn [hits_in_word length]. rewrite bucket_reference, (IH (S k)).
  rewrite <- cons_seq, <- seq_shift. cbn [List.filter nth].
  rewrite Nat.add_0_r, filter_shift.
  assert (Hext :
            forall l,
              List.filter
                (fun i => Nat.eqb (reference_bucket (nth i w 0%N) (S k + i)) b) l
              = List.filter
                  (fun i => Nat.eqb (reference_bucket (nth (S i) (c :: w) 0%N)
                                       (k + S i)) b) l).
  { intros l. apply filter_ext. intros i. cbn [nth]. rewrite Nat.add_succ_r.
    reflexivity. }
  rewrite Hext.
  destruct (Nat.eqb (reference_bucket c k) b); cbn [length]; rewrite length_map;
    reflexivity.
Qed.

Lemma bucket_sum_nonempty (ws : list jsstring) (b : nat) :
  bucket_sum ws b
  = reference_count b (List.filter (fun w => negb (bool_decide (w = []))) ws).
Proof.
  unfold bucket_sum, reference_count.
  induction ws as [|w ws IH]; [reflexivity|].
  destruct w as [|c w].
  - exact IH.
  - change (List.filter (fun w => negb (bool_decide (w = []))) ((c :: w) :: ws))
      with ((c :: w) :: List.filter (fun w => negb (bool_decide (w = []))) ws).
    assert (Hcons : forall (f : jsstring -> nat) x l,
               list_sum (map f (x :: l)) = f x + list_sum (map f l))
      by reflexivity.
    rewrite !Hcons. f_equal; [apply (hits_in_word_count b (c :: w) 0) | exact IH].
Qed.

Lemma bucket_sum_count (s : jsstring) (b : nat) :
  bucket_sum (split_ws s) b = reference_count b (reference_words s).
Proof. rewrite bucket_sum_nonempty, split_ws_words. reflexivity. Qed.

Lemma reference_words_from_nonempty (s : jsstring) :
  forall word, Forall (fun w => w <> []) (reference_words_from word s).
Proof.
  induction s as [|c s IH]; intros word; simpl.
  - destruct word; repeat constructor. discriminate.
  - destruct (reference_space c); [|apply IH].
    destruct word; [apply IH|]. constructor; [discriminate | apply IH].
Qed.

(** Every count is zero exactly when the text has no word. *)
Lemma reference_count_zero (words : list jsstring) :
  Forall (fun w => w <> []) words ->
  (forall b, reference_count b words = 0) <-> words = [].
Proof.
  intros Hne. split; [|intros ->; reflexivity].
  intros Hz. destruct words as [|[|c w] ws]; [reflexivity| |].
  - apply Forall_cons in Hne as [H _]. contradiction.
  - specialize (Hz (reference_bucket c 0)). unfold reference_count in Hz.
    cbn [map list_sum length seq List.filter nth] in Hz.
    rewrite Nat.eqb_refl in Hz. simpl in Hz. discriminate.
Qed.

Lemma generateEmbeddingSimple_reference_embedding
  (toLowerCase : jsstring -> jsstring) (text : jsstring) :
  generateEmbeddingSimple toLowerCase text = reference_embedding toLowerCase text.
Proof.
  rewrite generateEmbeddingSimple_closed_form.
  unfold embed_closed_form, reference_embedding, bucket_sums, dim.
  assert (Hcounts :
            map (fun b => INR (bucket_sum (split_ws (toLowerCase text)) b)) (seq 0 128)
            = map (fun b => INR (reference_count b
                                   (reference_words (toLowerCase text)))) (seq 0 128)).
  { apply map_ext. intros b. rewrite bucket_sum_count. reflexivity. }
  rewrite Hcounts. reflexivity.
Qed.



(** ** The completion gateway *)

Section GatewayFacts.

Variable NVIDIA_API_KEY : option jsstring.
Variable net : Net.
Variable options : ChatOptions.t.

(** The loop returns the completion of the first candidate that does
    not fail. *)
Lemma try_models_Ok (ms : list jsstring) :
  forall i lastError c,
    try_models net options i ms lastError = Ok c <->
    exists k m,
      ms !! k = Some m
      /\ try_model net options (i + k) m = Return c
      /\ forall j m', j < k -> ms !! j = Some m' -> candidate_fails net options (i + j) m'.
Proof.
  induction ms as [|m0 ms IH]; intros i lastError c; simpl.
  - split; [discriminate|]. intros (k & m & Hk & _). discriminate.
  - destruct (try_model net options i m0) as [c0|e0] eqn:Hturn.
    + split.
      * intros [= <-]. exists 0, m0. rewrite Nat.add_0_r.
        repeat split; [exact Hturn|]. intros j m' Hj. lia.
      * intros (k & m & Hk & Hret & Hbefore).
        destruct k as [|k].
        -- injection Hk as <-. rewrite Nat.add_0_r in Hret. congruence.
        -- destruct (Hbefore 0 m0 ltac:(lia) eq_refl) as [e He].
           rewrite Nat.add_0_r in He. congruence.
    + rewrite IH. split.
      * intros (k & m & Hk & Hret & Hbefore). exists (S k), m.
        repeat split.
        -- exact Hk.
        -- rewrite Nat.add_succ_r. exact Hret.
        -- intros [|j] m' Hj Hm'.
           ++ injection Hm' as <-. exists e0. rewrite Nat.add_0_r. exact Hturn.
           ++ rewrite Nat.add_succ_r. apply (Hbefore j m'); [lia | exact Hm'].
      * intros (k & m & Hk & Hret & Hbefore).
        destruct k as [|k].
        -- injection Hk as <-. rewrite Nat.add_0_r in Hret. congruence.
        -- exists k, m. repeat split.
           ++ exact Hk.
           ++ rewrite Nat.add_succ_r in Hret. exact Hret.
           ++ intros j m' Hj Hm'.
              specialize (Hbefore (S j) m' ltac:(lia) Hm').
              rewrite Nat.add_succ_r in Hbefore. exact Hbefore.
Qed.

(** The loop ends in the final [throw] exactly when every candidate has
    failed; the error thrown is the one the last candidate left (the
    incoming [lastError] when there is no candidate at all). *)
Lemma try_models_Throw (ms : list jsstring) :
  forall i lastError e,
    try_models net options i ms lastError = Throw e <->
    (forall j m', ms !! j = Some m' -> candidate_fails net options (i + j) m')
    /\ match last ms with
       | Some m => try_model net options (i + (length ms - 1)) m = Continue e
       | None => e = default (ErrorObj (js "All AI models failed")) lastError
       end.
Proof.
  induction ms as [|m0 ms IH]; intros i lastError e; simpl.
  - split.
    + intros [= <-]. split; [|reflexivity]. intros j m' Hj. discriminate.
    + intros [_ ->]. reflexivity.
  - destruct (try_model net options i m0) as [c0|e0] eqn:Hturn.
    + split; [discriminate|]. intros [Hall _].
      destruct (Hall 0 m0 eq_refl) as [e' He'].
      rewrite Nat.add_0_r in He'. congruence.
    + rewrite IH. rewrite Nat.sub_0_r.
      assert (Hshift :
        (forall j m', ms !! j = Some m' -> candidate_fails net options (S i + j) m')
        <-> (forall j m', (m0 :: ms) !! j = Some m' -> candidate_fails net options (i + j) m')).
      { split.
        - intros H [|j] m' Hm'.
          + injection Hm' as <-. exists e0. rewrite Nat.add_0_r. exact Hturn.
          + rewrite Nat.add_succ_r. apply (H j m' Hm').
        - intros H j m' Hm'. specialize (H (S j) m' Hm').
          rewrite Nat.add_succ_r in H. exact H. }
      rewrite Hshift.
      destruct ms as [|m1 ms'].
      * simpl. rewrite Nat.add_0_r. split.
        -- intros [Hall ->]. split; [exact Hall | exact Hturn].
        -- intros [Hall He]. split; [exact Hall|]. simpl. congruence.
      * change (last (m0 :: m1 :: ms')) with (last (m1 :: ms')).
        destruct (last (m1 :: ms')) as [ml|] eqn:Hlast.
        -- simpl length. replace (S i + (S (length ms') - 1)) with (i + S (length ms')) by lia.
           reflexivity.
        -- apply last_None in Hlast. discriminate.
Qed.

Lemma modelsToTry_nonempty : modelsToTry options <> [].
Proof.
  unfold modelsToTry. destruct (ChatOptions.model options) as [[|c m]|]; discriminate.
Qed.

(** What makes a candidate fail, and what makes it succeed. *)
Lemma try_model_cases (i : nat) (m : jsstring) :
  match net i (request_body options m false) with
  | Rejected err => try_model net options i m = Continue (as_Error err)
  | Responded r =>
      if ok r then
        match body r with
        | BodyFailed err => try_model net options i m = Continue (as_Error err)
        | BodyText t =>
            match JSON_parse t with
            | None => try_model net options i m = Continue SyntaxError
            | Some data =>
                match message_content data with
                | Throw err => try_model net options i m = Continue (as_Error err)
                | Ok content =>
                    if truthy_opt content
                    then exists c, content = Some c
                                   /\ try_model net options i m = Return c
                    else try_model net options i m
                         = Continue (ErrorObj (js "Empty response from AI"))
                end
            end
        end
      else candidate_fails net options i m
  end.
Proof.
  unfold candidate_fails, try_model, try_block, fetchWithTimeout.
  destruct (net i (request_body options m false)) as [r|err]; simpl; [|reflexivity].
  destruct (ok r); simpl.
  - unfold response_json, response_text.
    destruct (body r) as [t|err]; simpl; [|reflexivity].
    destruct (JSON_parse t) as [data|]; simpl; [|reflexivity].
    destruct (message_content data) as [[c|]|err]; simpl; try reflexivity.
    destruct (truthy c); [|reflexivity]. exists c. split; reflexivity.
  - unfold response_text. destruct (body r); simpl; eexists; reflexivity.
Qed.

End GatewayFacts.

(** C1 (amended).  With the API key configured, [nvidiaChat] tries the
    caller's model (when it is a non-empty string) and then the three
    fallback models, in this order; a rejected [fetch] (timeout or
    transport error), a non-2xx status, an unreadable or unparsable body
    and an empty completion each make the candidate fail and the loop
    go on; the call returns the completion of the first candidate that
    does not fail, and throws only when all have failed, the error
    being the one the last candidate left.  Without the key it throws
    the configuration error at once. *)
Theorem nvidiaChat_fallback (key : option jsstring) (net : Net)
  (options : ChatOptions.t) :
  let candidates := modelsToTry options in
  candidates
  = match ChatOptions.model options with
    | Some (c :: m) => [c :: m]
    | _ => []
    end ++ MODELS
  /\ (key_configured key = true ->
      (forall c,
          nvidiaChat key net options = Ok c <->
          exists k m,
            candidates !! k = Some m
            /\ try_model net options k m = Return c
            /\ forall j m', j < k -> candidates !! j = Some m' ->
                            candidate_fails net options j m')
      /\ (forall e,
          nvidiaChat key net options = Throw e <->
          (forall j m', candidates !! j = Some m' -> candidate_fails net options j m')
          /\ exists m,
              last candidates = Some m
              /\ try_model net options (length candidates - 1) m = Continue e))
  /\ (key_configured key = false ->
      nvidiaChat key net options = Throw not_configured)
  /\ (forall i m,
      match net i (request_body options m false) with
      | Rejected err => try_model net options i m = Continue (as_Error err)
      | Responded r =>
          if ok r then
            match body r with
            | BodyFailed err => try_model net options i m = Continue (as_Error err)
            | BodyText t =>
                match JSON_parse t with
                | None => try_model net options i m = Continue SyntaxError
                | Some data =>
                    match message_content data with
                    | Throw err => try_model net options i m = Continue (as_Error err)
                    | Ok content =>
                        if truthy_opt content
                        then exists c, content = Some c
                                       /\ try_model net options i m = Return c
                        else try_model net options i m
                             = Continue (ErrorObj (js "Empty response from AI"))
                    end
                end
            end
          else candidate_fails net options i m
      end).
Proof.
  intros candidates. subst candidates.
  split.
  { unfold modelsToTry. destruct (ChatOptions.model options) as [[|c m]|]; reflexivity. }
  split.
  { intros Hkey. unfold nvidiaChat. rewrite Hkey. simpl. split.
    - intros c. rewrite try_models_Ok. reflexivity.
    - intros e. rewrite try_models_Throw. simpl.
      split; intros [Hall Hlast]; (split; [exact Hall|]).
      + destruct (last (modelsToTry options)) as [m|] eqn:Hl.
        * exists m. split; [reflexivity | exact Hlast].
        * apply last_None in Hl. destruct (modelsToTry_nonempty options Hl).
      + destruct Hlast as (m & -> & Hm). exact Hm. }
  split.
  { intros Hkey. unfold nvidiaChat. rewrite Hkey. reflexivity. }
  intros i m. apply try_model_cases.
Qed.

(** The theorem at a call with an explicit model, over a network where
    the explicit model answers 500, the first fallback times out, the
    second answers an empty completion and the third answers "Hello". *)
Lemma nvidiaChat_fallback_witness :
  key_configured (Some (js "nvapi-key")) = true
  /\ nvidiaChat (Some (js "nvapi-key")) (net_flaky (js "Hello"))
       (ask "hi" (Some (js "my/model")))
     = Ok (JStr (js "Hello")).
Proof.
  split; [reflexivity|].
  apply (nvidiaChat_fallback (Some (js "nvapi-key")) (net_flaky (js "Hello"))
           (ask "hi" (Some (js "my/model")))).
  - reflexivity.
  - exists 3, (js "mistralai/mistral-large-2-instruct").
    split; [reflexivity|]. split; [vm_compute; reflexivity|].
    intros j m' Hj Hm'.
    destruct j as [|[|[|j]]]; [| | |lia];
      simpl in Hm'; injection Hm' as <-; eexists; vm_compute; reflexivity.
Defined.

(** C1 as stated fails without the API key: the call throws although no
    candidate has failed (the first one would have answered); and an
    explicit model that is the empty string is not tried. *)
Lemma nvidiaChat_unconfigured_counterexample :
  nvidiaChat None (net_always (js "Hello")) (ask "hi" None) = Throw not_configured
  /\ try_model (net_always (js "Hello")) (ask "hi" None) 0
       (js "meta/llama-3.3-70b-instruct")
     = Return (JStr (js "Hello"))
  /\ modelsToTry (ask "hi" (Some [])) = MODELS.
Proof. vm_compute. repeat split. Qed.

(** ** The streaming gateway *)

Section StreamingFacts.

Variable Number_toString : Z -> Z -> jsstring.

Local Abbreviation content_event := (content_event Number_toString).
Local Abbreviation payload_events := (payload_events Number_toString).
Local Abbreviation lines_loop := (lines_loop Number_toString).
Local Abbreviation pull := (pull Number_toString).
Local Abbreviation pulls := (pulls Number_toString).
Local Abbreviation reframed := (reframed Number_toString).

Lemma lines_loop_cons (line : jsstring) (rest : list jsstring) :
  lines_loop (line :: rest)
  = if startsWith (js "data: ") line then
      if jsstring_eqb (trim (slice_from 6 line)) (js "[DONE]")
      then ([DONE_event], true)
      else (payload_events (trim (slice_from 6 line)) ++ fst (lines_loop rest),
            snd (lines_loop rest))
    else lines_loop rest.
Proof.
  change (lines_loop (line :: rest)) with
    (if startsWith (js "data: ") line then
       let data := trim (slice_from 6 line) in
       if jsstring_eqb data (js "[DONE]") then ([DONE_event], true)
       else let '(events, done) := lines_loop rest in
            (payload_events data ++ events, done)
     else lines_loop rest).
  cbv zeta.
  destruct (startsWith (js "data: ") line); [|reflexivity].
  destruct (jsstring_eqb (trim (slice_from 6 line)) (js "[DONE]")); [reflexivity|].
  destruct (lines_loop rest); reflexivity.
Qed.

Lemma payload_events_reframed (data : jsstring) :
  Forall reframed (payload_events data).
Proof.
  unfold payload_events.
  destruct (JSON_parse data) as [parsed|]; [|constructor].
  destruct (delta_content parsed) as [[c|]|err]; try constructor.
  destruct (truthy c) eqn:Hc; constructor; [|constructor].
  exists c. split; [exact Hc | reflexivity].
Qed.

(** A chunk yields re-framed events only, then the sentinel if and only
    if the loop closed the stream. *)
Lemma lines_loop_events (lines : list jsstring) :
  exists events,
    Forall reframed events
    /\ lines_loop lines
       = if snd (lines_loop lines) then (events ++ [DONE_event], true)
         else (events, false).
Proof.
  induction lines as [|line rest IH].
  - exists []. split; [constructor | reflexivity].
  - rewrite lines_loop_cons.
    destruct (startsWith (js "data: ") line); [|exact IH].
    destruct (jsstring_eqb (trim (slice_from 6 line)) (js "[DONE]")).
    + exists []. split; [constructor | reflexivity].
    + destruct IH as (events & Hev & Heq).
      destruct (lines_loop rest) as [evs done]. cbn [fst snd] in *.
      exists (payload_events (trim (slice_from 6 line)) ++ events).
      split.
      * apply Forall_app. split; [apply payload_events_reframed | exact Hev].
      * destruct done; injection Heq as ->; rewrite <- ?app_assoc; reflexivity.
Qed.

Lemma pull_chunk (st : StreamState) (text : jsstring) (rest : list ReadResult) :
  upstream st = Chunk text :: rest ->
  pull st
  = {| upstream := rest;
       enqueued := enqueued st ++ fst (lines_loop (split_on 10 text));
       closed := snd (lines_loop (split_on 10 text));
       errored := errored st |}.
Proof.
  intros H. unfold pull. rewrite H.
  destruct (lines_loop (split_on 10 text)); reflexivity.
Qed.

Lemma pull_exhausted (st : StreamState) :
  upstream st = [] ->
  pull st
  = {| upstream := [];
       enqueued := enqueued st ++ [DONE_event];
       closed := true;
       errored := errored st |}.
Proof. intros H. unfold pull. rewrite H. reflexivity. Qed.

Lemma pulls_step (fuel : nat) (st : StreamState) :
  closed st = false -> errored st = None ->
  pulls (S fuel) st = pulls fuel (pull st).
Proof. intros Hc He. simpl. rewrite Hc, He. reflexivity. Qed.

Lemma pulls_closed (fuel : nat) (st : StreamState) :
  closed st = true -> pulls fuel st = st.
Proof. intros Hc. destruct fuel; simpl; [|rewrite Hc]; reflexivity. Qed.

(** Pulling through an upstream body none of whose reads fails: the
    stream closes, never errors, and what was enqueued is a run of
    re-framed events followed by exactly one sentinel. *)
Lemma pulls_closes (reads : list ReadResult) :
  forall st fuel,
    upstream st = reads ->
    Forall (fun r => exists text, r = Chunk text) reads ->
    closed st = false -> errored st = None ->
    length reads < fuel ->
    exists events,
      Forall reframed events
      /\ closed (pulls fuel st) = true
      /\ errored (pulls fuel st) = None
      /\ enqueued (pulls fuel st) = enqueued st ++ events ++ [DONE_event].
Proof.
  induction reads as [|r reads IH]; intros st fuel Hup Hchunks Hopen Herr Hfuel.
  - destruct fuel as [|fuel]; [simpl in Hfuel; lia|].
    rewrite pulls_step, pull_exhausted, pulls_closed by auto.
    exists []. split; [constructor|]. simpl. auto.
  - destruct fuel as [|fuel]; [simpl in Hfuel; lia|].
    inversion Hchunks as [|? ? [text ->] Hrest]; subst.
    rewrite pulls_step, (pull_chunk st text reads Hup) by auto.
    destruct (lines_loop_events (split_on 10 text)) as (events & Hev & Hloop).
    rewrite Hloop.
    destruct (snd (lines_loop (split_on 10 text))).
    + rewrite pulls_closed by reflexivity.
      exists events. split; [exact Hev|]. simpl. auto.
    + cbn [fst snd].
      match goal with
      | |- context [pulls fuel ?s] =>
          destruct (IH s fuel eq_refl Hrest eq_refl Herr ltac:(simpl in Hfuel; lia))
            as (events' & Hev' & Hc & He & Hq)
      end.
      exists (events ++ events'). split.
      * apply Forall_app. split; assumption.
      * rewrite Hc, He, Hq. simpl. rewrite <- !app_assoc. auto.
Qed.

(** A failed read errors the stream with that error. *)
Lemma pull_read_failed (st : StreamState) (err : Thrown) (rest : list ReadResult) :
  upstream st = ReadFailed err :: rest ->
  errored (pull st) = Some err /\ enqueued (pull st) = enqueued st.
Proof. intros H. unfold pull. rewrite H. split; reflexivity. Qed.

End StreamingFacts.

(** ** The stream at run time *)

Section RuntimeFacts.

Variable Number_toString : Z -> Z -> jsstring.

Local Abbreviation lines_loop := (lines_loop Number_toString).
Local Abbreviation pull := (pull Number_toString).
Local Abbreviation pulls := (pulls Number_toString).
Local Abbreviation pull_body := (pull_body Number_toString).
Local Abbreviation pull_resumed := (pull_resumed Number_toString).
Local Abbreviation fire := (fire Number_toString).
Local Abbreviation run_schedule := (run_schedule Number_toString).
Local Abbreviation at_rest := (at_rest Number_toString).
Local Abbreviation productive := (productive Number_toString).
Local Abbreviation lively := (lively Number_toString).
Local Abbreviation future_events := (future_events Number_toString).
Local Abbreviation budget := (budget Number_toString).
Local Abbreviation measure := (measure Number_toString).
Local Abbreviation yield := (yield Number_toString).
Local Abbreviation successors := (successors Number_toString).
Local Abbreviation all_runs := (all_runs Number_toString).
Local Abbreviation stream_output := (stream_output Number_toString).
Local Abbreviation reframed := (reframed Number_toString).

Ltac open_stream_state s :=
  destruct s as [[up enq cl er] q st pl pa se pe rc sd serr].

Ltac decide_errored :=
  repeat match goal with
  | |- context [bool_decide (Some ?e <> None)] =>
      rewrite (bool_decide_eq_true_2 (Some e <> None)) by discriminate
  | |- context [bool_decide (@None ?A <> None)] =>
      rewrite (bool_decide_eq_false_2 (@None A <> None))
        by (intros Hne; apply Hne; reflexivity)
  | |- context [bool_decide (@nil ?A = [])] =>
      rewrite (bool_decide_eq_true_2 (@nil A = [])) by reflexivity
  | |- context [bool_decide (?x :: ?l = [])] =>
      rewrite (bool_decide_eq_false_2 (x :: l = [])) by discriminate
  end.

Ltac settle_sound :=
  unfold consistent, sound, can_close_or_enqueue; simpl; decide_errored; simpl;
  intuition (try discriminate; try congruence; eauto);
  try match goal with
      | H : forall e : Thrown, ?x = Some e -> _, H' : ?x = Some _ |- _ =>
          specialize (H _ H'); congruence
      end.

Lemma consistent_new_stream (reads : list ReadResult) :
  consistent (new_stream (open_stream reads)).
Proof. settle_sound. Qed.

Lemma sound_call_pull_if_needed (s : ReadableStream.t) :
  sound s -> sound (call_pull_if_needed s).
Proof.
  open_stream_state s. unfold call_pull_if_needed, should_call_pull,
    can_close_or_enqueue. simpl.
  destruct cl, st, er as [e|], pe, pl; simpl; decide_errored; simpl;
    try (destruct (length q <? 1)); simpl; settle_sound.
Qed.

Lemma consistent_call_pull_if_needed (s : ReadableStream.t) :
  consistent s -> consistent (call_pull_if_needed s).
Proof.
  intros [Hs Hc]. split; [apply sound_call_pull_if_needed, Hs|]. revert Hs Hc.
  open_stream_state s. unfold call_pull_if_needed, should_call_pull,
    can_close_or_enqueue. simpl.
  destruct cl, st, er as [e|], pe, pl; simpl; decide_errored; simpl;
    try (destruct (length q <? 1)); simpl; settle_sound.
Qed.

Lemma sound_controller_enqueue (chunk : jsstring) (s : ReadableStream.t) :
  sound s -> sound (controller_enqueue chunk s).
Proof.
  intros Hs. unfold controller_enqueue.
  destruct (can_close_or_enqueue s) eqn:Hcan; simpl; [|exact Hs].
  apply sound_call_pull_if_needed. revert Hs Hcan.
  open_stream_state s. unfold can_close_or_enqueue. simpl.
  destruct cl, er as [e|], pe; simpl; decide_errored; simpl; try discriminate;
    intros Hs _; revert Hs; settle_sound.
  - subst. rewrite !app_nil_r. reflexivity.
  - exists []. subst. rewrite !app_nil_r. reflexivity.
  - rewrite app_assoc. congruence.
  - exists (q ++ [chunk]). rewrite app_assoc. congruence.
Qed.

Lemma sound_controller_close (s : ReadableStream.t) :
  sound s -> sound (controller_close s).
Proof.
  unfold controller_close.
  destruct (can_close_or_enqueue s) eqn:Hcan; simpl; [|auto]. revert Hcan.
  open_stream_state s. unfold can_close_or_enqueue. simpl.
  destruct cl, er as [e|], pe, sd, q as [|c q]; simpl; decide_errored; simpl;
    try discriminate; intros _; settle_sound.
Qed.

Lemma sound_controller_error (err : Thrown) (s : ReadableStream.t) :
  sound s -> sound (controller_error err s).
Proof.
  unfold controller_error. open_stream_state s. simpl.
  destruct cl, er as [e|], pe, q as [|c q]; simpl; decide_errored; simpl;
    settle_sound.
Qed.

Lemma sound_upstream_read (s : ReadableStream.t) :
  sound s -> sound (upstream_read s).
Proof. open_stream_state s. settle_sound. Qed.

Lemma sound_enqueue_all (events : list jsstring) :
  forall s,
    sound s ->
    sound (fold_left (fun s event => controller_enqueue event s) events s).
Proof.
  induction events as [|event events IH]; intros s Hs; [exact Hs|].
  simpl. apply IH, sound_controller_enqueue, Hs.
Qed.

Lemma sound_pull_body (s : ReadableStream.t) : sound s -> sound (pull_body s).
Proof.
  intros Hs. unfold pull_body.
  destruct (upstream (ReadableStream.source s)) as [|[text|err] rest].
  - apply sound_controller_close, sound_controller_enqueue, Hs.
  - destruct (lines_loop (split_on 10 text)) as [events done].
    pose proof (sound_enqueue_all events _ (sound_upstream_read s Hs)) as H.
    destruct done; [apply sound_controller_close|]; exact H.
  - apply sound_controller_error, sound_upstream_read, Hs.
Qed.

(** *** What the events do to the state of the source *)

Lemma source_call_pull_if_needed (s : ReadableStream.t) :
  ReadableStream.source (call_pull_if_needed s) = ReadableStream.source s.
Proof.
  unfold call_pull_if_needed.
  destruct (should_call_pull s); [destruct (ReadableStream.pulling s)|]; reflexivity.
Qed.

Lemma can_call_pull_if_needed (s : ReadableStream.t) :
  can_close_or_enqueue (call_pull_if_needed s) = can_close_or_enqueue s.
Proof. unfold can_close_or_enqueue. rewrite source_call_pull_if_needed. reflexivity. Qed.

Lemma source_controller_enqueue (chunk : jsstring) (s : ReadableStream.t) :
  can_close_or_enqueue s = true ->
  ReadableStream.source (controller_enqueue chunk s)
  = with_enqueued [chunk] (ReadableStream.source s)
  /\ can_close_or_enqueue (controller_enqueue chunk s) = true.
Proof.
  intros Hcan. unfold controller_enqueue. rewrite Hcan. simpl.
  rewrite can_call_pull_if_needed, source_call_pull_if_needed.
  destruct (ReadableStream.pending s); simpl; (split; [reflexivity|]);
    revert Hcan; unfold can_close_or_enqueue; simpl; auto.
Qed.

Lemma source_enqueue_all (events : list jsstring) :
  forall s,
    can_close_or_enqueue s = true ->
    ReadableStream.source
      (fold_left (fun s event => controller_enqueue event s) events s)
    = with_enqueued events (ReadableStream.source s)
    /\ can_close_or_enqueue
         (fold_left (fun s event => controller_enqueue event s) events s) = true.
Proof.
  induction events as [|event events IH]; intros s Hcan.
  - simpl. split; [|exact Hcan]. unfold with_enqueued. rewrite app_nil_r.
    destruct (ReadableStream.source s); reflexivity.
  - simpl. destruct (source_controller_enqueue event s Hcan) as [Hsrc Hcan'].
    destruct (IH _ Hcan') as [Hsrc' Hcan'']. split; [|exact Hcan''].
    rewrite Hsrc', Hsrc. unfold with_enqueued. simpl. rewrite <- app_assoc.
    reflexivity.
Qed.

Lemma source_controller_close (s : ReadableStream.t) :
  can_close_or_enqueue s = true ->
  ReadableStream.source (controller_close s)
  = {| upstream := upstream (ReadableStream.source s);
       enqueued := enqueued (ReadableStream.source s);
       closed := true;
       errored := errored (ReadableStream.source s) |}.
Proof. intros Hcan. unfold controller_close. rewrite Hcan. reflexivity. Qed.

(** On a stream that can enqueue the body of [pull] does to the source
    what [pull] says. *)
Lemma source_pull_body (s : ReadableStream.t) :
  can_close_or_enqueue s = true ->
  ReadableStream.source (pull_body s) = pull (ReadableStream.source s).
Proof.
  intros Hcan. unfold pull_body, pull.
  assert (Hopen : closed (ReadableStream.source s) = false
                  /\ errored (ReadableStream.source s) = None).
  { revert Hcan. unfold can_close_or_enqueue.
    destruct (closed _), (errored _); simpl; decide_errored; simpl;
      try discriminate; auto. }
  destruct Hopen as [Hclosed Herr].
  destruct (upstream (ReadableStream.source s)) as [|[text|err] rest] eqn:Hup.
  - destruct (source_controller_enqueue DONE_event s Hcan) as [Hsrc Hcan'].
    rewrite (source_controller_close _ Hcan'), Hsrc. simpl. rewrite Hup.
    reflexivity.
  - destruct (lines_loop (split_on 10 text)) as [events done].
    assert (Hcan' : can_close_or_enqueue (upstream_read s) = true) by exact Hcan.
    destruct (source_enqueue_all events _ Hcan') as [Hsrc Hcan''].
    destruct done.
    + rewrite (source_controller_close _ Hcan''), Hsrc. simpl. rewrite Hup.
      reflexivity.
    + rewrite Hsrc. unfold with_enqueued. simpl. rewrite Hup, Hclosed. reflexivity.
  - unfold controller_error. simpl. rewrite Herr, Hclosed. decide_errored. simpl.
    rewrite Hup. reflexivity.
Qed.

(** *** The state between two events *)

Lemma pulling_call_pull_if_needed (s : ReadableStream.t) :
  ReadableStream.pulling s = true ->
  ReadableStream.pulling (call_pull_if_needed s) = true
  /\ ReadableStream.settled (call_pull_if_needed s) = ReadableStream.settled s.
Proof.
  intros H. unfold call_pull_if_needed.
  destruct (should_call_pull s); [rewrite H|]; simpl; auto.
Qed.

Lemma pulling_controller_enqueue (chunk : jsstring) (s : ReadableStream.t) :
  ReadableStream.pulling s = true ->
  ReadableStream.pulling (controller_enqueue chunk s) = true.
Proof.
  intros H. unfold controller_enqueue.
  destruct (can_close_or_enqueue s); simpl; [|exact H].
  apply pulling_call_pull_if_needed. destruct (ReadableStream.pending s); exact H.
Qed.

Lemma pulling_enqueue_all (events : list jsstring) :
  forall s,
    ReadableStream.pulling s = true ->
    ReadableStream.pulling
      (fold_left (fun s event => controller_enqueue event s) events s) = true.
Proof.
  induction events as [|event events IH]; intros s H; [exact H|].
  simpl. apply IH, pulling_controller_enqueue, H.
Qed.

Lemma pulling_controller_close (s : ReadableStream.t) :
  ReadableStream.pulling (controller_close s) = ReadableStream.pulling s.
Proof. unfold controller_close. destruct (can_close_or_enqueue s); reflexivity. Qed.

Lemma pulling_controller_error (err : Thrown) (s : ReadableStream.t) :
  ReadableStream.pulling (controller_error err s) = ReadableStream.pulling s.
Proof.
  unfold controller_error.
  destruct (_ || _)%bool; reflexivity.
Qed.

Lemma pulling_pull_body (s : ReadableStream.t) :
  ReadableStream.pulling s = true -> ReadableStream.pulling (pull_body s) = true.
Proof.
  intros H. unfold pull_body.
  destruct (upstream (ReadableStream.source s)) as [|[text|err] rest].
  - rewrite pulling_controller_close. apply pulling_controller_enqueue, H.
  - destruct (lines_loop (split_on 10 text)) as [events done].
    destruct done; [rewrite pulling_controller_close|];
      apply pulling_enqueue_all; exact H.
  - rewrite pulling_controller_error. exact H.
Qed.

Lemma consistent_pull_resumed (s : ReadableStream.t) :
  consistent s ->
  ReadableStream.pulling s = true ->
  consistent (pull_resumed s).
Proof.
  intros [Hs _] Hp.
  pose proof (sound_pull_body s Hs) as Hb.
  pose proof (pulling_pull_body s Hp) as Hp'.
  unfold pull_resumed. revert Hb Hp'.
  generalize (pull_body s). intros s'. open_stream_state s'. settle_sound.
Qed.

Lemma consistent_pull_fulfilled (s : ReadableStream.t) :
  consistent s -> consistent (pull_fulfilled s).
Proof.
  intros Hs. unfold pull_fulfilled.
  match goal with
  | |- consistent (if _ then call_pull_if_needed ?x else _) =>
      assert (Hx : consistent x)
  end.
  { revert Hs. open_stream_state s. settle_sound. }
  destruct (ReadableStream.pullAgain s);
    [apply consistent_call_pull_if_needed|]; exact Hx.
Qed.

Lemma consistent_start_fulfilled (s : ReadableStream.t) :
  consistent s -> consistent (start_fulfilled s).
Proof.
  intros Hs. apply consistent_call_pull_if_needed.
  revert Hs. open_stream_state s. settle_sound.
Qed.

Lemma consistent_reader_read (s : ReadableStream.t) :
  consistent s ->
  ReadableStream.pending s = false ->
  ReadableStream.seen_done s = false ->
  ReadableStream.seen_error s = None ->
  consistent (reader_read s).
Proof.
  intros Hs Hpe Hsd Hse. unfold reader_read.
  destruct (errored (ReadableStream.source s)) as [err|] eqn:Herr.
  { revert Hs Herr. open_stream_state s. simpl. intros Hs ->. revert Hs.
    settle_sound. }
  destruct (ReadableStream.queue s) as [|chunk rest] eqn:Hq.
  - destruct (closed (ReadableStream.source s)) eqn:Hcl.
    + revert Hs Herr Hq Hcl Hpe. open_stream_state s. simpl.
      intros Hs -> -> -> ->. revert Hs. settle_sound.
    + apply consistent_call_pull_if_needed.
      revert Hs Herr Hq Hcl Hpe Hsd Hse. open_stream_state s. simpl.
      intros Hs -> -> -> -> -> ->. revert Hs. settle_sound.
  - match goal with
    | |- consistent (if _ then ?x else _) => assert (Hx : consistent x)
    end.
    { revert Hs Herr Hq Hpe. open_stream_state s. simpl.
      intros Hs -> -> ->. revert Hs. settle_sound.
      - rewrite <- app_assoc. assumption.
      - exists rest. rewrite <- app_assoc. assumption. }
    destruct (_ && _)%bool; [|apply consistent_call_pull_if_needed]; exact Hx.
Qed.

Lemma consistent_fire (event : StreamStep) (s s' : ReadableStream.t) :
  consistent s -> fire event s = Some s' -> consistent s'.
Proof.
  intros Hs. destruct event; simpl.
  - destruct (ReadableStream.started s); [discriminate|].
    intros [= <-]. apply consistent_start_fulfilled, Hs.
  - destruct (ReadableStream.pending s) eqn:Hpe; [discriminate|].
    destruct (ReadableStream.seen_done s) eqn:Hsd; [discriminate|].
    destruct (ReadableStream.seen_error s) as [e|] eqn:Hse;
      simpl; decide_errored; simpl; [discriminate|].
    intros [= <-]. apply consistent_reader_read; assumption.
  - destruct (ReadableStream.pulling s) eqn:Hp; [|discriminate].
    destruct (negb _); [|discriminate].
    intros [= <-]. apply consistent_pull_resumed; assumption.
  - destruct (_ && _)%bool; [|discriminate].
    intros [= <-]. apply consistent_pull_fulfilled, Hs.
Qed.

Lemma consistent_run_schedule (schedule : list StreamStep) :
  forall s s',
    consistent s -> run_schedule schedule s = Some s' -> consistent s'.
Proof.
  induction schedule as [|event schedule IH]; intros s s' Hs; simpl.
  - intros [= <-]. exact Hs.
  - destruct (fire event s) as [s1|] eqn:Hf; [|discriminate].
    apply IH. eapply consistent_fire; eassumption.
Qed.

(** The body of [pull] only ever runs on a stream that can enqueue: its
    calls of [controller.enqueue] and [controller.close] do not throw. *)
Lemma pull_runs_on_open_stream (reads : list ReadResult)
  (schedule : list StreamStep) (s : ReadableStream.t) :
  run_schedule schedule (new_stream (open_stream reads)) = Some s ->
  ReadableStream.pulling s = true -> ReadableStream.settled s = false ->
  can_close_or_enqueue s = true.
Proof.
  intros Hrun.
  exact (proj2 (consistent_run_schedule schedule _ _ (consistent_new_stream reads)
                  Hrun)).
Qed.

(** *** The stream is always [pulls n] of the stream it started as *)

Lemma source_reader_read (s : ReadableStream.t) :
  ReadableStream.source (reader_read s) = ReadableStream.source s.
Proof.
  unfold reader_read.
  destruct (errored (ReadableStream.source s)); [reflexivity|].
  destruct (ReadableStream.queue s) as [|chunk rest].
  - destruct (closed _); [reflexivity|]. rewrite source_call_pull_if_needed.
    reflexivity.
  - destruct (_ && _)%bool; [reflexivity|]. rewrite source_call_pull_if_needed.
    reflexivity.
Qed.

Lemma can_close_or_enqueue_open (s : ReadableStream.t) :
  can_close_or_enqueue s = true ->
  closed (ReadableStream.source s) = false
  /\ errored (ReadableStream.source s) = None.
Proof.
  unfold can_close_or_enqueue.
  destruct (closed _), (errored _); simpl; decide_errored; simpl;
    try discriminate; auto.
Qed.

Lemma source_fire (event : StreamStep) (s s' : ReadableStream.t) :
  consistent s -> fire event s = Some s' ->
  ReadableStream.source s' = ReadableStream.source s
  \/ (closed (ReadableStream.source s) = false
      /\ errored (ReadableStream.source s) = None
      /\ ReadableStream.source s' = pull (ReadableStream.source s)).
Proof.
  intros [_ Hcan]. destruct event; simpl.
  - destruct (ReadableStream.started s); [discriminate|].
    intros [= <-]. left. unfold start_fulfilled.
    rewrite source_call_pull_if_needed. reflexivity.
  - destruct (_ || _)%bool; [discriminate|].
    intros [= <-]. left. apply source_reader_read.
  - destruct (ReadableStream.pulling s); [|discriminate].
    destruct (ReadableStream.settled s); [discriminate|]. simpl.
    intros [= <-]. right. specialize (Hcan eq_refl eq_refl).
    destruct (can_close_or_enqueue_open s Hcan) as [Hc He].
    split; [exact Hc|]. split; [exact He|].
    apply (source_pull_body s Hcan).
  - destruct (_ && _)%bool; [|discriminate].
    intros [= <-]. left. unfold pull_fulfilled.
    destruct (ReadableStream.pullAgain s); [rewrite source_call_pull_if_needed|];
      reflexivity.
Qed.

Lemma source_pulls (schedule : list StreamStep) :
  forall s s',
    consistent s -> run_schedule schedule s = Some s' ->
    exists n,
      n <= length schedule
      /\ ReadableStream.source s' = pulls n (ReadableStream.source s).
Proof.
  induction schedule as [|event schedule IH]; intros s s' Hs; simpl.
  - intros [= <-]. exists 0. split; [lia | reflexivity].
  - destruct (fire event s) as [s1|] eqn:Hf; [|discriminate]. intros Hrun.
    destruct (IH s1 s' (consistent_fire event s s1 Hs Hf) Hrun) as (n & Hn & Hsrc).
    destruct (source_fire event s s1 Hs Hf) as [Heq|(Hc & He & Heq)].
    + exists n. split; [lia|]. rewrite Hsrc, Heq. reflexivity.
    + exists (S n). split; [lia|]. rewrite Hsrc, Heq. simpl. rewrite Hc, He.
      decide_errored. reflexivity.
Qed.

(** *** Reads that yield an event keep the stream going *)

Lemma served_call_pull_if_needed (s : ReadableStream.t) :
  sound s -> served (call_pull_if_needed s).
Proof.
  open_stream_state s. unfold served, call_pull_if_needed, should_call_pull,
    can_close_or_enqueue. simpl.
  destruct cl, st, er as [e|], pe, pl; simpl; decide_errored; simpl;
    try (destruct (length q <? 1)); simpl; settle_sound.
Qed.

Lemma pending_call_pull_if_needed (s : ReadableStream.t) :
  ReadableStream.pending (call_pull_if_needed s) = ReadableStream.pending s.
Proof.
  unfold call_pull_if_needed.
  destruct (should_call_pull s); [destruct (ReadableStream.pulling s)|]; reflexivity.
Qed.

Lemma pending_controller_enqueue (chunk : jsstring) (s : ReadableStream.t) :
  can_close_or_enqueue s = true \/ ReadableStream.pending s = false ->
  ReadableStream.pending (controller_enqueue chunk s) = false.
Proof.
  intros H. unfold controller_enqueue.
  destruct (can_close_or_enqueue s); simpl.
  - rewrite pending_call_pull_if_needed.
    destruct (ReadableStream.pending s); reflexivity.
  - destruct H as [H|H]; [discriminate | exact H].
Qed.

Lemma pending_enqueue_all (events : list jsstring) :
  forall s,
    ReadableStream.pending s = false ->
    ReadableStream.pending
      (fold_left (fun s event => controller_enqueue event s) events s) = false.
Proof.
  induction events as [|event events IH]; intros s H; [exact H|].
  simpl. apply IH, pending_controller_enqueue. right. exact H.
Qed.

Lemma pending_controller_close (s : ReadableStream.t) :
  ReadableStream.pending s = false ->
  ReadableStream.pending (controller_close s) = false.
Proof.
  intros H. unfold controller_close.
  destruct (can_close_or_enqueue s); simpl; rewrite H; reflexivity.
Qed.

(** The body of [pull] on a read that is productive, or on an exhausted
    upstream body, answers the waiting read request. *)
Lemma pending_pull_body (s : ReadableStream.t) :
  can_close_or_enqueue s = true ->
  match upstream (ReadableStream.source s) with
  | r :: _ => productive r
  | [] => True
  end ->
  ReadableStream.pending (pull_body s) = false.
Proof.
  intros Hcan Hprod. unfold pull_body.
  destruct (upstream (ReadableStream.source s)) as [|[text|err] rest].
  - apply pending_controller_close, pending_controller_enqueue. left. exact Hcan.
  - simpl in Hprod.
    destruct (lines_loop (split_on 10 text)) as [events done]. simpl in Hprod.
    destruct events as [|event events]; [contradiction|]. simpl.
    assert (H : ReadableStream.pending
                  (fold_left (fun s event => controller_enqueue event s) events
                     (controller_enqueue event (upstream_read s))) = false).
    { apply pending_enqueue_all, pending_controller_enqueue. left. exact Hcan. }
    destruct done; [apply pending_controller_close|]; exact H.
  - destruct (can_close_or_enqueue_open s Hcan) as [Hc He].
    unfold controller_error. simpl. rewrite He, Hc. decide_errored. reflexivity.
Qed.

Lemma upstream_pull_suffix (st : StreamState) :
  exists taken, upstream st = taken ++ upstream (pull st).
Proof.
  unfold pull. destruct (upstream st) as [|[text|err] rest].
  - exists []. reflexivity.
  - destruct (lines_loop _). exists [Chunk text]. reflexivity.
  - exists [ReadFailed err]. reflexivity.
Qed.

Lemma lively_fire (event : StreamStep) (s s' : ReadableStream.t) :
  lively s -> fire event s = Some s' -> lively s'.
Proof.
  intros (Hs & Hserved & Hprod) Hf.
  split; [eapply consistent_fire; eassumption|].
  split.
  - revert Hf. destruct event; simpl.
    + destruct (ReadableStream.started s); [discriminate|].
      intros [= <-]. apply served_call_pull_if_needed.
      destruct Hs as [Hs _]. revert Hs. open_stream_state s. settle_sound.
    + destruct (ReadableStream.pending s) eqn:Hpe; [discriminate|].
      destruct (ReadableStream.seen_done s) eqn:Hsd; [discriminate|].
      destruct (ReadableStream.seen_error s) as [e|] eqn:Hse;
        simpl; decide_errored; simpl; [discriminate|].
      intros [= <-]. unfold reader_read.
      destruct (errored (ReadableStream.source s)) as [err|] eqn:Herr.
      { unfold served. simpl. rewrite Hpe. discriminate. }
      destruct (ReadableStream.queue s) as [|chunk rest] eqn:Hq.
      * destruct (closed (ReadableStream.source s)) eqn:Hcl.
        { unfold served. simpl. rewrite Hpe. discriminate. }
        apply served_call_pull_if_needed.
        destruct Hs as [Hs _]. revert Hs Herr Hq Hcl Hpe Hsd Hse.
        open_stream_state s. simpl. intros Hs -> -> -> -> -> ->. revert Hs.
        settle_sound.
      * destruct (_ && _)%bool.
        { unfold served. simpl. rewrite Hpe. discriminate. }
        apply served_call_pull_if_needed.
        destruct Hs as [Hs _]. revert Hs Herr Hq Hpe.
        open_stream_state s. simpl. intros Hs -> -> ->. revert Hs.
        settle_sound.
        -- rewrite <- app_assoc. assumption.
        -- exists rest. rewrite <- app_assoc. assumption.
    + destruct (ReadableStream.pulling s) eqn:Hp; [|discriminate].
      destruct (ReadableStream.settled s) eqn:Hse; [discriminate|]. simpl.
      intros [= <-]. unfold served, pull_resumed. simpl.
      destruct Hs as [_ Hcan]. specialize (Hcan Hp Hse).
      rewrite (pending_pull_body s Hcan); [discriminate|].
      destruct (upstream (ReadableStream.source s)); [exact I|].
      apply Forall_cons in Hprod as [Hr _]. exact Hr.
    + destruct (ReadableStream.pulling s) eqn:Hp; [|discriminate].
      destruct (ReadableStream.settled s) eqn:Hse; [|discriminate]. simpl.
      intros [= <-]. unfold pull_fulfilled.
      destruct Hs as [Hs _].
      destruct (ReadableStream.pullAgain s) eqn:Hpa.
      * apply served_call_pull_if_needed.
        revert Hs. open_stream_state s. settle_sound.
      * revert Hs Hserved Hp Hse Hpa. open_stream_state s. unfold served. simpl.
        intros Hs Hserved -> -> ->. revert Hs Hserved. destruct st, pe; settle_sound.
  - destruct (source_fire event s s' Hs Hf) as [->|(_ & _ & ->)]; [exact Hprod|].
    destruct (upstream_pull_suffix (ReadableStream.source s)) as [taken Heq].
    rewrite Heq in Hprod. apply Forall_app in Hprod as [_ H]. exact H.
Qed.

Lemma lively_run_schedule (schedule : list StreamStep) :
  forall s s', lively s -> run_schedule schedule s = Some s' -> lively s'.
Proof.
  induction schedule as [|event schedule IH]; intros s s' Hs; simpl.
  - intros [= <-]. exact Hs.
  - destruct (fire event s) as [s1|] eqn:Hf; [|discriminate].
    apply IH. eapply lively_fire; eassumption.
Qed.

Lemma lively_new_stream (reads : list ReadResult) :
  Forall productive reads -> lively (new_stream (open_stream reads)).
Proof.
  intros H. split; [apply consistent_new_stream|]. split; [|exact H].
  unfold served. simpl. discriminate.
Qed.

(** A stream whose waiting read requests are served is never stalled:
    something can happen, or the consumer has seen the end of the
    stream, or an error. *)
Lemma served_progress (s : ReadableStream.t) :
  consistent s -> served s ->
  (exists event s', fire event s = Some s')
  \/ ReadableStream.seen_done s = true
  \/ (exists e, ReadableStream.seen_error s = Some e).
Proof.
  intros [Hs Hcan] Hserved.
  destruct (ReadableStream.started s) eqn:Hst.
  2:{ left. exists StartFulfilled. simpl. rewrite Hst. eauto. }
  destruct (ReadableStream.pulling s) eqn:Hp.
  { left. destruct (ReadableStream.settled s) eqn:Hse.
    - exists PullFulfilled. simpl. rewrite Hp, Hse. eauto.
    - exists PullResumed. simpl. rewrite Hp, Hse. eauto. }
  destruct (ReadableStream.seen_done s) eqn:Hsd; [right; left; reflexivity|].
  destruct (ReadableStream.seen_error s) as [e|] eqn:Herr; [right; right; eauto|].
  destruct (ReadableStream.pending s) eqn:Hpe.
  { destruct (Hserved Hst Hpe) as [H _]. congruence. }
  left. exists ConsumerRead. simpl. rewrite Hpe, Hsd, Herr. simpl.
  decide_errored. eauto.
Qed.

(** *** Every run is finite *)

Lemma measure_call_pull_if_needed (s : ReadableStream.t) :
  sound s -> measure (call_pull_if_needed s) = measure s.
Proof.
  open_stream_state s.
  unfold measure, load, consumer_weight, budget, call_pull_if_needed,
    should_call_pull, can_close_or_enqueue. simpl.
  destruct cl, st, er as [e|], pe, pl, se; simpl; decide_errored; simpl;
    try (destruct (length q <? 1)); simpl; try reflexivity;
    intros Hs; exfalso; revert Hs; settle_sound.
Qed.

Lemma load_call_pull_if_needed (s : ReadableStream.t) :
  load (call_pull_if_needed s) = load s.
Proof.
  unfold call_pull_if_needed.
  destruct (should_call_pull s); [destruct (ReadableStream.pulling s)|]; reflexivity.
Qed.

Lemma load_controller_enqueue (chunk : jsstring) (s : ReadableStream.t) :
  load (controller_enqueue chunk s) <= load s + 2.
Proof.
  unfold controller_enqueue.
  destruct (can_close_or_enqueue s); simpl; [|lia].
  rewrite load_call_pull_if_needed. unfold load, consumer_weight. simpl.
  destruct (ReadableStream.pending s); simpl;
    destruct (_ || _)%bool; rewrite ?length_app; simpl; lia.
Qed.

Lemma load_enqueue_all (events : list jsstring) :
  forall s,
    load (fold_left (fun s event => controller_enqueue event s) events s)
    <= load s + 2 * length events.
Proof.
  induction events as [|event events IH]; intros s; simpl; [lia|].
  pose proof (IH (controller_enqueue event s)) as H1.
  pose proof (load_controller_enqueue event s) as H2. lia.
Qed.

Lemma load_controller_close (s : ReadableStream.t) :
  load (controller_close s) <= load s.
Proof.
  unfold controller_close.
  destruct (can_close_or_enqueue s); simpl; [|lia].
  unfold load, consumer_weight. simpl.
  destruct (ReadableStream.queue s), (ReadableStream.pending s),
    (ReadableStream.seen_done s), (bool_decide _); simpl; lia.
Qed.

Lemma load_controller_error (err : Thrown) (s : ReadableStream.t) :
  load (controller_error err s) <= load s.
Proof.
  unfold controller_error.
  destruct (_ || _)%bool; [lia|].
  unfold load, consumer_weight. simpl.
  destruct (ReadableStream.pending s), (ReadableStream.seen_done s),
    (ReadableStream.seen_error s); simpl; decide_errored; simpl; lia.
Qed.

Lemma load_pull_body (s : ReadableStream.t) :
  load (pull_body s) <= load s + 2 * yield (ReadableStream.source s).
Proof.
  unfold pull_body, yield.
  destruct (upstream (ReadableStream.source s)) as [|[text|err] rest].
  - pose proof (load_controller_close (controller_enqueue DONE_event s)).
    pose proof (load_controller_enqueue DONE_event s). lia.
  - destruct (lines_loop (split_on 10 text)) as [events done]. simpl.
    pose proof (load_enqueue_all events (upstream_read s)) as H.
    change (load (upstream_read s)) with (load s) in H.
    destruct done; [|lia].
    pose proof (load_controller_close
                  (fold_left (fun s event => controller_enqueue event s) events
                     (upstream_read s))). lia.
  - pose proof (load_controller_error err (upstream_read s)) as H.
    change (load (upstream_read s)) with (load s) in H. lia.
Qed.

Lemma budget_pull (st : StreamState) :
  closed st = false -> errored st = None ->
  budget (pull st) + 3 + 2 * yield st <= budget st.
Proof.
  intros Hc He. unfold budget, pull, yield. rewrite Hc, He. decide_errored. simpl.
  destruct (upstream st) as [|[text|err] rest]; simpl.
  - lia.
  - destruct (lines_loop (split_on 10 text)) as [events done]. simpl.
    destruct done; simpl; lia.
  - try decide_errored. rewrite ?orb_true_r. lia.
Qed.

Lemma started_call_pull_if_needed (s : ReadableStream.t) :
  ReadableStream.started (call_pull_if_needed s) = ReadableStream.started s.
Proof.
  unfold call_pull_if_needed.
  destruct (should_call_pull s); [destruct (ReadableStream.pulling s)|]; reflexivity.
Qed.

Lemma started_controller_enqueue (chunk : jsstring) (s : ReadableStream.t) :
  ReadableStream.started (controller_enqueue chunk s) = ReadableStream.started s.
Proof.
  unfold controller_enqueue.
  destruct (can_close_or_enqueue s); simpl; [|reflexivity].
  rewrite started_call_pull_if_needed.
  destruct (ReadableStream.pending s); reflexivity.
Qed.

Lemma started_enqueue_all (events : list jsstring) :
  forall s,
    ReadableStream.started
      (fold_left (fun s event => controller_enqueue event s) events s)
    = ReadableStream.started s.
Proof.
  induction events as [|event events IH]; intros s; [reflexivity|].
  simpl. rewrite IH. apply started_controller_enqueue.
Qed.

Lemma started_pull_body (s : ReadableStream.t) :
  ReadableStream.started (pull_body s) = ReadableStream.started s.
Proof.
  unfold pull_body.
  destruct (upstream (ReadableStream.source s)) as [|[text|err] rest].
  - unfold controller_close. destruct (can_close_or_enqueue _); simpl;
      apply started_controller_enqueue.
  - destruct (lines_loop (split_on 10 text)) as [events done].
    destruct done; [unfold controller_close; destruct (can_close_or_enqueue _); simpl|];
      rewrite started_enqueue_all; reflexivity.
  - unfold controller_error. destruct (_ || _)%bool; reflexivity.
Qed.

(** Every event uses up some of the measure. *)
Lemma measure_fire (event : StreamStep) (s s' : ReadableStream.t) :
  consistent s -> fire event s = Some s' -> measure s' < measure s.
Proof.
  intros Hs. destruct event; simpl.
  - destruct (ReadableStream.started s) eqn:Hst; [discriminate|].
    intros [= <-]. unfold start_fulfilled.
    rewrite measure_call_pull_if_needed.
    + unfold measure, load, consumer_weight. simpl. rewrite Hst. lia.
    + destruct Hs as [Hs _]. revert Hs. open_stream_state s. settle_sound.
  - destruct (ReadableStream.pending s) eqn:Hpe; [discriminate|].
    destruct (ReadableStream.seen_done s) eqn:Hsd; [discriminate|].
    destruct (ReadableStream.seen_error s) as [e|] eqn:Hse;
      simpl; decide_errored; simpl; [discriminate|].
    intros [= <-].
    pose proof (consistent_reader_read s Hs Hpe Hsd Hse) as [Hs' _].
    revert Hs'. unfold reader_read.
    destruct (errored (ReadableStream.source s)) as [err|] eqn:Herr.
    { intros _. unfold measure, load, consumer_weight. simpl.
      rewrite Hpe, Hsd, Hse. decide_errored. simpl. lia. }
    destruct (ReadableStream.queue s) as [|chunk rest] eqn:Hq.
    + destruct (closed (ReadableStream.source s)) eqn:Hcl.
      { intros _. unfold measure, load, consumer_weight. simpl.
        rewrite Hpe, Hsd, Hse, Hq. decide_errored. simpl. lia. }
      intros _. rewrite measure_call_pull_if_needed.
      * unfold measure, load, consumer_weight. simpl.
        rewrite Hpe, Hsd, Hse, Hq. decide_errored. simpl. lia.
      * destruct Hs as [Hs _]. revert Hs Herr Hq Hcl Hpe Hsd Hse.
        open_stream_state s. simpl. intros Hs -> -> -> -> -> ->. revert Hs.
        settle_sound.
    + assert (Hlt : forall x,
                 measure x = measure s - 2 -> measure x < measure s).
      { intros x ->. unfold measure, load. rewrite Hq. simpl. lia. }
      destruct (_ && _)%bool.
      * intros _. apply Hlt. unfold measure, load, consumer_weight. simpl.
        rewrite Hq. simpl. lia.
      * intros _. rewrite measure_call_pull_if_needed.
        -- apply Hlt. unfold measure, load, consumer_weight. simpl.
           rewrite Hq. simpl. lia.
        -- destruct Hs as [Hs _]. revert Hs Herr Hq Hpe.
           open_stream_state s. simpl. intros Hs -> -> ->. revert Hs.
           settle_sound.
           ++ rewrite <- app_assoc. assumption.
           ++ exists rest. rewrite <- app_assoc. assumption.
  - destruct (ReadableStream.pulling s) eqn:Hp; [|discriminate].
    destruct (ReadableStream.settled s) eqn:Hse; [discriminate|]. simpl.
    intros [= <-].
    destruct Hs as [Hs Hcan]. specialize (Hcan Hp Hse).
    destruct (can_close_or_enqueue_open s Hcan) as [Hc He].
    pose proof (budget_pull _ Hc He) as Hb.
    pose proof (load_pull_body s) as Hl.
    unfold measure, pull_resumed. simpl.
    rewrite (source_pull_body s Hcan), started_pull_body, (pulling_pull_body s Hp),
      Hp, Hse.
    change (load {| ReadableStream.source := pull (ReadableStream.source s);
                    ReadableStream.queue := ReadableStream.queue (pull_body s);
                    ReadableStream.started := ReadableStream.started s;
                    ReadableStream.pulling := true;
                    ReadableStream.pullAgain := ReadableStream.pullAgain (pull_body s);
                    ReadableStream.settled := true;
                    ReadableStream.pending := ReadableStream.pending (pull_body s);
                    ReadableStream.received := ReadableStream.received (pull_body s);
                    ReadableStream.seen_done := ReadableStream.seen_done (pull_body s);
                    ReadableStream.seen_error := ReadableStream.seen_error (pull_body s) |})
      with (load (pull_body s)).
    simpl. lia.
  - destruct (ReadableStream.pulling s) eqn:Hp; [|discriminate].
    destruct (ReadableStream.settled s) eqn:Hse; [|discriminate]. simpl.
    intros [= <-]. unfold pull_fulfilled.
    match goal with
    | |- measure (if _ then call_pull_if_needed ?x else _) < _ =>
        assert (Hx : measure x < measure s /\ sound x)
    end.
    { split.
      - unfold measure, load, consumer_weight. simpl. rewrite Hp, Hse. simpl. lia.
      - destruct Hs as [Hs _]. revert Hs. open_stream_state s. settle_sound. }
    destruct Hx as [Hx Hsx].
    destruct (ReadableStream.pullAgain s);
      [rewrite measure_call_pull_if_needed by exact Hsx|]; exact Hx.
Qed.

Lemma measure_run_schedule (schedule : list StreamStep) :
  forall s s',
    consistent s -> run_schedule schedule s = Some s' ->
    length schedule + measure s' <= measure s.
Proof.
  induction schedule as [|event schedule IH]; intros s s' Hs; simpl.
  - intros [= <-]. lia.
  - destruct (fire event s) as [s1|] eqn:Hf; [|discriminate]. intros Hrun.
    pose proof (measure_fire event s s1 Hs Hf).
    pose proof (IH s1 s' (consistent_fire event s s1 Hs Hf) Hrun). lia.
Qed.

(** *** Where a run ends *)

Lemma pulls_stopped (fuel : nat) (st : StreamState) :
  (closed st || bool_decide (errored st <> None))%bool = true ->
  pulls fuel st = st.
Proof. intros H. destruct fuel; simpl; [|rewrite H]; reflexivity. Qed.

Lemma pulls_add (n m : nat) :
  forall st, pulls (n + m) st = pulls m (pulls n st).
Proof.
  induction n as [|n IH]; intros st; [reflexivity|].
  simpl. destruct (_ || _)%bool eqn:Hstop.
  - symmetry. apply pulls_stopped, Hstop.
  - apply IH.
Qed.

Lemma pulls_closed_agree (a b : nat) (st : StreamState) :
  closed (pulls a st) = true -> closed (pulls b st) = true ->
  pulls a st = pulls b st.
Proof.
  assert (H : forall a b, a <= b -> closed (pulls a st) = true ->
                          pulls b st = pulls a st).
  { intros x y Hle Hc. replace y with (x + (y - x)) by lia.
    rewrite pulls_add. apply pulls_closed, Hc. }
  intros Ha Hb. destruct (Nat.le_ge_cases a b) as [Hle|Hle].
  - symmetry. apply H; assumption.
  - apply H; assumption.
Qed.

Lemma enqueued_pull (st : StreamState) :
  exists more, enqueued (pull st) = enqueued st ++ more.
Proof.
  unfold pull. destruct (upstream st) as [|[text|err] rest]; simpl.
  - eauto.
  - destruct (lines_loop _). simpl. eauto.
  - exists []. rewrite app_nil_r. reflexivity.
Qed.

Lemma enqueued_pulls (n : nat) :
  forall st, exists more, enqueued (pulls n st) = enqueued st ++ more.
Proof.
  induction n as [|n IH]; intros st; simpl.
  - exists []. rewrite app_nil_r. reflexivity.
  - destruct (_ || _)%bool.
    + exists []. rewrite app_nil_r. reflexivity.
    + destruct (IH (pull st)) as [more Hmore].
      destruct (enqueued_pull st) as [more' Hmore'].
      exists (more' ++ more). rewrite Hmore, Hmore', app_assoc. reflexivity.
Qed.

(** What any number of pulls has enqueued is the beginning of what the
    pulls up to the close enqueue. *)
Lemma enqueued_pulls_closed (n N : nat) (st : StreamState) :
  closed (pulls N st) = true ->
  exists more, enqueued (pulls n st) ++ more = enqueued (pulls N st).
Proof.
  intros Hc. destruct (Nat.le_ge_cases n N) as [Hle|Hle].
  - replace N with (n + (N - n)) by lia. rewrite pulls_add.
    destruct (enqueued_pulls (N - n) (pulls n st)) as [more H].
    exists more. symmetry. exact H.
  - replace n with (N + (n - N)) by lia. rewrite pulls_add.
    rewrite (pulls_closed Number_toString _ _ Hc). exists []. apply app_nil_r.
Qed.

Lemma errored_pulls_chunks (n : nat) :
  forall st,
    Forall (fun r => exists text, r = Chunk text) (upstream st) ->
    errored st = None ->
    errored (pulls n st) = None.
Proof.
  induction n as [|n IH]; intros st Hup He; simpl; [exact He|].
  destruct (_ || _)%bool; [exact He|].
  apply IH.
  - destruct (upstream_pull_suffix st) as [taken Heq]. rewrite Heq in Hup.
    apply Forall_app in Hup as [_ H]. exact H.
  - unfold pull. destruct (upstream st) as [|[text|err] rest]; simpl.
    + exact He.
    + destruct (lines_loop _). exact He.
    + apply Forall_cons in Hup as [[text [=]] _].
Qed.

(** Pulling through an upstream body none of whose reads fails
    enqueues [stream_output]. *)
Lemma enqueued_pulls_output (reads : list ReadResult) :
  forall st fuel,
    upstream st = reads ->
    Forall (fun r => exists text, r = Chunk text) reads ->
    closed st = false -> errored st = None ->
    length reads < fuel ->
    enqueued (pulls fuel st) = enqueued st ++ stream_output reads.
Proof.
  induction reads as [|r reads IH]; intros st fuel Hup Hchunks Hopen Herr Hfuel.
  - destruct fuel as [|fuel]; [simpl in Hfuel; lia|].
    rewrite (pulls_step Number_toString), (pull_exhausted Number_toString st Hup),
      (pulls_closed Number_toString) by auto.
    reflexivity.
  - destruct fuel as [|fuel]; [simpl in Hfuel; lia|].
    inversion Hchunks as [|? ? [text ->] Hrest]; subst.
    rewrite (pulls_step Number_toString), (pull_chunk Number_toString st text reads Hup)
      by auto.
    simpl. destruct (lines_loop (split_on 10 text)) as [events done]. cbn [fst snd].
    destruct done.
    + rewrite (pulls_closed Number_toString) by reflexivity. reflexivity.
    + rewrite IH by (simpl in *; auto; lia). simpl. rewrite <- app_assoc.
      reflexivity.
Qed.

(** The output of an upstream body none of whose reads fails: re-framed
    events, then the sentinel. *)
Lemma stream_output_events (reads : list ReadResult) :
  Forall (fun r => exists text, r = Chunk text) reads ->
  exists events,
    Forall reframed events /\ stream_output reads = events ++ [DONE_event].
Proof.
  intros Hchunks.
  destruct (pulls_closes Number_toString reads (open_stream reads)
              (S (length reads)) eq_refl Hchunks eq_refl eq_refl)
    as (events & Hev & _ & _ & Hq); [lia|].
  rewrite (enqueued_pulls_output reads (open_stream reads) (S (length reads)))
    in Hq by (auto; lia).
  exists events. split; [exact Hev | exact Hq].
Qed.

(** At the end of the stream the consumer has received everything that
    was enqueued. *)
Lemma received_at_done (s : ReadableStream.t) :
  consistent s -> ReadableStream.seen_done s = true ->
  closed (ReadableStream.source s) = true
  /\ errored (ReadableStream.source s) = None
  /\ ReadableStream.received s = enqueued (ReadableStream.source s).
Proof.
  intros [Hs _] Hd. revert Hs Hd. open_stream_state s. simpl.
  intros Hs ->. revert Hs. settle_sound.
  subst. rewrite app_nil_r in *. congruence.
Qed.

(** When every upstream read succeeds and yields at least one event, a
    run of the stream is finite and delivers, in order, what the pulls up
    to the close enqueue; at rest the consumer has seen the end of the
    stream and has received it all. *)
Lemma productive_stream_outcome (reads : list ReadResult)
  (schedule : list StreamStep) (s : ReadableStream.t) :
  Forall (fun r => exists text,
              r = Chunk text /\ fst (lines_loop (split_on 10 text)) <> []) reads ->
  run_schedule schedule (new_stream (open_stream reads)) = Some s ->
  let out := stream_output reads in
  length schedule <= 8 + 3 * length reads + 2 * future_events reads
  /\ (exists lost, ReadableStream.received s ++ lost = out)
  /\ ReadableStream.seen_error s = None
  /\ (at_rest s ->
      ReadableStream.seen_done s = true /\ ReadableStream.received s = out).
Proof.
  intros Hreads Hrun out.
  assert (Hout : out = enqueued (pulls (S (length reads)) (open_stream reads))).
  { assert (Hc : Forall (fun r => exists text, r = Chunk text) reads).
    { eapply Forall_impl; [exact Hreads|]. intros r (text & -> & _). eauto. }
    rewrite (enqueued_pulls_output reads (open_stream reads) (S (length reads)))
      by (auto; lia).
    reflexivity. }
  rewrite Hout. clear Hout out.
  assert (Hchunks : Forall (fun r => exists text, r = Chunk text) reads).
  { eapply Forall_impl; [exact Hreads|]. intros r (text & -> & _). eauto. }
  assert (Hprod : Forall productive reads).
  { eapply Forall_impl; [exact Hreads|]. intros r (text & -> & H). exact H. }
  pose proof (consistent_new_stream reads) as Hc0.
  pose proof (consistent_run_schedule schedule _ _ Hc0 Hrun) as Hc.
  pose proof (lively_run_schedule schedule _ _ (lively_new_stream reads Hprod) Hrun)
    as (_ & Hserved & _).
  destruct (source_pulls schedule _ _ Hc0 Hrun) as (n & _ & Hsrc).
  change (ReadableStream.source (new_stream (open_stream reads)))
    with (open_stream reads) in Hsrc.
  destruct (pulls_closes Number_toString reads (open_stream reads)
              (S (length reads)) eq_refl Hchunks eq_refl eq_refl)
    as (events & _ & Hclosed & _ & _); [lia|].
  assert (Herr : errored (ReadableStream.source s) = None).
  { rewrite Hsrc. apply errored_pulls_chunks; [exact Hchunks | reflexivity]. }
  assert (Hse : ReadableStream.seen_error s = None).
  { destruct (ReadableStream.seen_error s) as [e|] eqn:He; [|reflexivity].
    destruct Hc as [Hs _]. destruct Hs as (_ & _ & _ & _ & _ & _ & _ & H & _).
    specialize (H e He). congruence. }
  split.
  { pose proof (measure_run_schedule schedule _ _ Hc0 Hrun) as H.
    unfold measure at 2 in H. simpl in H. unfold budget in H. simpl in H.
    change (load (new_stream (open_stream reads))) with 2 in H. lia. }
  split.
  { destruct Hc as [Hs _]. destruct Hs as (_ & _ & _ & _ & _ & (lost & Hl) & _).
    destruct (enqueued_pulls_closed n (S (length reads)) (open_stream reads) Hclosed)
      as [more Hmore].
    exists (lost ++ more). rewrite app_assoc, Hl, Hsrc. exact Hmore. }
  split; [exact Hse|].
  intros Hrest.
  destruct (served_progress s Hc Hserved) as [(event & s' & Hf)|[Hd|[e He]]].
  - rewrite Hrest in Hf. discriminate.
  - split; [exact Hd|].
    destruct (received_at_done s Hc Hd) as (Hcl & _ & ->).
    rewrite Hsrc in *.
    rewrite (pulls_closed_agree n (S (length reads)) _ Hcl Hclosed). reflexivity.
  - congruence.
Qed.

(** *** All the runs of a stream *)

Lemma fire_successors (event : StreamStep) (s s' : ReadableStream.t) :
  fire event s = Some s' -> In s' (successors s).
Proof.
  intros H. apply list_elem_of_In. unfold successors.
  apply list_elem_of_omap. exists event. split; [|exact H].
  destruct event; repeat constructor.
Qed.

Lemma all_runs_sound (fuel : nat) (P : ReadableStream.t -> bool) :
  forall s,
    all_runs fuel P s = true ->
    forall schedule s', run_schedule schedule s = Some s' -> P s' = true.
Proof.
  induction fuel as [|fuel IH]; intros s H schedule s' Hrun;
    simpl in H; apply andb_true_iff in H as [HP Hnext];
    destruct schedule as [|event schedule]; simpl in Hrun;
    try (injection Hrun as <-; exact HP);
    destruct (fire event s) as [s1|] eqn:Hf; try discriminate;
    apply fire_successors in Hf.
  - destruct (successors s); [destruct Hf | discriminate].
  - rewrite forallb_forall in Hnext. exact (IH s1 (Hnext s1 Hf) schedule s' Hrun).
Qed.

End RuntimeFacts.



(** ** The structured extractors *)

Section ExtractorFacts.

Variable NVIDIA_API_KEY : option jsstring.
Variable net : Net.

(** An entry passes the filter exactly when it is an object whose
    [name] is a non-empty string. *)
Lemma has_name_spec (e : JSON) :
  has_name e = true <->
  exists props c n,
    e = JObj props /\ lookup_prop (js "name") props = Some (JStr (c :: n)).
Proof.
  unfold has_name. split.
  - intros H. apply andb_true_iff in H as [_ H].
    destruct e as [| | | |items|props]; simpl in H; try discriminate.
    destruct (lookup_prop (js "name") props) as [[| | |[|c n]| |]|] eqn:Hl;
      try discriminate.
    exists props, c, n. split; [reflexivity | exact Hl].
  - intros (props & c & n & -> & Hl). simpl. rewrite Hl. reflexivity.
Qed.

Lemma to_entity_name (e : JSON) :
  has_name e = true -> TypedEntity.name (to_entity e) <> [].
Proof.
  intros H. apply has_name_spec in H as (props & c & n & -> & Hl).
  simpl. rewrite Hl. discriminate.
Qed.

(** The type kept for an entry: its [type] when that is one of the
    three names, ['entity'] otherwise. *)
Lemma type_of_entry_spec (e : JSON) :
  match get_named (js "type") e with
  | Some (JStr t) =>
      (t = js "concept" -> type_of_entry e = concept)
      /\ (t = js "idea" -> type_of_entry e = idea)
      /\ (t = js "entity" -> type_of_entry e = entity)
      /\ (t <> js "concept" -> t <> js "idea" -> type_of_entry e = entity)
  | _ => type_of_entry e = entity
  end.
Proof.
  unfold type_of_entry, jsstring_eqb.
  destruct (get_named (js "type") e) as [[| | |t| |]|]; try reflexivity.
  repeat split.
  - intros ->. reflexivity.
  - intros ->. reflexivity.
  - intros ->. reflexivity.
  - intros H1 H2. rewrite !bool_decide_eq_false_2 by assumption. reflexivity.
Qed.

(** What the entity extractor returns, by what the gateway answered. *)
Lemma extractEntitiesWithTypes_eq (text : jsstring) :
  extractEntitiesWithTypes NVIDIA_API_KEY net text
  = Ok match nvidiaChat NVIDIA_API_KEY net
               (prompt_options ENTITIES_PROMPT (slice_to 4000 text) 1024 (1 # 10)) with
       | Ok (JStr s) =>
           match JSON_parse (trim (delete_all (js "```") (delete_all (js "```json") s))) with
           | Some (JArr items) => take 20 (map to_entity (filter has_name items))
           | _ => []
           end
       | _ => []
       end.
Proof.
  unfold extractEntitiesWithTypes.
  destruct (nvidiaChat _ _ _) as [response|err]; simpl; [|reflexivity].
  destruct response; simpl; try reflexivity.
  unfold parse_or_throw.
  destruct (JSON_parse _) as [parsed|]; simpl; [|reflexivity].
  destruct parsed; reflexivity.
Qed.

Lemma extractKeyPoints_eq (text : jsstring) :
  extractKeyPoints NVIDIA_API_KEY net text
  = Ok match nvidiaChat NVIDIA_API_KEY net
               (prompt_options KEYPOINTS_PROMPT (slice_to 4000 text) 1024 (2 # 10)) with
       | Ok (JStr s) =>
           match JSON_parse (trim (delete_all (js "```") (delete_all (js "```json") s))) with
           | Some (JArr items) => take 10 items
           | _ => []
           end
       | _ => []
       end.
Proof.
  unfold extractKeyPoints.
  destruct (nvidiaChat _ _ _) as [response|err]; simpl; [|reflexivity].
  destruct response; simpl; try reflexivity.
  unfold parse_or_throw.
  destruct (JSON_parse _) as [parsed|]; simpl; [|reflexivity].
  destruct parsed; reflexivity.
Qed.

End ExtractorFacts.

(** The entries that pass the filter, mapped: the entities the entries
    stand for. *)
Lemma entities_reference (items : list JSON) :
  map to_entity (filter has_name items) = omap reference_entity items.
Proof.
  induction items as [|item items IH]; [reflexivity|].
  rewrite filter_cons.
  change (omap reference_entity (item :: items))
    with (match reference_entity item with
          | Some y => y :: omap reference_entity items
          | None => omap reference_entity items
          end).
  assert (Hitem : match reference_entity item with
                  | Some e => has_name item = true /\ to_entity item = e
                  | None => has_name item = false
                  end).
  { destruct item as [|b|m e|s|its|props];
      try (unfold has_name; simpl; first [reflexivity | apply andb_false_r]).
    unfold has_name, to_entity, type_of_entry, reference_entity, jsstring_eqb. simpl.
    destruct (lookup_prop (js "name") props) as [[|b|m e|[|c n]|its|ps]|];
      try reflexivity.
    split; reflexivity. }
  destruct (reference_entity item) as [e|].
  - destruct Hitem as [Hn <-]. rewrite decide_True by (rewrite Hn; exact I).
    cbn [map]. rewrite IH. reflexivity.
  - rewrite decide_False by (rewrite Hitem; intros []). exact IH.
Qed.

(** The loop over the candidates sees of the network only the answers
    to the requests it sends: the [k]-th carries the [k]-th candidate. *)
Lemma try_models_wire (net net' : Net) (options : ChatOptions.t)
  (models : list jsstring) :
  forall i lastError,
    (forall k m,
        models !! k = Some m ->
        net' (i + k) (request_body options m false)
        = net (i + k) (request_body options m false)) ->
    try_models net' options i models lastError
    = try_models net options i models lastError.
Proof.
  induction models as [|m models IH]; intros i lastError H; [reflexivity|].
  simpl.
  assert (Hm : try_model net' options i m = try_model net options i m).
  { unfold try_model, try_block, fetchWithTimeout.
    pose proof (H 0 m eq_refl) as H0. rewrite Nat.add_0_r in H0. rewrite H0.
    reflexivity. }
  rewrite Hm. destruct (try_model net options i m); [reflexivity|].
  apply IH. intros k m' Hk. specialize (H (S k) m' Hk).
  rewrite Nat.add_succ_r in H. exact H.
Qed.

(** C6.  [extractEntitiesWithTypes] sends the prompt and the first 4000
    units of its input, and nothing else of it, to the models of the
    list in turn; it never throws: a failed gateway call, an answer that
    is no string, a parse error and a parsed value that is no array all
    give the empty list; of a parsed array it keeps the entries that are
    objects with a non-empty string [name], gives each that name and the
    [type] it has when that is one of the three names, ['entity']
    otherwise, and returns the first 20 of them in the order of the
    model. *)
Theorem extractEntitiesWithTypes_spec (key : option jsstring) (net : Net)
  (text : jsstring) :
  let answer :=
    nvidiaChat key net
      (prompt_options ENTITIES_PROMPT (slice_to 4000 text) 1024 (1 # 10)) in
  exists l,
    extractEntitiesWithTypes key net text = Ok l
    /\ l = match answer with
           | Ok (JStr s) =>
               match JSON_parse (trim (delete_all (js "```")
                                         (delete_all (js "```json") s))) with
               | Some (JArr items) => take 20 (omap reference_entity items)
               | _ => []
               end
           | _ => []
           end
    /\ length l <= 20
    /\ Forall (fun e => TypedEntity.name e <> []) l
    /\ (forall net' : Net,
           (forall i m,
               MODELS !! i = Some m ->
               net' i (entity_request m text) = net i (entity_request m text)) ->
           extractEntitiesWithTypes key net' text
           = extractEntitiesWithTypes key net text)
    /\ (forall text',
           take 4000 text' = take 4000 text ->
           extractEntitiesWithTypes key net text'
           = extractEntitiesWithTypes key net text).
Proof.
  intros answer. subst answer.
  eexists. split; [apply extractEntitiesWithTypes_eq|].
  split.
  { destruct (nvidiaChat _ _ _) as [[| | |s| |]|]; try reflexivity.
    destruct (JSON_parse _) as [[| | | |items|]|]; try reflexivity.
    rewrite entities_reference. reflexivity. }
  split.
  { destruct (nvidiaChat _ _ _) as [[| | |s| |]|]; simpl; try lia.
    destruct (JSON_parse _) as [[| | | |items|]|]; simpl; try lia.
    rewrite length_take. lia. }
  split.
  { destruct (nvidiaChat _ _ _) as [[| | |s| |]|]; try constructor.
    destruct (JSON_parse _) as [[| | | |items|]|]; try constructor.
    apply Forall_take, Forall_forall. intros e He.
    apply list_elem_of_In, in_map_iff in He as (x & <- & Hx).
    apply to_entity_name.
    apply list_elem_of_In, list_elem_of_filter in Hx as [Hx _].
    apply Is_true_true. exact Hx. }
  split.
  { intros net' Hnet. rewrite !extractEntitiesWithTypes_eq. f_equal.
    assert (Hchat :
              nvidiaChat key net'
                (prompt_options ENTITIES_PROMPT (slice_to 4000 text) 1024 (1 # 10))
              = nvidiaChat key net
                  (prompt_options ENTITIES_PROMPT (slice_to 4000 text) 1024 (1 # 10))).
    { unfold nvidiaChat. destruct (negb (key_configured key)); [reflexivity|].
      apply try_models_wire. intros k m Hk. exact (Hnet k m Hk). }
    rewrite Hchat. reflexivity. }
  intros text' Heq. rewrite !extractEntitiesWithTypes_eq.
  unfold slice_to. rewrite Heq. reflexivity.
Qed.

(** C7 at a failing input.  The model answers the array
    [[1, {"point":"x"}, "ok"]]: [extractKeyPoints] returns its three
    entries as they are, the number and the object included, although
    it is declared to return strings. *)
Theorem extractKeyPoints_returns_non_strings :
  extractKeyPoints (Some (js "nvapi-key"))
    (net_always (jsq "[1, {'point':'x'}, 'ok']"))
    (js "Graph theory studies graphs.")
  = Ok [JNum 1 0; JObj [(js "point", JStr (js "x"))]; JStr (js "ok")].
Proof. vm_compute. reflexivity. Qed.

(** ** The routes *)

Lemma startsWith_take (p s : jsstring) (n : nat) :
  length p <= n -> startsWith p (take n s) = startsWith p s.
Proof.
  revert s n. induction p as [|a p IH]; intros s n Hn.
  - reflexivity.
  - simpl in Hn. destruct n as [|n]; [lia|].
    destruct s as [|b s]; simpl; [reflexivity|].
    rewrite IH by lia. reflexivity.
Qed.

(** The gate of the routes, in plain terms. *)
Lemma worth_processing_spec (c : jsstring) :
  worth_processing (Some c) = true <->
  20 < length c /\ startsWith (js "[File:") c = false.
Proof.
  unfold worth_processing.
  rewrite !andb_true_iff, !negb_true_iff, Nat.ltb_lt.
  split.
  - intros [[_ Hlen] Hp]. split; assumption.
  - intros [Hlen Hp]. repeat split; try assumption.
    apply bool_decide_eq_false_2. intros ->. simpl in Hlen. lia.
Qed.

(** Cutting the content at 50000 units does not change the gate. *)
Lemma worth_processing_stored (content : option jsstring) :
  worth_processing content
  = worth_processing (Some (slice_to 50000 (default [] content))).
Proof.
  assert (H20 : 20 < 50000) by (apply Nat.ltb_lt; vm_compute; reflexivity).
  destruct content as [c|]; [|reflexivity].
  apply eq_true_iff_eq. rewrite !worth_processing_spec. simpl default.
  unfold slice_to. revert H20. generalize 50000. intros k Hk.
  rewrite length_take, startsWith_take by (simpl; lia).
  split; intros [Hlen Hp]; (split; [lia | exact Hp]).
Qed.

Section RouteFacts.

Variable NVIDIA_API_KEY : option jsstring.
Variable toLowerCase : jsstring -> jsstring.

Local Abbreviation settle := (settle NVIDIA_API_KEY toLowerCase).

Lemma POST_gate (session : option jsstring) (req : Upload) (db : DB) :
  match POST session req db with
  | (DocumentCreated doc, db', started) =>
      (started <> None <->
       20 < length (Document.content doc)
       /\ startsWith (js "[File:") (Document.content doc) = false)
      /\ (forall s, started = Some s -> started_docId s = Document.id doc)
      /\ Document.summary doc = None
      /\ Document.entities doc = None
      /\ Document.keyPoints doc = None
      /\ Document.tags doc = None
      /\ Document.embedding doc = None
      /\ documents db' = documents db ++ [doc]
      /\ knowledgeNodes db' = knowledgeNodes db
  | (_, db', started) => started = None /\ db' = db
  end.
Proof.
  unfold POST.
  destruct (session_user session) as [uid|]; [|split; reflexivity].
  destruct (up_title req) as [[|c t]|]; try (split; reflexivity).
  unfold document_create. cbv beta iota zeta.
  cbn [Document.id Document.content Document.summary Document.entities
       Document.keyPoints Document.tags Document.embedding documents
       knowledgeNodes].
  rewrite (worth_processing_stored (up_content req)).
  rewrite <- worth_processing_spec.
  destruct (worth_processing _); repeat split; try discriminate; try congruence.
  - intros s [= <-]. reflexivity.
Qed.

Local Ltac nothing_started :=
  split; [reflexivity | split; [intros ? [=] | intros; reflexivity]].

Lemma PATCH_gate (session : option jsstring) (idParam : option N) (db : DB) :
  match PATCH session idParam db with
  | (resp, db', started) =>
      db' = db
      /\ (forall s,
             started = Some s ->
             exists doc,
               find (fun d => N.eqb (Document.id d) (started_docId s)) (documents db)
               = Some doc
               /\ idParam = Some (started_docId s)
               /\ started_content s = Document.content doc
               /\ 20 < length (Document.content doc)
               /\ startsWith (js "[File:") (Document.content doc) = false)
      /\ (forall docId doc,
             idParam = Some docId ->
             find (fun d => N.eqb (Document.id d) docId) (documents db) = Some doc ->
             length (Document.content doc) <= 20
             \/ startsWith (js "[File:") (Document.content doc) = true ->
             started = None)
  end.
Proof.
  unfold PATCH.
  destruct (session_user session) as [uid|];
    [|nothing_started].
  destruct idParam as [docId|];
    [|nothing_started].
  destruct (find _ (documents db)) as [doc|] eqn:Hfind;
    [|nothing_started].
  destruct (jsstring_eqb (Document.userId doc) uid);
    [|nothing_started].
  destruct (worth_processing (Some (Document.content doc))) eqn:Hgate.
  - apply worth_processing_spec in Hgate as [Hlen Hp].
    split; [reflexivity|]. split.
    + intros s [= <-]. simpl. exists doc. repeat split; assumption.
    + intros docId' doc' [= <-] Hf' Hbad. rewrite Hfind in Hf'.
      injection Hf' as <-. destruct Hbad as [Hle|Hst]; [lia | congruence].
  - nothing_started.
Qed.

End RouteFacts.

(** C10.  [POST] and [PATCH] start [processDocumentWithAI] only for a
    stored content of more than 20 units that does not begin with
    "[File:"; for [POST] that is also sufficient.  A document that fails
    the gate starts nothing: the store stays as the route left it, with
    the AI-derived fields of a new document all null and the knowledge
    nodes untouched. *)
Theorem AI_processing_gate (key : option jsstring)
  (toLowerCase : jsstring -> jsstring) :
  (forall session req db,
      match POST session req db with
      | (DocumentCreated doc, db', started) =>
          (started <> None <->
           20 < length (Document.content doc)
           /\ startsWith (js "[File:") (Document.content doc) = false)
          /\ Document.summary doc = None
          /\ Document.entities doc = None
          /\ Document.keyPoints doc = None
          /\ Document.tags doc = None
          /\ Document.embedding doc = None
          /\ documents db' = documents db ++ [doc]
          /\ knowledgeNodes db' = knowledgeNodes db
          /\ (length (Document.content doc) <= 20
              \/ startsWith (js "[File:") (Document.content doc) = true ->
              forall netS netE netK,
                settle key toLowerCase netS netE netK started db' = db')
      | (_, db', started) => started = None /\ db' = db
      end)
  /\ (forall session idParam db,
         match PATCH session idParam db with
         | (resp, db', started) =>
             db' = db
             /\ (forall s,
                    started = Some s ->
                    exists doc,
                      find (fun d => N.eqb (Document.id d) (started_docId s))
                        (documents db) = Some doc
                      /\ started_content s = Document.content doc
                      /\ 20 < length (Document.content doc)
                      /\ startsWith (js "[File:") (Document.content doc) = false)
             /\ (forall docId doc,
                    idParam = Some docId ->
                    find (fun d => N.eqb (Document.id d) docId) (documents db)
                    = Some doc ->
                    length (Document.content doc) <= 20
                    \/ startsWith (js "[File:") (Document.content doc) = true ->
                    forall netS netE netK,
                      settle key toLowerCase netS netE netK started db' = db)
         end).
Proof.
  split.
  - intros session req db.
    pose proof (POST_gate session req db) as H.
    destruct (POST session req db) as [[resp db'] started].
    destruct resp; try exact H.
    destruct H as (Hiff & _ & Hs & He & Hk & Ht & Hemb & Hdocs & Hnodes).
    split; [exact Hiff|]. do 7 (split; [assumption|]).
    intros Hbad netS netE netK.
    destruct started as [s|]; [|reflexivity].
    exfalso. destruct Hiff as [Hiff _].
    destruct (Hiff ltac:(discriminate)) as [Hlen Hp].
    destruct Hbad as [Hle|Hst]; [lia | congruence].
  - intros session idParam db.
    pose proof (PATCH_gate session idParam db) as H.
    destruct (PATCH session idParam db) as [[resp db'] started].
    destruct H as (Hdb & Hstarted & Hnone).
    split; [exact Hdb|]. split.
    + intros s Hs. destruct (Hstarted s Hs) as (doc & Hf & _ & Hc & Hlen & Hp).
      exists doc. repeat split; assumption.
    + intros docId doc Hid Hf Hbad netS netE netK.
      rewrite (Hnone docId doc Hid Hf Hbad). subst db'. reflexivity.
Qed.

(** ** The knowledge graph *)

Lemma jsstring_eqb_eq (a b : jsstring) : jsstring_eqb a b = true <-> a = b.
Proof. unfold jsstring_eqb. apply bool_decide_eq_true. Qed.

Lemma node_matches_spec (u l : jsstring) (n : KnowledgeNode.t) :
  node_matches u l n = true <->
  KnowledgeNode.userId n = u /\ KnowledgeNode.label n = l.
Proof.
  unfold node_matches. rewrite andb_true_iff, !jsstring_eqb_eq. reflexivity.
Qed.

Lemma keeps_keeps_keys g : keeps g -> keeps_keys g.
Proof. intros H n. destruct (H n) as (? & ? & ? & ?). auto. Qed.

Lemma keeps_keys_matches g u l n :
  keeps_keys g -> node_matches u l (g n) = node_matches u l n.
Proof.
  intros H. destruct (H n) as (_ & Hu & Hl).
  unfold node_matches. rewrite Hu, Hl. reflexivity.
Qed.

Lemma keeps_keys_compose g h : keeps_keys g -> keeps_keys h -> keeps_keys (fun n => h (g n)).
Proof.
  intros Hg Hh n. destruct (Hg n) as (? & ? & ?), (Hh (g n)) as (? & ? & ?).
  repeat split; congruence.
Qed.

Lemma keeps_compose g h : keeps g -> keeps h -> keeps (fun n => h (g n)).
Proof.
  intros Hg Hh n. destruct (Hg n) as (? & ? & ? & ?), (Hh (g n)) as (? & ? & ? & ?).
  repeat split; congruence.
Qed.

Lemma keeps_id : keeps (fun n => n).
Proof. intros n. auto. Qed.

Lemma keeps_updateData id existing e : keeps (update_where id (updateData existing e)).
Proof.
  intros n. unfold update_where, updateData.
  destruct (N.eqb _ id); [|auto].
  destruct (_ && _)%bool; simpl; auto.
Qed.

Lemma keeps_keys_set_connections id c : keeps_keys (update_where id (set_connections c)).
Proof.
  intros n. unfold update_where. destruct (N.eqb _ id); simpl; auto.
Qed.

Lemma keeps_keys_rewire nodes docNode todo : keeps_keys (rewire nodes docNode todo).
Proof.
  intros m. unfold rewire. destruct (find _ todo); simpl; auto.
Qed.

(** [find] by owner and label commutes with a change that keeps keys. *)
Lemma find_matches_map g u l (ns : list KnowledgeNode.t) :
  keeps_keys g ->
  find (node_matches u l) (map g ns) = option_map g (find (node_matches u l) ns).
Proof.
  intros Hg. induction ns as [|n ns IH]; simpl; [reflexivity|].
  rewrite (keeps_keys_matches g u l n Hg).
  destruct (node_matches u l n); [reflexivity | exact IH].
Qed.

Lemma map_id_map g (ns : list KnowledgeNode.t) :
  keeps_keys g -> map KnowledgeNode.id (map g ns) = map KnowledgeNode.id ns.
Proof.
  intros Hg. rewrite map_map. apply map_ext. intros n. apply Hg.
Qed.

Lemma map_key_map g (ns : list KnowledgeNode.t) :
  keeps_keys g ->
  map (fun n => (KnowledgeNode.userId n, KnowledgeNode.label n)) (map g ns)
  = map (fun n => (KnowledgeNode.userId n, KnowledgeNode.label n)) ns.
Proof.
  intros Hg. rewrite map_map. apply map_ext. intros n.
  destruct (Hg n) as (_ & -> & ->). reflexivity.
Qed.

(** So does the selection of [findMany]. *)
Lemma filter_entity_map g u names (ns : list KnowledgeNode.t) :
  keeps_keys g ->
  filter (label_among u names) (map g ns) = map g (filter (label_among u names) ns).
Proof.
  intros Hg. induction ns as [|n ns IH]; [reflexivity|].
  simpl map. destruct (Hg n) as (_ & Hu & Hl).
  destruct (decide (label_among u names n)) as [HP|HP].
  - rewrite !filter_cons_True; [|exact HP|unfold label_among; rewrite Hu, Hl; exact HP].
    simpl. rewrite IH. reflexivity.
  - rewrite !filter_cons_False; [|exact HP|unfold label_among; rewrite Hu, Hl; exact HP].
    exact IH.
Qed.

Lemma find_some_elem {A} (f : A -> bool) (l : list A) (x : A) :
  find f l = Some x -> x ∈ l /\ f x = true.
Proof.
  intros H. apply find_some in H as [Hin Hf].
  split; [apply list_elem_of_In; exact Hin | exact Hf].
Qed.

Lemma existsb_id (ns : list KnowledgeNode.t) (n : KnowledgeNode.t) :
  n ∈ ns ->
  existsb (fun m => N.eqb (KnowledgeNode.id m) (KnowledgeNode.id n)) ns = true.
Proof.
  intros Hin. apply existsb_exists. exists n.
  split; [apply list_elem_of_In; exact Hin | apply N.eqb_refl].
Qed.

Lemma existsb_id_in (ns : list KnowledgeNode.t) (i : N) :
  i ∈ map KnowledgeNode.id ns ->
  existsb (fun m => N.eqb (KnowledgeNode.id m) i) ns = true.
Proof.
  intros Hin. apply list_elem_of_In, in_map_iff in Hin as (n & <- & Hn).
  apply existsb_id, list_elem_of_In, Hn.
Qed.

(** With unique ids, the row found by the id of a row is that row. *)
Lemma find_by_id (ns : list KnowledgeNode.t) (n : KnowledgeNode.t) :
  NoDup (map KnowledgeNode.id ns) -> n ∈ ns ->
  find (fun m => N.eqb (KnowledgeNode.id m) (KnowledgeNode.id n)) ns = Some n.
Proof.
  induction ns as [|m ns IH]; intros Hnd Hin.
  - apply elem_of_nil in Hin. destruct Hin.
  - simpl in Hnd. apply NoDup_cons in Hnd as [Hm Hnd].
    simpl. apply elem_of_cons in Hin as [->|Hin].
    + rewrite N.eqb_refl. reflexivity.
    + destruct (N.eqb_spec (KnowledgeNode.id m) (KnowledgeNode.id n)) as [Heq|Hne].
      * exfalso. apply Hm. rewrite Heq.
        apply list_elem_of_In, in_map, list_elem_of_In, Hin.
      * apply IH; assumption.
Qed.

Lemma find_by_id_None (ns : list KnowledgeNode.t) (i : N) :
  i ∉ map KnowledgeNode.id ns ->
  find (fun m => N.eqb (KnowledgeNode.id m) i) ns = None.
Proof.
  intros Hni. destruct (find _ ns) as [m|] eqn:Hf; [|reflexivity].
  apply find_some_elem in Hf as [Hin Heq]. apply N.eqb_eq in Heq.
  exfalso. apply Hni. rewrite <- Heq.
  apply list_elem_of_In, in_map, list_elem_of_In, Hin.
Qed.

(** *** [Array.from(new Set(...))] *)

Lemma set_from_spec (xs : list N) :
  forall seen,
    NoDup seen ->
    NoDup (set_from xs seen)
    /\ (forall x, x ∈ set_from xs seen <-> x ∈ seen \/ x ∈ xs).
Proof.
  induction xs as [|x xs IH]; intros seen Hnd; simpl.
  - split; [exact Hnd|]. intros y. rewrite elem_of_nil. tauto.
  - destruct (bool_decide (x ∈ seen)) eqn:Hx.
    + apply bool_decide_eq_true in Hx.
      destruct (IH seen Hnd) as [H1 H2]. split; [exact H1|].
      intros y. rewrite H2, elem_of_cons. split; [tauto|].
      intros [?|[->|?]]; auto.
    + apply bool_decide_eq_false in Hx.
      assert (Hnd' : NoDup (seen ++ [x])).
      { apply NoDup_app. repeat split; [exact Hnd| |apply NoDup_singleton].
        intros y Hy Hy'. apply list_elem_of_singleton in Hy'. congruence. }
      destruct (IH (seen ++ [x]) Hnd') as [H1 H2]. split; [exact H1|].
      intros y. rewrite H2, elem_of_app, list_elem_of_singleton, elem_of_cons. tauto.
Qed.

(** Adding values that are already in the set changes nothing. *)
Lemma set_from_absorb (xs : list N) :
  forall seen, (forall x, x ∈ xs -> x ∈ seen) -> set_from xs seen = seen.
Proof.
  induction xs as [|x xs IH]; intros seen Hsub; simpl; [reflexivity|].
  rewrite bool_decide_eq_true_2 by (apply Hsub; left).
  apply IH. intros y Hy. apply Hsub. right. exact Hy.
Qed.

(** Starting from a duplicate-free list, the set is that list followed
    by what is new. *)
Lemma set_from_app (l xs : list N) :
  forall seen, set_from (l ++ xs) seen = set_from xs (set_from l seen).
Proof.
  induction l as [|x l IH]; intros seen; simpl; [reflexivity|]. apply IH.
Qed.

Lemma set_from_NoDup (l : list N) :
  forall seen,
    NoDup (seen ++ l) -> set_from l seen = seen ++ l.
Proof.
  induction l as [|x l IH]; intros seen Hnd; simpl.
  - rewrite app_nil_r. reflexivity.
  - assert (Hx : x ∉ seen).
    { apply NoDup_app in Hnd as (_ & Hd & _). intros Hin.
      apply (Hd x Hin). left. }
    rewrite bool_decide_eq_false_2 by exact Hx.
    rewrite IH; rewrite <- app_assoc; [reflexivity | exact Hnd].
Qed.

Lemma set_from_stable (l xs : list N) :
  NoDup l -> (forall x, x ∈ xs -> x ∈ l) -> set_from (l ++ xs) [] = l.
Proof.
  intros Hnd Hsub. rewrite set_from_app.
  rewrite (set_from_NoDup l []) by exact Hnd. simpl.
  apply set_from_absorb. exact Hsub.
Qed.

(** *** One [upsert] *)

Lemma knowledgeNode_update_ok (i : N) patch (db : DB) :
  i ∈ map KnowledgeNode.id (knowledgeNodes db) ->
  knowledgeNode_update i patch db
  = (Ok tt, with_nodes db (map (update_where i patch) (knowledgeNodes db))).
Proof.
  intros Hin. unfold knowledgeNode_update.
  rewrite existsb_id_in by exact Hin. reflexivity.
Qed.

Lemma upsert_entity_found (u : jsstring) (e : TypedEntity.t) (db : DB) n :
  find (node_matches u (TypedEntity.name e)) (knowledgeNodes db) = Some n ->
  upsert_entity u e db
  = (Ok tt, with_nodes db (map (update_where (KnowledgeNode.id n) (updateData n e))
                             (knowledgeNodes db))).
Proof.
  intros Hf. unfold upsert_entity, bindP, knowledgeNode_findFirst. rewrite Hf.
  apply knowledgeNode_update_ok.
  apply find_some_elem in Hf as [Hin _].
  apply list_elem_of_In, in_map, list_elem_of_In, Hin.
Qed.

Lemma upsert_entity_new (u : jsstring) (e : TypedEntity.t) (db : DB) :
  find (node_matches u (TypedEntity.name e)) (knowledgeNodes db) = None ->
  upsert_entity u e db
  = (Ok tt,
     {| documents := documents db;
        knowledgeNodes := knowledgeNodes db ++ [new_entity_node u e db];
        nextId := (nextId db + 1)%N |}).
Proof.
  intros Hf. unfold upsert_entity, bindP, knowledgeNode_findFirst. rewrite Hf.
  reflexivity.
Qed.

(** *** The invariants *)

Lemma wf_with_nodes_map (db : DB) g :
  keeps_keys g -> wf db -> wf (with_nodes db (map g (knowledgeNodes db))).
Proof.
  intros Hg [Hnd Hlt]. split; simpl.
  - rewrite map_id_map by exact Hg. exact Hnd.
  - apply Forall_forall. intros n Hn.
    apply list_elem_of_In, in_map_iff in Hn as (m & <- & Hm).
    destruct (Hg m) as (-> & _).
    rewrite Forall_forall in Hlt. apply Hlt, list_elem_of_In, Hm.
Qed.

Lemma wf_append (db : DB) (n : KnowledgeNode.t) :
  wf db -> KnowledgeNode.id n = nextId db ->
  wf {| documents := documents db;
        knowledgeNodes := knowledgeNodes db ++ [n];
        nextId := (nextId db + 1)%N |}.
Proof.
  intros [Hnd Hlt] Hid. rewrite Forall_forall in Hlt. split; simpl.
  - rewrite map_app. simpl. apply NoDup_app. repeat split.
    + exact Hnd.
    + intros i Hi Hi'. apply list_elem_of_singleton in Hi'. subst i.
      apply list_elem_of_In, in_map_iff in Hi as (m & Hm & Hin).
      apply list_elem_of_In, Hlt in Hin. lia.
    + apply NoDup_singleton.
  - apply Forall_app. split.
    + apply Forall_forall. intros m Hm. apply Hlt in Hm. lia.
    + apply Forall_singleton. lia.
Qed.

Lemma unique_labels_map (db : DB) g :
  keeps_keys g -> unique_labels db ->
  unique_labels (with_nodes db (map g (knowledgeNodes db))).
Proof.
  intros Hg H. unfold unique_labels. simpl. rewrite map_key_map by exact Hg. exact H.
Qed.

Lemma find_matches_None (u l : jsstring) (ns : list KnowledgeNode.t) :
  find (node_matches u l) ns = None ->
  (u, l) ∉ map (fun n => (KnowledgeNode.userId n, KnowledgeNode.label n)) ns.
Proof.
  intros Hf Hin. apply list_elem_of_In, in_map_iff in Hin as (n & Hk & Hn).
  injection Hk as Hu Hl.
  pose proof (find_none _ _ Hf n Hn) as Hm.
  assert (node_matches u l n = true) by (apply node_matches_spec; auto).
  congruence.
Qed.

Lemma unique_labels_append (db : DB) (n : KnowledgeNode.t) (k : N) :
  unique_labels db ->
  find (node_matches (KnowledgeNode.userId n) (KnowledgeNode.label n))
    (knowledgeNodes db) = None ->
  unique_labels {| documents := documents db;
                   knowledgeNodes := knowledgeNodes db ++ [n];
                   nextId := k |}.
Proof.
  intros H Hf. unfold unique_labels in *. simpl. rewrite map_app. simpl.
  apply NoDup_app. repeat split.
  - exact H.
  - intros key Hk Hk'. apply list_elem_of_singleton in Hk'. subst key.
    exact (find_matches_None _ _ _ Hf Hk).
  - apply NoDup_singleton.
Qed.

(** *** All the upserts *)

Lemma extends_refl u names db : extends u names db db.
Proof.
  exists (fun n => n), []. split; [apply keeps_id|].
  split; [rewrite map_id, app_nil_r; reflexivity|].
  split; [reflexivity|]. split; [lia | constructor].
Qed.

Lemma extends_trans u names db1 db2 db3 :
  extends u names db1 db2 -> extends u names db2 db3 -> extends u names db1 db3.
Proof.
  intros (g & new & Hg & Hn & Hd & Hid & Hnew) (g' & new' & Hg' & Hn' & Hd' & Hid' & Hnew').
  exists (fun n => g' (g n)), (map g' new ++ new').
  split; [apply keeps_compose; assumption|].
  split; [rewrite Hn', Hn, map_app, map_map, app_assoc; reflexivity|].
  split; [congruence|]. split; [lia|].
  apply Forall_app. split.
  - apply Forall_forall. intros n Hn0.
    apply list_elem_of_In, in_map_iff in Hn0 as (m & <- & Hm).
    rewrite Forall_forall in Hnew. apply list_elem_of_In, Hnew in Hm.
    destruct (Hg' m) as (-> & -> & -> & ->). exact Hm.
  - eapply Forall_impl; [exact Hnew'|]. simpl. intros n (? & ? & ? & ?).
    repeat split; try assumption. lia.
Qed.

Lemma extends_names u names names' db db' :
  (forall l, l ∈ names -> l ∈ names') ->
  extends u names db db' -> extends u names' db db'.
Proof.
  intros Hsub (g & new & Hg & Hn & Hd & Hid & Hnew).
  exists g, new. do 4 (split; [assumption|]).
  eapply Forall_impl; [exact Hnew|]. simpl. intros n (? & ? & ? & ?). auto.
Qed.

Lemma find_app_Some {A} (f : A -> bool) (l l' : list A) :
  find f l <> None -> find f (l ++ l') = find f l.
Proof.
  induction l as [|x l IH]; simpl; [congruence|].
  destruct (f x); [reflexivity | exact IH].
Qed.

Lemma find_app_None {A} (f : A -> bool) (l l' : list A) :
  find f l = None -> find f (l ++ l') = find f l'.
Proof.
  induction l as [|x l IH]; simpl; [reflexivity|].
  destruct (f x); [discriminate | exact IH].
Qed.

(** A label that has a node keeps one. *)
Lemma extends_found u names db db' u' l :
  extends u names db db' ->
  find (node_matches u' l) (knowledgeNodes db) <> None ->
  find (node_matches u' l) (knowledgeNodes db') <> None.
Proof.
  intros (g & new & Hg & Hn & _) Hf. rewrite Hn, find_app_Some.
  - rewrite find_matches_map by (apply keeps_keeps_keys, Hg).
    destruct (find _ (knowledgeNodes db)); [discriminate | congruence].
  - rewrite find_matches_map by (apply keeps_keeps_keys, Hg).
    destruct (find _ (knowledgeNodes db)); [discriminate | congruence].
Qed.

(** The first loop never throws; it leaves a well-formed store that
    extends the one it started from and has a node for every name. *)
Lemma upsert_entities_extends (u : jsstring) (es : list TypedEntity.t) :
  forall db,
    wf db ->
    exists db',
      upsert_entities u es db = (Ok tt, db')
      /\ wf db'
      /\ extends u (map TypedEntity.name es) db db'
      /\ (forall e, e ∈ es ->
                    find (node_matches u (TypedEntity.name e)) (knowledgeNodes db')
                    <> None)
      /\ (unique_labels db -> unique_labels db').
Proof.
  induction es as [|e es IH]; intros db Hwf.
  - exists db. split; [reflexivity|]. split; [exact Hwf|].
    split; [apply extends_refl|].
    split; [intros e He; apply elem_of_nil in He; destruct He | auto].
  - assert (Hstep : exists db1,
      upsert_entity u e db = (Ok tt, db1)
      /\ wf db1
      /\ extends u (map TypedEntity.name (e :: es)) db db1
      /\ find (node_matches u (TypedEntity.name e)) (knowledgeNodes db1) <> None
      /\ (unique_labels db -> unique_labels db1)).
    { destruct (find (node_matches u (TypedEntity.name e)) (knowledgeNodes db))
        as [n|] eqn:Hf.
      - eexists. split; [apply (upsert_entity_found u e db n Hf)|].
        pose proof (keeps_updateData (KnowledgeNode.id n) n e) as Hk.
        split; [apply wf_with_nodes_map; [apply keeps_keeps_keys, Hk | exact Hwf]|].
        split.
        { exists (update_where (KnowledgeNode.id n) (updateData n e)), [].
          split; [exact Hk|]. simpl.
          split; [rewrite app_nil_r; reflexivity|].
          split; [reflexivity|]. split; [lia | constructor]. }
        split.
        { simpl. rewrite find_matches_map by (apply keeps_keeps_keys, Hk).
          rewrite Hf. discriminate. }
        intros Hu. apply unique_labels_map; [apply keeps_keeps_keys, Hk | exact Hu].
      - eexists. split; [apply (upsert_entity_new u e db Hf)|].
        split; [apply wf_append; [exact Hwf | reflexivity]|].
        split.
        { exists (fun n => n), [new_entity_node u e db].
          split; [apply keeps_id|]. simpl.
          split; [rewrite map_id; reflexivity|].
          split; [reflexivity|]. split; [lia|].
          apply Forall_singleton. simpl.
          split; [reflexivity|]. split; [left|]. split; [reflexivity | lia]. }
        split.
        { simpl. rewrite find_app_None by exact Hf. simpl.
          assert (Hm : node_matches u (TypedEntity.name e) (new_entity_node u e db) = true)
            by (apply node_matches_spec; split; reflexivity).
          rewrite Hm. discriminate. }
        intros Hu. apply unique_labels_append; [exact Hu | exact Hf]. }
    destruct Hstep as (db1 & Hrun1 & Hwf1 & Hext1 & Hfound1 & Hul1).
    destruct (IH db1 Hwf1) as (db' & Hrun & Hwf' & Hext & Hfound & Hul).
    exists db'. split.
    { simpl. unfold bindP. rewrite Hrun1. exact Hrun. }
    split; [exact Hwf'|].
    split.
    { eapply extends_trans; [exact Hext1|].
      eapply extends_names; [|exact Hext].
      intros l Hl. simpl. right. exact Hl. }
    split.
    { intros e' He'. apply elem_of_cons in He' as [->|He'].
      - eapply extends_found; [exact Hext | exact Hfound1].
      - apply Hfound, He'. }
    intros Hu. apply Hul, Hul1, Hu.
Qed.

Lemma type_name_entity (t : EntityType) :
  jsstring_eqb (type_name t) (js "entity") = true <-> t = entity.
Proof.
  rewrite jsstring_eqb_eq. destruct t; vm_compute; split; congruence.
Qed.

Lemma updateData_fields (existing : KnowledgeNode.t) (e : TypedEntity.t)
  (row : KnowledgeNode.t) :
  KnowledgeNode.id (updateData existing e row) = KnowledgeNode.id row
  /\ KnowledgeNode.label (updateData existing e row) = KnowledgeNode.label row
  /\ KnowledgeNode.connections (updateData existing e row)
     = KnowledgeNode.connections row
  /\ KnowledgeNode.strength (updateData existing e row)
     = (KnowledgeNode.strength existing + (1 # 2))%Q
  /\ KnowledgeNode.type (updateData existing e row)
     = if bool_decide (KnowledgeNode.type existing = js "entity"
                       /\ TypedEntity.type e <> entity)
       then type_name (TypedEntity.type e)
       else KnowledgeNode.type row.
Proof.
  unfold updateData.
  destruct (jsstring_eqb (KnowledgeNode.type existing) (js "entity")) eqn:Hstored;
    destruct (jsstring_eqb (type_name (TypedEntity.type e)) (js "entity")) eqn:Hobs;
    simpl; (do 4 (split; [reflexivity|])).
  - apply type_name_entity in Hobs.
    rewrite bool_decide_eq_false_2; [reflexivity | tauto].
  - apply jsstring_eqb_eq in Hstored.
    rewrite bool_decide_eq_true_2; [reflexivity|]. split; [exact Hstored|].
    intros He. apply type_name_entity in He. congruence.
  - rewrite bool_decide_eq_false_2; [reflexivity|]. intros [Hs _].
    apply jsstring_eqb_eq in Hs. congruence.
  - rewrite bool_decide_eq_false_2; [reflexivity|]. intros [Hs _].
    apply jsstring_eqb_eq in Hs. congruence.
Qed.

(** C2.  One typed entity of the merge.  When the owner has no node
    with the entity's name as label, one node is created: type as
    observed, strength 1, no connection.  Otherwise the node found
    keeps its id, label and connections and gets strength + 0.5; its
    type becomes the observed one exactly when the stored type is
    ['entity'] and the observed one is [concept] or [idea], so that a
    stored type other than ['entity'] is never replaced.  The rows with
    another id are not touched, and no row is added. *)
Theorem upsert_entity_spec (u : jsstring) (e : TypedEntity.t) (db : DB) :
  match find (node_matches u (TypedEntity.name e)) (knowledgeNodes db) with
  | None =>
      exists n,
        upsert_entity u e db
        = (Ok tt, {| documents := documents db;
                     knowledgeNodes := knowledgeNodes db ++ [n];
                     nextId := (nextId db + 1)%N |})
        /\ KnowledgeNode.userId n = u
        /\ KnowledgeNode.label n = TypedEntity.name e
        /\ KnowledgeNode.type n = type_name (TypedEntity.type e)
        /\ KnowledgeNode.strength n = 1%Q
        /\ KnowledgeNode.connections n = []
  | Some existing =>
      exists db' n',
        upsert_entity u e db = (Ok tt, db')
        /\ documents db' = documents db
        /\ length (knowledgeNodes db') = length (knowledgeNodes db)
        /\ find (node_matches u (TypedEntity.name e)) (knowledgeNodes db') = Some n'
        /\ KnowledgeNode.id n' = KnowledgeNode.id existing
        /\ KnowledgeNode.label n' = KnowledgeNode.label existing
        /\ KnowledgeNode.connections n' = KnowledgeNode.connections existing
        /\ KnowledgeNode.strength n' = (KnowledgeNode.strength existing + (1 # 2))%Q
        /\ (KnowledgeNode.type existing = js "entity" ->
            TypedEntity.type e = concept \/ TypedEntity.type e = idea ->
            KnowledgeNode.type n' = type_name (TypedEntity.type e))
        /\ (KnowledgeNode.type existing <> js "entity" ->
            KnowledgeNode.type n' = KnowledgeNode.type existing)
        /\ (TypedEntity.type e = entity ->
            KnowledgeNode.type n' = KnowledgeNode.type existing)
        /\ (forall m, m ∈ knowledgeNodes db ->
                      KnowledgeNode.id m <> KnowledgeNode.id existing ->
                      m ∈ knowledgeNodes db')
  end.
Proof.
  destruct (find _ (knowledgeNodes db)) as [existing|] eqn:Hf.
  - pose proof (keeps_updateData (KnowledgeNode.id existing) existing e) as Hk.
    eexists _, (updateData existing e existing).
    split; [apply (upsert_entity_found u e db existing Hf)|].
    split; [reflexivity|].
    split; [simpl; apply length_map|].
    split.
    { simpl. rewrite find_matches_map by (apply keeps_keeps_keys, Hk).
      rewrite Hf. simpl. unfold update_where. rewrite N.eqb_refl. reflexivity. }
    destruct (updateData_fields existing e existing) as (Hid & Hl & Hc & Hs & Ht).
    do 4 (split; [assumption|]).
    rewrite Ht. split; [|split; [|split]].
    + intros Hstored Hobs. rewrite bool_decide_eq_true_2; [reflexivity|].
      split; [exact Hstored|]. destruct Hobs as [-> | ->]; discriminate.
    + intros Hstored. rewrite bool_decide_eq_false_2; [reflexivity|]. tauto.
    + intros Hobs. rewrite bool_decide_eq_false_2; [reflexivity|]. tauto.
    + intros m Hm Hne. simpl. apply list_elem_of_In, in_map_iff. exists m.
      split; [|apply list_elem_of_In, Hm].
      unfold update_where.
      destruct (N.eqb_spec (KnowledgeNode.id m) (KnowledgeNode.id existing));
        [contradiction | reflexivity].
  - exists (new_entity_node u e db).
    split; [apply (upsert_entity_new u e db Hf)|].
    repeat split.
Qed.

(** *** The last loop *)

Lemma with_nodes_same (db : DB) : with_nodes db (knowledgeNodes db) = db.
Proof. destruct db. reflexivity. Qed.

Lemma rewire_nil nodes docNode m : rewire nodes docNode [] m = m.
Proof. reflexivity. Qed.

Lemma rewire_cons nodes docNode node rest m :
  KnowledgeNode.id node ∉ map KnowledgeNode.id rest ->
  rewire nodes docNode rest
    (update_where (KnowledgeNode.id node)
       (set_connections (newConnections nodes docNode node)) m)
  = rewire nodes docNode (node :: rest) m.
Proof.
  intros Hnode. unfold update_where.
  destruct (N.eqb_spec (KnowledgeNode.id m) (KnowledgeNode.id node)) as [Heq|Hne].
  - unfold rewire. cbn [find KnowledgeNode.id set_connections].
    rewrite Heq, N.eqb_refl.
    rewrite find_by_id_None by exact Hnode. reflexivity.
  - unfold rewire. cbn [find].
    destruct (N.eqb_spec (KnowledgeNode.id node) (KnowledgeNode.id m));
      [congruence | reflexivity].
Qed.

(** The loop never throws when every node to update is in the store,
    and it rewires exactly the rows that have the id of such a node. *)
Lemma connect_loop_spec nodes docNode (todo : list KnowledgeNode.t) :
  forall db,
    NoDup (map KnowledgeNode.id todo) ->
    (forall n, n ∈ todo ->
               KnowledgeNode.id n ∈ map KnowledgeNode.id (knowledgeNodes db)) ->
    connect_loop nodes docNode todo db
    = (Ok tt, with_nodes db (map (rewire nodes docNode todo) (knowledgeNodes db))).
Proof.
  induction todo as [|node rest IH]; intros db Hnd Hin.
  - simpl. unfold ret. f_equal.
    rewrite (map_ext _ (fun m => m)), map_id by apply rewire_nil.
    symmetry. apply with_nodes_same.
  - simpl in Hnd. apply NoDup_cons in Hnd as [Hnode Hnd].
    simpl. unfold bindP.
    rewrite knowledgeNode_update_ok by (apply Hin; left).
    set (c := newConnections nodes docNode node).
    pose proof (keeps_keys_set_connections (KnowledgeNode.id node) c) as Hk.
    rewrite IH; [|exact Hnd|].
    + unfold with_nodes. simpl. f_equal. f_equal.
      rewrite map_map. apply map_ext. intros m.
      apply rewire_cons. exact Hnode.
    + intros n Hn. simpl. rewrite map_id_map by exact Hk.
      apply Hin. right. exact Hn.
Qed.

(** *** The merge as a function of the store *)

Lemma NoDup_map_filter {A B} (f : A -> B) (P : A -> Prop)
  `{forall x, Decision (P x)} (l : list A) :
  NoDup (map f l) -> NoDup (map f (filter P l)).
Proof.
  induction l as [|x l IH]; intros Hnd; [constructor|].
  simpl in Hnd. apply NoDup_cons in Hnd as [Hx Hnd].
  destruct (decide (P x)).
  - rewrite filter_cons_True by assumption. simpl. apply NoDup_cons. split.
    + intros Hin. apply Hx.
      apply list_elem_of_In, in_map_iff in Hin as (y & Hy & Hin).
      apply list_elem_of_In, list_elem_of_filter in Hin as [_ Hin].
      rewrite <- Hy. apply list_elem_of_In, in_map, list_elem_of_In, Hin.
    + apply IH, Hnd.
  - rewrite filter_cons_False by assumption. apply IH, Hnd.
Qed.

(** On a well-formed store [mergeDocument] never throws, and the store
    it leaves is [merged]. *)
Lemma mergeDocument_merged (u : jsstring) (docId : N) (es : list TypedEntity.t)
  (db : DB) :
  wf db -> mergeDocument u docId es db = (Ok tt, merged u docId es db).
Proof.
  intros Hwf.
  destruct (upsert_entities_extends u es db Hwf) as (dbU & Hrun & HwfU & _).
  unfold mergeDocument, merged, after_upserts, bindP.
  rewrite Hrun. cbn [snd].
  unfold knowledgeNode_findMany, document_findUnique, knowledgeNode_findFirst.
  fold (entity_nodes u (map TypedEntity.name es) dbU).
  fold (merge_label docId dbU).
  set (nodes := entity_nodes u (map TypedEntity.name es) dbU).
  set (label := merge_label docId dbU).
  assert (Hnd : NoDup (map KnowledgeNode.id nodes)).
  { apply NoDup_map_filter. apply HwfU. }
  unfold with_document_node.
  destruct (find (node_matches u label) (knowledgeNodes dbU)) as [d|] eqn:Hf.
  - unfold ret. cbn [fst snd]. apply connect_loop_spec; [exact Hnd|].
    intros n Hn. apply list_elem_of_filter in Hn as [_ Hn].
    apply list_elem_of_In, in_map, list_elem_of_In, Hn.
  - unfold knowledgeNode_create. cbn [fst snd].
    fold (new_document_node u label nodes dbU).
    apply connect_loop_spec; [exact Hnd|].
    intros n Hn. apply list_elem_of_filter in Hn as [_ Hn]. simpl.
    rewrite map_app, elem_of_app. left.
    apply list_elem_of_In, in_map, list_elem_of_In, Hn.
Qed.

(** *** The upserts when every name has a node already *)

Lemma Qlt_plus_half (q : Q) : (q < q + (1 # 2))%Q.
Proof.
  rewrite <- (Qplus_0_r q) at 1. apply Qplus_lt_r. reflexivity.
Qed.

Lemma same_id_same_row (ns : list KnowledgeNode.t) (n m : KnowledgeNode.t) :
  NoDup (map KnowledgeNode.id ns) -> n ∈ ns -> m ∈ ns ->
  KnowledgeNode.id n = KnowledgeNode.id m -> n = m.
Proof.
  intros Hnd Hn Hm Heq.
  pose proof (find_by_id ns n Hnd Hn) as H1.
  pose proof (find_by_id ns m Hnd Hm) as H2.
  rewrite Heq in H1. congruence.
Qed.

Lemma with_nodes_with_nodes (db : DB) (l1 l2 : list KnowledgeNode.t) :
  with_nodes (with_nodes db l1) l2 = with_nodes db l2.
Proof. reflexivity. Qed.

(** No row is added, rows keep id, owner, label and connections, no
    strength goes down, and the node of every name gains strength. *)
Lemma upsert_entities_found (u : jsstring) (es : list TypedEntity.t) :
  forall db,
    wf db ->
    (forall e, e ∈ es ->
               find (node_matches u (TypedEntity.name e)) (knowledgeNodes db) <> None) ->
    exists g,
      keeps g
      /\ upsert_entities u es db = (Ok tt, with_nodes db (map g (knowledgeNodes db)))
      /\ (forall n, n ∈ knowledgeNodes db ->
                    (KnowledgeNode.strength n <= KnowledgeNode.strength (g n))%Q)
      /\ (forall e n,
             e ∈ es ->
             find (node_matches u (TypedEntity.name e)) (knowledgeNodes db) = Some n ->
             (KnowledgeNode.strength n < KnowledgeNode.strength (g n))%Q).
Proof.
  induction es as [|e es IH]; intros db Hwf Hall.
  - exists (fun n => n). split; [apply keeps_id|].
    split; [simpl; rewrite map_id, with_nodes_same; reflexivity|].
    split; [intros; apply Qle_refl|].
    intros e n He. apply elem_of_nil in He. destruct He.
  - destruct (find (node_matches u (TypedEntity.name e)) (knowledgeNodes db))
      as [n0|] eqn:Hf0; [|destruct (Hall e ltac:(left) Hf0)].
    set (upd := update_where (KnowledgeNode.id n0) (updateData n0 e)).
    pose proof (keeps_updateData (KnowledgeNode.id n0) n0 e) as Hk. fold upd in Hk.
    pose proof (keeps_keeps_keys _ Hk) as Hkk.
    set (db1 := with_nodes db (map upd (knowledgeNodes db))).
    assert (Hwf1 : wf db1) by (apply wf_with_nodes_map; assumption).
    assert (Hall1 : forall e', e' ∈ es ->
      find (node_matches u (TypedEntity.name e')) (knowledgeNodes db1) <> None).
    { intros e' He'. simpl. rewrite find_matches_map by exact Hkk.
      specialize (Hall e' ltac:(right; exact He')).
      destruct (find _ (knowledgeNodes db)); [discriminate | congruence]. }
    destruct (IH db1 Hwf1 Hall1) as (g1 & Hg1 & Hrun1 & Hle1 & Hlt1).
    assert (Hupd_le : forall n, n ∈ knowledgeNodes db ->
      (KnowledgeNode.strength n <= KnowledgeNode.strength (upd n))%Q).
    { intros n Hn. unfold upd, update_where.
      destruct (N.eqb_spec (KnowledgeNode.id n) (KnowledgeNode.id n0)) as [Heq|Hne];
        [|apply Qle_refl].
      apply find_some_elem in Hf0 as [Hn0 _].
      assert (n = n0) by (eapply same_id_same_row; [apply Hwf| | |]; eassumption).
      subst n.
      destruct (updateData_fields n0 e n0) as (_ & _ & _ & -> & _).
      apply Qlt_le_weak, Qlt_plus_half. }
    assert (Hin1 : forall n, n ∈ knowledgeNodes db -> upd n ∈ knowledgeNodes db1).
    { intros n Hn. simpl. apply list_elem_of_In, in_map, list_elem_of_In, Hn. }
    exists (fun n => g1 (upd n)).
    split; [apply keeps_compose; assumption|].
    split.
    { simpl. unfold bindP. rewrite (upsert_entity_found u e db n0 Hf0).
      fold upd. fold db1. rewrite Hrun1. simpl. rewrite map_map. reflexivity. }
    split.
    { intros n Hn. eapply Qle_trans; [apply Hupd_le, Hn | apply Hle1, Hin1, Hn]. }
    intros e' n He' Hf'. apply elem_of_cons in He' as [->|He'].
    + rewrite Hf0 in Hf'. injection Hf' as <-.
      pose proof (find_some_elem _ _ _ Hf0) as [Hn0 _].
      eapply Qlt_le_trans; [|apply Hle1, Hin1, Hn0].
      unfold upd, update_where. rewrite N.eqb_refl.
      destruct (updateData_fields n0 e n0) as (_ & _ & _ & -> & _).
      apply Qlt_plus_half.
    + pose proof (find_some_elem _ _ _ Hf') as [Hn _].
      eapply Qle_lt_trans; [apply Hupd_le, Hn|].
      apply (Hlt1 e' (upd n) He'). simpl.
      rewrite find_matches_map by exact Hkk. rewrite Hf'. reflexivity.
Qed.

(** *** What a merge leaves *)

Section MergedFacts.

Variables (u : jsstring) (docId : N) (es : list TypedEntity.t) (db : DB).
Hypothesis Hwf : wf db.

Let names := map TypedEntity.name es.
Let dbU := after_upserts u es db.
Let nodes := entity_nodes u names dbU.
Let label := merge_label docId dbU.
Let docNode := fst (with_document_node u label nodes dbU).
Let dbD := snd (with_document_node u label nodes dbU).
Let rw := rewire nodes docNode nodes.

Lemma after_upserts_facts :
  upsert_entities u es db = (Ok tt, dbU)
  /\ wf dbU
  /\ extends u names db dbU
  /\ (forall e, e ∈ es ->
                find (node_matches u (TypedEntity.name e)) (knowledgeNodes dbU) <> None)
  /\ (unique_labels db -> unique_labels dbU).
Proof.
  destruct (upsert_entities_extends u es db Hwf) as (db' & Hrun & H).
  unfold dbU, after_upserts. rewrite Hrun. simpl. split; [reflexivity | exact H].
Qed.

Lemma created_label_not_a_name :
  find (node_matches u label) (knowledgeNodes dbU) = None -> label ∉ names.
Proof.
  intros Hf Hin.
  apply list_elem_of_In, in_map_iff in Hin as (e & He & Hin).
  destruct after_upserts_facts as (_ & _ & _ & Hfound & _).
  apply (Hfound e); [apply list_elem_of_In, Hin|]. rewrite He. exact Hf.
Qed.

Lemma document_node_cases :
  (find (node_matches u label) (knowledgeNodes dbU) = Some docNode /\ dbD = dbU)
  \/ (find (node_matches u label) (knowledgeNodes dbU) = None
      /\ (label ∉ names)
      /\ docNode = new_document_node u label nodes dbU
      /\ dbD = {| documents := documents dbU;
                  knowledgeNodes := knowledgeNodes dbU ++ [docNode];
                  nextId := (nextId dbU + 1)%N |}).
Proof.
  pose proof created_label_not_a_name as Hnot.
  unfold docNode, dbD, with_document_node.
  destruct (find (node_matches u label) (knowledgeNodes dbU)) as [d|].
  - left. split; reflexivity.
  - right. repeat split. apply Hnot. reflexivity.
Qed.

Lemma find_document_node :
  find (node_matches u label) (knowledgeNodes dbD) = Some docNode.
Proof.
  destruct document_node_cases as [[Hf ->]|(Hf & _ & Hd & ->)]; [exact Hf|].
  simpl. rewrite find_app_None by exact Hf. simpl.
  assert (Hm : node_matches u label docNode = true).
  { apply node_matches_spec. rewrite Hd. split; reflexivity. }
  rewrite Hm. reflexivity.
Qed.

Lemma entity_nodes_with_document : entity_nodes u names dbD = nodes.
Proof.
  destruct document_node_cases as [[_ ->]|(_ & Hn & Hd & ->)]; [reflexivity|].
  unfold entity_nodes. simpl. rewrite filter_app.
  rewrite (filter_cons_False _ docNode).
  - rewrite filter_nil, app_nil_r. reflexivity.
  - intros [_ Hl]. apply Hn. rewrite Hd in Hl. exact Hl.
Qed.

Lemma wf_with_document : wf dbD.
Proof.
  destruct after_upserts_facts as (_ & HwfU & _).
  destruct document_node_cases as [[_ ->]|(_ & _ & Hd & ->)]; [exact HwfU|].
  apply wf_append; [exact HwfU|]. rewrite Hd. reflexivity.
Qed.

Lemma unique_labels_with_document : unique_labels db -> unique_labels dbD.
Proof.
  intros Hu. destruct after_upserts_facts as (_ & _ & _ & _ & HuU).
  destruct document_node_cases as [[_ ->]|(Hf & _ & Hd & ->)]; [auto|].
  apply unique_labels_append; [auto|]. rewrite Hd. exact Hf.
Qed.

Lemma documents_with_document : documents dbD = documents db.
Proof.
  destruct after_upserts_facts as (_ & _ & (g & new & _ & _ & Hdocs & _) & _).
  destruct document_node_cases as [[_ ->]|(_ & _ & _ & ->)]; exact Hdocs.
Qed.

Lemma nodes_in_store (n : KnowledgeNode.t) :
  n ∈ nodes -> n ∈ knowledgeNodes dbD /\ label_among u names n.
Proof.
  intros Hn. rewrite <- entity_nodes_with_document in Hn.
  apply list_elem_of_filter in Hn as [HP Hn]. split; assumption.
Qed.

Lemma NoDup_nodes : NoDup (map KnowledgeNode.id nodes).
Proof.
  rewrite <- entity_nodes_with_document. apply NoDup_map_filter, wf_with_document.
Qed.

(** An entity node gets the union as its connections. *)
Lemma rewire_entity (m : KnowledgeNode.t) :
  m ∈ nodes -> rw m = set_connections (newConnections nodes docNode m) m.
Proof.
  intros Hm. unfold rw, rewire.
  rewrite (find_by_id nodes m NoDup_nodes Hm). reflexivity.
Qed.

(** Every other row is left as it is. *)
Lemma rewire_other (m : KnowledgeNode.t) :
  m ∈ knowledgeNodes dbD -> ~ label_among u names m -> rw m = m.
Proof.
  intros Hm HP. unfold rw, rewire.
  destruct (find _ nodes) as [n|] eqn:Hf; [|reflexivity].
  exfalso. apply HP.
  apply find_some_elem in Hf as [Hn Heq]. apply N.eqb_eq in Heq.
  destruct (nodes_in_store n Hn) as [HnD HPn].
  assert (n = m) by (eapply same_id_same_row; [apply wf_with_document| | |]; eassumption).
  subst n. exact HPn.
Qed.

Lemma merged_eq :
  merged u docId es db = with_nodes dbD (map rw (knowledgeNodes dbD)).
Proof. reflexivity. Qed.

Lemma wf_merged : wf (merged u docId es db).
Proof.
  rewrite merged_eq. apply wf_with_nodes_map;
    [apply keeps_keys_rewire | apply wf_with_document].
Qed.

Lemma unique_labels_merged : unique_labels db -> unique_labels (merged u docId es db).
Proof.
  intros Hu. rewrite merged_eq. apply unique_labels_map;
    [apply keeps_keys_rewire | apply unique_labels_with_document, Hu].
Qed.

Lemma documents_merged : documents (merged u docId es db) = documents db.
Proof. rewrite merged_eq. simpl. apply documents_with_document. Qed.

Lemma entity_nodes_merged :
  entity_nodes u names (merged u docId es db) = map rw nodes.
Proof.
  rewrite merged_eq. unfold entity_nodes. simpl.
  rewrite filter_entity_map by apply keeps_keys_rewire.
  fold (entity_nodes u names dbD). rewrite entity_nodes_with_document. reflexivity.
Qed.

Lemma find_document_node_merged :
  find (node_matches u label) (knowledgeNodes (merged u docId es db))
  = Some (rw docNode).
Proof.
  rewrite merged_eq. simpl.
  rewrite find_matches_map by apply keeps_keys_rewire.
  rewrite find_document_node. reflexivity.
Qed.

(** The connections a row had before the merge are those it has after
    the upserts. *)
Lemma stored_before (m : KnowledgeNode.t) :
  m ∈ knowledgeNodes dbU ->
  stored_connections (KnowledgeNode.id m) db = KnowledgeNode.connections m.
Proof.
  intros Hm.
  destruct after_upserts_facts as (_ & _ & (g & new & Hg & Hn & _ & _ & Hnew) & _).
  rewrite Hn in Hm. apply elem_of_app in Hm as [Hm|Hm]; unfold stored_connections.
  - apply list_elem_of_In, in_map_iff in Hm as (m0 & <- & Hm0).
    destruct (Hg m0) as (-> & _ & _ & ->).
    rewrite (find_by_id _ m0 (proj1 Hwf)) by (apply list_elem_of_In, Hm0).
    reflexivity.
  - rewrite Forall_forall in Hnew. destruct (Hnew m Hm) as (_ & _ & -> & Hid).
    rewrite find_by_id_None; [reflexivity|].
    intros Hin. apply list_elem_of_In, in_map_iff in Hin as (m0 & Heq & Hm0).
    destruct Hwf as [_ Hlt]. rewrite Forall_forall in Hlt.
    apply list_elem_of_In, Hlt in Hm0. lia.
Qed.

Lemma ids_of_others (m : KnowledgeNode.t) h (l : list KnowledgeNode.t) (i : N) :
  keeps_keys h ->
  map KnowledgeNode.id
    (filter (fun n => KnowledgeNode.id n <> i) (map h l))
  = map KnowledgeNode.id (filter (fun n => KnowledgeNode.id n <> i) l).
Proof.
  intros Hh. induction l as [|n l IH]; [reflexivity|].
  simpl map at 2. destruct (Hh n) as (Hid & _).
  destruct (decide (KnowledgeNode.id n <> i)) as [Hne|Heq].
  - rewrite !filter_cons_True by (rewrite ?Hid; exact Hne).
    simpl. rewrite IH, Hid. reflexivity.
  - rewrite !filter_cons_False by (rewrite ?Hid; exact Heq). exact IH.
Qed.

(** After the merge, the connections of an entity node are, as a set
    without repetition, its connections before the merge, the ids of
    the other entity nodes and the id of the document node. *)
Lemma merged_connections (n : KnowledgeNode.t) :
  n ∈ entity_nodes u names (merged u docId es db) ->
  NoDup (KnowledgeNode.connections n)
  /\ forall x,
      x ∈ KnowledgeNode.connections n <->
      x ∈ stored_connections (KnowledgeNode.id n) db
      \/ (exists m, m ∈ entity_nodes u names (merged u docId es db)
                    /\ KnowledgeNode.id m <> KnowledgeNode.id n
                    /\ x = KnowledgeNode.id m)
      \/ x = KnowledgeNode.id docNode.
Proof.
  rewrite entity_nodes_merged. intros Hn.
  apply list_elem_of_In, in_map_iff in Hn as (m & <- & Hm).
  apply list_elem_of_In in Hm.
  rewrite (rewire_entity m Hm). simpl.
  unfold newConnections.
  destruct (set_from_spec
              (KnowledgeNode.connections m
               ++ map KnowledgeNode.id
                    (filter (fun n => KnowledgeNode.id n <> KnowledgeNode.id m) nodes)
               ++ [KnowledgeNode.id docNode]) [] (NoDup_nil_2)) as [Hnd Hmem].
  split; [exact Hnd|].
  intros x. rewrite Hmem, !elem_of_app, list_elem_of_singleton, elem_of_nil.
  assert (HmU : m ∈ knowledgeNodes dbU)
    by (apply list_elem_of_filter in Hm as [_ Hm]; exact Hm).
  rewrite (stored_before m HmU).
  rewrite <- (ids_of_others m rw nodes (KnowledgeNode.id m) (keeps_keys_rewire _ _ _)).
  split.
  - intros [[]|[H|[H|H]]]; [left; exact H | right; left | right; right; exact H].
    apply list_elem_of_In, in_map_iff in H as (m2 & <- & Hm2).
    apply list_elem_of_In, list_elem_of_filter in Hm2 as [Hne Hm2].
    exists m2. split; [exact Hm2|]. split; [exact Hne | reflexivity].
  - intros [H|[(m2 & Hm2 & Hne & ->)|H]]; right;
      [left; exact H | right; left | right; right; exact H].
    apply list_elem_of_In, in_map, list_elem_of_In, list_elem_of_filter.
    split; assumption.
Qed.

(** Rows that were in the store are still there after the upserts, with
    the same id, owner, label and connections, and [find] by owner and
    label gives the same row. *)
Lemma old_row_after_upserts (m : KnowledgeNode.t) :
  m ∈ knowledgeNodes db ->
  exists m',
    m' ∈ knowledgeNodes dbU
    /\ KnowledgeNode.id m' = KnowledgeNode.id m
    /\ KnowledgeNode.userId m' = KnowledgeNode.userId m
    /\ KnowledgeNode.label m' = KnowledgeNode.label m
    /\ KnowledgeNode.connections m' = KnowledgeNode.connections m.
Proof.
  intros Hm.
  destruct after_upserts_facts as (_ & _ & (g & new & Hg & Hn & _) & _).
  exists (g m). split; [|apply Hg].
  rewrite Hn. apply elem_of_app. left.
  apply list_elem_of_In, in_map, list_elem_of_In, Hm.
Qed.

Lemma find_after_upserts_Some (l : jsstring) (D : KnowledgeNode.t) :
  find (node_matches u l) (knowledgeNodes db) = Some D ->
  exists D',
    find (node_matches u l) (knowledgeNodes dbU) = Some D'
    /\ KnowledgeNode.id D' = KnowledgeNode.id D
    /\ KnowledgeNode.label D' = KnowledgeNode.label D
    /\ KnowledgeNode.connections D' = KnowledgeNode.connections D.
Proof.
  intros Hf.
  destruct after_upserts_facts as (_ & _ & (g & new & Hg & Hn & _) & _).
  exists (g D). destruct (Hg D) as (Hid & _ & Hl & Hc).
  split; [|auto].
  rewrite Hn, find_app_Some; rewrite find_matches_map by (apply keeps_keeps_keys, Hg);
    rewrite Hf; [reflexivity | discriminate].
Qed.

Lemma find_after_upserts_None (l : jsstring) :
  l ∉ names ->
  find (node_matches u l) (knowledgeNodes db) = None ->
  find (node_matches u l) (knowledgeNodes dbU) = None.
Proof.
  intros Hl Hf.
  destruct after_upserts_facts as (_ & _ & (g & new & Hg & Hn & _ & _ & Hnew) & _).
  rewrite Hn, find_app_None
    by (rewrite find_matches_map by (apply keeps_keeps_keys, Hg); rewrite Hf; reflexivity).
  destruct (find (node_matches u l) new) as [n|] eqn:Hfn; [|reflexivity].
  exfalso. apply find_some_elem in Hfn as [Hin Hm].
  apply node_matches_spec in Hm as [_ Hm].
  rewrite Forall_forall in Hnew. destruct (Hnew n Hin) as (_ & Hname & _).
  apply Hl. rewrite <- Hm. exact Hname.
Qed.

Lemma merge_label_after_upserts : label = merge_label docId db.
Proof.
  destruct after_upserts_facts as (_ & _ & (g & new & _ & _ & Hdocs & _) & _).
  unfold label, merge_label. rewrite Hdocs. reflexivity.
Qed.

Lemma rows_with_document (m : KnowledgeNode.t) :
  m ∈ knowledgeNodes dbU -> m ∈ knowledgeNodes dbD.
Proof.
  intros Hm.
  destruct document_node_cases as [[_ ->]|(_ & _ & _ & ->)]; [exact Hm|].
  simpl. apply elem_of_app. left. exact Hm.
Qed.

Lemma row_merged (m : KnowledgeNode.t) :
  m ∈ knowledgeNodes dbD -> rw m ∈ knowledgeNodes (merged u docId es db).
Proof.
  intros Hm. rewrite merged_eq. simpl.
  apply list_elem_of_In, in_map, list_elem_of_In, Hm.
Qed.

(** C9 (amended).  When the document label is none of the entity names
    of the invocation, a [mergeDocument] that finds a node under the
    document label leaves that node's connections as they are, and one
    that finds none creates the document node with the ids of the
    document's entity nodes as connections (type ['document'], strength
    2); either way every entity node of the document gets the document
    node's id among its connections, and every other row keeps its
    connections. *)
Theorem document_node_connections_fixed :
  merge_label docId db ∉ map TypedEntity.name es ->
  exists db',
    mergeDocument u docId es db = (Ok tt, db')
    /\ (forall D,
           find (node_matches u (merge_label docId db)) (knowledgeNodes db) = Some D ->
           exists D',
             find (node_matches u (merge_label docId db)) (knowledgeNodes db') = Some D'
             /\ KnowledgeNode.id D' = KnowledgeNode.id D
             /\ KnowledgeNode.connections D' = KnowledgeNode.connections D)
    /\ (find (node_matches u (merge_label docId db)) (knowledgeNodes db) = None ->
        exists D',
          find (node_matches u (merge_label docId db)) (knowledgeNodes db') = Some D'
          /\ KnowledgeNode.type D' = js "document"
          /\ KnowledgeNode.strength D' = 2%Q
          /\ KnowledgeNode.connections D'
             = map KnowledgeNode.id
                 (entity_nodes u (map TypedEntity.name es) db'))
    /\ (forall D' n,
           find (node_matches u (merge_label docId db)) (knowledgeNodes db') = Some D' ->
           n ∈ entity_nodes u (map TypedEntity.name es) db' ->
           KnowledgeNode.id D' ∈ KnowledgeNode.connections n)
    /\ (forall m,
           m ∈ knowledgeNodes db ->
           ~ label_among u (map TypedEntity.name es) m ->
           exists m',
             m' ∈ knowledgeNodes db'
             /\ KnowledgeNode.id m' = KnowledgeNode.id m
             /\ KnowledgeNode.connections m' = KnowledgeNode.connections m).
Proof.
  rewrite <- merge_label_after_upserts. fold names. intros Hlabel.
  exists (merged u docId es db).
  split; [apply mergeDocument_merged, Hwf|].
  pose proof find_document_node as Hfd.
  pose proof (find_some_elem _ _ _ Hfd) as [HdocIn Hdm].
  apply node_matches_spec in Hdm as [_ Hdl].
  assert (Hnot : ~ label_among u names docNode).
  { intros [_ Hl]. apply Hlabel. rewrite <- Hdl. exact Hl. }
  pose proof (rewire_other docNode HdocIn Hnot) as Hrw.
  pose proof find_document_node_merged as HfindM. rewrite Hrw in HfindM.
  split.
  { intros D HfD.
    destruct (find_after_upserts_Some label D HfD) as (D' & HfU & Hid & _ & Hc).
    destruct document_node_cases as [[Hf _]|(Hf & _)]; [|congruence].
    exists docNode. split; [exact HfindM|].
    rewrite HfU in Hf. injection Hf as <-. auto. }
  split.
  { intros HfN.
    pose proof (find_after_upserts_None label Hlabel HfN) as HfU.
    destruct document_node_cases as [[Hf _]|(_ & _ & Hd & _)]; [congruence|].
    exists docNode. split; [exact HfindM|].
    rewrite Hd. simpl. repeat split.
    rewrite entity_nodes_merged, map_id_map by apply keeps_keys_rewire.
    reflexivity. }
  split.
  { intros D' n HfD' Hn. rewrite HfindM in HfD'. injection HfD' as <-.
    apply (merged_connections n Hn). right. right. reflexivity. }
  intros m Hm HP.
  destruct (old_row_after_upserts m Hm) as (m' & Hm' & Hid & Hu & Hl & Hc).
  exists m'. split; [|auto].
  pose proof (rows_with_document m' Hm') as HmD.
  rewrite <- (rewire_other m' HmD).
  - apply row_merged, HmD.
  - intros [Hu' Hl']. apply HP. split; congruence.
Qed.

(** One merge, in terms of the store before and the store after. *)
Lemma merge_summary :
  wf (merged u docId es db)
  /\ documents (merged u docId es db) = documents db
  /\ (unique_labels db -> unique_labels (merged u docId es db))
  /\ (forall e, e ∈ es ->
                find (node_matches u (TypedEntity.name e))
                  (knowledgeNodes (merged u docId es db)) <> None)
  /\ exists d,
      find (node_matches u (merge_label docId db))
        (knowledgeNodes (merged u docId es db)) = Some d
      /\ forall n,
          n ∈ entity_nodes u (map TypedEntity.name es) (merged u docId es db) ->
          NoDup (KnowledgeNode.connections n)
          /\ forall x,
              x ∈ KnowledgeNode.connections n <->
              x ∈ stored_connections (KnowledgeNode.id n) db
              \/ (exists m,
                     m ∈ entity_nodes u (map TypedEntity.name es) (merged u docId es db)
                     /\ KnowledgeNode.id m <> KnowledgeNode.id n
                     /\ x = KnowledgeNode.id m)
              \/ x = KnowledgeNode.id d.
Proof.
  split; [apply wf_merged|].
  split; [apply documents_merged|].
  split; [apply unique_labels_merged|].
  split.
  { intros e He. rewrite merged_eq. simpl.
    rewrite find_matches_map by apply keeps_keys_rewire.
    destruct after_upserts_facts as (_ & _ & _ & Hfound & _).
    specialize (Hfound e He).
    assert (Hf : find (node_matches u (TypedEntity.name e)) (knowledgeNodes dbD) <> None).
    { destruct document_node_cases as [[_ ->]|(_ & _ & _ & ->)]; [exact Hfound|].
      simpl. rewrite find_app_Some by exact Hfound. exact Hfound. }
    destruct (find _ (knowledgeNodes dbD)); [discriminate | congruence]. }
  exists (rw docNode). rewrite <- merge_label_after_upserts.
  split; [apply find_document_node_merged|].
  intros n Hn. destruct (merged_connections n Hn) as [Hnd Hmem].
  split; [exact Hnd|]. intros x. rewrite Hmem.
  destruct (keeps_keys_rewire nodes docNode nodes docNode) as (Hid & _).
  unfold rw. rewrite Hid. reflexivity.
Qed.

End MergedFacts.

(** *** A merge that finds everything in place *)

Lemma rewire_strength nodes docNode todo m :
  KnowledgeNode.strength (rewire nodes docNode todo m) = KnowledgeNode.strength m.
Proof. unfold rewire. destruct (find _ todo); reflexivity. Qed.

(** When every name has its node, the document node exists and every
    entity node already holds the other entity nodes and the document
    node, the merge changes no id, label or connection and adds no row;
    it only raises strengths (and may correct types). *)
Lemma merge_stable (u : jsstring) (docId : N) (es : list TypedEntity.t) (db : DB) :
  wf db ->
  (forall e, e ∈ es ->
             find (node_matches u (TypedEntity.name e)) (knowledgeNodes db) <> None) ->
  forall d,
    find (node_matches u (merge_label docId db)) (knowledgeNodes db) = Some d ->
    (forall n,
        n ∈ entity_nodes u (map TypedEntity.name es) db ->
        NoDup (KnowledgeNode.connections n)
        /\ (forall m, m ∈ entity_nodes u (map TypedEntity.name es) db ->
                      KnowledgeNode.id m <> KnowledgeNode.id n ->
                      KnowledgeNode.id m ∈ KnowledgeNode.connections n)
        /\ KnowledgeNode.id d ∈ KnowledgeNode.connections n) ->
    edges (merged u docId es db) = edges db
    /\ (forall e n1,
           e ∈ es ->
           find (node_matches u (TypedEntity.name e)) (knowledgeNodes db) = Some n1 ->
           exists n2,
             find (node_matches u (TypedEntity.name e))
               (knowledgeNodes (merged u docId es db)) = Some n2
             /\ KnowledgeNode.id n2 = KnowledgeNode.id n1
             /\ (KnowledgeNode.strength n1 < KnowledgeNode.strength n2)%Q).
Proof.
  intros Hwf Hfound d Hfd Hready.
  destruct (upsert_entities_found u es db Hwf Hfound) as (g & Hg & Hrun & _ & Hlt).
  pose proof (keeps_keeps_keys g Hg) as Hgk.
  unfold merged, after_upserts. rewrite Hrun. cbn [snd].
  change (merge_label docId (with_nodes db (map g (knowledgeNodes db))))
    with (merge_label docId db).
  set (names := map TypedEntity.name es) in *.
  assert (Hen : entity_nodes u names (with_nodes db (map g (knowledgeNodes db)))
                = map g (entity_nodes u names db)).
  { unfold entity_nodes. cbn [knowledgeNodes with_nodes].
    apply filter_entity_map, Hgk. }
  rewrite !Hen.
  set (nodes := map g (entity_nodes u names db)).
  unfold with_document_node. cbn [knowledgeNodes with_nodes].
  rewrite find_matches_map by exact Hgk. rewrite Hfd. cbn [option_map fst snd].
  cbn [knowledgeNodes with_nodes].
  set (rw := rewire nodes (g d) nodes).
  assert (Hrwk : keeps_keys rw) by apply keeps_keys_rewire.
  split.
  - unfold edges. cbn [knowledgeNodes with_nodes]. rewrite !map_map.
    apply map_ext_in. intros m Hm. apply list_elem_of_In in Hm.
    destruct (Hrwk (g m)) as (-> & -> & ->).
    destruct (Hg m) as (Hid & -> & -> & Hc).
    rewrite Hid. f_equal.
    unfold rw, rewire.
    destruct (find _ nodes) as [n|] eqn:Hf; [|exact Hc].
    apply find_some_elem in Hf as [Hn Heq]. apply N.eqb_eq in Heq.
    apply list_elem_of_In, in_map_iff in Hn as (n0 & <- & Hn0).
    apply list_elem_of_In in Hn0.
    destruct (Hg n0) as (Hid0 & _ & _ & Hc0).
    assert (n0 = m).
    { apply list_elem_of_filter in Hn0 as Hn0'. destruct Hn0' as [_ Hn0'].
      eapply same_id_same_row; [apply Hwf | exact Hn0' | exact Hm | congruence]. }
    subst n0. simpl. unfold newConnections.
    unfold nodes. rewrite (ids_of_others m g _ _ Hgk), Hid0, Hc0.
    destruct (Hg d) as (-> & _).
    destruct (Hready m Hn0) as (Hnd & Hothers & Hdoc).
    apply set_from_stable; [exact Hnd|].
    intros x Hx. apply elem_of_app in Hx as [Hx|Hx].
    + apply list_elem_of_In, in_map_iff in Hx as (m2 & <- & Hm2).
      apply list_elem_of_In, list_elem_of_filter in Hm2 as [Hne Hm2].
      apply Hothers; assumption.
    + apply list_elem_of_singleton in Hx. subst x. exact Hdoc.
  - intros e n1 He Hf1. exists (rw (g n1)).
    split.
    { rewrite !find_matches_map by assumption. rewrite Hf1. reflexivity. }
    split.
    { destruct (Hrwk (g n1)) as (-> & _). apply Hg. }
    unfold rw. rewrite rewire_strength. apply (Hlt e n1 He Hf1).
Qed.


Lemma wf_store_react : wf store_react.
Proof. split; simpl; constructor. Qed.

Lemma wf_store_react_vue : wf store_react_vue.
Proof.
  split; simpl.
  - apply (bool_decide_unpack _). vm_compute. exact I.
  - repeat constructor.
Qed.


(** The theorem at a later merge for the document "React" that names
    the entity "Svelte": the document node keeps its connections. *)
Lemma document_node_connections_fixed_witness :
  wf store_react_vue
  /\ (merge_label 1 store_react_vue ∉ map TypedEntity.name [typed "Svelte" concept])
  /\ exists db' D',
      mergeDocument (js "user-1") 1 [typed "Svelte" concept] store_react_vue = (Ok tt, db')
      /\ find (node_matches (js "user-1") (js "React")) (knowledgeNodes db') = Some D'
      /\ KnowledgeNode.connections D' = [2%N].
Proof.
  assert (Hl : merge_label 1 store_react_vue ∉ map TypedEntity.name [typed "Svelte" concept]).
  { apply (bool_decide_unpack _). vm_compute. exact I. }
  split; [exact wf_store_react_vue|]. split; [exact Hl|].
  destruct (document_node_connections_fixed (js "user-1") 1 [typed "Svelte" concept]
              store_react_vue wf_store_react_vue Hl)
    as (db' & Hrun & Hkeep & _).
  destruct (Hkeep _ eq_refl) as (D' & Hf & _ & Hc).
  exists db', D'. auto.
Defined.

(** C9 as stated fails when the document label is also one of the
    entity names.  The store holds the document node "React" with the
    connections [[2]]; a later merge for the document "React" extracts
    the entities "React" and "Svelte": the node found under the document
    label is treated as an entity node and its connections become
    [[2; 4; 3]]. *)
Lemma document_node_rewired_counterexample :
  exists D D',
    merge_label 1 store_react_vue = js "React"
    /\ find (node_matches (js "user-1") (js "React")) (knowledgeNodes store_react_vue)
       = Some D
    /\ KnowledgeNode.type D = js "document"
    /\ KnowledgeNode.connections D = [2%N]
    /\ find (node_matches (js "user-1") (js "React"))
         (knowledgeNodes
            (snd (mergeDocument (js "user-1") 1
                    [typed "React" entity; typed "Svelte" concept] store_react_vue)))
       = Some D'
    /\ KnowledgeNode.id D' = KnowledgeNode.id D
    /\ KnowledgeNode.connections D' = [2%N; 4%N; 3%N].
Proof. eexists _, _. vm_compute. repeat split. Qed.

(** ** Document enrichment *)

Section ProcessFacts.

Variable NVIDIA_API_KEY : option jsstring.
Variable toLowerCase : jsstring -> jsstring.

Lemma extractEntitiesWithTypes_total (net : Net) (text : jsstring) :
  exists l, extractEntitiesWithTypes NVIDIA_API_KEY net text = Ok l.
Proof. eexists. apply extractEntitiesWithTypes_eq. Qed.

Lemma extractKeyPoints_total (net : Net) (text : jsstring) :
  exists l, extractKeyPoints NVIDIA_API_KEY net text = Ok l.
Proof. eexists. apply extractKeyPoints_eq. Qed.

Lemma document_update_ok (docId : N) patch (db : DB) (doc : Document.t) :
  find (fun d => N.eqb (Document.id d) docId) (documents db) = Some doc ->
  exists db',
    document_update docId patch db = (Ok tt, db')
    /\ knowledgeNodes db' = knowledgeNodes db
    /\ nextId db' = nextId db.
Proof.
  intros Hf. unfold document_update.
  assert (Hex : existsb (fun d => N.eqb (Document.id d) docId) (documents db) = true).
  { apply existsb_exists. apply find_some in Hf as [Hin Heq]. exists doc. auto. }
  rewrite Hex. eexists. repeat split.
Qed.

Lemma document_update_missing (docId : N) patch (db : DB) :
  find (fun d => N.eqb (Document.id d) docId) (documents db) = None ->
  document_update docId patch db = (Throw RecordNotFound, db).
Proof.
  intros Hf. unfold document_update.
  destruct (existsb _ (documents db)) eqn:Hex; [|reflexivity].
  apply existsb_exists in Hex as (d & Hin & Heq).
  pose proof (find_none _ _ Hf d Hin). simpl in *. congruence.
Qed.

(** C3 (amended).  [processDocumentWithAI] awaits the three extractions
    together.  The entity and key-point extractors never fail, so the
    outcome hangs on the summary: if [generateSummary] fails, nothing is
    written, neither the document fields nor the graph, whatever the
    entity extraction returned; if it succeeds (and the document
    exists), the document is enriched and then the graph is merged with
    the extracted entities. *)
Theorem processDocumentWithAI_all_or_nothing (netS netE netK : Net) (docId : N)
  (content userId : jsstring) (db : DB) :
  wf db ->
  exists typedEntities keyPoints,
    extractEntitiesWithTypes NVIDIA_API_KEY netE content = Ok typedEntities
    /\ extractKeyPoints NVIDIA_API_KEY netK content = Ok keyPoints
    /\ (forall err,
           generateSummary NVIDIA_API_KEY netS content = Throw err ->
           processDocumentWithAI NVIDIA_API_KEY toLowerCase netS netE netK docId
             content userId db = db)
    /\ (forall summary doc,
           generateSummary NVIDIA_API_KEY netS content = Ok summary ->
           find (fun d => N.eqb (Document.id d) docId) (documents db) = Some doc ->
           exists enriched db',
             document_update docId
               (enrich summary (map TypedEntity.name typedEntities) keyPoints
                  (generateEmbeddingSimple toLowerCase content)) db
             = (Ok tt, enriched)
             /\ mergeDocument userId docId typedEntities enriched = (Ok tt, db')
             /\ processDocumentWithAI NVIDIA_API_KEY toLowerCase netS netE netK docId
                  content userId db = db').
Proof.
  intros Hwf.
  destruct (extractEntitiesWithTypes_total netE content) as [typedEntities HE].
  destruct (extractKeyPoints_total netK content) as [keyPoints HK].
  exists typedEntities, keyPoints.
  split; [exact HE|]. split; [exact HK|].
  unfold processDocumentWithAI, processDocument_try, catchP, bindP, lift, Promise_all3.
  rewrite HE, HK. split.
  - intros err ->. reflexivity.
  - intros summary doc -> Hdoc. simpl bind.
    destruct (document_update_ok docId
                (enrich summary (map TypedEntity.name typedEntities) keyPoints
                   (generateEmbeddingSimple toLowerCase content)) db doc Hdoc)
      as (enriched & Hup & Hnodes & Hnext).
    assert (Hwf' : wf enriched).
    { unfold wf. rewrite Hnodes, Hnext. exact Hwf. }
    exists enriched, (merged userId docId typedEntities enriched).
    split; [exact Hup|].
    split; [apply mergeDocument_merged, Hwf'|].
    rewrite Hup, (mergeDocument_merged _ _ _ _ Hwf'). reflexivity.
Qed.

End ProcessFacts.

(** The theorem at the document "React", with a summary, one entity and
    no key point: the graph gets the entity node and the document node. *)
Lemma processDocumentWithAI_all_or_nothing_witness :
  wf store_react
  /\ exists doc enriched db',
      find (fun d => N.eqb (Document.id d) 1) (documents store_react) = Some doc
      /\ document_update 1
           (enrich (JStr (js "A summary.")) [js "React"] []
              (generateEmbeddingSimple toLowerCase_ascii (Document.content doc)))
           store_react
         = (Ok tt, enriched)
      /\ processDocumentWithAI (Some (js "nvapi-key")) toLowerCase_ascii
           (net_always (js "A summary.")) net_entities net_down 1
           (Document.content doc) (js "user-1") store_react
         = db'
      /\ mergeDocument (js "user-1") 1 [typed "React" entity] enriched = (Ok tt, db').
Proof.
  split; [exact wf_store_react|].
  destruct (processDocumentWithAI_all_or_nothing (Some (js "nvapi-key")) toLowerCase_ascii
              (net_always (js "A summary.")) net_entities net_down 1
              (js "React is a library for building user interfaces.") (js "user-1")
              store_react wf_store_react)
    as (typedEntities & keyPoints & HE & HK & _ & Hok).
  assert (HE' : typedEntities = [typed "React" entity]).
  { assert (H : extractEntitiesWithTypes (Some (js "nvapi-key")) net_entities
                  (js "React is a library for building user interfaces.")
                = Ok [typed "React" entity]) by (vm_compute; reflexivity).
    congruence. }
  assert (HK' : keyPoints = []).
  { assert (H : extractKeyPoints (Some (js "nvapi-key")) net_down
                  (js "React is a library for building user interfaces.")
                = Ok []) by (vm_compute; reflexivity).
    congruence. }
  subst typedEntities keyPoints.
  assert (HS : generateSummary (Some (js "nvapi-key")) (net_always (js "A summary."))
                 (js "React is a library for building user interfaces.")
               = Ok (JStr (js "A summary."))) by (vm_compute; reflexivity).
  destruct (Hok _ _ HS eq_refl) as (enriched & db' & Hup & Hmerge & Hrun).
  eexists _, enriched, db'.
  split; [reflexivity|]. split; [exact Hup|]. split; [exact Hrun | exact Hmerge].
Defined.

(** C3 as stated fails: the entity extraction yields one entity, the
    summary request times out on every model, and the graph is not
    merged: the store is left as it was, without any node. *)
Lemma summary_failure_blocks_merge_counterexample :
  extractEntitiesWithTypes (Some (js "nvapi-key")) net_entities
    (js "React is a library for building user interfaces.")
  = Ok [typed "React" entity]
  /\ generateSummary (Some (js "nvapi-key")) net_down
       (js "React is a library for building user interfaces.")
     = Throw (ErrorObj (js "This operation was aborted"))
  /\ processDocumentWithAI (Some (js "nvapi-key")) toLowerCase_ascii
       net_down net_entities net_down 1
       (js "React is a library for building user interfaces.") (js "user-1")
       store_react
     = store_react
  /\ knowledgeNodes store_react = [].
Proof. vm_compute. repeat split. Qed.

(** ** Facts on strings *)

Lemma startsWith_app (p rest : jsstring) : startsWith p (p ++ rest) = true.
Proof.
  induction p as [|a p IH]; simpl; [reflexivity|].
  rewrite N.eqb_refl. exact IH.
Qed.

Lemma startsWith_spec (p s : jsstring) :
  startsWith p s = true <-> exists rest, s = p ++ rest.
Proof.
  split.
  - revert s. induction p as [|a p IH]; intros s H; simpl in *.
    + exists s. reflexivity.
    + destruct s as [|b s]; [discriminate|].
      apply andb_true_iff in H as [Hab H]. apply N.eqb_eq in Hab as ->.
      destruct (IH s H) as [rest ->]. exists rest. reflexivity.
  - intros [rest ->]. apply startsWith_app.
Qed.

(** A longer pattern starts no string that the shorter one does not. *)
Lemma startsWith_longer (p q s : jsstring) :
  startsWith p s = false -> startsWith (p ++ q) s = false.
Proof.
  revert s. induction p as [|a p IH]; intros s H; simpl in *; [discriminate|].
  destruct s as [|b s]; [reflexivity|].
  destruct (N.eqb a b); simpl in *; [apply IH, H | reflexivity].
Qed.

Lemma includes_cons (p : jsstring) (c : N) (s : jsstring) :
  includes p (c :: s) = false ->
  startsWith p (c :: s) = false /\ includes p s = false.
Proof. simpl. intros H. apply orb_false_iff in H. exact H. Qed.

(** Where the pattern does not occur, [replace] changes nothing. *)
Lemma delete_all_absent (pat s : jsstring) :
  includes pat s = false -> delete_all pat s = s.
Proof.
  unfold delete_all. induction s as [|c s IH]; intros H; [reflexivity|].
  apply includes_cons in H as [Hstart Hrest].
  simpl. simpl in Hstart. rewrite Hstart. f_equal. apply IH, Hrest.
Qed.

(** *** [trim] *)

Lemma trimStart_idem (s : jsstring) : trimStart (trimStart s) = trimStart s.
Proof.
  induction s as [|c s IH]; simpl; [reflexivity|].
  destruct (is_js_space c) eqn:Hc; [exact IH|].
  simpl. rewrite Hc. reflexivity.
Qed.

Lemma trimStart_head (s : jsstring) (c : N) (t : jsstring) :
  trimStart s = c :: t -> is_js_space c = false.
Proof.
  induction s as [|d s IH]; simpl; [discriminate|].
  destruct (is_js_space d) eqn:Hd; [exact IH|].
  intros [= <- <-]. exact Hd.
Qed.

Lemma trimStart_suffix (s : jsstring) :
  exists pre, s = pre ++ trimStart s /\ Forall (fun c => is_js_space c = true) pre.
Proof.
  induction s as [|c s (pre & IH & Hpre)]; simpl.
  - exists []. split; [reflexivity | constructor].
  - destruct (is_js_space c) eqn:Hc.
    + exists (c :: pre). split; [simpl; f_equal; exact IH | constructor; assumption].
    + exists []. split; [reflexivity | constructor].
Qed.

Lemma trimStart_fixed (s : jsstring) :
  match s with
  | c :: _ => is_js_space c = false
  | [] => True
  end ->
  trimStart s = s.
Proof. destruct s as [|c s]; simpl; [reflexivity|]. intros ->. reflexivity. Qed.

(** What [trim] returns has no white space at either end. *)
Lemma trim_idem (s : jsstring) : trim (trim s) = trim s.
Proof.
  unfold trim.
  set (a := trimStart s). set (b := trimStart (rev a)).
  assert (Hb : trimStart (rev b) = rev b).
  { apply trimStart_fixed.
    destruct (rev b) as [|c t] eqn:Hrev; [exact I|].
    destruct (trimStart_suffix (rev a)) as (pre & Hpre & _). fold b in Hpre.
    apply (f_equal (@rev N)) in Hpre. rewrite rev_involutive, rev_app_distr, Hrev in Hpre.
    apply (trimStart_head s c (t ++ rev pre)). exact Hpre. }
  rewrite Hb, rev_involutive. unfold b. rewrite trimStart_idem. reflexivity.
Qed.

Lemma trimStart_elem (s : jsstring) (x : N) : x ∈ trimStart s -> x ∈ s.
Proof.
  destruct (trimStart_suffix s) as (pre & Hs & _). intros H.
  rewrite Hs. apply elem_of_app. right. exact H.
Qed.

Lemma elem_of_rev {A} (l : list A) (x : A) : x ∈ rev l <-> x ∈ l.
Proof. rewrite !list_elem_of_In. symmetry. apply in_rev. Qed.

Lemma trim_elem (s : jsstring) (x : N) : x ∈ trim s -> x ∈ s.
Proof.
  unfold trim. intros H.
  apply (proj1 (elem_of_rev _ _)), trimStart_elem in H.
  apply (proj1 (elem_of_rev _ _)), trimStart_elem in H. exact H.
Qed.

Lemma length_trimStart (s : jsstring) : length (trimStart s) <= length s.
Proof.
  destruct (trimStart_suffix s) as (pre & Hs & _).
  rewrite Hs at 2. rewrite length_app. lia.
Qed.

Lemma length_trim (s : jsstring) : length (trim s) <= length s.
Proof.
  unfold trim. rewrite length_rev.
  etransitivity; [apply length_trimStart|].
  rewrite length_rev. apply length_trimStart.
Qed.

Lemma trimStart_app_space (s : jsstring) (c : N) :
  is_js_space c = true ->
  trimStart (s ++ [c])
  = match trimStart s with
    | [] => []
    | _ :: _ => trimStart s ++ [c]
    end.
Proof.
  intros Hc. induction s as [|d s IH]; simpl.
  - rewrite Hc. reflexivity.
  - destruct (is_js_space d); [exact IH | reflexivity].
Qed.

(** White space at the end does not show after [trim]. *)
Lemma trim_app_space (s : jsstring) (c : N) :
  is_js_space c = true -> trim (s ++ [c]) = trim s.
Proof.
  intros Hc. unfold trim. rewrite (trimStart_app_space s c Hc).
  destruct (trimStart s) as [|d t]; [reflexivity|].
  rewrite rev_app_distr. simpl rev at 1. simpl app.
  change (trimStart (c :: rev (d :: t)))
    with (if is_js_space c then trimStart (rev (d :: t)) else c :: rev (d :: t)).
  rewrite Hc. reflexivity.
Qed.

(** *** [split] *)

Lemma split_on_nonempty (sep : N) (s : jsstring) : split_on sep s <> [].
Proof.
  induction s as [|c s IH]; simpl; [discriminate|].
  destruct (N.eqb c sep); [discriminate|].
  destruct (split_on sep s); discriminate.
Qed.

(** Without the separator there is one piece. *)
Lemma split_on_absent (sep : N) (s : jsstring) :
  sep ∉ s -> split_on sep s = [s].
Proof.
  induction s as [|c s IH]; intros H; simpl; [reflexivity|].
  apply not_elem_of_cons in H as [Hne H].
  destruct (N.eqb_spec c sep) as [->|_]; [contradiction|].
  rewrite (IH H). reflexivity.
Qed.

(** The first piece ends at the first separator. *)
Lemma split_on_app (sep : N) (a b : jsstring) :
  sep ∉ a -> split_on sep (a ++ sep :: b) = a :: split_on sep b.
Proof.
  induction a as [|c a IH]; intros H; simpl.
  - rewrite N.eqb_refl. reflexivity.
  - apply not_elem_of_cons in H as [Hne H].
    destruct (N.eqb_spec c sep) as [->|_]; [contradiction|].
    rewrite (IH H). reflexivity.
Qed.

Lemma last_cons_nonempty {A} (x : A) (l : list A) : l <> [] -> last (x :: l) = last l.
Proof. destruct l; [contradiction | reflexivity]. Qed.

(** The last piece is what follows the last separator. *)
Lemma last_split_on (sep : N) (a b : jsstring) :
  last (split_on sep (a ++ sep :: b)) = last (split_on sep b).
Proof.
  induction a as [|c a IH]; simpl.
  - rewrite N.eqb_refl. apply last_cons_nonempty, split_on_nonempty.
  - destruct (N.eqb c sep).
    + rewrite last_cons_nonempty by apply split_on_nonempty. exact IH.
    + destruct (split_on sep (a ++ sep :: b)) as [|w ws] eqn:Hsplit.
      * exfalso. exact (split_on_nonempty _ _ Hsplit).
      * destruct ws as [|w' ws].
        -- exfalso.
           assert (Hlen : 2 <= length (split_on sep (a ++ sep :: b))).
           { clear. induction a as [|d a IHa]; simpl.
             - rewrite N.eqb_refl. simpl.
               pose proof (split_on_nonempty sep b).
               destruct (split_on sep b); [contradiction | simpl; lia].
             - destruct (N.eqb d sep); [simpl; lia|].
               destruct (split_on sep (a ++ sep :: b)); simpl in *; lia. }
           rewrite Hsplit in Hlen. simpl in Hlen. lia.
        -- rewrite <- IH. reflexivity.
Qed.

(** ** Further properties of the gateway *)

(** A turn of the loop returns only a truthy completion, and the error
    it leaves is an [Error] object. *)
Lemma try_model_turn (net : Net) (options : ChatOptions.t) (i : nat) (m : jsstring) :
  match try_model net options i m with
  | Return c => truthy c = true
  | Continue e => exists message, e = ErrorObj message
  end.
Proof.
  unfold try_model, try_block, fetchWithTimeout, response_json, response_text,
    message_content, member.
  destruct (net i (request_body options m false)) as [r|err]; simpl.
  - destruct (ok r); simpl.
    + destruct (body r) as [t|err]; simpl.
      * destruct (JSON_parse t) as [data|]; simpl; [|eexists; reflexivity].
        destruct data; simpl;
          try (eexists; reflexivity);
          match goal with
          | |- context [match ?x with Some _ => _ | None => _ end] =>
              destruct x as [v|]; simpl; [|eexists; reflexivity];
              destruct (truthy v) eqn:Hv; simpl; [exact Hv | eexists; reflexivity]
          end.
      * destruct err; eexists; reflexivity.
    + destruct (body r) as [t|err]; simpl; [eexists; reflexivity|].
      destruct err; eexists; reflexivity.
  - destruct err; eexists; reflexivity.
Qed.

Lemma try_models_result (net : Net) (options : ChatOptions.t) (ms : list jsstring) :
  forall i lastError,
    (forall e, lastError = Some e -> exists message, e = ErrorObj message) ->
    match try_models net options i ms lastError with
    | Ok c => truthy c = true
    | Throw e => exists message, e = ErrorObj message
    end.
Proof.
  induction ms as [|m ms IH]; intros i lastError Hlast; simpl.
  - destruct lastError as [e|]; simpl; [apply Hlast; reflexivity | eexists; reflexivity].
  - pose proof (try_model_turn net options i m) as Hturn.
    destruct (try_model net options i m) as [c|e]; [exact Hturn|].
    apply IH. intros e' [= <-]. exact Hturn.
Qed.

(** The loop looks at the answers to its own requests only: those
    numbered from [i] to [i + length ms - 1]. *)
Lemma try_models_requests (net net' : Net) (options : ChatOptions.t)
  (ms : list jsstring) :
  forall i lastError,
    (forall j body, i <= j < i + length ms -> net' j body = net j body) ->
    try_models net' options i ms lastError = try_models net options i ms lastError.
Proof.
  induction ms as [|m ms IH]; intros i lastError Hsame; simpl; [reflexivity|].
  assert (Hturn : try_model net' options i m = try_model net options i m).
  { unfold try_model, try_block, fetchWithTimeout.
    rewrite Hsame; [reflexivity|]. simpl. lia. }
  rewrite Hturn. destruct (try_model net options i m); [reflexivity|].
  apply IH. intros j body Hj. apply Hsame. simpl. lia.
Qed.

Lemma length_modelsToTry (options : ChatOptions.t) : length (modelsToTry options) <= 4.
Proof.
  unfold modelsToTry. destruct (ChatOptions.model options) as [[|c m]|]; simpl; lia.
Qed.

(** X1.  Whatever the network does, [nvidiaChat] never returns an empty
    (falsy) completion, whatever it throws is an [Error] object (a
    thrown non-error value is wrapped), and it sends at most four
    requests: the outcome is the same on two networks that agree on the
    first four requests. *)
Theorem nvidiaChat_outcome (key : option jsstring) (net : Net)
  (options : ChatOptions.t) :
  match nvidiaChat key net options with
  | Ok c => truthy c = true
  | Throw e => exists message, e = ErrorObj message
  end
  /\ forall net' : Net,
      (forall i body, i < 4 -> net' i body = net i body) ->
      nvidiaChat key net' options = nvidiaChat key net options.
Proof.
  unfold nvidiaChat. split.
  - destruct (key_configured key); simpl; [|eexists; reflexivity].
    apply try_models_result. intros e [=].
  - intros net' Hsame. destruct (key_configured key); simpl; [|reflexivity].
    apply try_models_requests. intros j body Hj. apply Hsame.
    pose proof (length_modelsToTry options). lia.
Qed.

(** ** Further properties of the streaming gateway *)

Section StreamInvariant.

Variable Number_toString : Z -> Z -> jsstring.

Local Abbreviation reframed := (reframed Number_toString).

(** A re-framed event is not the sentinel: its payload opens with a
    brace, the sentinel's with a bracket. *)
Lemma reframed_not_DONE (event : jsstring) : reframed event -> event <> DONE_event.
Proof.
  intros (content & _ & ->) H.
  apply (f_equal (fun s => s !! 6)) in H. vm_compute in H. discriminate.
Qed.

(** What every reachable state of the stream satisfies. *)
Lemma stream_invariant_pull (st : StreamState) :
  closed st = false -> errored st = None ->
  Forall reframed (enqueued st) ->
  exists events,
    Forall reframed events
    /\ enqueued (pull Number_toString st) = events ++ (if closed (pull Number_toString st) then [DONE_event] else [])
    /\ (closed (pull Number_toString st) = true -> errored (pull Number_toString st) = None).
Proof.
  intros Hc He Hq.
  destruct (upstream st) as [|[text|err] rest] eqn:Hup.
  - rewrite (pull_exhausted Number_toString st Hup). simpl.
    exists (enqueued st). auto.
  - rewrite (pull_chunk Number_toString st text rest Hup). simpl.
    destruct (lines_loop_events Number_toString (split_on 10 text))
      as (events & Hev & Hloop).
    destruct (snd (lines_loop Number_toString (split_on 10 text))) eqn:Hdone;
      rewrite Hloop; simpl.
    + exists (enqueued st ++ events). rewrite app_assoc.
      split; [apply Forall_app; auto | auto].
    + exists (enqueued st ++ events). rewrite app_nil_r.
      split; [apply Forall_app; auto | split; [reflexivity | discriminate]].
  - destruct (pull_read_failed Number_toString st err rest Hup) as [Herr Henq].
    assert (Hcl : closed (pull Number_toString st) = false).
    { unfold pull. rewrite Hup. simpl. exact Hc. }
    exists (enqueued st). rewrite Hcl, app_nil_r.
    split; [exact Hq | split; [exact Henq | discriminate]].
Qed.

Lemma stream_invariant (fuel : nat) :
  forall st,
    (exists events,
        Forall reframed events
        /\ enqueued st = events ++ (if closed st then [DONE_event] else [])
        /\ (closed st = true -> errored st = None)) ->
    exists events,
      Forall reframed events
      /\ enqueued (pulls Number_toString fuel st)
         = events ++ (if closed (pulls Number_toString fuel st) then [DONE_event] else [])
      /\ (closed (pulls Number_toString fuel st) = true -> errored (pulls Number_toString fuel st) = None).
Proof.
  induction fuel as [|fuel IH]; intros st Hinv; [exact Hinv|].
  destruct Hinv as (events & Hev & Hq & Hce).
  change (pulls Number_toString (S fuel) st)
    with (if (closed st || bool_decide (errored st <> None))%bool then st
          else pulls Number_toString fuel (pull Number_toString st)).
  destruct (closed st) eqn:Hc.
  - simpl. exists events. rewrite Hc. auto.
  - destruct (errored st) as [e|] eqn:He.
    + rewrite bool_decide_eq_true_2 by discriminate. simpl.
      exists events. rewrite Hc, He. split; [exact Hev|]. split; [exact Hq|].
      discriminate.
    + rewrite bool_decide_eq_false_2 by (intros H; apply H; reflexivity). simpl.
      apply IH. rewrite app_nil_r in Hq.
      apply stream_invariant_pull; [exact Hc | exact He | rewrite Hq; exact Hev].
Qed.

End StreamInvariant.

(** X3.  However the upstream body behaves (reads that fail included)
    and however often [pull] is called, what the stream has enqueued is
    a list of re-framed content events, followed by the [[DONE]]
    sentinel exactly when the stream is closed: the sentinel is emitted
    at most once, nothing is enqueued after it, and a stream that has
    errored on a failed read is not closed and carries no sentinel. *)
Theorem stream_sentinel_last (Number_toString : Z -> Z -> jsstring)
  (reads : list ReadResult) (fuel : nat) :
  let st := pulls Number_toString fuel (open_stream reads) in
  exists events,
    Forall (reframed Number_toString) events
    /\ (DONE_event ∉ events)
    /\ enqueued st = events ++ (if closed st then [DONE_event] else [])
    /\ (closed st = true -> errored st = None)
    /\ (errored st <> None -> closed st = false /\ (DONE_event ∉ enqueued st)).
Proof.
  intros st.
  destruct (stream_invariant Number_toString fuel (open_stream reads))
    as (events & Hev & Hq & Hce).
  { exists []. simpl. auto. }
  assert (Hno : DONE_event ∉ events).
  { intros Hin. rewrite Forall_forall in Hev.
    apply (reframed_not_DONE Number_toString DONE_event); [apply Hev, Hin | reflexivity]. }
  exists events. fold st in Hq, Hce.
  split; [exact Hev|]. split; [exact Hno|]. split; [exact Hq|]. split; [exact Hce|].
  intros Herr. destruct (closed st) eqn:Hc.
  - exfalso. apply Herr, Hce. reflexivity.
  - split; [reflexivity|]. rewrite Hq, app_nil_r. exact Hno.
Qed.

(** X2.  [nvidiaChatStream] has no fallback.  Without the API key it
    throws the configuration error and sends nothing.  Otherwise it sends
    one request, with [stream: true], to the caller's model or, when none
    is given, to the first of [MODELS]: a rejected request, a non-2xx
    answer or a missing body is thrown to the caller, and a 2xx answer
    with a body gives a stream that is open and has nothing enqueued.
    The answer to any other request plays no part. *)
Theorem nvidiaChatStream_single_request (Number_toString : Z -> Z -> jsstring)
  (key : option jsstring) (fetch : RequestBody.t -> StreamFetchOutcome)
  (options : ChatOptions.t) :
  let currentModel :=
    match ChatOptions.model options with
    | Some (c :: m) => c :: m
    | _ => default [] (head MODELS)
    end in
  let request := request_body options currentModel true in
  (key_configured key = false ->
   nvidiaChatStream key fetch options = Throw not_configured)
  /\ (key_configured key = true ->
      match fetch request with
      | StreamRejected e => nvidiaChatStream key fetch options = Throw e
      | StreamResponded r =>
          if (N.leb 200 (stream_status r) && N.leb (stream_status r) 299)%bool then
            match stream_body r with
            | Some reads =>
                nvidiaChatStream key fetch options = Ok (open_stream reads)
            | None =>
                nvidiaChatStream key fetch options
                = Throw (ErrorObj (js "No response body for streaming"))
            end
          else
            match stream_text r with
            | BodyText error =>
                nvidiaChatStream key fetch options
                = Throw (ErrorObj (js "NVIDIA API stream error "
                                   ++ decimal (stream_status r) ++ js ": " ++ error))
            | BodyFailed e => nvidiaChatStream key fetch options = Throw e
            end
      end)
  /\ RequestBody.stream request = true
  /\ (forall fetch' : RequestBody.t -> StreamFetchOutcome,
         fetch' request = fetch request ->
         nvidiaChatStream key fetch' options = nvidiaChatStream key fetch options).
Proof.
  intros currentModel request. unfold nvidiaChatStream.
  change (js "meta/llama-3.3-70b-instruct") with (default [] (head MODELS)).
  change (request_body options _ true) with request.
  split; [intros ->; reflexivity|].
  split.
  - intros ->. simpl negb. cbv iota.
    destruct (fetch request) as [r|e]; [|reflexivity].
    destruct (N.leb 200 (stream_status r) && N.leb (stream_status r) 299)%bool; simpl.
    + destruct (stream_body r); reflexivity.
    + destruct (stream_text r); reflexivity.
  - split; [reflexivity|].
    intros fetch' Hsame. rewrite Hsame. reflexivity.
Qed.

(** X25.  A read that yields no event stalls the stream.  When a read
    of the consumer is waiting, a call of [pull] is in flight and no
    further call has been noted, and the upstream read yields a chunk
    without any event and without [[DONE]] (blank lines, lines that are
    not [data: ] lines, malformed JSON, deltas without text), then the
    body of [pull] and the reaction to its promise are all that can
    happen, in this order, and after them nothing can: [pull] is not
    called again, the read of the consumer is never answered, and what
    the upstream body still holds is never read. *)
Theorem silent_read_stalls (Number_toString : Z -> Z -> jsstring)
  (reads : list ReadResult) (schedule : list StreamStep) (s : ReadableStream.t)
  (text : jsstring) (rest : list ReadResult) :
  run_schedule Number_toString schedule (new_stream (open_stream reads)) = Some s ->
  ReadableStream.pending s = true ->
  ReadableStream.pulling s = true ->
  ReadableStream.settled s = false ->
  ReadableStream.pullAgain s = false ->
  upstream (ReadableStream.source s) = Chunk text :: rest ->
  lines_loop Number_toString (split_on 10 text) = ([], false) ->
  exists s1 s2,
    (forall event, fire Number_toString event s <> None -> event = PullResumed)
    /\ fire Number_toString PullResumed s = Some s1
    /\ (forall event, fire Number_toString event s1 <> None -> event = PullFulfilled)
    /\ fire Number_toString PullFulfilled s1 = Some s2
    /\ stalled Number_toString s2
    /\ ReadableStream.received s2 = ReadableStream.received s
    /\ ReadableStream.seen_done s2 = false
    /\ ReadableStream.seen_error s2 = None
    /\ ReadableStream.source s2
       = {| upstream := rest;
            enqueued := enqueued (ReadableStream.source s);
            closed := false;
            errored := None |}.
Proof.
  intros Hrun Hpe Hp Hse Hpa Hup Hsilent.
  pose proof (consistent_run_schedule Number_toString schedule _ _
                (consistent_new_stream reads) Hrun) as [Hs Hcan].
  specialize (Hcan Hp Hse).
  destruct (can_close_or_enqueue_open s Hcan) as [Hcl Herr].
  destruct Hs as (H1 & H2 & _).
  destruct (H1 Hpe) as (Hq & _ & _ & Hsd & Hserr).
  assert (Hst : ReadableStream.started s = true).
  { destruct (ReadableStream.started s); [reflexivity|].
    rewrite H2 in Hp by reflexivity. discriminate. }
  destruct s as [[up enq cl er] q st pl pa se pe rc sd serr]. simpl in *. subst.
  eexists. eexists.
  split.
  { intros []; simpl; try reflexivity; intros H; exfalso; apply H; reflexivity. }
  split.
  { simpl. unfold pull_resumed, pull_body. simpl. rewrite Hsilent. simpl.
    reflexivity. }
  split.
  { intros []; simpl; try reflexivity; intros H; exfalso; apply H; reflexivity. }
  split; [reflexivity|].
  split.
  { split; [|reflexivity]. intros []; reflexivity. }
  repeat split.
Qed.

(** The theorem at a stream whose second upstream read yields no event:
    the consumer reads while the first call of [pull] is in flight, the
    first read yields no event either, and [pull] is called again for
    the waiting read. *)
Lemma silent_read_stalls_witness :
  exists s s2,
    run_schedule Number_toString_integer
      [StartFulfilled; ConsumerRead; PullResumed; PullFulfilled]
      (new_stream
         (open_stream [Chunk (jsq "data: {'choices':[{'delta':{'con");
                       Chunk (jsq "tent':'Hi'}}]}" ++ [10; 10]%N);
                       Chunk (sse (js "[DONE]"))]))
    = Some s
    /\ run_schedule Number_toString_integer [PullResumed; PullFulfilled] s = Some s2
    /\ stalled Number_toString_integer s2
    /\ upstream (ReadableStream.source s2) = [Chunk (sse (js "[DONE]"))].
Proof.
  eexists.
  assert (Hrun : run_schedule Number_toString_integer
                   [StartFulfilled; ConsumerRead; PullResumed; PullFulfilled]
                   (new_stream
                      (open_stream [Chunk (jsq "data: {'choices':[{'delta':{'con");
                                    Chunk (jsq "tent':'Hi'}}]}" ++ [10; 10]%N);
                                    Chunk (sse (js "[DONE]"))]))
                 = Some _) by (vm_compute; reflexivity).
  destruct (silent_read_stalls Number_toString_integer _ _ _
              (jsq "tent':'Hi'}}]}" ++ [10; 10]%N) [Chunk (sse (js "[DONE]"))]
              Hrun eq_refl eq_refl eq_refl eq_refl eq_refl eq_refl)
    as (s1 & s2 & _ & Hf1 & _ & Hf2 & Hstalled & _ & _ & _ & Hsrc).
  exists s2. split; [exact Hrun|].
  split.
  { change (run_schedule Number_toString_integer [PullResumed; PullFulfilled] ?x)
      with (match fire Number_toString_integer PullResumed x with
            | Some s' => match fire Number_toString_integer PullFulfilled s' with
                         | Some s'' => Some s''
                         | None => None
                         end
            | None => None
            end).
    rewrite Hf1, Hf2. reflexivity. }
  split; [exact Hstalled|]. rewrite Hsrc. reflexivity.
Defined.

Lemma errored_pull_read (Number_toString : Z -> Z -> jsstring) (st : StreamState)
  (e : Thrown) :
  errored (pull Number_toString st) = Some e ->
  errored st = Some e \/ ReadFailed e ∈ upstream st.
Proof.
  unfold pull. destruct (upstream st) as [|[text|err] rest]; simpl.
  - auto.
  - destruct (lines_loop _ _). simpl. auto.
  - intros [= ->]. right. constructor.
Qed.

Lemma errored_pulls_read (Number_toString : Z -> Z -> jsstring) (n : nat) (e : Thrown) :
  forall st,
    errored (pulls Number_toString n st) = Some e ->
    errored st = Some e \/ ReadFailed e ∈ upstream st.
Proof.
  induction n as [|n IH]; intros st; simpl; [auto|].
  destruct (_ || _)%bool; [auto|]. intros H.
  destruct (IH _ H) as [H'|H'].
  - exact (errored_pull_read Number_toString st e H').
  - right. destruct (upstream_pull_suffix Number_toString st) as [taken Heq].
    rewrite Heq. apply elem_of_app. right. exact H'.
Qed.

(** X26.  Whatever the upstream body does and in whatever order things
    happen, the consumer receives, in order and without gaps, a
    beginning of what [pull] has enqueued: re-framed events, then at most
    one sentinel, nothing after it.  It sees the end of the stream only
    when it has received everything, the sentinel last; it sees an error
    only if an upstream read failed with that error, and never both. *)
Theorem consumer_receives_in_order (Number_toString : Z -> Z -> jsstring)
  (reads : list ReadResult) (schedule : list StreamStep) (s : ReadableStream.t) :
  run_schedule Number_toString schedule (new_stream (open_stream reads)) = Some s ->
  exists n events lost,
    n <= length schedule
    /\ ReadableStream.source s = pulls Number_toString n (open_stream reads)
    /\ Forall (reframed Number_toString) events
    /\ (DONE_event ∉ events)
    /\ enqueued (ReadableStream.source s)
       = events ++ (if closed (ReadableStream.source s) then [DONE_event] else [])
    /\ ReadableStream.received s ++ lost = enqueued (ReadableStream.source s)
    /\ (ReadableStream.seen_done s = true ->
        ReadableStream.received s = events ++ [DONE_event]
        /\ ReadableStream.seen_error s = None)
    /\ (forall e,
           ReadableStream.seen_error s = Some e ->
           ReadFailed e ∈ reads /\ ReadableStream.seen_done s = false).
Proof.
  intros Hrun.
  pose proof (consistent_new_stream reads) as Hc0.
  pose proof (consistent_run_schedule Number_toString schedule _ _ Hc0 Hrun) as Hc.
  destruct (source_pulls Number_toString schedule _ _ Hc0 Hrun) as (n & Hn & Hsrc).
  change (ReadableStream.source (new_stream (open_stream reads)))
    with (open_stream reads) in Hsrc.
  destruct (stream_invariant Number_toString n (open_stream reads))
    as (events & Hev & Hq & Hce).
  { exists []. split; [constructor|]. split; [reflexivity | discriminate]. }
  rewrite <- Hsrc in Hq, Hce.
  destruct Hc as [Hs _].
  destruct Hs as (_ & _ & _ & _ & Hall & (lost & Hlost) & Hdone & Herr & _).
  exists n, events, lost.
  split; [exact Hn|]. split; [exact Hsrc|]. split; [exact Hev|].
  split.
  { intros Hin. rewrite Forall_forall in Hev.
    exact (reframed_not_DONE Number_toString _ (Hev _ Hin) eq_refl). }
  split; [exact Hq|]. split; [exact Hlost|].
  split.
  - intros Hd. destruct (Hdone Hd) as (Hcl & Hqueue & He).
    specialize (Hall He). rewrite Hqueue, app_nil_r in Hall.
    rewrite Hall, Hq, Hcl. split; [reflexivity|].
    destruct (ReadableStream.seen_error s) as [e|]; [|reflexivity].
    specialize (Herr e eq_refl). congruence.
  - intros e Hse. specialize (Herr e Hse). split.
    + rewrite Hsrc in Herr.
      destruct (errored_pulls_read Number_toString n e _ Herr) as [H|H];
        [discriminate | exact H].
    + destruct (ReadableStream.seen_done s) eqn:Hd; [|reflexivity].
      destruct (Hdone eq_refl) as (_ & _ & He). congruence.
Qed.

(** The theorem at the delta "Hi" followed by [[DONE]], when the
    consumer has read the re-framed event and [pull] has not been called
    for the second upstream read. *)
Lemma consumer_receives_in_order_witness :
  exists s,
    run_schedule Number_toString_integer
      [StartFulfilled; PullResumed; PullFulfilled; ConsumerRead]
      (new_stream (open_stream [Chunk (sse (delta_payload (js "Hi")));
                                Chunk (sse (js "[DONE]"))]))
    = Some s
    /\ exists lost,
        ReadableStream.received s ++ lost = enqueued (ReadableStream.source s).
Proof.
  eexists.
  assert (Hrun : run_schedule Number_toString_integer
                   [StartFulfilled; PullResumed; PullFulfilled; ConsumerRead]
                   (new_stream (open_stream [Chunk (sse (delta_payload (js "Hi")));
                                             Chunk (sse (js "[DONE]"))]))
                 = Some _) by (vm_compute; reflexivity).
  split; [exact Hrun|].
  destruct (consumer_receives_in_order Number_toString_integer _ _ _ Hrun)
    as (n & events & lost & _ & _ & _ & _ & _ & Hlost & _).
  exists lost. exact Hlost.
Defined.

(** ** Further properties of the extractors *)

(** The entity extractor always returns, at most 20 entities, each with
    a name. *)
Lemma extractEntitiesWithTypes_names (key : option jsstring) (net : Net)
  (text : jsstring) :
  exists typed,
    extractEntitiesWithTypes key net text = Ok typed
    /\ length typed <= 20
    /\ Forall (fun e => TypedEntity.name e <> []) typed.
Proof.
  eexists. split; [apply extractEntitiesWithTypes_eq|].
  destruct (nvidiaChat _ _ _) as [[| | |s| |]|];
    try (split; [simpl; lia | constructor]).
  destruct (JSON_parse _) as [[| | | |items|]|];
    try (split; [simpl; lia | constructor]).
  split; [rewrite length_take; lia|].
  apply Forall_take, Forall_forall. intros e He.
  apply list_elem_of_In, in_map_iff in He as (x & <- & Hx).
  apply to_entity_name.
  apply list_elem_of_In, list_elem_of_filter in Hx as [Hx _].
  apply Is_true_true. exact Hx.
Qed.

(** When every request is rejected, the gateway throws the rejection of
    the last one, as an [Error]. *)
Lemma try_models_all_rejected (net : Net) (options : ChatOptions.t) (e : Thrown)
  (ms : list jsstring) :
  (forall i body, net i body = Rejected e) ->
  forall i lastError,
    try_models net options i ms lastError
    = Throw match ms with
            | [] => default (ErrorObj (js "All AI models failed")) lastError
            | _ :: _ => as_Error e
            end.
Proof.
  intros Hnet. induction ms as [|m ms IH]; intros i lastError; simpl; [reflexivity|].
  unfold try_model, try_block, fetchWithTimeout. rewrite Hnet. simpl.
  rewrite IH. destruct ms; reflexivity.
Qed.

Lemma nvidiaChat_all_rejected (key : option jsstring) (net : Net)
  (options : ChatOptions.t) (e : Thrown) :
  key_configured key = true ->
  (forall i body, net i body = Rejected e) ->
  nvidiaChat key net options = Throw (as_Error e).
Proof.
  intros Hkey Hnet. unfold nvidiaChat. rewrite Hkey. simpl.
  rewrite (try_models_all_rejected net options e _ Hnet).
  pose proof (modelsToTry_nonempty options).
  destruct (modelsToTry options); [contradiction | reflexivity].
Qed.

(** X4.  [generateSummary] sends the first 6000 units of its input and
    depends on nothing else of it; a summary it returns is never empty;
    and, unlike the two array extractors, it does not swallow a failure
    of the gateway: without the API key, or when every request is
    rejected (a timeout, say), it throws, where [extractEntities],
    [extractEntitiesWithTypes] and [extractKeyPoints] return the empty
    list. *)
Theorem generateSummary_not_fail_soft (key : option jsstring) (net : Net)
  (text : jsstring) :
  (forall text',
      slice_to 6000 text' = slice_to 6000 text ->
      generateSummary key net text' = generateSummary key net text)
  /\ match generateSummary key net text with
     | Ok summary => truthy summary = true
     | Throw e => exists message, e = ErrorObj message
     end
  /\ (key_configured key = false ->
      generateSummary key net text = Throw not_configured
      /\ extractEntitiesWithTypes key net text = Ok []
      /\ extractEntities key net text = Ok []
      /\ extractKeyPoints key net text = Ok [])
  /\ (forall e,
         key_configured key = true ->
         (forall i body, net i body = Rejected e) ->
         generateSummary key net text = Throw (as_Error e)
         /\ extractEntitiesWithTypes key net text = Ok []
         /\ extractEntities key net text = Ok []
         /\ extractKeyPoints key net text = Ok []).
Proof.
  split.
  { intros text' Heq. unfold generateSummary. rewrite Heq. reflexivity. }
  split.
  { unfold generateSummary.
    generalize (prompt_options SUMMARY_PROMPT (slice_to 6000 text) 300 (3 # 10)).
    intros options. unfold nvidiaChat.
    destruct (key_configured key); simpl; [|eexists; reflexivity].
    apply try_models_result. intros e [=]. }
  split.
  - intros Hkey.
    unfold extractEntities. rewrite extractEntitiesWithTypes_eq, extractKeyPoints_eq.
    unfold generateSummary, nvidiaChat. rewrite Hkey. cbn [negb]. auto.
  - intros e Hkey Hnet.
    unfold extractEntities. rewrite extractEntitiesWithTypes_eq, extractKeyPoints_eq.
    unfold generateSummary.
    rewrite !(nvidiaChat_all_rejected key net _ e Hkey Hnet). auto.
Qed.

(** X5.  [extractKeyPoints] sends the first 4000 units of its input and
    depends on nothing else of it; it never throws; it returns at most
    10 entries: the first 10 items, in order, of the array the answer
    parses to once the code fences are removed, and the empty list when
    the gateway fails, when the answer is no string, does not parse or
    parses to something that is no array. *)
Theorem extractKeyPoints_contract (key : option jsstring) (net : Net)
  (text : jsstring) :
  let answer :=
    nvidiaChat key net
      (prompt_options KEYPOINTS_PROMPT (slice_to 4000 text) 1024 (2 # 10)) in
  exists points,
    extractKeyPoints key net text = Ok points
    /\ length points <= 10
    /\ (forall text',
           slice_to 4000 text' = slice_to 4000 text ->
           extractKeyPoints key net text' = extractKeyPoints key net text)
    /\ match answer with
       | Ok (JStr s) =>
           match JSON_parse (trim (delete_all (js "```")
                                     (delete_all (js "```json") s))) with
           | Some (JArr items) => points = take 10 items
           | _ => points = []
           end
       | _ => points = []
       end.
Proof.
  intros answer. subst answer.
  eexists. split; [apply extractKeyPoints_eq|].
  split.
  { destruct (nvidiaChat _ _ _) as [[| | |s| |]|]; simpl; try lia.
    destruct (JSON_parse _) as [[| | | |items|]|]; simpl; try lia.
    rewrite length_take. lia. }
  split.
  { intros text' Heq. rewrite !extractKeyPoints_eq, Heq. reflexivity. }
  destruct (nvidiaChat _ _ _) as [[| | |s| |]|]; try reflexivity.
  destruct (JSON_parse _) as [[| | | |items|]|]; reflexivity.
Qed.

(** X6.  [extractEntities] never throws: it returns the names of the
    entities [extractEntitiesWithTypes] returns, in the same order, so
    at most 20 names, none of them empty. *)
Theorem extractEntities_names (key : option jsstring) (net : Net) (text : jsstring) :
  exists names typed,
    extractEntities key net text = Ok names
    /\ extractEntitiesWithTypes key net text = Ok typed
    /\ names = map TypedEntity.name typed
    /\ length names <= 20
    /\ Forall (fun name => name <> []) names.
Proof.
  destruct (extractEntitiesWithTypes_names key net text) as (typed & HE & Hlen & Hnames).
  exists (map TypedEntity.name typed), typed.
  unfold extractEntities. rewrite HE. simpl.
  split; [reflexivity|]. split; [reflexivity|]. split; [reflexivity|].
  split; [rewrite length_map; exact Hlen|].
  apply Forall_forall. intros name Hin.
  apply list_elem_of_In, in_map_iff in Hin as (e & <- & He).
  rewrite Forall_forall in Hnames. apply Hnames, list_elem_of_In, He.
Qed.

(** *** Code fences *)

(** A fence that closes a line starts nowhere before the line's end. *)
Lemma startsWith_fence_line (s t : jsstring) :
  startsWith (js "```") s = false ->
  startsWith (js "```") (s ++ 10%N :: t) = false.
Proof.
  change (js "```") with [96; 96; 96]%N.
  destruct s as [|a [|b [|c s]]]; cbn [startsWith app].
  - reflexivity.
  - intros _. destruct (N.eqb 96 a); reflexivity.
  - intros _. destruct (N.eqb 96 a), (N.eqb 96 b); reflexivity.
  - intros H. exact H.
Qed.

Lemma includes_fence_line (s : jsstring) :
  includes (js "```") s = false ->
  includes (js "```json") (s ++ 10%N :: js "```") = false.
Proof.
  induction s as [|c s IH]; intros H; [reflexivity|].
  apply includes_cons in H as [Hstart Hrest].
  change ((c :: s) ++ 10%N :: js "```") with (c :: (s ++ 10%N :: js "```")).
  change (includes (js "```json") (c :: (s ++ 10%N :: js "```")))
    with (startsWith (js "```json") (c :: (s ++ 10%N :: js "```"))
          || includes (js "```json") (s ++ 10%N :: js "```"))%bool.
  rewrite (IH Hrest), orb_false_r.
  apply (startsWith_longer (js "```") (js "json")).
  apply (startsWith_fence_line (c :: s)), Hstart.
Qed.

(** The closing fence goes, the line feed before it stays. *)
Lemma delete_closing_fence (s : jsstring) :
  includes (js "```") s = false ->
  delete_all (js "```") (s ++ 10%N :: js "```") = s ++ [10%N].
Proof.
  unfold delete_all. induction s as [|c s IH]; intros H; [reflexivity|].
  apply includes_cons in H as [Hstart Hrest].
  apply (startsWith_fence_line (c :: s) (js "```")) in Hstart.
  change ((c :: s) ++ 10%N :: js "```") with (c :: (s ++ 10%N :: js "```")) in *.
  change (delete_all_from (js "```") (c :: (s ++ 10%N :: js "```")) 0 false)
    with (if startsWith (js "```") (c :: (s ++ 10%N :: js "```"))
          then delete_all_from (js "```") (s ++ 10%N :: js "```") 2 false
          else c :: delete_all_from (js "```") (s ++ 10%N :: js "```") 0 false).
  rewrite Hstart, (IH Hrest). reflexivity.
Qed.

Lemma strip_fences_plain (s : jsstring) :
  includes (js "```") s = false -> strip_fences (JStr s) = Ok (trim s).
Proof.
  intros H. unfold strip_fences.
  rewrite (delete_all_absent (js "```json") s).
  - rewrite (delete_all_absent _ _ H). reflexivity.
  - clear -H. induction s as [|c s IH]; [reflexivity|].
    apply includes_cons in H as [Hstart Hrest].
    change (includes (js "```json") (c :: s))
      with (startsWith (js "```json") (c :: s) || includes (js "```json") s)%bool.
    rewrite (IH Hrest), orb_false_r.
    apply (startsWith_longer (js "```") (js "json")), Hstart.
Qed.

Lemma strip_fences_json (s : jsstring) :
  includes (js "```") s = false ->
  strip_fences (JStr (js "```json" ++ 10%N :: s ++ 10%N :: js "```")) = Ok (trim s).
Proof.
  intros H. unfold strip_fences.
  assert (H1 : delete_all (js "```json") (js "```json" ++ 10%N :: s ++ 10%N :: js "```")
               = s ++ 10%N :: js "```").
  { change (delete_all (js "```json") (js "```json" ++ 10%N :: s ++ 10%N :: js "```"))
      with (delete_all (js "```json") (s ++ 10%N :: js "```")).
    apply delete_all_absent, includes_fence_line, H. }
  rewrite H1, (delete_closing_fence s H).
  rewrite trim_app_space by reflexivity. reflexivity.
Qed.

Lemma strip_fences_bare (s : jsstring) :
  includes (js "```") s = false ->
  strip_fences (JStr (js "```" ++ 10%N :: s ++ 10%N :: js "```")) = Ok (trim s).
Proof.
  intros H. unfold strip_fences.
  assert (H1 : delete_all (js "```json") (js "```" ++ 10%N :: s ++ 10%N :: js "```")
               = js "```" ++ 10%N :: s ++ 10%N :: js "```").
  { apply delete_all_absent.
    change (includes (js "```json") (js "```" ++ 10%N :: s ++ 10%N :: js "```"))
      with (includes (js "```json") (s ++ 10%N :: js "```")).
    apply includes_fence_line, H. }
  rewrite H1.
  change (delete_all (js "```") (js "```" ++ 10%N :: s ++ 10%N :: js "```"))
    with (delete_all (js "```") (s ++ 10%N :: js "```")).
  rewrite (delete_closing_fence s H).
  rewrite trim_app_space by reflexivity. reflexivity.
Qed.

(** X7.  Markdown code fences around the answer do not change what the
    array extractors return.  For an answer [s] without three
    back-quotes in a row, wrapping it as [```json], line feed, [s], line
    feed, [```] (or with a bare opening fence) leaves the cleaned text,
    [trim s], the same; so a gateway that answers the wrapped text makes
    [extractEntitiesWithTypes] and [extractKeyPoints] return what they
    return for the bare text. *)
Theorem fenced_answer_parses_alike (s : jsstring) :
  includes (js "```") s = false ->
  let fenced := js "```json" ++ 10%N :: s ++ 10%N :: js "```" in
  let bare_fence := js "```" ++ 10%N :: s ++ 10%N :: js "```" in
  strip_fences (JStr s) = Ok (trim s)
  /\ strip_fences (JStr fenced) = Ok (trim s)
  /\ strip_fences (JStr bare_fence) = Ok (trim s)
  /\ forall (key : option jsstring) (net net' : Net) (text : jsstring) (wrapped : jsstring),
      wrapped = fenced \/ wrapped = bare_fence ->
      (nvidiaChat key net
         (prompt_options ENTITIES_PROMPT (slice_to 4000 text) 1024 (1 # 10))
       = Ok (JStr s) ->
       nvidiaChat key net'
         (prompt_options ENTITIES_PROMPT (slice_to 4000 text) 1024 (1 # 10))
       = Ok (JStr wrapped) ->
       extractEntitiesWithTypes key net' text = extractEntitiesWithTypes key net text)
      /\ (nvidiaChat key net
            (prompt_options KEYPOINTS_PROMPT (slice_to 4000 text) 1024 (2 # 10))
          = Ok (JStr s) ->
          nvidiaChat key net'
            (prompt_options KEYPOINTS_PROMPT (slice_to 4000 text) 1024 (2 # 10))
          = Ok (JStr wrapped) ->
          extractKeyPoints key net' text = extractKeyPoints key net text).
Proof.
  intros H fenced bare_fence.
  pose proof (strip_fences_plain s H) as Hplain.
  pose proof (strip_fences_json s H) as Hjson.
  pose proof (strip_fences_bare s H) as Hbare.
  fold fenced in Hjson. fold bare_fence in Hbare.
  split; [exact Hplain|]. split; [exact Hjson|]. split; [exact Hbare|].
  intros key net net' text wrapped Hwrapped.
  assert (Hsame : trim (delete_all (js "```") (delete_all (js "```json") wrapped))
                  = trim (delete_all (js "```") (delete_all (js "```json") s))).
  { unfold strip_fences in Hplain, Hjson, Hbare.
    destruct Hwrapped as [-> | ->]; congruence. }
  split; intros Hnet Hnet'.
  - rewrite !extractEntitiesWithTypes_eq, Hnet, Hnet', Hsame. reflexivity.
  - rewrite !extractKeyPoints_eq, Hnet, Hnet', Hsame. reflexivity.
Qed.

(** The theorem at the answer of a model that names one entity. *)
Lemma fenced_answer_parses_alike_witness :
  includes (js "```") (jsq "[{'name':'React','type':'entity'}]") = false
  /\ strip_fences
       (JStr (js "```json" ++ 10%N :: jsq "[{'name':'React','type':'entity'}]"
              ++ 10%N :: js "```"))
     = Ok (trim (jsq "[{'name':'React','type':'entity'}]")).
Proof.
  assert (H : includes (js "```") (jsq "[{'name':'React','type':'entity'}]") = false)
    by reflexivity.
  split; [exact H|].
  destruct (fenced_answer_parses_alike (jsq "[{'name':'React','type':'entity'}]") H)
    as (_ & Hfenced & _).
  exact Hfenced.
Defined.

(** ** The OCR call and the file parsers *)

Lemma or_else_trim (s : jsstring) : or_else (Some (trim s)) [] = trim s.
Proof. unfold or_else. destruct (trim s); reflexivity. Qed.

(** What [extractTextFromImage] returns, by the answer to its request. *)
Lemma extractTextFromImage_eq (key : option jsstring)
  (fetch : VisionRequest.t -> FetchOutcome) (buffer : Buffer) (mimeType : jsstring) :
  extractTextFromImage key fetch buffer mimeType
  = if key_configured key then
      match fetch (vision_request buffer mimeType) with
      | Responded r =>
          if ok r then
            match body r with
            | BodyText t =>
                match JSON_parse t with
                | Some data =>
                    match message_content data with
                    | Ok (Some (JStr s)) =>
                        if bool_decide (trim s = js "No text found") then []
                        else trim s
                    | _ => []
                    end
                | None => []
                end
            | BodyFailed _ => []
            end
          else []
      | Rejected _ => []
      end
    else [].
Proof.
  unfold extractTextFromImage, extractTextFromImage_try.
  destruct (key_configured key); [|reflexivity]. cbn [negb].
  destruct (fetch (vision_request buffer mimeType)) as [r|e]; [|reflexivity].
  cbn [bind]. destruct (ok r); cbn [negb].
  - unfold response_json, response_text.
    destruct (body r) as [t|e]; [|reflexivity]. cbn [bind].
    destruct (JSON_parse t) as [data|]; [|reflexivity]. cbn [bind].
    destruct (message_content data) as [[content|]|e]; try reflexivity.
    destruct content; try reflexivity.
    cbn [bind optional_trim]. rewrite or_else_trim. reflexivity.
  - unfold response_text. destruct (body r); reflexivity.
Qed.

(** X8.  [extractTextFromImage] never throws and fails soft: without
    the API key, on a rejected request, a non-2xx answer, an unreadable
    or unparsable body, or a first choice whose content is missing or
    no string, it returns the empty string.  Otherwise it returns the
    trimmed content of the first choice, except that the phrase the
    prompt asks for when the image shows no text, [No text found], gives
    the empty string.  So the result has no white space at either end
    and is never that phrase. *)
Theorem extractTextFromImage_fail_soft (key : option jsstring)
  (fetch : VisionRequest.t -> FetchOutcome) (buffer : Buffer) (mimeType : jsstring) :
  let text := extractTextFromImage key fetch buffer mimeType in
  trim text = text
  /\ text <> js "No text found"
  /\ (key_configured key = false -> text = [])
  /\ (forall e, fetch (vision_request buffer mimeType) = Rejected e -> text = [])
  /\ (forall r,
         fetch (vision_request buffer mimeType) = Responded r ->
         ok r = false \/ (exists e, body r = BodyFailed e)
         \/ (exists t, body r = BodyText t /\ JSON_parse t = None) ->
         text = [])
  /\ (forall r t data,
         fetch (vision_request buffer mimeType) = Responded r ->
         body r = BodyText t -> JSON_parse t = Some data ->
         match message_content data with
         | Ok (Some (JStr s)) =>
             key_configured key = true -> ok r = true ->
             text = if bool_decide (trim s = js "No text found") then [] else trim s
         | _ => text = []
         end).
Proof.
  intros text. subst text. rewrite extractTextFromImage_eq.
  split.
  { destruct (key_configured key); [|reflexivity].
    destruct (fetch _) as [r|e]; [|reflexivity].
    destruct (ok r); [|reflexivity].
    destruct (body r) as [t|e]; [|reflexivity].
    destruct (JSON_parse t) as [data|]; [|reflexivity].
    destruct (message_content data) as [[[| | |s| |]|]|e]; try reflexivity.
    destruct (bool_decide _); [reflexivity | apply trim_idem]. }
  split.
  { destruct (key_configured key); [|discriminate].
    destruct (fetch _) as [r|e]; [|discriminate].
    destruct (ok r); [|discriminate].
    destruct (body r) as [t|e]; [|discriminate].
    destruct (JSON_parse t) as [data|]; [|discriminate].
    destruct (message_content data) as [[[| | |s| |]|]|e]; try discriminate.
    destruct (bool_decide_reflect (trim s = js "No text found")); [discriminate | assumption]. }
  split; [intros ->; reflexivity|].
  split.
  { intros e ->. destruct (key_configured key); reflexivity. }
  split.
  { intros r -> H. destruct (key_configured key); [|reflexivity].
    destruct H as [-> | [[e ->] | (t & -> & ->)]];
      [reflexivity | destruct (ok r); reflexivity | destruct (ok r); reflexivity]. }
  intros r t data -> -> ->.
  destruct (message_content data) as [[[| | |s| |]|]|e];
    try (destruct (key_configured key), (ok r); reflexivity).
  intros -> ->. reflexivity.
Qed.

(** *** [getFileExtension] *)

(** X9.  The extension [getFileExtension] returns is the lower-cased
    text after the last dot of the name; a name without any dot is its
    own extension (lower-cased).  So [isTextFile] holds for every name
    whose part after the last dot, or whose whole when it has no dot,
    lower-cases to one of the eleven text extensions, whatever the MIME
    type. *)
Theorem getFileExtension_last_segment (toLowerCase : jsstring -> jsstring)
  (stem ext : jsstring) :
  46%N ∉ ext ->
  getFileExtension toLowerCase (stem ++ 46%N :: ext) = toLowerCase ext
  /\ getFileExtension toLowerCase ext = toLowerCase ext
  /\ (toLowerCase ext ∈ textExtensions ->
      forall mimeType,
        isTextFile toLowerCase (stem ++ 46%N :: ext) mimeType = true
        /\ isTextFile toLowerCase ext mimeType = true).
Proof.
  intros Hext.
  assert (H1 : getFileExtension toLowerCase (stem ++ 46%N :: ext) = toLowerCase ext).
  { unfold getFileExtension.
    rewrite last_split_on, (split_on_absent _ _ Hext). reflexivity. }
  assert (H2 : getFileExtension toLowerCase ext = toLowerCase ext).
  { unfold getFileExtension. rewrite (split_on_absent _ _ Hext). reflexivity. }
  split; [exact H1|]. split; [exact H2|].
  intros Hin mimeType. unfold isTextFile. rewrite H1, H2.
  rewrite bool_decide_eq_true_2 by exact Hin. split; reflexivity.
Qed.

(** The theorem at the name [Report.Final.PDF]. *)
Lemma getFileExtension_last_segment_witness :
  (46%N ∉ js "PDF")
  /\ getFileExtension toLowerCase_ascii (js "Report.Final.PDF") = js "pdf".
Proof.
  assert (H : 46%N ∉ js "PDF").
  { intros H. repeat (apply elem_of_cons in H as [H|H]; [discriminate|]).
    inversion H. }
  split; [exact H|].
  destruct (getFileExtension_last_segment toLowerCase_ascii (js "Report.Final")
              (js "PDF") H) as (Hext & _).
  exact Hext.
Defined.

(** *** The slide parser *)

Lemma until_gt_spec (s run rest : jsstring) :
  until_gt s = Some (run, rest) -> s = run ++ 62%N :: rest /\ 62%N ∉ run.
Proof.
  revert run. induction s as [|c s IH]; intros run; simpl; [discriminate|].
  destruct (N.eqb_spec c 62) as [->|Hc].
  - intros [= <- <-]. split; [reflexivity | apply not_elem_of_nil].
  - destruct (until_gt s) as [[run' rest']|]; [|discriminate].
    intros [= <- <-]. destruct (IH run' eq_refl) as [-> Hrun].
    split; [reflexivity|]. apply not_elem_of_cons. split; [congruence | exact Hrun].
Qed.

Lemma until_gt_app (run rest : jsstring) :
  62%N ∉ run -> until_gt (run ++ 62%N :: rest) = Some (run, rest).
Proof.
  induction run as [|c run IH]; intros H; simpl.
  - reflexivity.
  - apply not_elem_of_cons in H as [Hc H].
    destruct (N.eqb_spec c 62) as [->|_]; [contradiction|].
    rewrite (IH H). reflexivity.
Qed.

Lemma text_run_spec (s : jsstring) :
  s = fst (text_run s) ++ snd (text_run s) /\ 60%N ∉ fst (text_run s).
Proof.
  induction s as [|c s [IH1 IH2]]; simpl.
  - split; [reflexivity | apply not_elem_of_nil].
  - destruct (N.eqb_spec c 60) as [->|Hc]; simpl.
    + split; [reflexivity | apply not_elem_of_nil].
    + destruct (text_run s) as [run rest]; simpl in *.
      split; [f_equal; exact IH1|].
      apply not_elem_of_cons. split; [congruence | exact IH2].
Qed.

(** A match of the slide pattern: an opening tag, a text without [<],
    the closing tag. *)
Lemma text_element_shape (s m : jsstring) :
  text_element s = Some m ->
  exists attributes text,
    m = js "<a:t" ++ attributes ++ js ">" ++ text ++ js "</a:t>"
    /\ (62%N ∉ attributes) /\ (60%N ∉ text).
Proof.
  unfold text_element.
  destruct (startsWith (js "<a:t") s); [|discriminate].
  destruct (until_gt (drop 4 s)) as [[attributes s1]|] eqn:Hgt; [|discriminate].
  pose proof (text_run_spec s1) as [_ Htext].
  destruct (text_run s1) as [text s2]. simpl in Htext.
  destruct (startsWith (js "</a:t>") s2); [|discriminate].
  intros [= <-]. exists attributes, text.
  apply until_gt_spec in Hgt as [_ Hattr]. auto.
Qed.

Lemma text_elements_from_shape (s : jsstring) :
  forall skip m,
    m ∈ text_elements_from s skip -> exists s', text_element s' = Some m.
Proof.
  induction s as [|c s IH]; intros skip m; simpl.
  - intros H. inversion H.
  - destruct skip as [|k]; [|apply IH].
    destruct (text_element (c :: s)) as [m0|] eqn:Hm0; [|apply IH].
    intros H. apply elem_of_cons in H as [->|H]; [exists (c :: s); exact Hm0|].
    exact (IH _ _ H).
Qed.

Lemma strip_tags_from_skip (pre rest : jsstring) :
  strip_tags_from (pre ++ rest) (length pre) = strip_tags_from rest 0.
Proof.
  induction pre as [|c pre IH]; [reflexivity|].
  destruct rest as [|d rest]; simpl; exact IH.
Qed.

Lemma strip_tags_from_text (text rest : jsstring) :
  60%N ∉ text ->
  strip_tags_from (text ++ rest) 0 = text ++ strip_tags_from rest 0.
Proof.
  induction text as [|c text IH]; intros H; [reflexivity|].
  apply not_elem_of_cons in H as [Hc H].
  change (strip_tags_from ((c :: text) ++ rest) 0)
    with (match tag_length (c :: (text ++ rest)) with
          | Some n => strip_tags_from (text ++ rest) (n - 1)
          | None => c :: strip_tags_from (text ++ rest) 0
          end).
  unfold tag_length. destruct (N.eqb_spec c 60) as [->|_]; [contradiction|].
  rewrite (IH H). reflexivity.
Qed.

Lemma strip_tags_from_tag (c : N) (s : jsstring) (n : nat) :
  tag_length (c :: s) = Some n ->
  strip_tags_from (c :: s) 0 = strip_tags_from s (n - 1).
Proof.
  intros H.
  change (strip_tags_from (c :: s) 0)
    with (match tag_length (c :: s) with
          | Some n => strip_tags_from s (n - 1)
          | None => c :: strip_tags_from s 0
          end).
  rewrite H. reflexivity.
Qed.

(** Removing the tags of a match leaves its text. *)
Lemma strip_tags_element (attributes text : jsstring) :
  62%N ∉ attributes -> 60%N ∉ text ->
  strip_tags (js "<a:t" ++ attributes ++ js ">" ++ text ++ js "</a:t>") = text.
Proof.
  intros Hattr Htext. unfold strip_tags.
  set (inner := js ":t" ++ attributes).
  assert (Hgt : until_gt ((97%N :: inner) ++ 62%N :: text ++ js "</a:t>")
                = Some (97%N :: inner, text ++ js "</a:t>")).
  { apply until_gt_app. unfold inner.
    intros H. apply elem_of_cons in H as [H|H]; [discriminate|].
    apply elem_of_app in H as [H|H]; [|contradiction].
    repeat (apply elem_of_cons in H as [H|H]; [discriminate|]). inversion H. }
  change (js "<a:t" ++ attributes ++ js ">" ++ text ++ js "</a:t>")
    with (60%N :: ((97%N :: inner) ++ 62%N :: text ++ js "</a:t>")).
  assert (Htag : tag_length (60%N :: ((97%N :: inner) ++ 62%N :: text ++ js "</a:t>"))
                 = Some (length inner + 3)).
  { unfold tag_length. change (N.eqb 60 60) with true. cbv iota.
    rewrite Hgt. reflexivity. }
  rewrite (strip_tags_from_tag _ _ _ Htag).
  replace ((97%N :: inner) ++ 62%N :: text ++ js "</a:t>")
    with (((97%N :: inner) ++ [62%N]) ++ text ++ js "</a:t>")
    by (rewrite <- app_assoc; reflexivity).
  replace (length inner + 3 - 1) with (length ((97%N :: inner) ++ [62%N]))
    by (rewrite length_app; simpl; lia).
  rewrite strip_tags_from_skip, (strip_tags_from_text text _ Htext).
  change (strip_tags_from (js "</a:t>") 0) with (@nil N).
  apply app_nil_r.
Qed.

Lemma not_elem_of_join (x : N) (sep : jsstring) (parts : list jsstring) :
  x ∉ sep -> Forall (fun p => x ∉ p) parts -> x ∉ join sep parts.
Proof.
  intros Hsep Hparts. induction Hparts as [|p parts Hp Hparts IH].
  - apply not_elem_of_nil.
  - destruct parts as [|q parts]; [exact Hp|].
    change (join sep (p :: q :: parts)) with (p ++ sep ++ join sep (q :: parts)).
    intros H. apply elem_of_app in H as [H|H]; [contradiction|].
    apply elem_of_app in H as [H|H]; [contradiction|]. exact (IH H).
Qed.

Lemma slide_text_no_markup (xml slideText : jsstring) :
  slide_text xml = Some slideText -> 60%N ∉ slideText.
Proof.
  unfold slide_text.
  assert (Hall : Forall (fun p => 60%N ∉ p) (map strip_tags (text_elements xml))).
  { apply Forall_forall. intros p Hp.
    apply list_elem_of_In, in_map_iff in Hp as (m & <- & Hm).
    apply list_elem_of_In, text_elements_from_shape in Hm as [s' Hm].
    apply text_element_shape in Hm as (attributes & text & -> & Hattr & Htext).
    rewrite (strip_tags_element _ _ Hattr Htext). exact Htext. }
  destruct (text_elements xml) as [|m ms]; [discriminate|].
  intros Heq.
  assert (slideText = join (js " ") (map strip_tags (m :: ms))) as -> by congruence.
  apply not_elem_of_join; [|exact Hall].
  intros H. apply elem_of_cons in H as [H|H]; [discriminate | inversion H].
Qed.

Lemma slides_loop_no_markup (zip : Zip) (slideFiles : list jsstring) :
  forall texts result,
    Forall (fun p => 60%N ∉ p) texts ->
    slides_loop zip slideFiles texts = Ok result ->
    Forall (fun p => 60%N ∉ p) result.
Proof.
  induction slideFiles as [|path rest IH]; intros texts result Htexts; simpl.
  - intros [= <-]. exact Htexts.
  - destruct (zip_text zip path) as [xml|e]; simpl; [|discriminate].
    apply IH. destruct (slide_text xml) as [slideText|] eqn:Hslide; [|exact Htexts].
    apply Forall_app. split; [exact Htexts|].
    constructor; [exact (slide_text_no_markup _ _ Hslide) | constructor].
Qed.

(** X10.  The text [extractTextFromPptx] returns holds no [<]: of every
    match of the slide pattern (an [<a:t ...>] tag, a text without [<],
    the closing tag) the tag-stripping [replace] leaves exactly the
    text, and the texts are joined by spaces and blank lines.  When the
    archive cannot be opened, or a slide cannot be read, the result is
    the empty string. *)
Theorem extractTextFromPptx_no_markup (JSZip_loadAsync : Buffer -> Result Zip)
  (buffer : Buffer) :
  (60%N ∉ extractTextFromPptx JSZip_loadAsync buffer)
  /\ (forall xml m,
         m ∈ text_elements xml ->
         exists attributes text,
           m = js "<a:t" ++ attributes ++ js ">" ++ text ++ js "</a:t>"
           /\ (62%N ∉ attributes) /\ (60%N ∉ text)
           /\ strip_tags m = text)
  /\ (forall e,
         JSZip_loadAsync buffer = Throw e ->
         extractTextFromPptx JSZip_loadAsync buffer = [])
  /\ (forall zip path e,
         JSZip_loadAsync buffer = Ok zip ->
         path ∈ map fst zip -> is_slide_path path = true ->
         zip_text zip path = Throw e ->
         extractTextFromPptx JSZip_loadAsync buffer = []).
Proof.
  split.
  { unfold extractTextFromPptx, extractTextFromPptx_try.
    destruct (JSZip_loadAsync buffer) as [zip|e]; simpl; [|apply not_elem_of_nil].
    destruct (slides_loop zip _ []) as [texts|e] eqn:Hloop; simpl;
      [|apply not_elem_of_nil].
    apply not_elem_of_join.
    - intros H. repeat (apply elem_of_cons in H as [H|H]; [discriminate|]). inversion H.
    - eapply slides_loop_no_markup; [|exact Hloop]. constructor. }
  split.
  { intros xml m Hm. apply text_elements_from_shape in Hm as [s' Hm].
    apply text_element_shape in Hm as (attributes & text & -> & Hattr & Htext).
    exists attributes, text. repeat split; try assumption.
    apply strip_tags_element; assumption. }
  split.
  { intros e He. unfold extractTextFromPptx, extractTextFromPptx_try.
    rewrite He. reflexivity. }
  intros zip path e Hzip Hpath Hslide Hfail.
  unfold extractTextFromPptx, extractTextFromPptx_try. rewrite Hzip. simpl.
  assert (Hin : path ∈ Array_sort (filter (fun name => is_slide_path name) (map fst zip))).
  { assert (Hf : path ∈ filter (fun name => is_slide_path name) (map fst zip)).
    { apply list_elem_of_filter. split; [rewrite Hslide; exact I | exact Hpath]. }
    revert Hf. generalize (filter (fun name => is_slide_path name) (map fst zip)).
    intros l. induction l as [|x l IH]; intros Hx; [inversion Hx|].
    simpl. apply elem_of_cons in Hx as [<-|Hx].
    - generalize (Array_sort l). intros l'.
      induction l' as [|y l' IH']; simpl; [left|].
      destruct (jsstring_ltb path y); [left | right; exact IH'].
    - specialize (IH Hx). revert IH. generalize (Array_sort l). intros l'.
      induction l' as [|y l' IH']; intros Hy; [inversion Hy|].
      simpl. destruct (jsstring_ltb x y); [right; exact Hy|].
      apply elem_of_cons in Hy as [<-|Hy]; [left | right; exact (IH' Hy)]. }
  assert (Hloop : forall files texts,
             path ∈ files -> exists e', slides_loop zip files texts = Throw e').
  { intros files. induction files as [|p files IH]; intros texts Hp; [inversion Hp|].
    simpl. destruct (zip_text zip p) as [xml|e'] eqn:Hp'; simpl; [|eauto].
    apply elem_of_cons in Hp as [->|Hp]; [congruence|]. apply IH, Hp. }
  destruct (Hloop _ [] Hin) as [e' ->]. reflexivity.
Qed.

(** ** Uploads and authorization *)

Lemma startsWith_File_take (c : jsstring) :
  startsWith (js "[File:") (slice_to 50000 c) = startsWith (js "[File:") c.
Proof.
  assert (H6 : 6 <= 50000) by (apply Nat.leb_le; vm_compute; reflexivity).
  unfold slice_to. revert H6. generalize 50000. intros k Hk.
  apply startsWith_take. exact Hk.
Qed.

Lemma length_slice_to_50000 (c : jsstring) : length (slice_to 50000 c) <= 50000.
Proof. unfold slice_to. rewrite length_take. apply Nat.le_min_l. Qed.

Lemma not_elem_of_remove_NUL (s : jsstring) : 0%N ∉ remove_NUL s.
Proof.
  unfold remove_NUL. intros H. apply list_elem_of_filter in H as [H _].
  apply H. reflexivity.
Qed.

Section UploadFacts.

Variable toLowerCase : jsstring -> jsstring.
Variable utf8_decode : Buffer -> jsstring.
Variable mammoth_extractRawText : Buffer -> Result jsstring.
Variable unpdf_extractText : Buffer -> Result jsstring.
Variable JSZip_loadAsync : Buffer -> Result Zip.
Variable NVIDIA_API_KEY : option jsstring.
Variable vision : VisionRequest.t -> FetchOutcome.
Variable blob_put : File -> Result jsstring.

Local Abbreviation isTextFile := (isTextFile toLowerCase).
Local Abbreviation extractTextFromFile :=
  (extractTextFromFile toLowerCase utf8_decode mammoth_extractRawText
     unpdf_extractText JSZip_loadAsync NVIDIA_API_KEY vision).
Local Abbreviation file_content :=
  (file_content toLowerCase utf8_decode mammoth_extractRawText
     unpdf_extractText JSZip_loadAsync NVIDIA_API_KEY vision).
Local Abbreviation decode_multipart :=
  (decode_multipart toLowerCase utf8_decode mammoth_extractRawText
     unpdf_extractText JSZip_loadAsync NVIDIA_API_KEY vision blob_put).
Local Abbreviation POST_multipart :=
  (POST_multipart toLowerCase utf8_decode mammoth_extractRawText
     unpdf_extractText JSZip_loadAsync NVIDIA_API_KEY vision blob_put).

(** X11.  A file that is no text file and from which fewer than 10
    units of text (NULs removed, trimmed) can be extracted is stored
    under the placeholder [[File: name] (type, size KB)], and [POST]
    starts no AI processing for it: the placeholder starts with
    [[File:], which the gate refuses. *)
Theorem unreadable_file_not_processed (session : option jsstring)
  (formData : FormData) (db : DB) (file : File) :
  form_file formData = Some file ->
  file_bytes file <> [] ->
  isTextFile (file_name file) (file_type file) = false ->
  length (trim (remove_NUL
                  (extractTextFromFile (file_name file) (file_bytes file)
                     (file_type file)))) < 10 ->
  file_content file = file_placeholder file
  /\ startsWith (js "[File:") (file_placeholder file) = true
  /\ match POST_multipart session formData db with
     | (DocumentCreated doc, db', started) =>
         started = None
         /\ Document.content doc = slice_to 50000 (file_placeholder file)
         /\ startsWith (js "[File:") (Document.content doc) = true
     | (_, db', started) => started = None /\ db' = db
     end.
Proof.
  intros Hfile Hbytes Htext Hshort.
  assert (Hcontent : file_content file = file_placeholder file).
  { unfold file_content. rewrite Htext.
    rewrite trim_idem.
    apply Nat.ltb_lt in Hshort. rewrite Hshort, orb_true_r. reflexivity. }
  assert (Hstart : startsWith (js "[File:") (file_placeholder file) = true)
    by reflexivity.
  split; [exact Hcontent|]. split; [exact Hstart|].
  assert (Hup : up_content (decode_multipart formData) = Some (file_placeholder file)).
  { unfold decode_multipart. rewrite Hfile.
    assert (Hsize : N.ltb 0 (file_size file) = true).
    { apply N.ltb_lt. unfold file_size.
      destruct (file_bytes file); [contradiction | simpl; lia]. }
    rewrite Hsize. cbn [up_content]. rewrite Hcontent. reflexivity. }
  unfold POST_multipart, POST.
  destruct (session_user session) as [uid|]; [|split; reflexivity].
  destruct (up_title (decode_multipart formData)) as [[|c t]|];
    try (split; reflexivity).
  unfold document_create. cbv beta iota zeta. cbn [Document.content].
  rewrite Hup. cbn [default].
  assert (Hgate : worth_processing (Some (file_placeholder file)) = false).
  { unfold worth_processing. rewrite Hstart. cbn [negb].
    apply andb_false_r. }
  rewrite Hgate, startsWith_File_take. auto.
Qed.

(** X12.  The content [POST] takes from an uploaded file is either the
    placeholder or a text without NUL and without white space at either
    end; for a file that is no text file such a text has at least 10
    units. *)
Theorem file_content_clean (file : File) :
  let content := file_content file in
  content = file_placeholder file
  \/ ((0%N ∉ content)
      /\ trim content = content
      /\ (isTextFile (file_name file) (file_type file) = false ->
          10 <= length content)).
Proof.
  intros content. subst content. unfold file_content.
  destruct (isTextFile (file_name file) (file_type file)).
  - right. split; [|split; [apply trim_idem | discriminate]].
    intros H. apply trim_elem in H. exact (not_elem_of_remove_NUL _ H).
  - set (content := trim (remove_NUL _)).
    destruct (bool_decide (content = []) || (length (trim content) <? 10))%bool eqn:Hc;
      [left; reflexivity | right].
    apply orb_false_iff in Hc as [_ Hlen]. apply Nat.ltb_ge in Hlen.
    split; [|split].
    + intros H. apply trim_elem in H. exact (not_elem_of_remove_NUL _ H).
    + apply trim_idem.
    + intros _. unfold content in Hlen. rewrite trim_idem in Hlen. exact Hlen.
Qed.

End UploadFacts.

(** The theorem at the upload of a scanned image in which the vision
    model reads the single word [Hello]. *)
Lemma unreadable_file_not_processed_witness :
  form_file upload_scan = Some scan_png
  /\ file_bytes scan_png <> []
  /\ isTextFile toLowerCase_ascii (file_name scan_png) (file_type scan_png) = false
  /\ length (trim (remove_NUL
                     (extractTextFromFile toLowerCase_ascii utf8_ascii parser_fails
                        parser_fails parser_fails (Some (js "nvapi-key"))
                        (vision_reads (js "Hello"))
                        (file_name scan_png) (file_bytes scan_png)
                        (file_type scan_png)))) < 10
  /\ file_content toLowerCase_ascii utf8_ascii parser_fails parser_fails parser_fails
       (Some (js "nvapi-key")) (vision_reads (js "Hello")) scan_png
     = js "[File: scan.png] (image/png, 0.0 KB)".
Proof.
  assert (H1 : form_file upload_scan = Some scan_png) by reflexivity.
  assert (H2 : file_bytes scan_png <> []) by discriminate.
  assert (H3 : isTextFile toLowerCase_ascii (file_name scan_png) (file_type scan_png)
               = false) by (vm_compute; reflexivity).
  assert (H4 : length (trim (remove_NUL
                     (extractTextFromFile toLowerCase_ascii utf8_ascii parser_fails
                        parser_fails parser_fails (Some (js "nvapi-key"))
                        (vision_reads (js "Hello"))
                        (file_name scan_png) (file_bytes scan_png)
                        (file_type scan_png)))) < 10)
    by (apply Nat.ltb_lt; vm_compute; reflexivity).
  split; [exact H1|]. split; [exact H2|]. split; [exact H3|]. split; [exact H4|].
  destruct (unreadable_file_not_processed toLowerCase_ascii utf8_ascii parser_fails
              parser_fails parser_fails (Some (js "nvapi-key"))
              (vision_reads (js "Hello")) blob_stored
              (Some (js "user-1")) upload_scan store_react scan_png H1 H2 H3 H4)
    as [Hcontent _].
  exact Hcontent.
Defined.

(** X13.  The routes act for the signed-in user only.  Without a
    session both answer 401, change nothing and start nothing.  A
    document [POST] creates belongs to the session's user, and the
    processing it starts runs for that user on that document.  [PATCH]
    starts processing only with the answer [success], for the session's
    user, on a stored document this user owns; for a document of
    another user it answers 404 like for a missing one, changes nothing
    and starts nothing. *)
Theorem routes_authorization (session : option jsstring) (db : DB) :
  (session_user session = None ->
   (forall req, POST session req db = (Unauthorized, db, None))
   /\ (forall idParam, PATCH session idParam db = (Unauthorized, db, None)))
  /\ (forall req,
         match POST session req db with
         | (DocumentCreated doc, db', started) =>
             session_user session = Some (Document.userId doc)
             /\ forall s,
                 started = Some s ->
                 started_userId s = Document.userId doc
                 /\ started_docId s = Document.id doc
         | (_, db', started) => started = None /\ db' = db
         end)
  /\ (forall idParam resp db' s,
         PATCH session idParam db = (resp, db', Some s) ->
         resp = Success
         /\ idParam = Some (started_docId s)
         /\ session_user session = Some (started_userId s)
         /\ exists doc,
             find (fun d => N.eqb (Document.id d) (started_docId s)) (documents db)
             = Some doc
             /\ Document.userId doc = started_userId s)
  /\ (forall docId doc uid,
         find (fun d => N.eqb (Document.id d) docId) (documents db) = Some doc ->
         session_user session = Some uid ->
         Document.userId doc <> uid ->
         PATCH session (Some docId) db = (NotFound, db, None)).
Proof.
  split.
  { intros Hs. split; intros; unfold POST, PATCH; rewrite Hs; reflexivity. }
  split.
  { intros req. unfold POST.
    destruct (session_user session) as [uid|]; [|split; reflexivity].
    destruct (up_title req) as [[|c t]|]; try (split; reflexivity).
    unfold document_create. cbv beta iota zeta.
    cbn [Document.userId Document.id].
    split; [reflexivity|].
    intros s. destruct (worth_processing (up_content req)); [|discriminate].
    intros [= <-]. split; reflexivity. }
  split.
  { intros idParam resp db' s. unfold PATCH.
    destruct (session_user session) as [uid|]; [|discriminate].
    destruct idParam as [docId|]; [|discriminate].
    destruct (find _ (documents db)) as [doc|] eqn:Hfind; [|discriminate].
    destruct (jsstring_eqb (Document.userId doc) uid) eqn:Hown; [|discriminate].
    destruct (worth_processing (Some (Document.content doc))); [|discriminate].
    intros [= <- <- <-]. cbn [started_userId started_docId].
    split; [reflexivity|]. split; [reflexivity|]. split; [reflexivity|].
    exists doc. split; [exact Hfind|]. apply jsstring_eqb_eq, Hown. }
  intros docId doc uid Hfind Hs Hother. unfold PATCH. rewrite Hs, Hfind.
  destruct (jsstring_eqb (Document.userId doc) uid) eqn:Hown; [|reflexivity].
  apply jsstring_eqb_eq in Hown. contradiction.
Qed.

(** X14.  What [POST] stores is the first 50000 units of the content
    submitted (nothing when there is none), so never more than 50000
    units, while the processing it starts is given the content uncut;
    the new document takes the next free id, and no other row of the
    store changes. *)
Theorem POST_stored_content (session : option jsstring) (req : Upload) (db : DB) :
  match POST session req db with
  | (DocumentCreated doc, db', started) =>
      Document.content doc = slice_to 50000 (default [] (up_content req))
      /\ length (Document.content doc) <= 50000
      /\ (forall s,
             started = Some s ->
             started_content s = default [] (up_content req)
             /\ Document.content doc = slice_to 50000 (started_content s))
      /\ Document.id doc = nextId db
      /\ nextId db' = (nextId db + 1)%N
      /\ documents db' = documents db ++ [doc]
      /\ knowledgeNodes db' = knowledgeNodes db
  | (_, db', started) => started = None /\ db' = db
  end.
Proof.
  unfold POST.
  destruct (session_user session) as [uid|]; [|split; reflexivity].
  destruct (up_title req) as [[|c t]|]; try (split; reflexivity).
  unfold document_create. cbv beta iota zeta.
  cbn [Document.content Document.id documents knowledgeNodes nextId].
  split; [reflexivity|]. split; [apply length_slice_to_50000|].
  split; [|repeat split].
  intros s. destruct (worth_processing (up_content req)); [|discriminate].
  intros [= <-]. split; reflexivity.
Qed.

(** ** What a merge leaves alone *)

(** The first loop, row by row: the old rows keep their place, id,
    owner, label and connections; the rows of other owners are not
    touched at all; no strength goes down; the new rows belong to [u]
    and there is at most one per entity. *)
Lemma upsert_entities_frame (u : jsstring) (es : list TypedEntity.t) :
  forall db,
    wf db ->
    exists g new,
      knowledgeNodes (after_upserts u es db) = map g (knowledgeNodes db) ++ new
      /\ keeps g
      /\ (forall n, n ∈ knowledgeNodes db -> KnowledgeNode.userId n <> u -> g n = n)
      /\ (forall n, n ∈ knowledgeNodes db ->
                    (KnowledgeNode.strength n <= KnowledgeNode.strength (g n))%Q)
      /\ Forall (fun n => KnowledgeNode.userId n = u) new
      /\ length new <= length es.
Proof.
  induction es as [|e es IH]; intros db Hwf.
  - exists (fun n => n), []. unfold after_upserts. simpl.
    split; [rewrite map_id, app_nil_r; reflexivity|].
    split; [apply keeps_id|]. split; [reflexivity|].
    split; [intros; apply Qle_refl|]. split; [constructor | lia].
  - destruct (find (node_matches u (TypedEntity.name e)) (knowledgeNodes db))
      as [n0|] eqn:Hf0.
    + set (upd := update_where (KnowledgeNode.id n0) (updateData n0 e)).
      pose proof (keeps_updateData (KnowledgeNode.id n0) n0 e) as Hk. fold upd in Hk.
      pose proof (keeps_keeps_keys _ Hk) as Hkk.
      set (db1 := with_nodes db (map upd (knowledgeNodes db))).
      assert (Hwf1 : wf db1) by (apply wf_with_nodes_map; assumption).
      assert (Hrun : after_upserts u (e :: es) db = after_upserts u es db1).
      { unfold after_upserts. simpl. unfold bindP.
        rewrite (upsert_entity_found u e db n0 Hf0). reflexivity. }
      pose proof (find_some_elem _ _ _ Hf0) as [Hn0 Hm0].
      apply node_matches_spec in Hm0 as [Hu0 _].
      assert (Hupd : forall n, n ∈ knowledgeNodes db ->
                KnowledgeNode.id n <> KnowledgeNode.id n0 -> upd n = n).
      { intros n _ Hne. unfold upd, update_where.
        destruct (N.eqb_spec (KnowledgeNode.id n) (KnowledgeNode.id n0));
          [contradiction | reflexivity]. }
      assert (Hin1 : forall n, n ∈ knowledgeNodes db -> upd n ∈ knowledgeNodes db1).
      { intros n Hn. simpl. apply list_elem_of_In, in_map, list_elem_of_In, Hn. }
      destruct (IH db1 Hwf1) as (g1 & new & Hrows & Hg1 & Hother & Hle & Hnew & Hlen).
      exists (fun n => g1 (upd n)), new. rewrite Hrun, Hrows.
      split; [simpl; rewrite map_map; reflexivity|].
      split; [apply keeps_compose; assumption|].
      split.
      { intros n Hn Hne.
        assert (Hsame : upd n = n).
        { apply Hupd; [exact Hn|]. intros Hid.
          assert (n = n0) by (eapply same_id_same_row; [apply Hwf| | |]; eassumption).
          subst n. contradiction. }
        rewrite Hsame. apply Hother; [|exact Hne].
        rewrite <- Hsame. apply Hin1, Hn. }
      split.
      { intros n Hn. eapply Qle_trans; [|apply Hle, Hin1, Hn].
        unfold upd, update_where.
        destruct (N.eqb_spec (KnowledgeNode.id n) (KnowledgeNode.id n0)) as [Heq|Hne];
          [|apply Qle_refl].
        assert (n = n0) by (eapply same_id_same_row; [apply Hwf| | |]; eassumption).
        subst n.
        destruct (updateData_fields n0 e n0) as (_ & _ & _ & -> & _).
        apply Qlt_le_weak, Qlt_plus_half. }
      split; [exact Hnew | simpl; lia].
    + set (db1 := {| documents := documents db;
                     knowledgeNodes := knowledgeNodes db ++ [new_entity_node u e db];
                     nextId := (nextId db + 1)%N |}).
      assert (Hwf1 : wf db1) by (apply wf_append; [exact Hwf | reflexivity]).
      assert (Hrun : after_upserts u (e :: es) db = after_upserts u es db1).
      { unfold after_upserts. simpl. unfold bindP.
        rewrite (upsert_entity_new u e db Hf0). reflexivity. }
      destruct (IH db1 Hwf1) as (g1 & new & Hrows & Hg1 & Hother & Hle & Hnew & Hlen).
      exists g1, (g1 (new_entity_node u e db) :: new). rewrite Hrun, Hrows.
      assert (Hin1 : forall n, n ∈ knowledgeNodes db -> n ∈ knowledgeNodes db1).
      { intros n Hn. simpl. apply elem_of_app. left. exact Hn. }
      split; [simpl; rewrite map_app, <- app_assoc; reflexivity|].
      split; [exact Hg1|].
      split; [intros n Hn; apply Hother, Hin1, Hn|].
      split; [intros n Hn; apply Hle, Hin1, Hn|].
      split; [|simpl; lia].
      constructor; [|exact Hnew].
      destruct (Hg1 (new_entity_node u e db)) as (_ & -> & _). reflexivity.
Qed.

Lemma newConnections_keeps (nodes : list KnowledgeNode.t) (docNode n : KnowledgeNode.t)
  (x : N) :
  x ∈ KnowledgeNode.connections n -> x ∈ newConnections nodes docNode n.
Proof.
  intros Hx. unfold newConnections.
  apply (set_from_spec _ [] (NoDup_nil_2)). right.
  apply elem_of_app. left. exact Hx.
Qed.

Lemma rewire_connections (nodes : list KnowledgeNode.t) (docNode : KnowledgeNode.t)
  (todo : list KnowledgeNode.t) (m : KnowledgeNode.t) (x : N) :
  (forall n, n ∈ todo -> KnowledgeNode.id n = KnowledgeNode.id m -> n = m) ->
  x ∈ KnowledgeNode.connections m ->
  x ∈ KnowledgeNode.connections (rewire nodes docNode todo m).
Proof.
  intros Hsame Hx. unfold rewire.
  destruct (find _ todo) as [n|] eqn:Hf; [|exact Hx].
  apply find_some_elem in Hf as [Hn Hid]. apply N.eqb_eq in Hid.
  rewrite (Hsame n Hn Hid). simpl. apply newConnections_keeps, Hx.
Qed.

Section MergeFrame.

Variables (u : jsstring) (docId : N) (es : list TypedEntity.t) (db : DB).
Hypothesis Hwf : wf db.

Let names := map TypedEntity.name es.
Let dbU := after_upserts u es db.
Let nodes := entity_nodes u names dbU.
Let label := merge_label docId dbU.
Let docNode := fst (with_document_node u label nodes dbU).
Let dbD := snd (with_document_node u label nodes dbU).
Let rw := rewire nodes docNode nodes.

(** The rows after the merge: those the first loop left, then the
    document node if it was created, each with its connections as the
    last loop set them. *)
Lemma merged_rows :
  exists g new,
    knowledgeNodes (merged u docId es db) = map rw (map g (knowledgeNodes db) ++ new)
    /\ keeps g
    /\ (forall n, n ∈ knowledgeNodes db -> KnowledgeNode.userId n <> u -> g n = n)
    /\ (forall n, n ∈ knowledgeNodes db ->
                  (KnowledgeNode.strength n <= KnowledgeNode.strength (g n))%Q)
    /\ Forall (fun n => KnowledgeNode.userId n = u) new
    /\ length new <= length es + 1
    /\ (forall m, m ∈ map g (knowledgeNodes db) ++ new -> m ∈ knowledgeNodes dbD).
Proof.
  destruct (upsert_entities_frame u es db Hwf)
    as (g & new & Hrows & Hg & Hother & Hle & Hnew & Hlen).
  fold dbU in Hrows.
  rewrite (merged_eq u docId es db). fold names dbU nodes label docNode dbD rw.
  simpl.
  destruct (document_node_cases u docId es db Hwf) as [[_ HD]|(_ & _ & Hdoc & HD)];
    fold names dbU nodes label docNode dbD in HD.
  - exists g, new. rewrite HD, Hrows.
    split; [reflexivity|]. split; [exact Hg|]. split; [exact Hother|].
    split; [exact Hle|]. split; [exact Hnew|]. split; [lia|]. auto.
  - fold names dbU nodes label docNode in Hdoc.
    exists g, (new ++ [docNode]). rewrite HD. simpl. rewrite Hrows, <- app_assoc.
    split; [reflexivity|]. split; [exact Hg|]. split; [exact Hother|].
    split; [exact Hle|].
    split.
    { apply Forall_app. split; [exact Hnew|].
      constructor; [rewrite Hdoc; reflexivity | constructor]. }
    split; [rewrite length_app; simpl; lia | auto].
Qed.

Lemma rewire_merged_connections (m : KnowledgeNode.t) (x : N) :
  m ∈ knowledgeNodes dbD ->
  x ∈ KnowledgeNode.connections m -> x ∈ KnowledgeNode.connections (rw m).
Proof.
  intros Hm Hx. apply rewire_connections; [|exact Hx].
  intros n Hn Hid.
  destruct (nodes_in_store u docId es db Hwf n Hn) as [HnD _].
  fold names dbU nodes label docNode dbD in HnD.
  eapply same_id_same_row; [apply (wf_with_document u docId es db Hwf)| | |];
    eassumption.
Qed.

(** X15.  On a store with unique ids [mergeDocument] never throws and
    leaves the rows of every other owner exactly as they were: none is
    changed, none is removed, none is created.  The documents are not
    touched either. *)
Theorem mergeDocument_other_owners :
  exists db',
    mergeDocument u docId es db = (Ok tt, db')
    /\ documents db' = documents db
    /\ forall n,
        KnowledgeNode.userId n <> u ->
        (n ∈ knowledgeNodes db <-> n ∈ knowledgeNodes db').
Proof.
  exists (merged u docId es db).
  split; [apply mergeDocument_merged, Hwf|].
  split; [apply documents_merged, Hwf|].
  destruct merged_rows as (g & new & Hrows & Hg & Hother & _ & Hnew & _ & HinD).
  assert (Hrw : forall m, m ∈ map g (knowledgeNodes db) ++ new ->
                          KnowledgeNode.userId m <> u -> rw m = m).
  { intros m Hm Hne.
    apply (rewire_other u docId es db Hwf m); [apply HinD, Hm|].
    intros [Hu _]. contradiction. }
  intros n Hne. rewrite Hrows. split.
  - intros Hn.
    assert (Hgn : n ∈ map g (knowledgeNodes db) ++ new).
    { apply elem_of_app. left. rewrite <- (Hother n Hn Hne).
      apply list_elem_of_In, in_map, list_elem_of_In, Hn. }
    rewrite <- (Hrw n Hgn Hne).
    apply list_elem_of_In, in_map, list_elem_of_In, Hgn.
  - intros Hn. apply list_elem_of_In, in_map_iff in Hn as (m & Hmn & Hm).
    apply list_elem_of_In in Hm.
    assert (Hum : KnowledgeNode.userId m <> u).
    { destruct (keeps_keys_rewire nodes docNode nodes m) as (_ & Hu & _).
      fold rw in Hu. rewrite Hmn in Hu. rewrite <- Hu. exact Hne. }
    rewrite (Hrw m Hm Hum) in Hmn. subst m.
    apply elem_of_app in Hm as [Hm|Hm].
    + apply list_elem_of_In, in_map_iff in Hm as (n0 & Hgn0 & Hn0).
      apply list_elem_of_In in Hn0.
      assert (Hu0 : KnowledgeNode.userId n0 <> u).
      { destruct (Hg n0) as (_ & Hu & _). rewrite Hgn0 in Hu. rewrite <- Hu. exact Hum. }
      rewrite (Hother n0 Hn0 Hu0) in Hgn0. subst n0. exact Hn0.
    + rewrite Forall_forall in Hnew. destruct (Hum (Hnew n Hm)).
Qed.

(** X16.  On a store with unique ids [mergeDocument] only adds.  Every
    row that was there is still there, with its id, owner and label;
    its strength has not gone down and it has kept every connection it
    had.  At most one row per entity and one for the document are
    added. *)
Theorem mergeDocument_only_adds :
  exists db',
    mergeDocument u docId es db = (Ok tt, db')
    /\ (forall n,
           n ∈ knowledgeNodes db ->
           exists n',
             n' ∈ knowledgeNodes db'
             /\ KnowledgeNode.id n' = KnowledgeNode.id n
             /\ KnowledgeNode.userId n' = KnowledgeNode.userId n
             /\ KnowledgeNode.label n' = KnowledgeNode.label n
             /\ (KnowledgeNode.strength n <= KnowledgeNode.strength n')%Q
             /\ forall x,
                 x ∈ KnowledgeNode.connections n -> x ∈ KnowledgeNode.connections n')
    /\ length (knowledgeNodes db) <= length (knowledgeNodes db')
    /\ length (knowledgeNodes db') <= length (knowledgeNodes db) + length es + 1.
Proof.
  exists (merged u docId es db).
  split; [apply mergeDocument_merged, Hwf|].
  destruct merged_rows as (g & new & Hrows & Hg & _ & Hle & _ & Hlen & HinD).
  rewrite Hrows. split.
  - intros n Hn.
    assert (Hgn : g n ∈ map g (knowledgeNodes db) ++ new).
    { apply elem_of_app. left. apply list_elem_of_In, in_map, list_elem_of_In, Hn. }
    exists (rw (g n)).
    destruct (Hg n) as (Hid & Hu & Hl & Hc).
    destruct (keeps_keys_rewire nodes docNode nodes (g n)) as (Hid' & Hu' & Hl').
    fold rw in Hid', Hu', Hl'.
    split; [apply list_elem_of_In, in_map, list_elem_of_In, Hgn|].
    split; [congruence|]. split; [congruence|]. split; [congruence|].
    split.
    + unfold rw. rewrite rewire_strength. apply Hle, Hn.
    + intros x Hx. apply rewire_merged_connections; [apply HinD, Hgn|].
      rewrite Hc. exact Hx.
  - rewrite length_map, length_app, length_map. lia.
Qed.

End MergeFrame.

Lemma wf_store_shared : wf store_shared.
Proof.
  split; simpl.
  - apply (bool_decide_unpack _). vm_compute. exact I.
  - repeat constructor.
Qed.

(** The theorem at a merge for the first user into a store that holds
    a node of a second user under the same label. *)
Lemma mergeDocument_other_owners_witness :
  wf store_shared
  /\ KnowledgeNode.userId other_vue <> js "user-1"
  /\ exists db',
      mergeDocument (js "user-1") 1 [typed "Vue" concept; typed "Svelte" idea]
        store_shared = (Ok tt, db')
      /\ other_vue ∈ knowledgeNodes db'.
Proof.
  split; [exact wf_store_shared|]. split; [discriminate|].
  destruct (mergeDocument_other_owners (js "user-1") 1
              [typed "Vue" concept; typed "Svelte" idea] store_shared wf_store_shared)
    as (db' & Hrun & _ & Hsame).
  exists db'. split; [exact Hrun|].
  apply Hsame; [discriminate|].
  simpl. repeat constructor.
Defined.

(** The theorem at a later merge into [store_react_vue]. *)
Lemma mergeDocument_only_adds_witness :
  wf store_react_vue
  /\ exists db',
      mergeDocument (js "user-1") 1 [typed "Svelte" concept] store_react_vue
      = (Ok tt, db')
      /\ length (knowledgeNodes store_react_vue) <= length (knowledgeNodes db').
Proof.
  split; [exact wf_store_react_vue|].
  destruct (mergeDocument_only_adds (js "user-1") 1 [typed "Svelte" concept]
              store_react_vue wf_store_react_vue)
    as (db' & Hrun & _ & Hlen & _).
  exists db'. split; [exact Hrun | exact Hlen].
Defined.

(** ** What a run of [processDocumentWithAI] leaves *)

Lemma extractKeyPoints_length (key : option jsstring) (net : Net) (text : jsstring) :
  exists points, extractKeyPoints key net text = Ok points /\ length points <= 10.
Proof.
  eexists. split; [apply extractKeyPoints_eq|].
  destruct (nvidiaChat _ _ _) as [[| | |s| |]|]; simpl; try lia.
  destruct (JSON_parse _) as [[| | | |items|]|]; simpl; try lia.
  rewrite length_take. lia.
Qed.

Lemma length_generateEmbeddingSimple (toLowerCase : jsstring -> jsstring)
  (text : jsstring) :
  length (generateEmbeddingSimple toLowerCase text) = 128.
Proof.
  unfold generateEmbeddingSimple.
  destruct (Rlt_dec _ _); [rewrite length_map|];
    rewrite length_words_loop; apply length_replicate.
Qed.

Lemma document_update_found (docId : N) (patch : Document.t -> Document.t) (db : DB)
  (doc : Document.t) :
  find (fun d => N.eqb (Document.id d) docId) (documents db) = Some doc ->
  document_update docId patch db = (Ok tt, with_document docId patch db).
Proof.
  intros Hfind. unfold document_update.
  assert (Hex : existsb (fun d => N.eqb (Document.id d) docId) (documents db) = true).
  { apply existsb_exists. exists doc.
    apply find_some_elem in Hfind as [Hin Hid].
    split; [apply list_elem_of_In, Hin | exact Hid]. }
  rewrite Hex. reflexivity.
Qed.

Lemma find_with_document (docId : N) (patch : Document.t -> Document.t) (db : DB) :
  (forall d, Document.id (patch d) = Document.id d) ->
  find (fun d => N.eqb (Document.id d) docId) (documents (with_document docId patch db))
  = option_map patch (find (fun d => N.eqb (Document.id d) docId) (documents db)).
Proof.
  intros Hid. simpl. induction (documents db) as [|d ds IH]; simpl; [reflexivity|].
  destruct (N.eqb (Document.id d) docId) eqn:Hd.
  - rewrite Hid, Hd. reflexivity.
  - rewrite Hd. exact IH.
Qed.

Lemma wf_with_document_patch (docId : N) (patch : Document.t -> Document.t) (db : DB) :
  wf db -> wf (with_document docId patch db).
Proof. intros H. exact H. Qed.

Section RunFacts.

Variable NVIDIA_API_KEY : option jsstring.
Variable toLowerCase : jsstring -> jsstring.
Variables (netS netE netK : Net) (docId : N) (content userId : jsstring) (db : DB).

Local Abbreviation run :=
  (processDocumentWithAI NVIDIA_API_KEY toLowerCase netS netE netK docId content
     userId db).

(** A run for which the summary is returned and the document exists. *)
Lemma processDocumentWithAI_success (doc : Document.t) (summary : JSON)
  (typed : list TypedEntity.t) (keyPoints : list JSON) :
  wf db ->
  find (fun d => N.eqb (Document.id d) docId) (documents db) = Some doc ->
  generateSummary NVIDIA_API_KEY netS content = Ok summary ->
  extractEntitiesWithTypes NVIDIA_API_KEY netE content = Ok typed ->
  extractKeyPoints NVIDIA_API_KEY netK content = Ok keyPoints ->
  run = merged userId docId typed
          (with_document docId
             (enrich summary (map TypedEntity.name typed) keyPoints
                (generateEmbeddingSimple toLowerCase content)) db).
Proof.
  intros Hwf Hf HS HE HK.
  unfold processDocumentWithAI, processDocument_try, catchP, bindP, lift, Promise_all3.
  rewrite HS, HE, HK. simpl bind. cbv beta iota zeta.
  rewrite (document_update_found _ _ _ _ Hf).
  rewrite (mergeDocument_merged _ _ _ _ (wf_with_document_patch _ _ _ Hwf)).
  reflexivity.
Qed.

(** A run leaves the store as it was, or enriches the document and
    merges the entities. *)
Lemma processDocumentWithAI_cases :
  wf db ->
  run = db
  \/ exists summary typed keyPoints,
      extractEntitiesWithTypes NVIDIA_API_KEY netE content = Ok typed
      /\ run = merged userId docId typed
                 (with_document docId
                    (enrich summary (map TypedEntity.name typed) keyPoints
                       (generateEmbeddingSimple toLowerCase content)) db).
Proof.
  intros Hwf.
  destruct (extractEntitiesWithTypes_names NVIDIA_API_KEY netE content)
    as (typed & HE & _).
  destruct (extractKeyPoints_length NVIDIA_API_KEY netK content) as (keyPoints & HK & _).
  destruct (generateSummary NVIDIA_API_KEY netS content) as [summary|err] eqn:HS.
  - destruct (find (fun d => N.eqb (Document.id d) docId) (documents db))
      as [doc|] eqn:Hf.
    + right. exists summary, typed, keyPoints.
      split; [exact HE|].
      apply (processDocumentWithAI_success doc); assumption.
    + left.
      unfold processDocumentWithAI, processDocument_try, catchP, bindP, lift,
        Promise_all3.
      rewrite HS, HE, HK. simpl bind. cbv beta iota zeta.
      rewrite (document_update_missing _ _ _ Hf). reflexivity.
  - left.
    unfold processDocumentWithAI, processDocument_try, catchP, bindP, lift,
      Promise_all3.
    rewrite HS. reflexivity.
Qed.

(** X17.  Whatever the three networks answer, a run of
    [processDocumentWithAI] on a store with unique node ids leaves a
    store with unique node ids, the same documents under the same ids in
    the same order, every node row it found, and at most 21 more node
    rows (20 entities and the document). *)
Theorem processDocumentWithAI_bounded :
  wf db ->
  wf run
  /\ map Document.id (documents run) = map Document.id (documents db)
  /\ length (knowledgeNodes db) <= length (knowledgeNodes run)
  /\ length (knowledgeNodes run) <= length (knowledgeNodes db) + 21.
Proof.
  intros Hwf.
  destruct (processDocumentWithAI_cases Hwf)
    as [->|(summary & typed & keyPoints & HE & ->)].
  { split; [exact Hwf|]. split; [reflexivity|]. lia. }
  set (E := with_document docId _ db).
  assert (HwfE : wf E) by exact Hwf.
  destruct (extractEntitiesWithTypes_names NVIDIA_API_KEY netE content)
    as (typed' & HE' & Hlen & _).
  assert (typed' = typed) by congruence. subst typed'.
  split; [apply wf_merged, HwfE|].
  split.
  { rewrite (documents_merged userId docId typed E HwfE). simpl.
    rewrite map_map. apply map_ext. intros d.
    destruct (N.eqb (Document.id d) docId); reflexivity. }
  destruct (merged_rows userId docId typed E HwfE)
    as (g & new & Hrows & _ & _ & _ & _ & Hnew & _).
  rewrite Hrows, length_map, length_app, length_map.
  change (knowledgeNodes E) with (knowledgeNodes db). lia.
Qed.

(** X18.  When the summary is returned and the document exists, a run
    on a store with unique node ids leaves the document with a summary
    that is not empty, at most 20 entity names, their first five as
    tags, at most 10 key points and an embedding of 128 components; its
    id, owner, title and content are as before, and so is every other
    document. *)
Theorem processDocumentWithAI_enriches (doc : Document.t) (summary : JSON) :
  wf db ->
  find (fun d => N.eqb (Document.id d) docId) (documents db) = Some doc ->
  generateSummary NVIDIA_API_KEY netS content = Ok summary ->
  exists typed keyPoints doc' vector,
    extractEntitiesWithTypes NVIDIA_API_KEY netE content = Ok typed
    /\ extractKeyPoints NVIDIA_API_KEY netK content = Ok keyPoints
    /\ find (fun d => N.eqb (Document.id d) docId) (documents run) = Some doc'
    /\ Document.summary doc' = Some summary
    /\ truthy summary = true
    /\ Document.entities doc' = Some (map TypedEntity.name typed)
    /\ length typed <= 20
    /\ Document.tags doc' = Some (take 5 (map TypedEntity.name typed))
    /\ Document.keyPoints doc' = Some keyPoints
    /\ length keyPoints <= 10
    /\ Document.embedding doc' = Some vector
    /\ length vector = 128
    /\ Document.id doc' = Document.id doc
    /\ Document.userId doc' = Document.userId doc
    /\ Document.title doc' = Document.title doc
    /\ Document.content doc' = Document.content doc
    /\ forall d, d ∈ documents db -> Document.id d <> docId -> d ∈ documents run.
Proof.
  intros Hwf Hfind HS.
  destruct (extractEntitiesWithTypes_names NVIDIA_API_KEY netE content)
    as (typed & HE & Hlen & _).
  destruct (extractKeyPoints_length NVIDIA_API_KEY netK content)
    as (keyPoints & HK & HlenK).
  assert (Hrun : run = merged userId docId typed
                         (with_document docId
                            (enrich summary (map TypedEntity.name typed) keyPoints
                               (generateEmbeddingSimple toLowerCase content)) db)).
  { apply (processDocumentWithAI_success doc); assumption. }
  exists typed, keyPoints,
    (enrich summary (map TypedEntity.name typed) keyPoints
       (generateEmbeddingSimple toLowerCase content) doc),
    (generateEmbeddingSimple toLowerCase content).
  split; [exact HE|]. split; [exact HK|].
  assert (HwfE := wf_with_document_patch docId
                    (enrich summary (map TypedEntity.name typed) keyPoints
                       (generateEmbeddingSimple toLowerCase content)) db Hwf).
  split.
  { rewrite Hrun, (documents_merged _ _ _ _ HwfE).
    rewrite find_with_document by reflexivity. rewrite Hfind. reflexivity. }
  split; [reflexivity|].
  split.
  { revert HS. unfold generateSummary.
    generalize (prompt_options SUMMARY_PROMPT (slice_to 6000 content) 300 (3 # 10)).
    intros options. unfold nvidiaChat.
    destruct (key_configured NVIDIA_API_KEY); simpl; [|discriminate].
    pose proof (try_models_result netS options (modelsToTry options) 0 None) as Hres.
    intros Heq. rewrite Heq in Hres. apply Hres. intros e [=]. }
  split; [reflexivity|]. split; [exact Hlen|]. split; [reflexivity|].
  split; [reflexivity|]. split; [exact HlenK|]. split; [reflexivity|].
  split; [apply length_generateEmbeddingSimple|].
  split; [reflexivity|]. split; [reflexivity|]. split; [reflexivity|].
  split; [reflexivity|].
  intros d Hd Hne. rewrite Hrun, (documents_merged _ _ _ _ HwfE). simpl.
  apply list_elem_of_In, in_map_iff. exists d.
  split; [|apply list_elem_of_In, Hd].
  destruct (N.eqb_spec (Document.id d) docId); [contradiction | reflexivity].
Qed.

(** X19.  For a document id that is not in the store a run changes
    nothing, whatever the extractors return: the update of the document
    throws before the graph is touched. *)
Theorem processDocumentWithAI_missing_document :
  find (fun d => N.eqb (Document.id d) docId) (documents db) = None ->
  processDocumentWithAI NVIDIA_API_KEY toLowerCase netS netE netK docId content userId db
  = db.
Proof.
  intros Hf.
  unfold processDocumentWithAI, processDocument_try, catchP, bindP, lift.
  destruct (Promise_all3 _ _ _) as [[[summary typed] keyPoints]|err]; [|reflexivity].
  rewrite (document_update_missing _ _ _ Hf). reflexivity.
Qed.

End RunFacts.

(** The theorem at the document "React", with a summary, one entity and
    no key point. *)
Lemma processDocumentWithAI_bounded_witness :
  wf store_react
  /\ length (knowledgeNodes
               (processDocumentWithAI (Some (js "nvapi-key")) toLowerCase_ascii
                  (net_always (js "A summary.")) net_entities net_down 1
                  (js "React is a library for building user interfaces.")
                  (js "user-1") store_react))
     <= length (knowledgeNodes store_react) + 21.
Proof.
  split; [exact wf_store_react|].
  destruct (processDocumentWithAI_bounded (Some (js "nvapi-key")) toLowerCase_ascii
              (net_always (js "A summary.")) net_entities net_down 1
              (js "React is a library for building user interfaces.") (js "user-1")
              store_react wf_store_react) as (_ & _ & _ & Hlen).
  exact Hlen.
Defined.

Lemma processDocumentWithAI_enriches_witness :
  wf store_react
  /\ find (fun d => N.eqb (Document.id d) 1) (documents store_react)
     = Some (sample_document 1 "React" "React is a library for building user interfaces.")
  /\ generateSummary (Some (js "nvapi-key")) (net_always (js "A summary."))
       (js "React is a library for building user interfaces.")
     = Ok (JStr (js "A summary."))
  /\ exists doc',
      find (fun d => N.eqb (Document.id d) 1)
        (documents
           (processDocumentWithAI (Some (js "nvapi-key")) toLowerCase_ascii
              (net_always (js "A summary.")) net_entities net_down 1
              (js "React is a library for building user interfaces.")
              (js "user-1") store_react))
      = Some doc'
      /\ Document.summary doc' = Some (JStr (js "A summary."))
      /\ Document.title doc' = js "React".
Proof.
  assert (H2 : find (fun d => N.eqb (Document.id d) 1) (documents store_react)
               = Some (sample_document 1 "React"
                         "React is a library for building user interfaces."))
    by reflexivity.
  assert (H3 : generateSummary (Some (js "nvapi-key")) (net_always (js "A summary."))
                 (js "React is a library for building user interfaces.")
               = Ok (JStr (js "A summary."))) by (vm_compute; reflexivity).
  split; [exact wf_store_react|]. split; [exact H2|]. split; [exact H3|].
  destruct (processDocumentWithAI_enriches (Some (js "nvapi-key")) toLowerCase_ascii
              (net_always (js "A summary.")) net_entities net_down 1
              (js "React is a library for building user interfaces.") (js "user-1")
              store_react _ _ wf_store_react H2 H3)
    as (typed & keyPoints & doc' & vector & _ & _ & Hfind & Hsum & _ & _ & _ & _ & _
        & _ & _ & _ & _ & _ & Htitle & _).
  exists doc'. split; [exact Hfind|]. split; [exact Hsum | exact Htitle].
Defined.

(** The theorem at an id that no document of [store_react] has. *)
Lemma processDocumentWithAI_missing_document_witness :
  find (fun d => N.eqb (Document.id d) 7) (documents store_react) = None
  /\ processDocumentWithAI (Some (js "nvapi-key")) toLowerCase_ascii
       (net_always (js "A summary.")) net_entities net_down 7
       (js "React is a library for building user interfaces.") (js "user-1")
       store_react
     = store_react.
Proof.
  assert (H : find (fun d => N.eqb (Document.id d) 7) (documents store_react) = None)
    by reflexivity.
  split; [exact H|].
  exact (processDocumentWithAI_missing_document (Some (js "nvapi-key"))
           toLowerCase_ascii (net_always (js "A summary.")) net_entities net_down 7
           (js "React is a library for building user interfaces.") (js "user-1")
           store_react H).
Defined.

(** ** [JSON.parse] reads back what [JSON.stringify] wrote *)

Lemma hex_value_hex_digit (n : N) : (n < 16)%N -> hex_value (hex_digit n) = Some n.
Proof.
  intros H. destruct n as [|p]; [reflexivity|].
  do 4 (destruct p as [p|p|]; try reflexivity); lia.
Qed.

Lemma hex_digits_value (c : N) :
  (c < 65536)%N ->
  ((c / 4096) mod 16 * 4096 + (c / 256) mod 16 * 256 + (c / 16) mod 16 * 16 + c mod 16
   = c)%N.
Proof.
  intros H. zify; Z.to_euclidean_division_equations; lia.
Qed.

Lemma parse_string_body_cons (c : N) (s acc : jsstring) :
  parse_string_body (c :: s) acc
  = if N.eqb c 34 then Some (rev acc, s)
    else if N.ltb c 32 then None
    else if N.eqb c 92 then
      match s with
      | [] => None
      | e :: s'' =>
          if N.eqb e 117 then
            match s'' with
            | h1 :: h2 :: h3 :: h4 :: rest =>
                match hex_value h1, hex_value h2, hex_value h3, hex_value h4 with
                | Some a, Some b, Some c', Some d =>
                    parse_string_body rest
                      ((a * 4096 + b * 256 + c' * 16 + d)%N :: acc)
                | _, _, _, _ => None
                end
            | _ => None
            end
          else match simple_escape e with
               | Some u => parse_string_body s'' (u :: acc)
               | None => None
               end
      end
    else parse_string_body s (c :: acc).
Proof. reflexivity. Qed.

(** The parser reads a [\uXXXX] escape back as the unit it stands for. *)
Lemma parse_unicode_escape (c : N) (rest acc : jsstring) :
  (c < 65536)%N ->
  parse_string_body (unicode_escape c ++ rest) acc = parse_string_body rest (c :: acc).
Proof.
  intros Hc. unfold unicode_escape.
  change ([92; 117; hex_digit ((c / 4096) mod 16); hex_digit ((c / 256) mod 16);
           hex_digit ((c / 16) mod 16); hex_digit (c mod 16)]%N ++ rest)
    with (92 :: 117 :: hex_digit ((c / 4096) mod 16) :: hex_digit ((c / 256) mod 16)
             :: hex_digit ((c / 16) mod 16) :: hex_digit (c mod 16) :: rest)%N.
  rewrite parse_string_body_cons.
  change (N.eqb 92 34) with false. change (N.ltb 92 32) with false.
  change (N.eqb 92 92) with true. change (N.eqb 117 117) with true. cbv iota.
  rewrite !hex_value_hex_digit by (apply N.mod_lt; discriminate).
  rewrite (hex_digits_value c Hc). reflexivity.
Qed.

(** A unit that [QuoteJSONString] writes as it is. *)
Lemma parse_plain_unit (c : N) (s acc : jsstring) :
  N.eqb c 34 = false -> N.ltb c 32 = false -> N.eqb c 92 = false ->
  parse_string_body (c :: s) acc = parse_string_body s (c :: acc).
Proof. intros H1 H2 H3. rewrite parse_string_body_cons, H1, H2, H3. reflexivity. Qed.

Lemma quote_body_cons (c : N) (s' : jsstring) :
  quote_body (c :: s')
  = if N.eqb c 8 then [92; 98]%N ++ quote_body s'
    else if N.eqb c 9 then [92; 116]%N ++ quote_body s'
    else if N.eqb c 10 then [92; 110]%N ++ quote_body s'
    else if N.eqb c 12 then [92; 102]%N ++ quote_body s'
    else if N.eqb c 13 then [92; 114]%N ++ quote_body s'
    else if N.eqb c 34 then [92; 34]%N ++ quote_body s'
    else if N.eqb c 92 then [92; 92]%N ++ quote_body s'
    else if N.ltb c 32 then unicode_escape c ++ quote_body s'
    else if is_high_surrogate c then
      match s' with
      | d :: s'' =>
          if is_low_surrogate d then c :: d :: quote_body s''
          else unicode_escape c ++ quote_body s'
      | [] => unicode_escape c
      end
    else if is_low_surrogate c then unicode_escape c ++ quote_body s'
    else c :: quote_body s'.
Proof. reflexivity. Qed.

Lemma surrogate_plain (c : N) :
  (is_high_surrogate c || is_low_surrogate c)%bool = true ->
  N.eqb c 34 = false /\ N.ltb c 32 = false /\ N.eqb c 92 = false.
Proof.
  unfold is_high_surrogate, is_low_surrogate. intros H.
  apply orb_true_iff in H as [H|H]; apply andb_true_iff in H as [H1 H2];
    apply N.leb_le in H1; apply N.leb_le in H2;
    (split; [apply N.eqb_neq; lia | split; [apply N.ltb_ge; lia | apply N.eqb_neq; lia]]).
Qed.

(** The body of a quoted string, up to its closing quote, parses back
    to the string. *)
Lemma parse_quote_body (n : nat) :
  forall s rest acc,
    length s <= n ->
    Forall (fun c => (c < 65536)%N) s ->
    parse_string_body (quote_body s ++ 34%N :: rest) acc = Some (rev acc ++ s, rest).
Proof.
  induction n as [|n IH]; intros s rest acc Hlen Hs.
  { destruct s; [|simpl in Hlen; lia]. simpl. rewrite app_nil_r. reflexivity. }
  destruct s as [|c s']; [simpl; rewrite app_nil_r; reflexivity|].
  simpl in Hlen. apply Forall_cons in Hs as [Hc Hs'].
  assert (Hnext : forall u,
             parse_string_body (quote_body s' ++ 34%N :: rest) (u :: acc)
             = Some (rev acc ++ u :: s', rest)).
  { intros u. rewrite IH by (try lia; exact Hs').
    simpl. rewrite <- app_assoc. reflexivity. }
  assert (Hescape :
            parse_string_body ((unicode_escape c ++ quote_body s') ++ 34%N :: rest) acc
            = Some (rev acc ++ c :: s', rest)).
  { rewrite <- app_assoc, (parse_unicode_escape c _ acc Hc). apply Hnext. }
  rewrite quote_body_cons.
  destruct (N.eqb_spec c 8) as [->|H8]; [apply Hnext|].
  destruct (N.eqb_spec c 9) as [->|H9]; [apply Hnext|].
  destruct (N.eqb_spec c 10) as [->|H10]; [apply Hnext|].
  destruct (N.eqb_spec c 12) as [->|H12]; [apply Hnext|].
  destruct (N.eqb_spec c 13) as [->|H13]; [apply Hnext|].
  destruct (N.eqb_spec c 34) as [->|H34]; [apply Hnext|].
  destruct (N.eqb_spec c 92) as [->|H92]; [apply Hnext|].
  destruct (N.ltb_spec c 32) as [H32|H32]; [exact Hescape|].
  assert (Hplain : forall t a,
             parse_string_body (c :: t) a = parse_string_body t (c :: a)).
  { intros t a. apply parse_plain_unit;
      [apply N.eqb_neq, H34 | apply N.ltb_ge, H32 | apply N.eqb_neq, H92]. }
  destruct (is_high_surrogate c) eqn:Hhigh.
  - destruct s' as [|d s''].
    + change (unicode_escape c ++ 34%N :: rest)
        with ((unicode_escape c) ++ 34%N :: rest).
      rewrite (parse_unicode_escape c _ acc Hc).
      rewrite parse_string_body_cons. reflexivity.
    + destruct (is_low_surrogate d) eqn:Hlow; [|exact Hescape].
      apply Forall_cons in Hs' as [Hd Hs''].
      change ((c :: d :: quote_body s'') ++ 34%N :: rest)
        with (c :: d :: (quote_body s'' ++ 34%N :: rest)).
      rewrite Hplain.
      destruct (surrogate_plain d) as (Hd1 & Hd2 & Hd3);
        [rewrite Hlow; apply orb_true_r|].
      rewrite (parse_plain_unit d _ _ Hd1 Hd2 Hd3).
      rewrite IH by (simpl in Hlen; try lia; exact Hs'').
      simpl. rewrite <- !app_assoc. reflexivity.
  - destruct (is_low_surrogate c); [exact Hescape|].
    change ((c :: quote_body s') ++ 34%N :: rest)
      with (c :: (quote_body s' ++ 34%N :: rest)).
    rewrite Hplain. apply Hnext.
Qed.

Lemma parse_quote (s rest : jsstring) :
  code_units s ->
  parse_string_body (quote_body s ++ 34%N :: rest) [] = Some (s, rest).
Proof. intros Hs. apply (parse_quote_body (length s) s rest []); [lia | exact Hs]. Qed.

(** ** The chat page reads the gateway's events *)

Lemma hex_digit_printable (n : N) : (32 <= hex_digit n)%N.
Proof. unfold hex_digit. destruct (N.ltb n 10); lia. Qed.

(** [QuoteJSONString] writes no control character, so no line feed. *)
Lemma quote_body_printable (n : nat) :
  forall s, length s <= n -> Forall (fun c => (32 <= c)%N) (quote_body s).
Proof.
  induction n as [|n IH]; intros s Hlen.
  { destruct s; [constructor | simpl in Hlen; lia]. }
  destruct s as [|c s']; [constructor|]. simpl in Hlen.
  assert (Hrest : Forall (fun c => (32 <= c)%N) (quote_body s')) by (apply IH; lia).
  assert (Hescape : Forall (fun c => (32 <= c)%N) (unicode_escape c)).
  { unfold unicode_escape.
    repeat (constructor; [first [apply hex_digit_printable | lia]|]). constructor. }
  assert (Hpair : forall a b : N,
             (32 <= a)%N -> (32 <= b)%N ->
             Forall (fun c => (32 <= c)%N) ([a; b] ++ quote_body s')).
  { intros a b Ha Hb. constructor; [exact Ha|]. constructor; [exact Hb | exact Hrest]. }
  rewrite quote_body_cons.
  destruct (N.eqb c 8); [apply Hpair; lia|].
  destruct (N.eqb c 9); [apply Hpair; lia|].
  destruct (N.eqb c 10); [apply Hpair; lia|].
  destruct (N.eqb c 12); [apply Hpair; lia|].
  destruct (N.eqb c 13); [apply Hpair; lia|].
  destruct (N.eqb c 34); [apply Hpair; lia|].
  destruct (N.eqb c 92); [apply Hpair; lia|].
  destruct (N.ltb_spec c 32) as [H32|H32]; [apply Forall_app; auto|].
  destruct (is_high_surrogate c).
  - destruct s' as [|d s'']; [exact Hescape|].
    destruct (is_low_surrogate d) eqn:Hlow; [|apply Forall_app; auto].
    constructor; [exact H32|]. constructor.
    + unfold is_low_surrogate in Hlow. apply andb_true_iff in Hlow as [Hlow _].
      apply N.leb_le in Hlow. lia.
    + apply IH. simpl in Hlen. lia.
  - destruct (is_low_surrogate c); [apply Forall_app; auto|].
    constructor; [exact H32 | exact Hrest].
Qed.

Lemma quote_body_no_line_feed (s : jsstring) : 10%N ∉ quote_body s.
Proof.
  intros H. pose proof (quote_body_printable (length s) s (le_n _)) as Hall.
  rewrite Forall_forall in Hall. specialize (Hall _ H). lia.
Qed.

(** A string that starts and ends with units that are no white space
    is its own [trim]. *)
Lemma trim_fixed (c d : N) (s : jsstring) :
  is_js_space c = false -> is_js_space d = false ->
  trim (c :: s ++ [d]) = c :: s ++ [d].
Proof.
  intros Hc Hd. unfold trim.
  rewrite (trimStart_fixed (c :: s ++ [d])) by exact Hc.
  assert (Hrev : rev (c :: s ++ [d]) = d :: rev (c :: s)).
  { change (c :: s ++ [d]) with ((c :: s) ++ [d]). apply rev_app_distr. }
  rewrite Hrev, (trimStart_fixed (d :: rev (c :: s))) by exact Hd.
  rewrite <- Hrev. apply rev_involutive.
Qed.

Lemma parse_value_string (f : nat) (s rest : jsstring) :
  code_units s ->
  parse_value (S f) (34%N :: quote_body s ++ 34%N :: rest) = Some (JStr s, rest).
Proof. intros Hs. simpl. rewrite (parse_quote s rest Hs). reflexivity. Qed.

Lemma content_payload_units (content : jsstring) :
  content_payload content
  = 123%N :: jsq "'content':'" ++ quote_body content ++ [34; 125]%N.
Proof.
  unfold content_payload, quote. simpl. rewrite <- !app_assoc. reflexivity.
Qed.

Lemma JSON_parse_content_payload (content : jsstring) :
  code_units content ->
  JSON_parse (content_payload content) = Some (JObj [(js "content", JStr content)]).
Proof.
  intros Hs. unfold JSON_parse.
  assert (Hfuel : exists f, 2 * length (content_payload content) + 2 = S (S (S f))).
  { rewrite content_payload_units. simpl length. eexists. reflexivity. }
  destruct Hfuel as [f ->].
  rewrite content_payload_units.
  simpl. rewrite (parse_quote content [125%N] Hs). reflexivity.
Qed.

Section ChatFacts.

Variable Number_toString : Z -> Z -> jsstring.

Lemma trim_content_payload (content : jsstring) :
  trim (content_payload content) = content_payload content.
Proof.
  rewrite content_payload_units.
  replace (123%N :: jsq "'content':'" ++ quote_body content ++ [34; 125]%N)
    with (123%N :: (jsq "'content':'" ++ quote_body content ++ [34%N]) ++ [125%N])
    by (rewrite <- !app_assoc; reflexivity).
  apply trim_fixed; reflexivity.
Qed.

(** What the page makes of the payload of a delta. *)
Lemma chat_data_content (st : ChatProgress) (content : jsstring) :
  code_units content ->
  chat_data Number_toString st (content_payload content) = Ok (chat_append st content).
Proof.
  intros Hs. unfold chat_data, parse_or_throw.
  rewrite (JSON_parse_content_payload content Hs).
  cbn [bind member get_named].
  assert (H1 : lookup_prop (js "content") [(js "content", JStr content)]
               = Some (JStr content)) by reflexivity.
  assert (H2 : lookup_prop (js "done") [(js "content", JStr content)] = None)
    by reflexivity.
  rewrite H1, H2. cbn [truthy_opt truthy ToString].
  unfold chat_append.
  destruct content as [|c content].
  - rewrite bool_decide_eq_true_2 by reflexivity. cbn [negb bind].
    rewrite app_nil_r. reflexivity.
  - rewrite bool_decide_eq_false_2 by discriminate. reflexivity.
Qed.

(** An event is one line, without line feed, and a blank line. *)
Lemma event_text_line (e : StreamEvent) :
  exists line,
    event_text Number_toString e = line ++ [10; 10]%N
    /\ (10%N ∉ line)
    /\ forall st,
        valid_event e ->
        chat_line Number_toString st line
        = match e with
          | Delta content => chat_append st content
          | Done => st
          end.
Proof.
  destruct e as [content|].
  - exists (js "data: " ++ content_payload content).
    split; [unfold event_text, content_event; rewrite <- app_assoc; reflexivity|].
    split.
    { rewrite content_payload_units. intros H.
      apply elem_of_app in H as [H|H];
        [repeat (apply elem_of_cons in H as [H|H]; [discriminate|]); inversion H|].
      apply elem_of_cons in H as [H|H]; [discriminate|].
      apply elem_of_app in H as [H|H];
        [repeat (apply elem_of_cons in H as [H|H]; [discriminate|]); inversion H|].
      apply elem_of_app in H as [H|H]; [exact (quote_body_no_line_feed _ H)|].
      repeat (apply elem_of_cons in H as [H|H]; [discriminate|]). inversion H. }
    intros st Hvalid. unfold chat_line.
    change (startsWith (js "data: ") (js "data: " ++ content_payload content)) with true.
    cbv iota zeta.
    change (slice_from 6 (js "data: " ++ content_payload content))
      with (content_payload content).
    rewrite trim_content_payload.
    assert (Hne : jsstring_eqb (content_payload content) (js "[DONE]") = false).
    { apply bool_decide_eq_false_2. rewrite content_payload_units. discriminate. }
    rewrite Hne, (chat_data_content st content Hvalid). reflexivity.
  - exists (js "data: [DONE]").
    split; [reflexivity|]. split.
    { intros H. repeat (apply elem_of_cons in H as [H|H]; [discriminate|]). inversion H. }
    intros st _. reflexivity.
Qed.

Lemma chat_append_nil (st : ChatProgress) : chat_append st [] = st.
Proof. destruct st. unfold chat_append. simpl. rewrite app_nil_r. reflexivity. Qed.

Lemma chat_append_app (st : ChatProgress) (a b : jsstring) :
  chat_append (chat_append st a) b = chat_append st (a ++ b).
Proof. unfold chat_append. simpl. rewrite app_assoc. reflexivity. Qed.

(** The lines of a read made of whole events. *)
Lemma chat_lines_events (group : list StreamEvent) :
  forall st,
    Forall valid_event group ->
    fold_left (chat_line Number_toString)
      (split_on 10 (concat (map (event_text Number_toString) group))) st
    = chat_append st (deltas_text group).
Proof.
  induction group as [|e group IH]; intros st Hvalid.
  - simpl. symmetry. apply chat_append_nil.
  - apply Forall_cons in Hvalid as [He Hgroup].
    destruct (event_text_line e) as (line & Htext & Hline & Hstep).
    change (concat (map (event_text Number_toString) (e :: group)))
      with (event_text Number_toString e
            ++ concat (map (event_text Number_toString) group)).
    rewrite Htext, <- app_assoc.
    change ([10; 10]%N ++ concat (map (event_text Number_toString) group))
      with (10%N :: ([] ++ 10%N :: concat (map (event_text Number_toString) group))).
    rewrite (split_on_app 10 line _ Hline).
    rewrite (split_on_app 10 [] _ (not_elem_of_nil _)).
    cbn [fold_left]. rewrite (Hstep st He).
    change (chat_line Number_toString ?s []) with s.
    rewrite (IH _ Hgroup).
    destruct e as [content|].
    + rewrite chat_append_app. reflexivity.
    + reflexivity.
Qed.

End ChatFacts.

(** X20.  The chat page decodes the framing of the streaming gateway.
    Whatever way the events the gateway enqueues (re-framed deltas and
    sentinels) are grouped into the reads of the response body, as long
    as every read holds whole events, the page ends with the text of
    the deltas, in order, appended to what it had, and with its sources
    and conversation id untouched: escaping by [JSON.stringify], the
    line framing and [JSON.parse] undo each other. *)
Theorem chat_page_reads_gateway_events (Number_toString : Z -> Z -> jsstring)
  (groups : list (list StreamEvent)) (st : ChatProgress) :
  Forall (Forall valid_event) groups ->
  chat_reads Number_toString
    (map (fun group => Chunk (concat (map (event_text Number_toString) group))) groups)
    st
  = Ok (chat_append st (deltas_text (concat groups))).
Proof.
  revert st. induction groups as [|group groups IH]; intros st Hvalid.
  - simpl. rewrite chat_append_nil. reflexivity.
  - apply Forall_cons in Hvalid as [Hgroup Hgroups].
    cbn [map chat_reads]. rewrite (chat_lines_events _ group st Hgroup).
    rewrite (IH _ Hgroups), chat_append_app.
    unfold deltas_text. cbn [concat]. rewrite map_app, concat_app. reflexivity.
Qed.

(** The theorem at two deltas that arrive in one read, followed by the
    sentinel in a read of its own. *)
Lemma chat_page_reads_gateway_events_witness :
  Forall (Forall valid_event) [[Delta (js "Hel"); Delta (js "lo")]; [Done]]
  /\ chat_reads Number_toString_integer
       [Chunk (jsq "data: {'content':'Hel'}" ++ [10; 10]%N
               ++ jsq "data: {'content':'lo'}" ++ [10; 10]%N);
        Chunk (js "data: [DONE]" ++ [10; 10]%N)]
       chat_start
     = Ok (chat_append chat_start (js "Hello")).
Proof.
  assert (H : Forall (Forall valid_event) [[Delta (js "Hel"); Delta (js "lo")]; [Done]]).
  { repeat (constructor; try reflexivity). }
  split; [exact H|].
  exact (chat_page_reads_gateway_events Number_toString_integer
           [[Delta (js "Hel"); Delta (js "lo")]; [Done]] chat_start H).
Defined.

(** *** From the provider to the page *)

Lemma delta_payload_units (content : jsstring) :
  delta_payload content
  = 123%N :: jsq "'choices':[{'delta':{'content':'" ++ quote_body content
    ++ 34%N :: js "}}]}".
Proof.
  unfold delta_payload, quote. simpl. rewrite <- !app_assoc. reflexivity.
Qed.

Lemma JSON_parse_delta_payload (content : jsstring) :
  code_units content ->
  JSON_parse (delta_payload content)
  = Some (JObj [(js "choices",
                 JArr [JObj [(js "delta", JObj [(js "content", JStr content)])]])]).
Proof.
  intros Hs. unfold JSON_parse.
  assert (Hfuel : exists f,
             2 * length (delta_payload content) + 2
             = S (S (S (S (S (S (S (S (S (S f)))))))))).
  { rewrite delta_payload_units. simpl length. eexists. reflexivity. }
  destruct Hfuel as [f ->].
  rewrite delta_payload_units.
  simpl. rewrite (parse_quote content (js "}}]}") Hs). reflexivity.
Qed.

Lemma trim_delta_payload (content : jsstring) :
  trim (delta_payload content) = delta_payload content.
Proof.
  rewrite delta_payload_units.
  replace (123%N :: jsq "'choices':[{'delta':{'content':'" ++ quote_body content
           ++ 34%N :: js "}}]}")
    with (123%N :: (jsq "'choices':[{'delta':{'content':'" ++ quote_body content
                    ++ 34%N :: js "}}]") ++ [125%N])
    by (rewrite <- !app_assoc; reflexivity).
  apply trim_fixed; reflexivity.
Qed.

Lemma delta_payload_no_line_feed (content : jsstring) : 10%N ∉ delta_payload content.
Proof.
  rewrite delta_payload_units. intros H.
  apply elem_of_cons in H as [H|H]; [discriminate|].
  apply elem_of_app in H as [H|H];
    [repeat (apply elem_of_cons in H as [H|H]; [discriminate|]); inversion H|].
  apply elem_of_app in H as [H|H]; [exact (quote_body_no_line_feed _ H)|].
  repeat (apply elem_of_cons in H as [H|H]; [discriminate|]). inversion H.
Qed.

Section EndToEnd.

Variable Number_toString : Z -> Z -> jsstring.

Local Abbreviation reframed_delta := (reframed_delta Number_toString).

Lemma lines_loop_delta (content : jsstring) :
  code_units content ->
  lines_loop Number_toString (split_on 10 (sse (delta_payload content)))
  = (reframed_delta content, false).
Proof.
  intros Hs. unfold sse.
  assert (Hline : 10%N ∉ js "data: " ++ delta_payload content).
  { intros H. apply elem_of_app in H as [H|H];
      [repeat (apply elem_of_cons in H as [H|H]; [discriminate|]); inversion H|].
    exact (delta_payload_no_line_feed _ H). }
  replace (js "data: " ++ delta_payload content ++ [10; 10]%N)
    with ((js "data: " ++ delta_payload content) ++ 10%N :: ([] ++ 10%N :: []))
    by (rewrite <- app_assoc; reflexivity).
  rewrite (split_on_app 10 _ _ Hline), (split_on_app 10 [] _ (not_elem_of_nil _)).
  rewrite lines_loop_cons.
  change (startsWith (js "data: ") (js "data: " ++ delta_payload content)) with true.
  cbv iota.
  change (slice_from 6 (js "data: " ++ delta_payload content))
    with (delta_payload content).
  rewrite trim_delta_payload.
  assert (Hne : jsstring_eqb (delta_payload content) (js "[DONE]") = false).
  { apply bool_decide_eq_false_2. rewrite delta_payload_units. discriminate. }
  rewrite Hne.
  change (lines_loop Number_toString [[]; []]) with (@nil jsstring, false).
  cbn [fst snd]. rewrite app_nil_r. f_equal.
  unfold payload_events. rewrite (JSON_parse_delta_payload content Hs).
  destruct content as [|c content]; reflexivity.
Qed.

Lemma lines_loop_sentinel :
  lines_loop Number_toString (split_on 10 (sse (js "[DONE]"))) = ([DONE_event], true).
Proof. reflexivity. Qed.

Lemma chat_reads_events (events : list StreamEvent) :
  forall st,
    Forall valid_event events ->
    chat_reads Number_toString
      (map (fun e => Chunk (event_text Number_toString e)) events) st
    = Ok (chat_append st (deltas_text events)).
Proof.
  induction events as [|e events IH]; intros st Hvalid.
  - simpl. rewrite chat_append_nil. reflexivity.
  - apply Forall_cons in Hvalid as [He Hvalid].
    cbn [map chat_reads].
    pose proof (chat_lines_events Number_toString [e] st
                  (Forall_cons_2 _ _ _ He (Forall_nil_2 _))) as Hlines.
    cbn [map concat] in Hlines. rewrite app_nil_r in Hlines.
    rewrite Hlines, (IH _ Hvalid), chat_append_app.
    unfold deltas_text. cbn [map concat]. rewrite app_nil_r. reflexivity.
Qed.

(** The events the gateway enqueues for the deltas of the provider. *)
Lemma reframed_deltas_events (deltas : list jsstring) :
  Forall code_units deltas ->
  exists events,
    Forall valid_event events
    /\ concat (map reframed_delta deltas) ++ [DONE_event]
       = map (event_text Number_toString) events
    /\ deltas_text events = concat deltas.
Proof.
  intros Hvalid. induction Hvalid as [|d deltas Hd Hvalid (events & Hev & Hq & Ht)].
  - exists [Done]. split; [repeat constructor|]. split; reflexivity.
  - destruct d as [|c d].
    + exists events. auto.
    + exists (Delta (c :: d) :: events).
      split; [constructor; [exact Hd | exact Hev]|].
      split; [cbn [map concat]; rewrite <- app_assoc, Hq; reflexivity|].
      unfold deltas_text in *. cbn [map concat]. rewrite Ht. reflexivity.
Qed.

End EndToEnd.

Section ProviderToPage.

Variable Number_toString : Z -> Z -> jsstring.

Local Abbreviation reframed_delta := (reframed_delta Number_toString).

(** What the stream emits over a provider that sends one whole event
    per read and then the sentinel. *)
Lemma stream_output_deltas (deltas : list jsstring) :
  Forall code_units deltas ->
  stream_output Number_toString
    (map (fun d => Chunk (sse (delta_payload d))) deltas ++ [Chunk (sse (js "[DONE]"))])
  = concat (map reframed_delta deltas) ++ [DONE_event].
Proof.
  intros Hvalid. induction Hvalid as [|d deltas Hd Hvalid IH].
  - reflexivity.
  - cbn [map app stream_output].
    rewrite (lines_loop_delta Number_toString d Hd), IH.
    cbn [map concat]. rewrite <- app_assoc. reflexivity.
Qed.

Lemma productive_deltas (deltas : list jsstring) :
  Forall code_units deltas ->
  Forall (fun d => d <> []) deltas ->
  Forall (fun r => exists text,
              r = Chunk text
              /\ fst (lines_loop Number_toString (split_on 10 text)) <> [])
    (map (fun d => Chunk (sse (delta_payload d))) deltas ++ [Chunk (sse (js "[DONE]"))]).
Proof.
  intros Hvalid Hne. apply Forall_app. split.
  - apply Forall_map. rewrite Forall_forall in *. intros d Hd.
    exists (sse (delta_payload d)). split; [reflexivity|].
    rewrite (lines_loop_delta Number_toString d (Hvalid d Hd)).
    specialize (Hne d Hd). destruct d; [contradiction | discriminate].
  - constructor; [|constructor].
    exists (sse (js "[DONE]")). split; [reflexivity | discriminate].
Qed.

End ProviderToPage.

(** X21.  Text streamed by the provider reaches the chat page intact.
    When the provider sends each delta, none of them empty, as one
    whole [data:] event per read and then [[DONE]], every run of the
    gateway's stream is finite and, once nothing more can happen, the
    consumer has seen the end of the stream, without error, and has
    received one re-framed event for every delta, in order, then the
    sentinel; the chat page, reading these events, ends with the deltas
    appended, in order, to the text it had. *)
Theorem provider_text_reaches_page (Number_toString : Z -> Z -> jsstring)
  (deltas : list jsstring) (st : ChatProgress) :
  Forall code_units deltas ->
  Forall (fun d => d <> []) deltas ->
  let provider :=
    map (fun d => Chunk (sse (delta_payload d))) deltas ++ [Chunk (sse (js "[DONE]"))] in
  forall schedule s,
    run_schedule Number_toString schedule (new_stream (open_stream provider)) = Some s ->
    length schedule <= 13 + 5 * length deltas
    /\ (at_rest Number_toString s ->
        ReadableStream.seen_done s = true
        /\ ReadableStream.seen_error s = None
        /\ ReadableStream.received s
           = map (fun d => content_event Number_toString (JStr d)) deltas
             ++ [DONE_event]
        /\ chat_reads Number_toString (map Chunk (ReadableStream.received s)) st
           = Ok (chat_append st (concat deltas))).
Proof.
  intros Hvalid Hne provider schedule s Hrun.
  pose proof (productive_deltas Number_toString deltas Hvalid Hne) as Hprod.
  destruct (productive_stream_outcome Number_toString provider schedule s Hprod Hrun)
    as (Hlen & _ & Hse & Hend).
  split.
  { assert (Hf : future_events Number_toString provider = S (length deltas)).
    { unfold provider. clear -Hvalid Hne.
      induction deltas as [|d deltas IH]; [reflexivity|].
      apply Forall_cons in Hvalid as [Hd Hvalid].
      apply Forall_cons in Hne as [Hd' Hne].
      cbn [map app future_events].
      rewrite (lines_loop_delta Number_toString d Hd), (IH Hvalid Hne).
      destruct d; [contradiction | reflexivity]. }
    rewrite Hf in Hlen. unfold provider in Hlen.
    rewrite length_app, length_map in Hlen. simpl in Hlen. lia. }
  intros Hrest. destruct (Hend Hrest) as [Hd Hr].
  split; [exact Hd|]. split; [exact Hse|].
  assert (Hout : ReadableStream.received s
                 = map (fun d => content_event Number_toString (JStr d)) deltas
                   ++ [DONE_event]).
  { rewrite Hr. unfold provider.
    rewrite (stream_output_deltas Number_toString deltas Hvalid). f_equal.
    clear -Hne. induction Hne as [|d deltas Hd Hne IH]; [reflexivity|].
    cbn [map concat]. rewrite IH. destruct d; [contradiction | reflexivity]. }
  split; [exact Hout|].
  rewrite Hr. unfold provider.
  rewrite (stream_output_deltas Number_toString deltas Hvalid).
  destruct (reframed_deltas_events Number_toString deltas Hvalid)
    as (events & Hev & Hq & Ht).
  rewrite Hq, map_map, (chat_reads_events Number_toString events st Hev), Ht.
  reflexivity.
Qed.

(** The theorem at a provider that streams [Hel], then [lo], for a
    consumer that reads as soon as it can. *)
Lemma provider_text_reaches_page_witness :
  Forall code_units [js "Hel"; js "lo"]
  /\ Forall (fun d => d <> []) [js "Hel"; js "lo"]
  /\ exists s,
      run_schedule Number_toString_integer
        [StartFulfilled; ConsumerRead; PullResumed; ConsumerRead; PullFulfilled;
         PullResumed; ConsumerRead; PullFulfilled; PullResumed; ConsumerRead;
         PullFulfilled]
        (new_stream (open_stream [Chunk (sse (delta_payload (js "Hel")));
                                  Chunk (sse (delta_payload (js "lo")));
                                  Chunk (sse (js "[DONE]"))]))
      = Some s
      /\ at_rest Number_toString_integer s
      /\ chat_reads Number_toString_integer (map Chunk (ReadableStream.received s))
           chat_start
         = Ok (chat_append chat_start (js "Hello")).
Proof.
  assert (H1 : Forall code_units [js "Hel"; js "lo"]).
  { repeat (constructor; try reflexivity). }
  assert (H2 : Forall (fun d : jsstring => d <> []) [js "Hel"; js "lo"]).
  { repeat (constructor; try discriminate). }
  split; [exact H1|]. split; [exact H2|].
  eexists.
  assert (Hrun : run_schedule Number_toString_integer
                   [StartFulfilled; ConsumerRead; PullResumed; ConsumerRead;
                    PullFulfilled; PullResumed; ConsumerRead; PullFulfilled;
                    PullResumed; ConsumerRead; PullFulfilled]
                   (new_stream (open_stream [Chunk (sse (delta_payload (js "Hel")));
                                             Chunk (sse (delta_payload (js "lo")));
                                             Chunk (sse (js "[DONE]"))]))
                 = Some _) by (vm_compute; reflexivity).
  split; [exact Hrun|].
  match type of Hrun with
  | _ = Some ?x => assert (Hrest : at_rest Number_toString_integer x)
  end.
  { intros []; reflexivity. }
  split; [exact Hrest|].
  destruct (provider_text_reaches_page Number_toString_integer
              [js "Hel"; js "lo"] chat_start H1 H2 _ _ Hrun) as (_ & Hend).
  destruct (Hend Hrest) as (_ & _ & _ & Hpage).
  exact Hpage.
Defined.

(** ** The vault page reads the tags the route wrote *)

Lemma quote_app (s rest : jsstring) :
  quote s ++ rest = 34%N :: quote_body s ++ 34%N :: rest.
Proof. unfold quote. simpl. rewrite <- app_assoc. reflexivity. Qed.

Lemma parse_elements_step (f : nat) (s : jsstring) (acc : list JSON) :
  parse_elements (S f) s acc
  = match parse_value f s with
    | None => None
    | Some (v, rest) =>
        match skip_ws rest with
        | c :: rest' =>
            if N.eqb c 44 then parse_elements f rest' (v :: acc)
            else if N.eqb c 93 then Some (JArr (rev (v :: acc)), rest')
            else None
        | [] => None
        end
    end.
Proof. reflexivity. Qed.

(** The items of an array of strings, up to the closing bracket. *)
Lemma parse_elements_strings (l : list jsstring) :
  forall f acc rest,
    l <> [] ->
    Forall code_units l ->
    length l < f ->
    parse_elements f (join (js ",") (map quote l) ++ 93%N :: rest) acc
    = Some (JArr (rev acc ++ map JStr l), rest).
Proof.
  induction l as [|x l IH]; intros f acc rest Hne Hvalid Hfuel; [contradiction|].
  apply Forall_cons in Hvalid as [Hx Hl].
  destruct f as [|[|f]]; simpl in Hfuel; try lia.
  rewrite parse_elements_step.
  destruct l as [|y l].
  - change (join (js ",") (map quote [x])) with (quote x).
    rewrite quote_app, (parse_value_string f x _ Hx).
    simpl. reflexivity.
  - change (join (js ",") (map quote (x :: y :: l)))
      with (quote x ++ js "," ++ join (js ",") (map quote (y :: l))).
    rewrite <- !app_assoc, quote_app, (parse_value_string f x _ Hx).
    change (js "," ++ join (js ",") (map quote (y :: l)) ++ 93%N :: rest)
      with (44%N :: (join (js ",") (map quote (y :: l)) ++ 93%N :: rest)).
    cbn [skip_ws is_json_ws N.eqb Pos.eqb orb].
    change (N.eqb 44 44) with true. cbv iota.
    rewrite IH; [|discriminate | exact Hl | simpl in *; lia].
    simpl. rewrite <- app_assoc. reflexivity.
Qed.

Lemma length_join_quote (l : list jsstring) :
  length l <= length (join (js ",") (map quote l)).
Proof.
  induction l as [|x l IH]; [simpl; lia|].
  destruct l as [|y l].
  - simpl. unfold quote. rewrite length_app. simpl. lia.
  - change (join (js ",") (map quote (x :: y :: l)))
      with (quote x ++ js "," ++ join (js ",") (map quote (y :: l))).
    rewrite !length_app. simpl in *. lia.
Qed.

(** [JSON.parse] reads an array of strings back from what
    [JSON.stringify] wrote. *)
Lemma JSON_parse_strings (Number_toString : Z -> Z -> jsstring) (l : list jsstring) :
  Forall code_units l ->
  JSON_parse (JSON_stringify Number_toString (JArr (map JStr l)))
  = Some (JArr (map JStr l)).
Proof.
  intros Hvalid.
  assert (Htext : JSON_stringify Number_toString (JArr (map JStr l))
                  = 91%N :: join (js ",") (map quote l) ++ [93%N]).
  { simpl. rewrite map_map. reflexivity. }
  rewrite Htext. destruct l as [|x l]; [reflexivity|].
  unfold JSON_parse.
  pose proof (length_join_quote (x :: l)) as Hlen.
  replace (2 * length (91%N :: join (js ",") (map quote (x :: l)) ++ [93%N]) + 2)
    with (S (2 * length (91%N :: join (js ",") (map quote (x :: l)) ++ [93%N]) + 1))
    by lia.
  assert (Hitems :
            parse_elements
              (2 * length (91%N :: join (js ",") (map quote (x :: l)) ++ [93%N]) + 1)
              (join (js ",") (map quote (x :: l)) ++ [93%N]) []
            = Some (JArr (map JStr (x :: l)), [])).
  { apply (parse_elements_strings (x :: l) _ [] []); [discriminate | exact Hvalid|].
    simpl length. rewrite length_app. simpl in *. lia. }
  revert Hitems.
  generalize (2 * length (91%N :: join (js ",") (map quote (x :: l)) ++ [93%N]) + 1).
  intros f Hitems.
  assert (Hhead : exists tail,
             join (js ",") (map quote (x :: l)) ++ [93%N] = 34%N :: tail).
  { destruct l as [|y l].
    - change (join (js ",") (map quote [x])) with (quote x).
      rewrite quote_app. eexists. reflexivity.
    - change (join (js ",") (map quote (x :: y :: l)))
        with (quote x ++ js "," ++ join (js ",") (map quote (y :: l))).
      rewrite <- app_assoc, quote_app. eexists. reflexivity. }
  destruct Hhead as [tail Hhead]. rewrite Hhead in *.
  simpl. rewrite Hitems. reflexivity.
Qed.

(** X22.  The vault page reads back the tags the route stored: for
    strings made of UTF-16 code units, [parseTags] of the column text
    that [JSON.stringify] wrote is the array of these strings, in order;
    so for a document enriched with these entity names the page shows
    the first five of them.  A column that is [null] or empty, or a
    text that does not parse, gives the empty array. *)
Theorem parseTags_round_trip (Number_toString : Z -> Z -> jsstring)
  (tags : list jsstring) :
  Forall code_units tags ->
  parseTags (Some (strings_column Number_toString tags)) = JArr (map JStr tags)
  /\ (forall summary keyPoints embedding doc,
         parseTags
           (option_map (strings_column Number_toString)
              (Document.tags (enrich summary tags keyPoints embedding doc)))
         = JArr (map JStr (take 5 tags)))
  /\ parseTags None = JArr []
  /\ parseTags (Some []) = JArr []
  /\ forall text, JSON_parse text = None -> parseTags (Some text) = JArr [].
Proof.
  intros Hvalid.
  assert (Hread : forall l,
             Forall code_units l ->
             parseTags (Some (strings_column Number_toString l)) = JArr (map JStr l)).
  { intros l Hl. unfold parseTags, strings_column.
    assert (Hsome : or_else (Some (JSON_stringify Number_toString (JArr (map JStr l))))
                      (js "[]")
                    = JSON_stringify Number_toString (JArr (map JStr l)))
      by reflexivity.
    rewrite Hsome, (JSON_parse_strings Number_toString l Hl). reflexivity. }
  split; [apply Hread, Hvalid|].
  split.
  { intros summary keyPoints embedding doc. cbn [enrich Document.tags option_map].
    apply Hread, Forall_take, Hvalid. }
  split; [reflexivity|]. split; [reflexivity|].
  intros text Hparse. unfold parseTags.
  destruct text as [|c text]; [reflexivity|].
  change (or_else (Some (c :: text)) (js "[]")) with (c :: text).
  rewrite Hparse. reflexivity.
Qed.

(** The theorem at two tags. *)
Lemma parseTags_round_trip_witness :
  Forall code_units [js "React"; js "Vue"]
  /\ parseTags (Some (jsq "['React','Vue']")) = JArr [JStr (js "React"); JStr (js "Vue")].
Proof.
  assert (H : Forall code_units [js "React"; js "Vue"]).
  { repeat (constructor; try reflexivity). }
  split; [exact H|].
  destruct (parseTags_round_trip Number_toString_integer [js "React"; js "Vue"] H)
    as (Hread & _).
  exact Hread.
Defined.

(** ** Further properties of the embedding *)

Lemma bucket_sum_perm (ws ws' : list jsstring) (b : nat) :
  Permutation ws ws' -> bucket_sum ws b = bucket_sum ws' b.
Proof.
  unfold bucket_sum. intros Hp.
  induction Hp as [|w l l' _ IH|w w' l|l l' l'' _ IH1 _ IH2]; simpl.
  - reflexivity.
  - rewrite IH. reflexivity.
  - lia.
  - congruence.
Qed.

(** X23.  The embedding is a bag of words: two texts whose lower-cased
    forms split into the same words, in whatever order, get the same
    vector. *)
Theorem generateEmbeddingSimple_word_order (toLowerCase : jsstring -> jsstring)
  (text1 text2 : jsstring) :
  Permutation (split_ws (toLowerCase text1)) (split_ws (toLowerCase text2)) ->
  generateEmbeddingSimple toLowerCase text1 = generateEmbeddingSimple toLowerCase text2.
Proof.
  intros Hp. rewrite !generateEmbeddingSimple_closed_form.
  assert (Hsums : bucket_sums toLowerCase text1 = bucket_sums toLowerCase text2).
  { unfold bucket_sums. apply map_ext. intros b.
    rewrite (bucket_sum_perm _ _ b Hp). reflexivity. }
  unfold embed_closed_form. rewrite Hsums. reflexivity.
Qed.

(** The theorem at two texts with the same two words. *)
Lemma generateEmbeddingSimple_word_order_witness :
  Permutation (split_ws (toLowerCase_ascii (js "Hello world")))
    (split_ws (toLowerCase_ascii (js "WORLD  hello")))
  /\ generateEmbeddingSimple toLowerCase_ascii (js "Hello world")
     = generateEmbeddingSimple toLowerCase_ascii (js "WORLD  hello").
Proof.
  assert (H : Permutation (split_ws (toLowerCase_ascii (js "Hello world")))
                (split_ws (toLowerCase_ascii (js "WORLD  hello")))).
  { change (Permutation [js "hello"; js "world"] [js "world"; js "hello"]).
    apply perm_swap. }
  split; [exact H|].
  exact (generateEmbeddingSimple_word_order toLowerCase_ascii _ _ H).
Defined.

Lemma square_le_squares (v : list R) (x : R) :
  x ∈ v -> (x * x <= fold_right (fun y a => (y * y + a)%R) 0%R v)%R.
Proof.
  induction v as [|y v IH]; intros H; [inversion H|].
  simpl. pose proof (squares_nonneg v) as Hv.
  apply elem_of_cons in H as [->|H].
  - lra.
  - specialize (IH H). nra.
Qed.

(** X24.  Every component of the embedding lies between 0 and 1. *)
Theorem generateEmbeddingSimple_range (toLowerCase : jsstring -> jsstring)
  (text : jsstring) :
  Forall (fun v => (0 <= v <= 1)%R) (generateEmbeddingSimple toLowerCase text).
Proof.
  rewrite generateEmbeddingSimple_closed_form. unfold embed_closed_form.
  set (v := bucket_sums toLowerCase text).
  assert (Hpos : Forall (fun x => (0 <= x)%R) v).
  { apply Forall_forall. intros x Hx.
    apply list_elem_of_In, in_map_iff in Hx as (b & <- & _). apply pos_INR. }
  destruct (Req_dec_T (euclidean_norm v) 0) as [Hz|Hnz].
  - apply norm_zero_iff in Hz. apply Forall_forall. intros x Hx.
    rewrite Forall_forall in Hz. rewrite (Hz x Hx). lra.
  - assert (Hnorm : (0 < euclidean_norm v)%R).
    { pose proof (sqrt_pos (fold_right (fun x a => (x * x + a)%R) 0%R v)) as H.
      fold (euclidean_norm v) in H. lra. }
    apply Forall_forall. intros y Hy.
    apply list_elem_of_In, in_map_iff in Hy as (x & <- & Hx).
    apply list_elem_of_In in Hx.
    rewrite Forall_forall in Hpos. specialize (Hpos x Hx).
    assert (Hle : (x <= euclidean_norm v)%R).
    { unfold euclidean_norm. rewrite <- (sqrt_square x Hpos).
      apply sqrt_le_1_alt, square_le_squares, Hx. }
    split.
    + apply Rmult_le_pos; [exact Hpos|]. apply Rlt_le, Rinv_0_lt_compat, Hnorm.
    + apply (Rmult_le_reg_r (euclidean_norm v)); [exact Hnorm|].
      unfold Rdiv. rewrite Rmult_assoc, Rinv_l by lra. lra.
Qed.
